(** * PklE parallel hash map: a shallow embedding of the sharded map, its
    paged object pool, its intrusive bucket list and its counting spin lock.

    Each module below embeds one source file of [src/custom_hashmap]:
    - [CountingSpinlock]      : spin_lock.h / spin_lock.cpp
    - [FixedSizeObjectPool]   : fixedsize_object_pool.h
    - [SimpleLinkedList]      : simple_linked_list.h
    - [PagingObjectPool]      : paging_object_pool.h
    - [HashMap]               : hash_map.h (with magic_num_util.h)

    Fixed-width integers are [Z] with the wrap-around written out.  Code
    that can dereference a null or dangling pointer, or that can spin
    without an exit, returns a [res]. *)

From Stdlib Require Import ZArith Lia Bool List.
From stdpp Require Import base option list gmap.

Local Open Scope Z_scope.

(** ** Machine words *)

Definition wrap8  (x : Z) : Z := x mod 2 ^ 8.
Definition wrap32 (x : Z) : Z := x mod 2 ^ 32.
Definition wrap64 (x : Z) : Z := x mod 2 ^ 64.

(** ** Outcomes of a call

    [Ok a]     the call returns [a];
    [Fault]    the call dereferences a null pointer or indexes outside an
               array: it has no defined return;
    [Timeout]  the call is still looping when the fuel runs out, or loops on
               a condition that no step of its own can change. *)

Inductive res (A : Type) : Type :=
| Ok (a : A)
| Fault
| Timeout.
Arguments Ok {A} a.
Arguments Fault {A}.
Arguments Timeout {A}.

Definition bind {A B : Type} (m : res A) (f : A -> res B) : res B :=
  match m with
  | Ok a => f a
  | Fault => Fault
  | Timeout => Timeout
  end.

Notation "'do' x <- m ; k" := (bind m (fun x => k))
  (at level 10, x name, m at level 100, k at level 200).
Notation "'do' ' p <- m ; k" := (bind m (fun p => k))
  (at level 10, p pattern, m at level 100, k at level 200).

Definition of_option {A : Type} (o : option A) : res A :=
  match o with
  | Some a => Ok a
  | None => Fault
  end.

Definition returns {A : Type} (m : res A) : Prop := exists a, m = Ok a.

(** ** Arrays indexed by machine integers

    [zlookup l i] is [l[i]] when [i] is inside the array. *)

Definition zlookup {A : Type} (l : list A) (i : Z) : option A :=
  if (0 <=? i) && (i <? Z.of_nat (length l)) then l !! Z.to_nat i else None.

Lemma zlookup_Some {A : Type} (l : list A) (i : Z) (x : A) :
  zlookup l i = Some x <-> 0 <= i /\ l !! Z.to_nat i = Some x.
Proof.
  unfold zlookup.
  destruct (Z.leb_spec 0 i), (Z.ltb_spec i (Z.of_nat (length l))); cbn.
  - tauto.
  - split; [discriminate |]. intros [_ Hl]. apply lookup_lt_Some in Hl. lia.
  - split; [discriminate | lia].
  - split; [discriminate | lia].
Qed.

Lemma zlookup_insert {A : Type} (l : list A) (i j : Z) (x : A) :
  0 <= i < Z.of_nat (length l) ->
  zlookup (<[Z.to_nat i := x]> l) j
  = if decide (j = i) then Some x else zlookup l j.
Proof.
  intros Hi. unfold zlookup. rewrite length_insert.
  destruct (decide (j = i)) as [-> | Hne].
  - destruct (Z.leb_spec 0 i), (Z.ltb_spec i (Z.of_nat (length l)));
      try lia. cbn. apply list_lookup_insert_eq. lia.
  - destruct ((0 <=? j) && (j <? Z.of_nat (length l))) eqn:E; [| reflexivity].
    apply andb_true_iff in E as [E1 E2].
    apply Z.leb_le in E1. apply list_lookup_insert_ne. lia.
Qed.

Lemma zlookup_nil {A : Type} (i : Z) : zlookup ([] : list A) i = None.
Proof. unfold zlookup. destruct (_ && _); reflexivity. Qed.

Lemma zlookup_lt {A : Type} (l : list A) (i : Z) (x : A) :
  zlookup l i = Some x -> 0 <= i < Z.of_nat (length l).
Proof.
  intros H. apply zlookup_Some in H as [H0 H].
  apply lookup_lt_Some in H. lia.
Qed.

(** ** atomic_util.h

    The header documents the arithmetic operations as "applied and the
    result is returned" and the bitwise ones as returning "the original
    value".  Each function returns (returned value, stored value). *)

Module AtomicUtil.

Definition AtomicIncrementU32 (value : Z) : Z * Z :=
  let r := wrap32 (value + 1) in (r, r).

Definition AtomicDecrementU32 (value : Z) : Z * Z :=
  let r := wrap32 (value - 1) in (r, r).

Definition AtomicAddU32 (value addend : Z) : Z * Z :=
  let r := wrap32 (value + addend) in (r, r).

Definition AtomicSubtractU32 (value subtrahend : Z) : Z * Z :=
  let r := wrap32 (value - subtrahend) in (r, r).

Definition AtomicOr (value mask : Z) : Z * Z := (value, Z.lor value mask).

Definition AtomicAnd (value mask : Z) : Z * Z := (value, Z.land value mask).

(** Compare-and-swap: stores [newValue] when the cell holds [comparand]. *)
Definition AtomicCompareExchange (value newValue comparand : Z) : bool * Z :=
  if value =? comparand then (true, newValue) else (false, value).

End AtomicUtil.

(** ** spin_lock.cpp *)

Module CountingSpinlock.
Import AtomicUtil.

Definition c_writeLockBit : Z := 0x80000000.
Definition c_multiReaderWriter_WriteIncrement : Z := 0x10000.
Definition c_multiReaderWriter_WriteMask : Z := 0xFFFF0000.
Definition c_multiReaderWriter_ReadMask : Z := 0x0000FFFF.

(** *** One thread inside [AcquireMultiReaderWriterWriteAccess]

    The function touches [lockValue] at three places; between two of them
    any other thread may run.  A program point records where the thread is
    and its [numRetriesLeft]. *)

Inductive pc : Type :=
| PcFetchAdd (numRetriesLeft : Z)   (* about to AtomicAddU32 *)
| PcUndo (numRetriesLeft : Z)       (* about to AtomicSubtractU32 *)
| PcSpin (numRetriesLeft : Z)       (* testing the inner while condition *)
| PcReturned.

(** The bottom of the do-while: [--numRetriesLeft; while (numRetriesLeft > 0)]. *)
Definition loop_bottom (numRetriesLeft : Z) : pc :=
  let n := wrap32 (numRetriesLeft - 1) in
  if 0 <? n then PcFetchAdd n else PcReturned.

Definition step (p : pc) (lockValue : Z) : pc * Z :=
  match p with
  | PcFetchAdd n =>
      let '(nextVal, lockValue') :=
        AtomicAddU32 lockValue c_multiReaderWriter_WriteIncrement in
      if Z.land nextVal c_multiReaderWriter_ReadMask =? 0
      then (PcReturned, lockValue')
      else (PcUndo n, lockValue')
  | PcUndo n =>
      (PcSpin n,
       snd (AtomicSubtractU32 lockValue c_multiReaderWriter_WriteIncrement))
  | PcSpin n =>
      if negb (Z.land lockValue c_multiReaderWriter_ReadMask =? 0)
      then (PcSpin n, lockValue)
      else (loop_bottom n, lockValue)
  | PcReturned => (PcReturned, lockValue)
  end.

Definition entry : pc := PcFetchAdd 0xFFFFFFFF.

(** [steps k] runs the thread for [k] of its own steps with no other thread
    scheduled in between. *)
Fixpoint steps (k : nat) (p : pc) (lockValue : Z) : pc * Z :=
  match k with
  | O => (p, lockValue)
  | S k' => let '(p', v') := step p lockValue in steps k' p' v'
  end.

Definition ReleaseMultiReaderWriterWriteAccess (lockValue : Z) : Z :=
  snd (AtomicSubtractU32 lockValue c_multiReaderWriter_WriteIncrement).

(** *** The standard discipline, run with no other thread in between

    [ScopedReadSpinLock] and [ScopedWriteSpinLock], which the map and the
    list use, call these.  In a run without other threads a wait loop whose
    condition holds on entry never ends. *)

Definition AcquireReadOnlyAccess (lockValue : Z) : res Z :=
  let '(nextVal, lockValue') := AtomicIncrementU32 lockValue in
  if Z.land nextVal c_multiReaderWriter_WriteMask =? 0
  then Ok lockValue'
  else Timeout.

Definition ReleaseReadOnlyAccess (lockValue : Z) : Z :=
  snd (AtomicDecrementU32 lockValue).

Definition AcquireReadAndWriteAccess (lockValue : Z) : res Z :=
  let '(nextVal, lockValue') :=
    AtomicAddU32 lockValue c_multiReaderWriter_WriteIncrement in
  if nextVal =? c_multiReaderWriter_WriteIncrement
  then Ok lockValue'
  else
    let '(nextVal, lockValue'') :=
      AtomicSubtractU32 lockValue' c_multiReaderWriter_WriteIncrement in
    if negb (nextVal =? 0) then Timeout
    else (* the word is zero: the next iteration succeeds *)
      Ok (snd (AtomicAddU32 lockValue'' c_multiReaderWriter_WriteIncrement)).

Definition ReleaseReadAndWriteAccess (lockValue : Z) : Z :=
  snd (AtomicSubtractU32 lockValue c_multiReaderWriter_WriteIncrement).

Definition ConvertFromReadToWriteLock (lockValue : Z) : res Z :=
  let '(nextVal, v1) :=
    AtomicAddU32 lockValue c_multiReaderWriter_WriteIncrement in
  if Z.land nextVal c_multiReaderWriter_WriteMask
     =? c_multiReaderWriter_WriteIncrement
  then
    let '(nextVal, v2) := AtomicDecrementU32 v1 in
    if nextVal =? c_multiReaderWriter_WriteIncrement
    then Ok v2
    else
      let '(nextVal, v3) :=
        AtomicSubtractU32 v2 c_multiReaderWriter_WriteIncrement in
      if negb (nextVal =? 0) then Timeout
      else AcquireReadAndWriteAccess v3
  else
    let '(_, v2) :=
      AtomicSubtractU32 v1 c_multiReaderWriter_WriteIncrement in
    let '(nextVal, v3) := AtomicDecrementU32 v2 in
    if negb (nextVal =? 0) then Timeout
    else AcquireReadAndWriteAccess v3.

(** *** Theorems *)

Lemma land_ReadMask (w : Z) :
  Z.land w c_multiReaderWriter_ReadMask = w mod 2 ^ 16.
Proof.
  unfold c_multiReaderWriter_ReadMask.
  change 0x0000FFFF with (Z.ones 16).
  apply Z.land_ones. lia.
Qed.

(** C6, as the claim states it, fails: with another writer holding the lock
    (word [0x10000], no readers) the very first step of acquire-write
    returns, leaving the word at [0x20000]; no release by the other writer
    is needed, and the resulting word is not [0x10000]. *)
Lemma acquire_write_beside_writer :
  step entry 0x10000 = (PcReturned, 0x20000) /\ 0x20000 <> 0x10000.
Proof. split; [reflexivity | discriminate]. Qed.

(** C6, amended: acquire-write adds [0x10000] to the word and returns
    exactly when the low 16 bits (the reader count) of the resulting word are
    zero, whatever the writer count; otherwise it goes on to subtract
    [0x10000] again and spins as long as the reader count is non-zero,
    then retries. *)
Theorem acquire_write_checks_readers_only (n w : Z) :
  snd (step (PcFetchAdd n) w) = wrap32 (w + 0x10000) /\
  (fst (step (PcFetchAdd n) w) = PcReturned <->
     wrap32 (w + 0x10000) mod 2 ^ 16 = 0) /\
  (fst (step (PcFetchAdd n) w) <> PcReturned ->
     fst (step (PcFetchAdd n) w) = PcUndo n) /\
  step (PcUndo n) w = (PcSpin n, wrap32 (w - 0x10000)) /\
  (w mod 2 ^ 16 <> 0 -> step (PcSpin n) w = (PcSpin n, w)) /\
  (w mod 2 ^ 16 = 0 -> step (PcSpin n) w = (loop_bottom n, w)).
Proof.
  unfold step, AtomicAddU32, AtomicSubtractU32.
  rewrite !land_ReadMask.
  change c_multiReaderWriter_WriteIncrement with 0x10000.
  destruct (Z.eqb_spec (wrap32 (w + 0x10000) mod 2 ^ 16) 0) as [E | E];
    destruct (Z.eqb_spec (w mod 2 ^ 16) 0) as [F | F];
    cbn [fst snd negb]; repeat split; try congruence; try discriminate.
Qed.

(** The writer field of a 32-bit word. *)
Lemma land_WriteMask (v : Z) :
  0 <= v < 2 ^ 32 ->
  Z.land v c_multiReaderWriter_WriteMask = 2 ^ 16 * (v / 2 ^ 16).
Proof.
  intros Hv.
  rewrite Z.mul_comm, <- Z.shiftl_mul_pow2, <- Z.shiftr_div_pow2 by lia.
  change c_multiReaderWriter_WriteMask with (Z.shiftl (Z.ones 16) 16).
  apply Z.bits_inj'. intros n Hn. rewrite Z.land_spec.
  destruct (Z_lt_dec n 16) as [Hlt | Hge].
  - rewrite !Z.shiftl_spec_low by lia. apply andb_false_r.
  - rewrite !Z.shiftl_spec_high by lia.
    rewrite Z.shiftr_spec by lia. replace (n - 16 + 16) with n by lia.
    destruct (Z_lt_dec n 32) as [Hlt | Hge32].
    + rewrite Z.ones_spec_low by lia. apply andb_true_r.
    + rewrite Z.ones_spec_high by lia. rewrite andb_false_r.
      destruct (Z.eq_dec v 0) as [-> | Hv0]; [now rewrite Z.bits_0 |].
      rewrite Z.bits_above_log2; [reflexivity | lia |].
      assert (Z.log2 v < 32) by (apply Z.log2_lt_pow2; lia). lia.
Qed.

(** X4.  The standard write lock on a 32-bit word, with no other thread
    running: [AcquireReadAndWriteAccess] returns exactly when the word is
    zero (no reader and no writer), leaving the single writer [0x10000], and
    waits otherwise; [ReleaseReadAndWriteAccess] then gives the zero word
    back. *)
Theorem write_access_exclusive (w : Z) :
  0 <= w < 2 ^ 32 ->
  AcquireReadAndWriteAccess w = (if w =? 0 then Ok 0x10000 else Timeout) /\
  ReleaseReadAndWriteAccess 0x10000 = 0.
Proof.
  intros Hw. split; [| reflexivity].
  unfold AcquireReadAndWriteAccess, AtomicAddU32, AtomicSubtractU32, wrap32.
  change c_multiReaderWriter_WriteIncrement with 65536.
  destruct (Z.eqb_spec w 0) as [-> | Hne]; [reflexivity |].
  destruct (Z.eqb_spec ((w + 65536) mod 2 ^ 32) 65536) as [E | _].
  - exfalso. revert E. Z.div_mod_to_equations. lia.
  - destruct (Z.eqb_spec (((w + 65536) mod 2 ^ 32 - 65536) mod 2 ^ 32) 0)
      as [E | _]; [| reflexivity].
    exfalso. revert E. Z.div_mod_to_equations. lia.
Qed.

Lemma write_access_exclusive_witness :
  0 <= 3 < 2 ^ 32 /\
  AcquireReadAndWriteAccess 3 = Timeout /\
  AcquireReadAndWriteAccess 0 = Ok 0x10000.
Proof.
  split; [lia |].
  split; [apply (write_access_exclusive 3); lia
         | apply (write_access_exclusive 0); lia].
Defined.

(** X5.  The standard read lock on a 32-bit word, with no other thread
    running: [AcquireReadOnlyAccess] increments the word modulo [2 ^ 32]
    and returns exactly when the incremented word has an empty writer
    field.  That is the case when no writer holds the word and fewer than
    65535 readers do, and also on the full word [0xFFFFFFFF], whose
    increment wraps to zero although its writer field is full; on every
    other word the call waits.  [ReleaseReadOnlyAccess] undoes the
    increment. *)
Theorem read_access_counts (w : Z) :
  0 <= w < 2 ^ 32 ->
  AcquireReadOnlyAccess w
  = (if (w <? 0xFFFF) || (w =? 0xFFFFFFFF) then Ok (wrap32 (w + 1))
     else Timeout) /\
  ((w <? 0xFFFF) = true <-> w / 2 ^ 16 = 0 /\ w mod 2 ^ 16 < 0xFFFF) /\
  wrap32 (0xFFFFFFFF + 1) = 0 /\
  ReleaseReadOnlyAccess (wrap32 (w + 1)) = w.
Proof.
  intros Hw. split; [| split; [| split; [reflexivity |]]].
  - unfold AcquireReadOnlyAccess, AtomicIncrementU32.
    destruct (Z.eqb_spec w 0xFFFFFFFF) as [-> | Hne]; [reflexivity |].
    rewrite orb_false_r. unfold wrap32.
    rewrite (Z.mod_small (w + 1)) by lia.
    rewrite land_WriteMask by lia.
    destruct (Z.ltb_spec w 65535) as [Hlt | Hge].
    + rewrite Z.div_small by lia. reflexivity.
    + destruct (Z.eqb_spec (2 ^ 16 * ((w + 1) / 2 ^ 16)) 0) as [E | _];
        [| reflexivity].
      exfalso. revert E. Z.div_mod_to_equations. lia.
  - rewrite Z.ltb_lt. Z.div_mod_to_equations. lia.
  - unfold ReleaseReadOnlyAccess, AtomicDecrementU32, wrap32. cbn [snd].
    destruct (Z.eq_dec w 0xFFFFFFFF) as [-> | Hne]; [reflexivity |].
    rewrite (Z.mod_small (w + 1)) by lia.
    replace (w + 1 - 1) with w by lia. apply Z.mod_small. lia.
Qed.

Lemma read_access_counts_witness :
  AcquireReadOnlyAccess 2 = Ok 3 /\
  AcquireReadOnlyAccess 0xFFFF = Timeout /\
  AcquireReadOnlyAccess 0x10000 = Timeout /\
  AcquireReadOnlyAccess 0xFFFFFFFF = Ok 0 /\
  ReleaseReadOnlyAccess 0 = 0xFFFFFFFF.
Proof.
  split; [apply (read_access_counts 2); lia |].
  split; [apply (read_access_counts 0xFFFF); lia |].
  split; [apply (read_access_counts 0x10000); lia |].
  split; [apply (read_access_counts 0xFFFFFFFF); lia |].
  apply (read_access_counts 0xFFFFFFFF). lia.
Defined.

(** X6.  [ConvertFromReadToWriteLock] on a 32-bit word, with no other
    thread running: the sole reader of a word without writers becomes its
    single writer; on every other word the call waits. *)
Theorem convert_sole_reader (w : Z) :
  0 <= w < 2 ^ 32 ->
  ConvertFromReadToWriteLock w = (if w =? 1 then Ok 0x10000 else Timeout).
Proof.
  intros Hw.
  unfold ConvertFromReadToWriteLock, AtomicAddU32, AtomicSubtractU32,
    AtomicDecrementU32.
  change c_multiReaderWriter_WriteIncrement with 65536.
  destruct (Z.eqb_spec w 1) as [-> | Hne]; [reflexivity |].
  assert (H1 : 0 <= wrap32 (w + 65536) < 2 ^ 32)
    by (apply Z.mod_pos_bound; lia).
  rewrite land_WriteMask by exact H1.
  destruct (Z.eqb_spec (2 ^ 16 * (wrap32 (w + 65536) / 2 ^ 16)) 65536)
    as [E | NE].
  - destruct (Z.eqb_spec (wrap32 (wrap32 (w + 65536) - 1)) 65536) as [F | _].
    + exfalso. revert E F. unfold wrap32. Z.div_mod_to_equations. lia.
    + destruct (Z.eqb_spec
                  (wrap32 (wrap32 (wrap32 (w + 65536) - 1) - 65536)) 0)
        as [G | _]; [| reflexivity].
      exfalso. revert E G. unfold wrap32. Z.div_mod_to_equations. lia.
  - destruct (Z.eqb_spec
                (wrap32 (wrap32 (wrap32 (w + 65536) - 65536) - 1)) 0)
      as [G | _]; [| reflexivity].
    exfalso. revert NE G. unfold wrap32. Z.div_mod_to_equations. lia.
Qed.

Lemma convert_sole_reader_witness :
  0 <= 2 < 2 ^ 32 /\ ConvertFromReadToWriteLock 2 = Timeout /\
  ConvertFromReadToWriteLock 1 = Ok 0x10000.
Proof.
  split; [lia |].
  split; [apply (convert_sole_reader 2); lia
         | apply (convert_sole_reader 1); lia].
Defined.

End CountingSpinlock.

(** ** fixedsize_object_pool.h

    [Size_T] slots of raw storage, a bitmap of allocated slots, the number
    of allocated slots and a rotating probe index.

    [sized_byte_type.h] is not part of the sources: the width of [ByteType]
    ([c_bitIndexSize] bits) is a parameter, and so is [sizeof(Node)].
    [IndexType] is wide enough for [0 .. Size_T] and its arithmetic stays in
    that range.

    A pointer into a pool is a byte offset from the address of [nodes]: the
    pointer [p] stands for the address [p] minus the address of [nodes],
    negative when [p] lies below the array (as the null pointer does). *)

Module FixedSizeObjectPool.
Import AtomicUtil.

Section Pool.

Context {T : Type}.
Variable Size_T : Z.
Variable c_bitIndexSize : Z.
Variable sizeofNode : Z.

Record pool : Type := mkPool {
  nodes : list (option T);
  numAllocated : Z;
  bAllocatedBits : list Z;
  cachedIteratorIndex : Z
}.

Definition c_InvalidIndex : Z := Size_T.
Definition c_maxNumNodes : Z := Size_T.

(** [while (val > 1) { val >>= 1; ++log2; }] on a [uint8_t]. *)
Fixpoint Log2_loop (fuel : nat) (val log2 : Z) : Z :=
  match fuel with
  | O => log2
  | S fuel' =>
      if 1 <? val then Log2_loop fuel' (Z.shiftr val 1) (log2 + 1) else log2
  end.

Definition Log2BitIndexSize : Z := Log2_loop 8 c_bitIndexSize 0.
Definition c_bitIndexSizeLog2 : Z := Log2BitIndexSize.

Definition FastDivBitIndexSize (value : Z) : Z :=
  Z.shiftr value c_bitIndexSizeLog2.

Definition FastModBitIndexSize (value : Z) : Z :=
  Z.land value (c_bitIndexSize - 1).

Definition c_sizeIsMultipleOfBitIndex : bool :=
  c_maxNumNodes mod c_bitIndexSize =? 0.

Definition c_numBytesAllocatedBits : Z :=
  FastDivBitIndexSize c_maxNumNodes
  + (if c_sizeIsMultipleOfBitIndex then 0 else 1).

Definition wrapByte (x : Z) : Z := x mod 2 ^ c_bitIndexSize.

(** The default-constructed pool. *)
Definition empty : pool :=
  {| nodes := replicate (Z.to_nat c_maxNumNodes) None;
     numAllocated := 0;
     bAllocatedBits := replicate (Z.to_nat c_numBytesAllocatedBits) 0;
     cachedIteratorIndex := 0 |}.

Definition byteAt (p : pool) (byteIndex : Z) : Z :=
  bAllocatedBits p !!! Z.to_nat byteIndex.

Definition set_byteAt (p : pool) (byteIndex : Z) (b : Z) : pool :=
  {| nodes := nodes p;
     numAllocated := numAllocated p;
     bAllocatedBits := <[Z.to_nat byteIndex := b]> (bAllocatedBits p);
     cachedIteratorIndex := cachedIteratorIndex p |}.

Definition GetIndex (pData : Z) : Z :=
  if 0 <=? pData then
    let ptrDiff := pData in
    let nodeIndex := ptrDiff / sizeofNode in
    let remainder := ptrDiff mod sizeofNode in
    if (nodeIndex <? c_maxNumNodes) && (remainder =? 0)
    then nodeIndex
    else c_InvalidIndex
  else c_InvalidIndex.

(** Address of slot [index], as an offset from [nodes]. *)
Definition slot_ptr (index : Z) : Z := index * sizeofNode.

Definition IsFull (p : pool) : bool := numAllocated p =? c_maxNumNodes.

Definition IsAllocated (p : pool) (nodeIndex : Z) : bool :=
  if negb (nodeIndex =? c_InvalidIndex) then
    let byteIndex := FastDivBitIndexSize nodeIndex in
    let bitIndex := FastModBitIndexSize nodeIndex in
    let byte := byteAt p byteIndex in
    let mask := wrapByte (Z.shiftl 1 bitIndex) in
    negb (Z.land byte mask =? 0)
  else false.

Definition SetAllocated (p : pool) (nodeIndex : Z) : bool * pool :=
  if nodeIndex <? c_maxNumNodes then
    let byteIndex := FastDivBitIndexSize nodeIndex in
    let bitIndex := FastModBitIndexSize nodeIndex in
    let mask := wrapByte (Z.shiftl 1 bitIndex) in
    let '(prevValue, byte') := AtomicOr (byteAt p byteIndex) mask in
    (Z.land prevValue mask =? 0, set_byteAt p byteIndex byte')
  else (false, p).

Definition SetDeallocated (p : pool) (nodeIndex : Z) : bool * pool :=
  if nodeIndex <? c_maxNumNodes then
    let byteIndex := FastDivBitIndexSize nodeIndex in
    let bitIndex := FastModBitIndexSize nodeIndex in
    let mask := wrapByte (Z.lnot (Z.shiftl 1 bitIndex)) in
    let '(prevVal, byte') := AtomicAnd (byteAt p byteIndex) mask in
    (negb (Z.land prevVal (Z.lnot mask) =? 0), set_byteAt p byteIndex byte')
  else (false, p).

Definition LookupByIndex (p : pool) (index : Z) : option T :=
  if negb (index =? c_InvalidIndex) then
    if index <? c_maxNumNodes then
      if IsAllocated p index then mjoin (nodes p !! Z.to_nat index) else None
    else None
  else None.

(** [Util::Construct] into slot [index] and [Util::Destroy] of it. *)
Definition construct (p : pool) (index : Z) (x : T) : pool :=
  {| nodes := <[Z.to_nat index := Some x]> (nodes p);
     numAllocated := numAllocated p;
     bAllocatedBits := bAllocatedBits p;
     cachedIteratorIndex := cachedIteratorIndex p |}.

Definition destroy (p : pool) (index : Z) : pool :=
  {| nodes := <[Z.to_nat index := None]> (nodes p);
     numAllocated := numAllocated p;
     bAllocatedBits := bAllocatedBits p;
     cachedIteratorIndex := cachedIteratorIndex p |}.

Definition set_numAllocated (p : pool) (n : Z) : pool :=
  {| nodes := nodes p;
     numAllocated := n;
     bAllocatedBits := bAllocatedBits p;
     cachedIteratorIndex := cachedIteratorIndex p |}.

Definition set_cachedIteratorIndex (p : pool) (n : Z) : pool :=
  {| nodes := nodes p;
     numAllocated := numAllocated p;
     bAllocatedBits := bAllocatedBits p;
     cachedIteratorIndex := n |}.

(** The [for] loop of [Reserve]; [fuel] counts the iterations left, of
    [c_maxNumNodes] in all.  The result is the reserved slot's pointer, or
    [None] for [nullptr]. *)
Fixpoint Reserve_loop (fuel : nat) (currentIndex : Z) (x : T) (p : pool)
  : option Z * pool :=
  match fuel with
  | O => (None, p)
  | S fuel' =>
      let currentIndex :=
        if c_maxNumNodes <=? currentIndex then 0 else currentIndex in
      if c_maxNumNodes <=? numAllocated p then (None, p)
      else if negb (IsAllocated p currentIndex) then
        let '(bAllocated, p1) := SetAllocated p currentIndex in
        if bAllocated then
          let p2 := set_cachedIteratorIndex p1 (currentIndex + 1) in
          let p3 := construct p2 currentIndex x in
          let p4 := set_numAllocated p3 (numAllocated p3 + 1) in
          (Some (slot_ptr currentIndex), p4)
        else Reserve_loop fuel' (currentIndex + 1) x p1
      else Reserve_loop fuel' (currentIndex + 1) x p
  end.

Definition Reserve (x : T) (p : pool) : option Z * pool :=
  Reserve_loop (Z.to_nat c_maxNumNodes) (cachedIteratorIndex p) x p.

Definition Release (pData : Z) (p : pool) : bool * pool :=
  let nodeIndex := GetIndex pData in
  if nodeIndex <? c_maxNumNodes then
    if IsAllocated p nodeIndex then
      let p1 := destroy p nodeIndex in
      let '(bDeallocated, p2) := SetDeallocated p1 nodeIndex in
      if bDeallocated
      then (true, set_numAllocated p2 (numAllocated p2 - 1))
      else (false, p2)
    else (false, p)
  else (false, p).

(** Reading through a pointer: the object constructed in the slot the
    pointer addresses, if any. *)
Definition deref (p : pool) (pData : Z) : option T :=
  let nodeIndex := GetIndex pData in
  if nodeIndex <? c_maxNumNodes
  then mjoin (nodes p !! Z.to_nat nodeIndex)
  else None.

(** Writing through a pointer to a constructed object. *)
Definition assign (p : pool) (pData : Z) (x : T) : pool :=
  let nodeIndex := GetIndex pData in
  if nodeIndex <? c_maxNumNodes
  then construct p nodeIndex x
  else p.

(** [pData] addresses a slot of the array, at the slot's first byte. *)
Definition PtrIsSlot (pData : Z) : Prop :=
  0 <= pData < c_maxNumNodes * sizeofNode /\ pData mod sizeofNode = 0.

(** The allocation bit of slot [i], read off the bitmap. *)
Definition bit_of (p : pool) (i : Z) : bool :=
  Z.testbit (byteAt p (i / c_bitIndexSize)) (i mod c_bitIndexSize).

(** *** Theorems *)

Lemma classic_slot (pData : Z) : PtrIsSlot pData \/ ~ PtrIsSlot pData.
Proof.
  unfold PtrIsSlot.
  destruct (Z_le_dec 0 pData); [| right; lia].
  destruct (Z_lt_dec pData (c_maxNumNodes * sizeofNode)); [| right; lia].
  destruct (Z.eq_dec (pData mod sizeofNode) 0); [left | right]; lia.
Qed.

Lemma land_pow2_testbit (a b : Z) :
  0 <= b -> (Z.land a (2 ^ b) =? 0) = negb (Z.testbit a b).
Proof.
  intros Hb.
  destruct (Z.testbit a b) eqn:E; cbn [negb].
  - apply Z.eqb_neq. intros H.
    apply (f_equal (fun z => Z.testbit z b)) in H.
    rewrite Z.land_spec, E, Z.pow2_bits_true, Z.bits_0 in H by lia.
    discriminate.
  - apply Z.eqb_eq. apply Z.bits_inj'. intros n Hn.
    rewrite Z.land_spec, Z.bits_0.
    destruct (Z.eq_dec n b) as [-> | Hne].
    + rewrite E. reflexivity.
    + rewrite Z.pow2_bits_false by lia. apply andb_false_r.
Qed.

Lemma Log2_loop_ge (fuel : nat) : forall val log2,
  log2 <= Log2_loop fuel val log2.
Proof.
  induction fuel as [| fuel IH]; cbn [Log2_loop]; intros val log2; [lia |].
  destruct (1 <? val); [| lia].
  specialize (IH (Z.shiftr val 1) (log2 + 1)). lia.
Qed.

Lemma c_bitIndexSizeLog2_nonneg : 0 <= c_bitIndexSizeLog2.
Proof. apply (Log2_loop_ge 8 c_bitIndexSize 0). Qed.

Section Facts.

Hypothesis sizeofNode_pos : 0 < sizeofNode.
Hypothesis c_bitIndexSize_pow2 : c_bitIndexSize = 2 ^ c_bitIndexSizeLog2.

Lemma c_bitIndexSize_pos : 0 < c_bitIndexSize.
Proof.
  rewrite c_bitIndexSize_pow2.
  apply Z.pow_pos_nonneg; [lia | apply c_bitIndexSizeLog2_nonneg].
Qed.

Lemma FastDivBitIndexSize_div (v : Z) :
  FastDivBitIndexSize v = v / c_bitIndexSize.
Proof.
  unfold FastDivBitIndexSize.
  rewrite Z.shiftr_div_pow2 by apply c_bitIndexSizeLog2_nonneg.
  now rewrite <- c_bitIndexSize_pow2.
Qed.

Lemma FastModBitIndexSize_mod (v : Z) :
  FastModBitIndexSize v = v mod c_bitIndexSize.
Proof.
  unfold FastModBitIndexSize.
  replace (c_bitIndexSize - 1) with (Z.ones c_bitIndexSizeLog2)
    by (rewrite Z.ones_equiv, c_bitIndexSize_pow2 at 1; lia).
  rewrite Z.land_ones by apply c_bitIndexSizeLog2_nonneg.
  now rewrite <- c_bitIndexSize_pow2.
Qed.

(** The mask of bit [b] of a [ByteType] is [2 ^ b]. *)
Lemma bit_mask (b : Z) :
  0 <= b < c_bitIndexSize -> wrapByte (Z.shiftl 1 b) = 2 ^ b.
Proof.
  intros Hb. unfold wrapByte.
  rewrite Z.shiftl_1_l.
  apply Z.mod_small. split; [apply Z.pow_nonneg; lia |].
  apply Z.pow_lt_mono_r; lia.
Qed.

Lemma IsAllocated_bit_of (p : pool) (i : Z) :
  i <> c_InvalidIndex -> IsAllocated p i = bit_of p i.
Proof.
  intros Hi. unfold IsAllocated, bit_of.
  destruct (Z.eqb_spec i c_InvalidIndex) as [| _]; [contradiction |].
  cbn [negb].
  rewrite FastDivBitIndexSize_div, FastModBitIndexSize_mod.
  pose proof c_bitIndexSize_pos as Hpos.
  pose proof (Z.mod_pos_bound i c_bitIndexSize Hpos) as Hm.
  rewrite bit_mask by exact Hm.
  rewrite land_pow2_testbit by lia.
  apply negb_involutive.
Qed.

Lemma GetIndex_slot (pData : Z) :
  PtrIsSlot pData -> GetIndex pData = pData / sizeofNode /\
                     0 <= pData / sizeofNode < c_maxNumNodes.
Proof.
  intros [[H0 H1] Hr]. unfold GetIndex.
  assert (Hq : 0 <= pData / sizeofNode < c_maxNumNodes).
  { split; [apply Z.div_pos; lia |].
    apply Z.div_lt_upper_bound; lia. }
  destruct (Z.leb_spec 0 pData); [| lia].
  destruct (Z.ltb_spec (pData / sizeofNode) c_maxNumNodes); [| lia].
  rewrite Hr. cbn. split; [reflexivity | exact Hq].
Qed.

Lemma GetIndex_not_slot (pData : Z) :
  ~ PtrIsSlot pData -> GetIndex pData = c_InvalidIndex.
Proof.
  intros Hn. unfold GetIndex.
  destruct (Z.leb_spec 0 pData) as [H0 |]; [| reflexivity].
  destruct (Z.ltb_spec (pData / sizeofNode) c_maxNumNodes) as [Hlt |];
    [| reflexivity].
  destruct (Z.eqb_spec (pData mod sizeofNode) 0) as [Hr |]; [| reflexivity].
  exfalso. apply Hn. unfold PtrIsSlot. repeat split; try assumption.
  pose proof (Z.div_mod pData sizeofNode ltac:(lia)) as Hdm.
  rewrite Hr in Hdm. nia.
Qed.

(** C9.  [Release] of a pointer that does not address a slot of the pool's
    array at the slot's first byte, or that addresses a slot whose allocation
    bit is clear, returns [false] and leaves the whole pool as it was: no
    object is destroyed, the bitmap and the allocated count are unchanged. *)
Theorem Release_rejects (p : pool) (pData : Z) :
  ~ PtrIsSlot pData \/ bit_of p (pData / sizeofNode) = false ->
  Release pData p = (false, p).
Proof.
  intros H. unfold Release.
  destruct (classic_slot pData) as [Hs | Hs].
  - destruct H as [H | H]; [contradiction |].
    destruct (GetIndex_slot pData Hs) as [-> Hr].
    destruct (Z.ltb_spec (pData / sizeofNode) c_maxNumNodes); [| lia].
    rewrite IsAllocated_bit_of, H by (unfold c_InvalidIndex, c_maxNumNodes in *; lia).
    reflexivity.
  - rewrite (GetIndex_not_slot pData Hs).
    unfold c_InvalidIndex, c_maxNumNodes.
    rewrite Z.ltb_irrefl. reflexivity.
Qed.

(** *** The pool at rest

    Both lists have their declared lengths, and a slot whose allocation bit
    is clear holds no object. *)

Definition pool_wf (p : pool) : Prop :=
  length (nodes p) = Z.to_nat c_maxNumNodes /\
  length (bAllocatedBits p) = Z.to_nat c_numBytesAllocatedBits /\
  forall i, 0 <= i < c_maxNumNodes ->
    bit_of p i = false -> nodes p !! Z.to_nat i = Some None.

Hypothesis Size_T_pos : 0 < Size_T.
Hypothesis Size_T_multiple : Size_T mod c_bitIndexSize = 0.

Lemma c_numBytesAllocatedBits_div :
  c_numBytesAllocatedBits = c_maxNumNodes / c_bitIndexSize.
Proof.
  unfold c_numBytesAllocatedBits, c_sizeIsMultipleOfBitIndex, c_maxNumNodes.
  rewrite FastDivBitIndexSize_div, Size_T_multiple. cbn. lia.
Qed.

Lemma byte_index_in_range (i : Z) :
  0 <= i < c_maxNumNodes ->
  0 <= i / c_bitIndexSize < c_numBytesAllocatedBits.
Proof.
  intros Hi. pose proof c_bitIndexSize_pos as HB.
  rewrite c_numBytesAllocatedBits_div. unfold c_maxNumNodes in *.
  split; [apply Z.div_pos; lia |].
  apply Z.div_lt_upper_bound; [lia |].
  pose proof (Z.div_mod Size_T c_bitIndexSize ltac:(lia)) as E.
  rewrite Size_T_multiple in E. lia.
Qed.

Lemma empty_pool_wf : pool_wf empty.
Proof.
  unfold pool_wf, empty. cbn [nodes bAllocatedBits].
  rewrite !length_replicate. repeat split.
  intros i Hi _. apply lookup_replicate_2. lia.
Qed.

Lemma bit_of_empty (i : Z) : 0 <= i < c_maxNumNodes -> bit_of empty i = false.
Proof.
  intros Hi. unfold bit_of, byteAt, empty. cbn [bAllocatedBits].
  pose proof (byte_index_in_range i Hi).
  rewrite lookup_total_replicate_2 by lia. apply Z.bits_0.
Qed.

Lemma bit_of_set_byteAt (p : pool) (i j b : Z) :
  length (bAllocatedBits p) = Z.to_nat c_numBytesAllocatedBits ->
  0 <= i < c_maxNumNodes -> 0 <= j ->
  bit_of (set_byteAt p (i / c_bitIndexSize) b) j
  = if decide (j / c_bitIndexSize = i / c_bitIndexSize)
    then Z.testbit b (j mod c_bitIndexSize)
    else bit_of p j.
Proof.
  intros Hlen Hi Hj. unfold bit_of, byteAt, set_byteAt. cbn [bAllocatedBits].
  pose proof (byte_index_in_range i Hi) as Hr.
  pose proof c_bitIndexSize_pos as HB.
  assert (0 <= j / c_bitIndexSize) by (apply Z.div_pos; lia).
  destruct (decide (j / c_bitIndexSize = i / c_bitIndexSize)) as [-> | Hne].
  - rewrite list_lookup_total_insert_eq by lia. reflexivity.
  - rewrite list_lookup_total_insert_ne by lia. reflexivity.
Qed.

Lemma div_mod_eq (i j : Z) :
  j / c_bitIndexSize = i / c_bitIndexSize ->
  j mod c_bitIndexSize = i mod c_bitIndexSize -> j = i.
Proof.
  intros Hd Hm. pose proof c_bitIndexSize_pos as HB.
  rewrite (Z.div_mod j c_bitIndexSize), (Z.div_mod i c_bitIndexSize) by lia.
  congruence.
Qed.

(** Taking a free slot: the flag is [true], the slot's bit is set, no other
    bit and no slot changes. *)
Lemma SetAllocated_free (p : pool) (i : Z) :
  length (bAllocatedBits p) = Z.to_nat c_numBytesAllocatedBits ->
  0 <= i < c_maxNumNodes -> bit_of p i = false ->
  exists p', SetAllocated p i = (true, p') /\
    nodes p' = nodes p /\ numAllocated p' = numAllocated p /\
    cachedIteratorIndex p' = cachedIteratorIndex p /\
    length (bAllocatedBits p') = length (bAllocatedBits p) /\
    bit_of p' i = true /\
    forall j, 0 <= j -> j <> i -> bit_of p' j = bit_of p j.
Proof.
  intros Hlen Hi Hbit. unfold SetAllocated.
  destruct (Z.ltb_spec i c_maxNumNodes); [| lia].
  rewrite FastDivBitIndexSize_div, FastModBitIndexSize_mod.
  pose proof c_bitIndexSize_pos as HB.
  pose proof (Z.mod_pos_bound i c_bitIndexSize HB) as Hm.
  rewrite bit_mask by exact Hm. unfold AtomicOr.
  rewrite land_pow2_testbit by lia.
  change (Z.testbit (byteAt p (i / c_bitIndexSize)) (i mod c_bitIndexSize))
    with (bit_of p i).
  rewrite Hbit. cbn [negb].
  eexists. split; [reflexivity |].
  repeat split.
  - cbn. apply length_insert.
  - rewrite bit_of_set_byteAt by (assumption || lia).
    destruct (decide (i / c_bitIndexSize = i / c_bitIndexSize)); [| congruence].
    rewrite Z.lor_spec, Z.pow2_bits_true by lia. apply orb_true_r.
  - intros j Hj Hne.
    rewrite bit_of_set_byteAt by (assumption || lia).
    destruct (decide (j / c_bitIndexSize = i / c_bitIndexSize)) as [Hd |];
      [| reflexivity].
    rewrite Z.lor_spec. unfold bit_of. rewrite Hd.
    rewrite Z.pow2_bits_false; [apply orb_false_r |].
    intros Hm'. apply Hne. apply div_mod_eq; congruence.
Qed.

(** What [Reserve] returns: either no slot and the pool as it was, or the
    pointer to a slot that was free, which now holds the object. *)
Definition reserved (p p' : pool) (x : T) (i : Z) : Prop :=
  0 <= i < c_maxNumNodes /\
  bit_of p i = false /\
  nodes p' = <[Z.to_nat i := Some x]> (nodes p) /\
  bit_of p' i = true /\
  (forall j, 0 <= j -> j <> i -> bit_of p' j = bit_of p j) /\
  length (bAllocatedBits p') = length (bAllocatedBits p) /\
  cachedIteratorIndex p' = i + 1.

Lemma Reserve_loop_spec (x : T) (fuel : nat) :
  forall currentIndex p,
    length (bAllocatedBits p) = Z.to_nat c_numBytesAllocatedBits ->
    0 <= currentIndex ->
    match Reserve_loop fuel currentIndex x p with
    | (None, p') => p' = p
    | (Some off, p') => exists i, off = slot_ptr i /\ reserved p p' x i
    end.
Proof.
  induction fuel as [| fuel IH]; intros currentIndex p Hlen Hc;
    cbn [Reserve_loop]; [reflexivity |].
  set (ci := if c_maxNumNodes <=? currentIndex then 0 else currentIndex).
  assert (Hci : 0 <= ci < c_maxNumNodes).
  { unfold ci, c_maxNumNodes.
    destruct (Z.leb_spec Size_T currentIndex); lia. }
  destruct (c_maxNumNodes <=? numAllocated p); [reflexivity |].
  rewrite IsAllocated_bit_of by (unfold c_InvalidIndex, c_maxNumNodes in *; lia).
  destruct (bit_of p ci) eqn:Hbit; cbn [negb].
  - apply IH; [exact Hlen | lia].
  - destruct (SetAllocated_free p ci Hlen Hci Hbit)
      as (p' & -> & Hn & Hna & Hcache & Hl & Hb & Hothers).
    exists ci. split; [reflexivity |].
    unfold reserved. cbn. rewrite Hn. repeat split; try assumption; try lia.
Qed.

Lemma Reserve_slot_spec (x : T) (p : pool) :
  pool_wf p -> 0 <= cachedIteratorIndex p ->
  match Reserve x p with
  | (None, p') => p' = p
  | (Some off, p') =>
      exists i, off = slot_ptr i /\ reserved p p' x i /\ pool_wf p' /\
                0 <= cachedIteratorIndex p'
  end.
Proof.
  intros (Hn & Hb & Hfree) Hc. unfold Reserve.
  pose proof (Reserve_loop_spec x (Z.to_nat c_maxNumNodes)
                (cachedIteratorIndex p) p Hb Hc) as H.
  destruct (Reserve_loop _ _ x p) as [[off |] p'] eqn:E; [| exact H].
  destruct H as (i & -> & Hr). exists i. split; [reflexivity |].
  split; [exact Hr |].
  destruct Hr as (Hi & Hbit & Hnodes & Hbi & Hothers & Hlen & Hcache).
  split; [| lia].
  unfold pool_wf. rewrite Hnodes, length_insert, Hlen. repeat split; try assumption.
  intros j Hj Hbj.
  destruct (Z.eq_dec j i) as [-> | Hne]; [congruence |].
  rewrite list_lookup_insert_ne by lia.
  apply Hfree; [exact Hj |]. rewrite <- Hothers by lia. exact Hbj.
Qed.

(** A freshly constructed pool hands out its first slot. *)
Lemma Reserve_empty (x : T) :
  exists p', Reserve x empty = (Some (slot_ptr 0), p') /\
             reserved empty p' x 0.
Proof.
  pose proof empty_pool_wf as (Hn & Hb & _).
  unfold Reserve. cbn [cachedIteratorIndex empty].
  assert (HN : exists n, Z.to_nat c_maxNumNodes = S n).
  { unfold c_maxNumNodes. exists (Z.to_nat (Size_T - 1)). lia. }
  destruct HN as (n & ->). cbn [Reserve_loop].
  destruct (Z.leb_spec c_maxNumNodes 0) as [H |]; [unfold c_maxNumNodes in H; lia |].
  change (numAllocated empty) with 0.
  destruct (Z.leb_spec c_maxNumNodes 0); [lia |].
  assert (Hz : 0 <= 0 < c_maxNumNodes) by lia.
  rewrite IsAllocated_bit_of by (unfold c_InvalidIndex, c_maxNumNodes in *; lia).
  fold empty. rewrite (bit_of_empty 0 Hz). cbn [negb].
  destruct (SetAllocated_free empty 0 Hb Hz (bit_of_empty 0 Hz))
    as (p' & -> & Hnodes & Hna & Hcache & Hl & Hbit & Hothers).
  eexists. split; [reflexivity |].
  unfold reserved. cbn. rewrite Hnodes.
  repeat split; try assumption; try lia. apply (bit_of_empty 0 Hz).
Qed.

Lemma GetIndex_slot_ptr (i : Z) :
  0 <= i < c_maxNumNodes -> GetIndex (slot_ptr i) = i.
Proof.
  intros Hi. unfold GetIndex, slot_ptr.
  rewrite Z.div_mul, Z.mod_mul by lia.
  destruct (Z.leb_spec 0 (i * sizeofNode)); [| nia].
  destruct (Z.ltb_spec i c_maxNumNodes); [reflexivity | lia].
Qed.

Lemma GetIndex_inj (p q : Z) :
  GetIndex p < c_maxNumNodes -> GetIndex p = GetIndex q -> p = q.
Proof.
  intros Hp E.
  destruct (classic_slot p) as [Sp | Np];
    [| rewrite (GetIndex_not_slot p Np) in Hp; unfold c_InvalidIndex, c_maxNumNodes in Hp; lia].
  destruct (classic_slot q) as [Sq | Nq].
  - destruct (GetIndex_slot p Sp) as [Ep _], (GetIndex_slot q Sq) as [Eq _].
    rewrite Ep, Eq in E. destruct Sp as [_ Rp], Sq as [_ Rq].
    rewrite (Z.div_mod p sizeofNode), (Z.div_mod q sizeofNode) by lia.
    congruence.
  - rewrite (GetIndex_not_slot q Nq) in E. rewrite E in Hp.
    unfold c_InvalidIndex, c_maxNumNodes in Hp. lia.
Qed.

Lemma GetIndex_range (p : Z) : 0 <= GetIndex p.
Proof.
  destruct (classic_slot p) as [Sp | Np].
  - destruct (GetIndex_slot p Sp) as [-> ?]. lia.
  - rewrite (GetIndex_not_slot p Np). unfold c_InvalidIndex. lia.
Qed.

Lemma deref_Some (d : pool) (p : Z) (x : T) :
  deref d p = Some x <->
  GetIndex p < c_maxNumNodes /\ nodes d !! Z.to_nat (GetIndex p) = Some (Some x).
Proof.
  unfold deref.
  destruct (Z.ltb_spec (GetIndex p) c_maxNumNodes) as [Hlt | Hge].
  - destruct (nodes d !! Z.to_nat (GetIndex p)) as [[y |] |]; cbn;
      split; try (intros [= ->]); try tauto; try (intros [_ H]; congruence).
  - split; [discriminate | lia].
Qed.

(** A free slot holds no object. *)
Lemma deref_free (d : pool) (i : Z) :
  pool_wf d -> 0 <= i < c_maxNumNodes -> bit_of d i = false ->
  deref d (slot_ptr i) = None.
Proof.
  intros (_ & _ & Hfree) Hi Hbit. unfold deref.
  rewrite GetIndex_slot_ptr by exact Hi.
  destruct (Z.ltb_spec i c_maxNumNodes); [| reflexivity].
  rewrite (Hfree i Hi Hbit). reflexivity.
Qed.

(** After a reservation the new object is read through its pointer, and
    every other pointer reads what it read before. *)
Lemma deref_reserved (d d' : pool) (x : T) (i : Z) :
  pool_wf d -> reserved d d' x i ->
  forall q, deref d' q = if decide (q = slot_ptr i) then Some x else deref d q.
Proof.
  intros (Hn & _ & _) (Hi & _ & Hnodes & _) q. unfold deref. rewrite Hnodes.
  destruct (decide (q = slot_ptr i)) as [-> | Hne].
  - rewrite GetIndex_slot_ptr by exact Hi.
    destruct (Z.ltb_spec i c_maxNumNodes); [| lia].
    rewrite list_lookup_insert_eq by lia. reflexivity.
  - destruct (Z.ltb_spec (GetIndex q) c_maxNumNodes) as [Hlt |]; [| reflexivity].
    rewrite list_lookup_insert_ne; [reflexivity |].
    intros E. apply Hne. apply GetIndex_inj; [exact Hlt |].
    rewrite GetIndex_slot_ptr by exact Hi.
    pose proof (GetIndex_range q). lia.
Qed.

Lemma deref_assign (d : pool) (p : Z) (x y : T) :
  pool_wf d -> deref d p = Some y ->
  forall q, deref (assign d p x) q = if decide (q = p) then Some x else deref d q.
Proof.
  intros (Hn & _ & _) Hp q. apply deref_Some in Hp as [Hlt Hp].
  apply lookup_lt_Some in Hp.
  unfold assign. destruct (Z.ltb_spec (GetIndex p) c_maxNumNodes); [| lia].
  unfold deref, construct. cbn [nodes].
  destruct (decide (q = p)) as [-> | Hne].
  - destruct (Z.ltb_spec (GetIndex p) c_maxNumNodes); [| lia].
    rewrite list_lookup_insert_eq by lia. reflexivity.
  - destruct (Z.ltb_spec (GetIndex q) c_maxNumNodes) as [Hq |]; [| reflexivity].
    rewrite list_lookup_insert_ne; [reflexivity |].
    intros E. apply Hne. symmetry. apply GetIndex_inj; [exact Hlt |].
    pose proof (GetIndex_range p). pose proof (GetIndex_range q). lia.
Qed.

Lemma assign_wf (d : pool) (p : Z) (x y : T) :
  pool_wf d -> deref d p = Some y -> pool_wf (assign d p x).
Proof.
  intros (Hn & Hb & Hfree) Hp. apply deref_Some in Hp as [Hlt Hp].
  unfold assign. destruct (Z.ltb_spec (GetIndex p) c_maxNumNodes); [| lia].
  unfold pool_wf, construct. cbn [nodes bAllocatedBits].
  rewrite length_insert. repeat split; try assumption.
  intros j Hj Hbit.
  change (bit_of _ j) with (bit_of d j) in Hbit.
  destruct (Z.eq_dec j (GetIndex p)) as [-> | Hne].
  - rewrite (Hfree _ Hj Hbit) in Hp. discriminate.
  - pose proof (GetIndex_range p).
    rewrite list_lookup_insert_ne by lia. apply Hfree; assumption.
Qed.

Lemma assign_cachedIteratorIndex (d : pool) (p : Z) (x : T) :
  cachedIteratorIndex (assign d p x) = cachedIteratorIndex d.
Proof.
  unfold assign. destruct (GetIndex p <? c_maxNumNodes); reflexivity.
Qed.

(** Giving back an allocated slot: the flag is [true], the slot's bit is
    cleared, no other bit and no slot changes. *)
Lemma SetDeallocated_allocated (p : pool) (i : Z) :
  length (bAllocatedBits p) = Z.to_nat c_numBytesAllocatedBits ->
  0 <= i < c_maxNumNodes -> bit_of p i = true ->
  exists p', SetDeallocated p i = (true, p') /\
    nodes p' = nodes p /\ numAllocated p' = numAllocated p /\
    cachedIteratorIndex p' = cachedIteratorIndex p /\
    length (bAllocatedBits p') = length (bAllocatedBits p) /\
    bit_of p' i = false /\
    forall j, 0 <= j -> j <> i -> bit_of p' j = bit_of p j.
Proof.
  intros Hlen Hi Hbit. unfold SetDeallocated.
  destruct (Z.ltb_spec i c_maxNumNodes); [| lia].
  rewrite FastDivBitIndexSize_div, FastModBitIndexSize_mod.
  pose proof c_bitIndexSize_pos as HB.
  pose proof (Z.mod_pos_bound i c_bitIndexSize HB) as Hm.
  set (b := i mod c_bitIndexSize) in *.
  set (mask := wrapByte (Z.lnot (Z.shiftl 1 b))).
  assert (Hmask : forall n, 0 <= n < c_bitIndexSize ->
            Z.testbit mask n = negb (n =? b)).
  { intros n Hn. unfold mask, wrapByte.
    rewrite Z.mod_pow2_bits_low by lia.
    rewrite Z.lnot_spec, Z.shiftl_1_l by lia.
    rewrite Z.pow2_bits_eqb by lia. rewrite Z.eqb_sym. reflexivity. }
  unfold AtomicAnd.
  assert (Hflag : negb (Z.land (byteAt p (i / c_bitIndexSize)) (Z.lnot mask) =? 0)
                  = true).
  { apply negb_true_iff. apply Z.eqb_neq. intros E.
    apply (f_equal (fun z => Z.testbit z b)) in E.
    rewrite Z.land_spec, Z.lnot_spec, Hmask, Z.eqb_refl, Z.bits_0 in E by lia.
    change (Z.testbit (byteAt p (i / c_bitIndexSize)) b) with (bit_of p i) in E.
    rewrite Hbit in E. discriminate. }
  rewrite Hflag. eexists. split; [reflexivity |].
  repeat split.
  - cbn. apply length_insert.
  - rewrite bit_of_set_byteAt by (assumption || lia).
    destruct (decide (i / c_bitIndexSize = i / c_bitIndexSize)); [| congruence].
    fold b. rewrite Z.land_spec, Hmask, Z.eqb_refl by lia. apply andb_false_r.
  - intros j Hj Hne.
    rewrite bit_of_set_byteAt by (assumption || lia).
    destruct (decide (j / c_bitIndexSize = i / c_bitIndexSize)) as [Hd |];
      [| reflexivity].
    pose proof (Z.mod_pos_bound j c_bitIndexSize HB) as Hjm.
    rewrite Z.land_spec, Hmask by lia. unfold bit_of. rewrite Hd.
    destruct (Z.eqb_spec (j mod c_bitIndexSize) b) as [Hm' |];
      [| apply andb_true_r].
    exfalso. apply Hne. apply div_mod_eq; [exact Hd | exact Hm'].
Qed.

(** What a successful [Release] of slot [i] leaves. *)
Definition released (p p' : pool) (i : Z) : Prop :=
  nodes p' = <[Z.to_nat i := None]> (nodes p) /\
  numAllocated p' = numAllocated p - 1 /\
  cachedIteratorIndex p' = cachedIteratorIndex p /\
  length (bAllocatedBits p') = length (bAllocatedBits p) /\
  bit_of p' i = false /\
  (forall j, 0 <= j -> j <> i -> bit_of p' j = bit_of p j).

Lemma Release_allocated (p : pool) (i : Z) :
  pool_wf p -> 0 <= i < c_maxNumNodes -> bit_of p i = true ->
  exists p', Release (slot_ptr i) p = (true, p') /\ released p p' i /\
             pool_wf p'.
Proof.
  intros (Hn & Hb & Hfree) Hi Hbit. unfold Release.
  rewrite GetIndex_slot_ptr by exact Hi.
  destruct (Z.ltb_spec i c_maxNumNodes); [| lia].
  rewrite IsAllocated_bit_of, Hbit
    by (unfold c_InvalidIndex, c_maxNumNodes in *; lia).
  destruct (SetDeallocated_allocated (destroy p i) i Hb Hi Hbit)
    as (p' & -> & Hnodes & Hna & Hcache & Hl & Hbi & Hothers).
  eexists. split; [reflexivity |].
  assert (Hrel : released p (set_numAllocated p' (numAllocated p' - 1)) i).
  { unfold released. cbn [nodes numAllocated cachedIteratorIndex bAllocatedBits
                            set_numAllocated].
    rewrite Hnodes, Hna, Hcache, Hl. repeat split; assumption. }
  split; [exact Hrel |].
  destruct Hrel as (Hnodes' & _ & _ & Hl' & Hbi' & Hothers').
  unfold pool_wf. rewrite Hnodes', length_insert, Hl'.
  split; [exact Hn |]. split; [exact Hb |].
  intros j Hj Hbj. destruct (Z.eq_dec j i) as [-> | Hne].
  - apply list_lookup_insert_eq. lia.
  - rewrite list_lookup_insert_ne by lia.
    apply Hfree; [exact Hj |]. rewrite <- Hothers' by lia. exact Hbj.
Qed.

Lemma Release_free (p : pool) (i : Z) :
  0 <= i < c_maxNumNodes -> bit_of p i = false ->
  Release (slot_ptr i) p = (false, p).
Proof.
  intros Hi Hbit. unfold Release. rewrite GetIndex_slot_ptr by exact Hi.
  destruct (Z.ltb_spec i c_maxNumNodes); [| lia].
  rewrite IsAllocated_bit_of, Hbit
    by (unfold c_InvalidIndex, c_maxNumNodes in *; lia).
  reflexivity.
Qed.

Lemma deref_released (d d' : pool) (i : Z) :
  pool_wf d -> 0 <= i < c_maxNumNodes -> released d d' i ->
  forall q, deref d' q = if decide (q = slot_ptr i) then None else deref d q.
Proof.
  intros (Hn & _ & _) Hi (Hnodes & _) q. unfold deref. rewrite Hnodes.
  destruct (decide (q = slot_ptr i)) as [-> | Hne].
  - rewrite GetIndex_slot_ptr by exact Hi.
    destruct (Z.ltb_spec i c_maxNumNodes); [| lia].
    rewrite list_lookup_insert_eq by lia. reflexivity.
  - destruct (Z.ltb_spec (GetIndex q) c_maxNumNodes) as [Hlt |]; [| reflexivity].
    rewrite list_lookup_insert_ne; [reflexivity |].
    intros E. apply Hne. apply GetIndex_inj; [exact Hlt |].
    rewrite GetIndex_slot_ptr by exact Hi.
    pose proof (GetIndex_range q). lia.
Qed.

Lemma Reserve_loop_numAllocated (x : T) (fuel : nat) :
  forall currentIndex p off p',
    Reserve_loop fuel currentIndex x p = (Some off, p') ->
    numAllocated p' = numAllocated p + 1.
Proof.
  induction fuel as [| fuel IH]; intros currentIndex p off p';
    cbn [Reserve_loop]; [discriminate |].
  set (ci := if c_maxNumNodes <=? currentIndex then 0 else currentIndex).
  destruct (c_maxNumNodes <=? numAllocated p); [discriminate |].
  destruct (negb (IsAllocated p ci)).
  - unfold SetAllocated. destruct (ci <? c_maxNumNodes).
    + unfold AtomicOr. destruct (Z.land _ _ =? 0).
      * intros [= _ <-]. reflexivity.
      * intros Hr. apply IH in Hr. exact Hr.
    + intros Hr. apply IH in Hr. exact Hr.
  - apply IH.
Qed.

(** The sweep of [Reserve] goes round the slot array: with the count below
    the capacity it stops at the first free slot from the probe index on,
    in cyclic order. *)
Lemma Reserve_loop_finds (x : T) (fuel : nat) :
  forall currentIndex p d,
    length (bAllocatedBits p) = Z.to_nat c_numBytesAllocatedBits ->
    0 <= currentIndex -> numAllocated p < c_maxNumNodes ->
    0 <= d < Z.of_nat fuel ->
    bit_of p (((if c_maxNumNodes <=? currentIndex then 0 else currentIndex) + d)
              mod c_maxNumNodes) = false ->
    exists off p', Reserve_loop fuel currentIndex x p = (Some off, p').
Proof.
  induction fuel as [| fuel IH]; intros currentIndex p d Hlen Hc Hna Hd Hbit;
    [lia |].
  cbn [Reserve_loop].
  set (ci := if c_maxNumNodes <=? currentIndex then 0 else currentIndex) in *.
  assert (Hci : 0 <= ci < c_maxNumNodes).
  { unfold ci, c_maxNumNodes.
    destruct (Z.leb_spec Size_T currentIndex); lia. }
  destruct (Z.leb_spec c_maxNumNodes (numAllocated p)); [lia |].
  rewrite IsAllocated_bit_of by (unfold c_InvalidIndex, c_maxNumNodes in *; lia).
  destruct (bit_of p ci) eqn:Hb; cbn [negb].
  - assert (Hd0 : d <> 0).
    { intros ->. rewrite Z.add_0_r, Z.mod_small in Hbit by lia. congruence. }
    apply (IH (ci + 1) p (d - 1)); try assumption; try lia.
    destruct (Z.leb_spec c_maxNumNodes (ci + 1)) as [Hwrap | Hin].
    + assert (ci = c_maxNumNodes - 1) by lia.
      replace (ci + d) with (0 + (d - 1) + 1 * c_maxNumNodes) in Hbit by lia.
      rewrite Z_mod_plus_full in Hbit. exact Hbit.
    + replace (ci + 1 + (d - 1)) with (ci + d) by lia. exact Hbit.
  - destruct (SetAllocated_free p ci Hlen Hci Hb) as (p' & -> & _).
    eexists _, _. reflexivity.
Qed.

(** X12.  [Reserve] on a pool at rest either returns null and leaves the
    pool as it was, or returns the address of a slot whose allocation bit
    was clear: that bit is now set and no other, the allocated count is one
    higher, the object is read through the returned pointer and through
    [LookupByIndex], and every other pointer reads what it read before. *)
Theorem Reserve_takes_free_slot (x : T) (p : pool) :
  pool_wf p -> 0 <= cachedIteratorIndex p ->
  match Reserve x p with
  | (None, p') => p' = p
  | (Some off, p') =>
      exists i, off = slot_ptr i /\ 0 <= i < c_maxNumNodes /\
        bit_of p i = false /\ bit_of p' i = true /\
        (forall j, 0 <= j -> j <> i -> bit_of p' j = bit_of p j) /\
        numAllocated p' = numAllocated p + 1 /\
        (forall q, deref p' q = if decide (q = off) then Some x else deref p q) /\
        LookupByIndex p' i = Some x /\
        pool_wf p'
  end.
Proof.
  intros Hwf Hc.
  pose proof (Reserve_slot_spec x p Hwf Hc) as Hspec.
  destruct (Reserve x p) as [[off |] p'] eqn:E; [| exact Hspec].
  destruct Hspec as (i & -> & Hres & Hwf' & _).
  pose proof (deref_reserved p p' x i Hwf Hres) as Hderef.
  destruct Hres as (Hi & Hb & Hnodes & Hb' & Hothers & _).
  exists i. split; [reflexivity |]. split; [exact Hi |]. split; [exact Hb |].
  split; [exact Hb' |]. split; [exact Hothers |].
  split; [apply (Reserve_loop_numAllocated x _ _ _ _ _ E) |].
  split; [exact Hderef |]. split; [| exact Hwf'].
  unfold LookupByIndex.
  destruct (Z.eqb_spec i c_InvalidIndex) as [Hinv |];
    [unfold c_InvalidIndex, c_maxNumNodes in *; lia |].
  destruct (Z.ltb_spec i c_maxNumNodes); [| lia]. cbn [negb].
  rewrite IsAllocated_bit_of, Hb' by assumption.
  destruct Hwf as (Hn & _). rewrite Hnodes.
  rewrite list_lookup_insert_eq by lia. reflexivity.
Qed.

(** X13.  [Reserve] does not miss a free slot: when the allocated count is
    below the capacity and some slot's allocation bit is clear, it returns
    a slot, wherever the probe index stands; when the count has reached
    the capacity it returns null and leaves the pool as it was. *)
Theorem Reserve_finds_free_slot (x : T) (p : pool) (i : Z) :
  pool_wf p -> 0 <= cachedIteratorIndex p ->
  (numAllocated p < c_maxNumNodes -> 0 <= i < c_maxNumNodes ->
   bit_of p i = false ->
   exists off p', Reserve x p = (Some off, p')) /\
  (c_maxNumNodes <= numAllocated p -> Reserve x p = (None, p)).
Proof.
  intros (_ & Hb & _) Hc. split.
  - intros Hna Hi Hbit. unfold Reserve.
    set (ci := if c_maxNumNodes <=? cachedIteratorIndex p
               then 0 else cachedIteratorIndex p).
    assert (Hci : 0 <= ci < c_maxNumNodes).
    { unfold ci, c_maxNumNodes in *.
      destruct (Z.leb_spec Size_T (cachedIteratorIndex p)); lia. }
    apply (Reserve_loop_finds x _ _ p ((i - ci) mod c_maxNumNodes));
      try assumption.
    + pose proof (Z.mod_pos_bound (i - ci) c_maxNumNodes ltac:(lia)). lia.
    + fold ci. rewrite Z.add_mod_idemp_r by lia.
      replace (ci + (i - ci)) with i by lia.
      rewrite Z.mod_small by lia. exact Hbit.
  - intros Hfull. unfold Reserve.
    assert (HN : exists n, Z.to_nat c_maxNumNodes = S n).
    { unfold c_maxNumNodes. exists (Z.to_nat (Size_T - 1)). lia. }
    destruct HN as (n & ->). cbn [Reserve_loop].
    destruct (Z.leb_spec c_maxNumNodes (numAllocated p)); [reflexivity | lia].
Qed.

(** X14.  [Release] of the address of a slot whose allocation bit is set
    returns true: the object is destroyed, the bit is cleared and no other,
    the allocated count is one lower, every other pointer reads what it
    read before, and the pool is at rest again. *)
Theorem Release_frees_slot (p : pool) (i : Z) :
  pool_wf p -> 0 <= i < c_maxNumNodes -> bit_of p i = true ->
  exists p',
    Release (slot_ptr i) p = (true, p') /\
    bit_of p' i = false /\
    (forall j, 0 <= j -> j <> i -> bit_of p' j = bit_of p j) /\
    numAllocated p' = numAllocated p - 1 /\
    (forall q, deref p' q
               = if decide (q = slot_ptr i) then None else deref p q) /\
    pool_wf p'.
Proof.
  intros Hwf Hi Hbit.
  destruct (Release_allocated p i Hwf Hi Hbit) as (p' & Hr & Hrel & Hwf').
  exists p'. split; [exact Hr |].
  pose proof (deref_released p p' i Hwf Hi Hrel) as Hderef.
  destruct Hrel as (_ & Hna & _ & _ & Hb' & Hothers).
  split; [exact Hb' |]. split; [exact Hothers |]. split; [exact Hna |].
  split; [exact Hderef | exact Hwf'].
Qed.

(** X15.  A reservation followed by the release of the returned pointer
    gives back what the pool had: every slot, every allocation bit and the
    allocated count are as before the reservation.  Releasing the same
    pointer once more returns false and changes nothing. *)
Theorem Reserve_Release_round_trip (x : T) (p p' : pool) (off : Z) :
  pool_wf p -> 0 <= cachedIteratorIndex p ->
  Reserve x p = (Some off, p') ->
  exists p'',
    Release off p' = (true, p'') /\
    nodes p'' = nodes p /\
    numAllocated p'' = numAllocated p /\
    (forall j, 0 <= j -> bit_of p'' j = bit_of p j) /\
    Release off p'' = (false, p'').
Proof.
  intros Hwf Hc E.
  pose proof (Reserve_slot_spec x p Hwf Hc) as Hspec. rewrite E in Hspec.
  destruct Hspec as (i & -> & Hres & Hwf' & _).
  pose proof (Reserve_loop_numAllocated x _ _ _ _ _ E) as Hna.
  destruct Hres as (Hi & Hb & Hnodes & Hb' & Hothers & _).
  destruct (Release_allocated p' i Hwf' Hi Hb')
    as (p'' & Hr & (Hnodes'' & Hna'' & _ & _ & Hb'' & Hothers'') & _).
  exists p''. split; [exact Hr |].
  split.
  { rewrite Hnodes'', Hnodes, list_insert_insert_eq.
    apply list_insert_id. destruct Hwf as (_ & _ & Hfree).
    apply Hfree; assumption. }
  split; [lia |]. split.
  { intros j Hj. destruct (Z.eq_dec j i) as [-> | Hne]; [congruence |].
    rewrite Hothers'', Hothers by assumption. reflexivity. }
  apply Release_free; assumption.
Qed.

End Facts.

End Pool.

Arguments pool T : clear implicits.

(** A pool of eight 32-byte slots with byte-wide bitmap words, holding one
    object in slot 0. *)
Definition demo : pool Z := snd (Reserve 8 8 32 7 (empty 8 8)).

(** Slot 1 of [demo] is free, so releasing its address is a double free;
    address 100 is inside slot 3, not at its start. *)
Lemma Release_rejects_witness :
  (bit_of 8 demo (32 / 32) = false /\ Release 8 8 32 32 demo = (false, demo))
  /\ (~ PtrIsSlot 8 32 100 /\ Release 8 8 32 100 demo = (false, demo)).
Proof.
  assert (H1 : bit_of 8 demo (32 / 32) = false) by reflexivity.
  assert (H2 : ~ PtrIsSlot 8 32 100).
  { unfold PtrIsSlot. intros [_ H]. vm_compute in H. discriminate. }
  split; split; try assumption.
  - apply (Release_rejects 8 8 32); [lia | reflexivity | right; exact H1].
  - apply (Release_rejects 8 8 32); [lia | reflexivity | left; exact H2].
Defined.

Lemma demo_wf : pool_wf 8 8 demo /\ 0 <= cachedIteratorIndex demo.
Proof.
  pose proof (Reserve_slot_spec (T := Z) 8 8 32 eq_refl ltac:(lia) eq_refl 7
                (empty 8 8) (empty_pool_wf 8 8) ltac:(cbn; lia)) as H.
  unfold demo.
  destruct (Reserve 8 8 32 7 (empty 8 8)) as [[off |] p'] eqn:E.
  - destruct H as (i & _ & _ & Hwf & Hc). split; assumption.
  - vm_compute in E. discriminate.
Qed.

(** [demo] after a second reservation: the objects 7 and 9 in slots 0
    and 1. *)
Definition demo_two : pool Z := snd (Reserve 8 8 32 9 demo).

Lemma Reserve_takes_free_slot_witness :
  exists i,
    0 <= i < 8 /\
    bit_of 8 demo i = false /\ bit_of 8 demo_two i = true /\
    numAllocated demo_two = numAllocated demo + 1 /\
    deref 8 32 demo_two 32 = Some 9 /\
    LookupByIndex 8 8 demo_two i = Some 9.
Proof.
  pose proof (Reserve_takes_free_slot (T := Z) 8 8 32 ltac:(lia) eq_refl
                ltac:(lia) eq_refl 9 demo (proj1 demo_wf) (proj2 demo_wf))
    as H.
  assert (E : Reserve 8 8 32 9 demo = (Some 32, demo_two))
    by (vm_compute; reflexivity).
  rewrite E in H.
  destruct H as (i & _ & Hi & Hb & Hb' & _ & Hna & Hderef & Hlook & _).
  exists i. split; [exact Hi |]. split; [exact Hb |]. split; [exact Hb' |].
  split; [exact Hna |]. split; [| exact Hlook].
  rewrite Hderef. rewrite decide_True by reflexivity. reflexivity.
Defined.

Lemma Reserve_finds_free_slot_witness :
  numAllocated demo < 8 /\ bit_of 8 demo 5 = false /\
  exists off p', Reserve 8 8 32 9 demo = (Some off, p').
Proof.
  assert (H1 : numAllocated demo < 8) by (vm_compute; reflexivity).
  assert (H2 : bit_of 8 demo 5 = false) by reflexivity.
  split; [exact H1 |]. split; [exact H2 |].
  apply (proj1 (Reserve_finds_free_slot (T := Z) 8 8 32 eq_refl ltac:(lia)
                  eq_refl 9 demo 5 (proj1 demo_wf) (proj2 demo_wf)));
    [exact H1 | unfold c_maxNumNodes; lia | exact H2].
Defined.

Lemma Release_frees_slot_witness :
  bit_of 8 demo 0 = true /\
  exists p',
    Release 8 8 32 (slot_ptr 32 0) demo = (true, p') /\
    bit_of 8 p' 0 = false /\
    numAllocated p' = numAllocated demo - 1 /\
    deref 8 32 p' 0 = None.
Proof.
  assert (H1 : bit_of 8 demo 0 = true) by reflexivity.
  split; [exact H1 |].
  destruct (Release_frees_slot (T := Z) 8 8 32 ltac:(lia) eq_refl ltac:(lia)
              eq_refl demo 0 (proj1 demo_wf) ltac:(unfold c_maxNumNodes; lia)
              H1)
    as (p' & Hr & Hb & _ & Hna & Hderef & _).
  exists p'. split; [exact Hr |]. split; [exact Hb |]. split; [exact Hna |].
  rewrite Hderef. reflexivity.
Defined.

Lemma Reserve_Release_round_trip_witness :
  Reserve 8 8 32 9 demo = (Some 32, demo_two) /\
  exists p'',
    Release 8 8 32 32 demo_two = (true, p'') /\
    nodes p'' = nodes demo /\
    numAllocated p'' = numAllocated demo /\
    Release 8 8 32 32 p'' = (false, p'').
Proof.
  assert (E : Reserve 8 8 32 9 demo = (Some 32, demo_two))
    by (vm_compute; reflexivity).
  split; [exact E |].
  destruct (Reserve_Release_round_trip (T := Z) 8 8 32 ltac:(lia) eq_refl
              ltac:(lia) eq_refl 9 demo demo_two 32 (proj1 demo_wf)
              (proj2 demo_wf) E)
    as (p'' & Hr & Hn & Hna & _ & Hr2).
  exists p''. auto.
Defined.

End FixedSizeObjectPool.

(** ** simple_linked_list.h

    An intrusive, unsorted, singly linked list.  The nodes are allocated by
    somebody else; the list holds a head pointer and its own lock, and links
    the nodes through their [pNext] member.  Node storage is a finite map
    from addresses to nodes; a node pointer is [Some] address or [None] for
    [nullptr]. *)

Module SimpleLinkedList.
Import CountingSpinlock.

(** What the header asks of [Node_T]: a [pNext] member and a [key] member. *)
Class LinkedNode (Node_T Key_T : Type) : Type := {
  pNext : Node_T -> option Z;
  set_pNext : option Z -> Node_T -> Node_T;
  key : Node_T -> Key_T;
  pNext_set_pNext : forall q n, pNext (set_pNext q n) = q;
  key_set_pNext : forall q n, key (set_pNext q n) = key n
}.

Section List.

Context {Node_T Key_T : Type} `{LinkedNode Node_T Key_T}.

(** [Predicate_T::Compare]. *)
Variable Compare : Key_T -> Key_T -> Z.

Record SimpleLinkedList : Type := mkList {
  pHead : option Z;
  lock : Z
}.

Definition empty : SimpleLinkedList := {| pHead := None; lock := 0 |}.

Definition set_pHead (l : SimpleLinkedList) (h : option Z) : SimpleLinkedList :=
  {| pHead := h; lock := lock l |}.

Definition set_lock (l : SimpleLinkedList) (v : Z) : SimpleLinkedList :=
  {| pHead := pHead l; lock := v |}.

Definition GetHead (l : SimpleLinkedList) : option Z := pHead l.

(** The private [CAS] on a node pointer. *)
Definition CAS (location expected desired : option Z) : bool * option Z :=
  if bool_decide (location = expected)
  then (true, desired)
  else (false, location).

(** [Insert]: the null check comes first; then a read lock is taken and the
    head is replaced by compare-and-swap.  With no other thread between the
    read of [pHead] and the swap, the first swap succeeds. *)
Definition Insert (newNode : option Z) (l : SimpleLinkedList)
  (mem : gmap Z Node_T) : res (bool * SimpleLinkedList * gmap Z Node_T) :=
  match newNode with
  | None => Ok (false, l, mem)
  | Some a =>
      do v <- AcquireReadOnlyAccess (lock l);
      let l1 := set_lock l v in
      let currentHead := pHead l1 in
      do n <- of_option (mem !! a);
      let mem1 := <[a := set_pNext currentHead n]> mem in
      let '(swapped, h) := CAS (pHead l1) currentHead newNode in
      if swapped
      then Ok (true, set_lock (set_pHead l1 h) (ReleaseReadOnlyAccess v), mem1)
      else Timeout
  end.

Definition Insert_Unsafe (newNode : option Z) (l : SimpleLinkedList)
  (mem : gmap Z Node_T) : res (bool * SimpleLinkedList * gmap Z Node_T) :=
  match newNode with
  | None => Ok (false, l, mem)
  | Some a =>
      let currentHead := pHead l in
      do n <- of_option (mem !! a);
      let mem1 := <[a := set_pNext currentHead n]> mem in
      Ok (true, set_pHead l newNode, mem1)
  end.

(** The walk of [Find_Unsafe]; [fuel] bounds the number of nodes visited. *)
Fixpoint Find_walk (fuel : nat) (mem : gmap Z Node_T) (current : option Z)
  (searchKey : Key_T) : res (option Z) :=
  match current with
  | None => Ok None
  | Some a =>
      match fuel with
      | O => Timeout
      | S fuel' =>
          do n <- of_option (mem !! a);
          if Compare (key n) searchKey =? 0
          then Ok (Some a)
          else Find_walk fuel' mem (pNext n) searchKey
      end
  end.

Definition Find_Unsafe (fuel : nat) (searchKey : Key_T) (l : SimpleLinkedList)
  (mem : gmap Z Node_T) : res (option Z) :=
  Find_walk fuel mem (pHead l) searchKey.

(** The walk of [Erase_Unsafe], with its [prev] pointer. *)
Fixpoint Erase_walk (fuel : nat) (l : SimpleLinkedList) (mem : gmap Z Node_T)
  (prev current : option Z) (searchKey : Key_T)
  : res (option Z * SimpleLinkedList * gmap Z Node_T) :=
  match current with
  | None => Ok (None, l, mem)
  | Some a =>
      match fuel with
      | O => Timeout
      | S fuel' =>
          do n <- of_option (mem !! a);
          if Compare (key n) searchKey =? 0 then
            do '(l1, mem1) <-
              match prev with
              | None => Ok (set_pHead l (pNext n), mem)
              | Some b =>
                  do m <- of_option (mem !! b);
                  Ok (l, <[b := set_pNext (pNext n) m]> mem)
              end;
            do n1 <- of_option (mem1 !! a);
            Ok (Some a, l1, <[a := set_pNext None n1]> mem1)
          else Erase_walk fuel' l mem current (pNext n) searchKey
      end
  end.

Definition Erase_Unsafe (fuel : nat) (searchKey : Key_T) (l : SimpleLinkedList)
  (mem : gmap Z Node_T) : res (option Z * SimpleLinkedList * gmap Z Node_T) :=
  Erase_walk fuel l mem None (pHead l) searchKey.

Definition Reset_Unsafe (l : SimpleLinkedList) : SimpleLinkedList :=
  set_pHead l None.

Definition IsEmpty (l : SimpleLinkedList) : bool :=
  match pHead l with None => true | Some _ => false end.

(** The walk of [FindLast_Unsafe], with its [lastMatch] pointer. *)
Fixpoint FindLast_walk (fuel : nat) (mem : gmap Z Node_T)
  (current lastMatch : option Z) (searchKey : Key_T) : res (option Z) :=
  match current with
  | None => Ok lastMatch
  | Some a =>
      match fuel with
      | O => Timeout
      | S fuel' =>
          do n <- of_option (mem !! a);
          let lastMatch :=
            if Compare (key n) searchKey =? 0 then current else lastMatch in
          FindLast_walk fuel' mem (pNext n) lastMatch searchKey
      end
  end.

Definition FindLast_Unsafe (fuel : nat) (searchKey : Key_T)
  (l : SimpleLinkedList) (mem : gmap Z Node_T) : res (option Z) :=
  FindLast_walk fuel mem (pHead l) None searchKey.

(** The walk of [EraseNode_Unsafe]: nodes are compared by address. *)
Fixpoint EraseNode_walk (fuel : nat) (l : SimpleLinkedList)
  (mem : gmap Z Node_T) (prev current : option Z) (nodeToRemove : Z)
  : res (option Z * SimpleLinkedList * gmap Z Node_T) :=
  match current with
  | None => Ok (None, l, mem)
  | Some a =>
      match fuel with
      | O => Timeout
      | S fuel' =>
          if a =? nodeToRemove then
            do n <- of_option (mem !! a);
            do '(l1, mem1) <-
              match prev with
              | None => Ok (set_pHead l (pNext n), mem)
              | Some b =>
                  do m <- of_option (mem !! b);
                  Ok (l, <[b := set_pNext (pNext n) m]> mem)
              end;
            do n1 <- of_option (mem1 !! a);
            Ok (Some a, l1, <[a := set_pNext None n1]> mem1)
          else
            do n <- of_option (mem !! a);
            EraseNode_walk fuel' l mem current (pNext n) nodeToRemove
      end
  end.

Definition EraseNode_Unsafe (fuel : nat) (nodeToRemove : option Z)
  (l : SimpleLinkedList) (mem : gmap Z Node_T)
  : res (option Z * SimpleLinkedList * gmap Z Node_T) :=
  match nodeToRemove with
  | None => Ok (None, l, mem)
  | Some a => EraseNode_walk fuel l mem None (pHead l) a
  end.

Definition InsertUnique_Unsafe (fuel : nat) (newNode : option Z)
  (l : SimpleLinkedList) (mem : gmap Z Node_T)
  : res (bool * SimpleLinkedList * gmap Z Node_T) :=
  match newNode with
  | None => Ok (false, l, mem)
  | Some a =>
      do n <- of_option (mem !! a);
      do existingNode <- Find_Unsafe fuel (key n) l mem;
      match existingNode with
      | None =>
          let currentHead := pHead l in
          Ok (true, set_pHead l newNode, <[a := set_pNext currentHead n]> mem)
      | Some _ => Ok (false, l, mem)
      end
  end.

(** The node at [a] carries a key that compares equal to [searchKey]. *)
Definition matches (mem : gmap Z Node_T) (searchKey : Key_T) (a : Z) : Prop :=
  exists n, mem !! a = Some n /\ Compare (key n) searchKey = 0.

(** [is_list mem h addrs]: following [pNext] from [h] visits exactly the
    nodes at [addrs], in order, and ends at [nullptr]. *)
Inductive is_list (mem : gmap Z Node_T) : option Z -> list Z -> Prop :=
| is_list_nil : is_list mem None []
| is_list_cons a n addrs :
    mem !! a = Some n ->
    a ∉ addrs ->
    is_list mem (pNext n) addrs ->
    is_list mem (Some a) (a :: addrs).

(** The first address of [addrs] whose node carries [searchKey]. *)
Fixpoint find_key (mem : gmap Z Node_T) (addrs : list Z) (searchKey : Key_T)
  : option Z :=
  match addrs with
  | [] => None
  | a :: addrs' =>
      match mem !! a with
      | Some n =>
          if Compare (key n) searchKey =? 0 then Some a
          else find_key mem addrs' searchKey
      | None => None
      end
  end.

(** *** Theorems *)

Lemma is_list_frame (mem : gmap Z Node_T) (a : Z) (x : Node_T) :
  forall h addrs,
    is_list mem h addrs -> a ∉ addrs -> is_list (<[a := x]> mem) h addrs.
Proof.
  intros h addrs Hl. induction Hl as [| b n addrs Hb Hnin Hl IH]; intros Ha.
  - constructor.
  - apply not_elem_of_cons in Ha as [Hab Ha].
    econstructor; [| assumption | apply IH; assumption].
    rewrite lookup_insert_ne by congruence. exact Hb.
Qed.

Lemma is_list_functional (mem : gmap Z Node_T) :
  forall h l1, is_list mem h l1 -> forall l2, is_list mem h l2 -> l1 = l2.
Proof.
  intros h l1 Hl. induction Hl as [| a n addrs Ha Hnin Hl IH]; intros l2 H2.
  - inversion H2. reflexivity.
  - inversion H2 as [| a' n' addrs' Ha' Hnin' Hl' ]; subst.
    rewrite Ha in Ha'. injection Ha' as <-.
    f_equal. apply IH. assumption.
Qed.

(** [Find_Unsafe] returns the first node of the list with the key. *)
Lemma Find_walk_spec (mem : gmap Z Node_T) (searchKey : Key_T) :
  forall h addrs, is_list mem h addrs ->
  forall fuel, (length addrs <= fuel)%nat ->
    Find_walk fuel mem h searchKey = Ok (find_key mem addrs searchKey).
Proof.
  intros h addrs Hl. induction Hl as [| a n addrs Ha Hnin Hl IH]; intros fuel Hf.
  - destruct fuel; reflexivity.
  - destruct fuel as [| fuel]; [cbn in Hf; lia |].
    cbn [Find_walk find_key]. rewrite Ha. cbn [of_option bind].
    destruct (Compare (key n) searchKey =? 0); [reflexivity |].
    apply IH. cbn in Hf. lia.
Qed.

Lemma land_WriteMask_small (x : Z) :
  0 <= x < 2 ^ 16 -> Z.land x c_multiReaderWriter_WriteMask = 0.
Proof.
  intros Hx. apply Z.bits_inj'. intros n Hn.
  rewrite Z.land_spec, Z.bits_0.
  destruct (Z_lt_dec n 16) as [Hlt | Hge].
  - change c_multiReaderWriter_WriteMask with (Z.shiftl 0xFFFF 16).
    rewrite Z.shiftl_spec_low by assumption. apply andb_false_r.
  - destruct (Z.eq_dec x 0) as [-> | Hx0]; [now rewrite Z.bits_0 |].
    rewrite Z.bits_above_log2; [reflexivity | lia |].
    assert (Z.log2 x < 16) by (apply Z.log2_lt_pow2; lia). lia.
Qed.

(** C10.  Called with a null node pointer, [Insert] and [Insert_Unsafe]
    return [false] and leave the list (head, lock word and every node)
    unchanged.  Called with a pointer to a node, [Insert_Unsafe] returns
    [true] with the node's [pNext] set to the old head and the head set to
    the node; so does [Insert] when no writer holds the list's lock, the lock
    word being restored.  If the list held the nodes [addrs] and the node is
    not among them, it now holds the node followed by [addrs]. *)
Theorem Insert_links_at_head (l : SimpleLinkedList) (mem : gmap Z Node_T)
  (newNode : option Z) :
  match newNode with
  | None =>
      Insert_Unsafe None l mem = Ok (false, l, mem) /\
      Insert None l mem = Ok (false, l, mem)
  | Some a =>
      forall n, mem !! a = Some n ->
        let l' := set_pHead l (Some a) in
        let mem' := <[a := set_pNext (pHead l) n]> mem in
        Insert_Unsafe (Some a) l mem = Ok (true, l', mem') /\
        (0 <= lock l < 0xFFFF ->
           Insert (Some a) l mem = Ok (true, l', mem')) /\
        (forall addrs, is_list mem (pHead l) addrs -> a ∉ addrs ->
           is_list mem' (pHead l') (a :: addrs))
  end.
Proof.
  destruct newNode as [a |]; [| split; reflexivity].
  intros n Ha l' mem'. split; [| split].
  - unfold Insert_Unsafe. rewrite Ha. reflexivity.
  - intros Hlock. unfold Insert, AcquireReadOnlyAccess, AtomicUtil.AtomicIncrementU32.
    assert (Hw : wrap32 (lock l + 1) = lock l + 1)
      by (apply Z.mod_small; lia).
    rewrite Hw, land_WriteMask_small by lia.
    cbn [Z.eqb bind]. rewrite Ha. cbn [of_option bind set_lock pHead].
    unfold CAS. rewrite bool_decide_eq_true_2 by reflexivity.
    unfold ReleaseReadOnlyAccess, AtomicUtil.AtomicDecrementU32. cbn [snd].
    replace (lock l + 1 - 1) with (lock l) by lia.
    unfold wrap32. rewrite Z.mod_small by lia.
    destruct l; reflexivity.
  - intros addrs Hl Hnin. cbn [l' set_pHead pHead].
    apply (is_list_cons _ a (set_pNext (pHead l) n)).
    + apply lookup_insert_eq.
    + exact Hnin.
    + rewrite pNext_set_pNext. apply is_list_frame; assumption.
Qed.

Lemma is_list_lookup (mem : gmap Z Node_T) :
  forall h addrs, is_list mem h addrs ->
  forall a, a ∈ addrs -> exists n, mem !! a = Some n.
Proof.
  intros h addrs Hl. induction Hl as [| b n addrs Hb Hnin Hl IH]; intros a Ha.
  - inversion Ha.
  - apply elem_of_cons in Ha as [-> | Ha]; [exists n; exact Hb | apply IH; exact Ha].
Qed.

Lemma is_list_NoDup (mem : gmap Z Node_T) :
  forall h addrs, is_list mem h addrs -> NoDup addrs.
Proof.
  intros h addrs Hl. induction Hl as [| b n addrs Hb Hnin Hl IH].
  - apply NoDup_nil_2.
  - apply NoDup_cons_2; assumption.
Qed.

Lemma Find_walk_first (mem : gmap Z Node_T) (searchKey : Key_T) :
  forall h addrs, is_list mem h addrs ->
  forall fuel, (length addrs <= fuel)%nat ->
  (Find_walk fuel mem h searchKey = Ok None /\
   forall a, a ∈ addrs -> ~ matches mem searchKey a)
  \/ exists a pre post,
       Find_walk fuel mem h searchKey = Ok (Some a) /\
       addrs = pre ++ a :: post /\ matches mem searchKey a /\
       forall b, b ∈ pre -> ~ matches mem searchKey b.
Proof.
  intros h addrs Hl. induction Hl as [| a n addrs Ha Hnin Hl IH]; intros fuel Hf.
  - left. split; [destruct fuel; reflexivity |]. intros a Ha. inversion Ha.
  - destruct fuel as [| fuel]; [cbn in Hf; lia |].
    cbn [Find_walk]. rewrite Ha. cbn [of_option bind].
    destruct (Z.eqb_spec (Compare (key n) searchKey) 0) as [E | NE].
    + right. exists a, [], addrs. split; [reflexivity |].
      split; [reflexivity |]. split; [exists n; auto |].
      intros b Hb. inversion Hb.
    + assert (Hna : ~ matches mem searchKey a).
      { intros (n' & Hn' & Hc). congruence. }
      destruct (IH fuel ltac:(cbn in Hf; lia))
        as [[Hr Hnone] | (b & pre & post & Hr & -> & Hm & Hpre)].
      * left. split; [exact Hr |]. intros c Hc.
        apply elem_of_cons in Hc as [-> | Hc]; [exact Hna | apply Hnone; exact Hc].
      * right. exists b, (a :: pre), post. split; [exact Hr |].
        split; [reflexivity |]. split; [exact Hm |].
        intros c Hc. apply elem_of_cons in Hc as [-> | Hc];
          [exact Hna | apply Hpre; exact Hc].
Qed.

(** X7.  On a well-linked list [Find_Unsafe] returns: null when no node of
    the list carries the key, and otherwise the first node from the head
    that carries it. *)
Theorem Find_Unsafe_first_match (l : SimpleLinkedList) (mem : gmap Z Node_T)
  (addrs : list Z) (searchKey : Key_T) (fuel : nat) :
  is_list mem (pHead l) addrs -> (length addrs <= fuel)%nat ->
  (Find_Unsafe fuel searchKey l mem = Ok None /\
   forall a, a ∈ addrs -> ~ matches mem searchKey a)
  \/ exists a pre post,
       Find_Unsafe fuel searchKey l mem = Ok (Some a) /\
       addrs = pre ++ a :: post /\ matches mem searchKey a /\
       forall b, b ∈ pre -> ~ matches mem searchKey b.
Proof.
  intros Hl Hf. apply (Find_walk_first mem searchKey _ addrs Hl fuel Hf).
Qed.

Lemma FindLast_walk_last (mem : gmap Z Node_T) (searchKey : Key_T) :
  forall h addrs, is_list mem h addrs ->
  forall fuel lastMatch, (length addrs <= fuel)%nat ->
  (FindLast_walk fuel mem h lastMatch searchKey = Ok lastMatch /\
   forall a, a ∈ addrs -> ~ matches mem searchKey a)
  \/ exists a pre post,
       FindLast_walk fuel mem h lastMatch searchKey = Ok (Some a) /\
       addrs = pre ++ a :: post /\ matches mem searchKey a /\
       forall b, b ∈ post -> ~ matches mem searchKey b.
Proof.
  intros h addrs Hl. induction Hl as [| a n addrs Ha Hnin Hl IH];
    intros fuel lastMatch Hf.
  - left. split; [destruct fuel; reflexivity |]. intros a Ha. inversion Ha.
  - destruct fuel as [| fuel]; [cbn in Hf; lia |].
    cbn [FindLast_walk]. rewrite Ha. cbn [of_option bind].
    destruct (Z.eqb_spec (Compare (key n) searchKey) 0) as [E | NE].
    + destruct (IH fuel (Some a) ltac:(cbn in Hf; lia))
        as [[Hr Hnone] | (b & pre & post & Hr & -> & Hm & Hpost)].
      * right. exists a, [], addrs. split; [exact Hr |].
        split; [reflexivity |]. split; [exists n; auto | exact Hnone].
      * right. exists b, (a :: pre), post. split; [exact Hr |].
        split; [reflexivity |]. split; [exact Hm | exact Hpost].
    + assert (Hna : ~ matches mem searchKey a).
      { intros (n' & Hn' & Hc). congruence. }
      destruct (IH fuel lastMatch ltac:(cbn in Hf; lia))
        as [[Hr Hnone] | (b & pre & post & Hr & -> & Hm & Hpost)].
      * left. split; [exact Hr |]. intros c Hc.
        apply elem_of_cons in Hc as [-> | Hc]; [exact Hna | apply Hnone; exact Hc].
      * right. exists b, (a :: pre), post. split; [exact Hr |].
        split; [reflexivity |]. split; [exact Hm | exact Hpost].
Qed.

(** X8.  On a well-linked list [FindLast_Unsafe] returns: null when no
    node of the list carries the key, and otherwise the node carrying it
    that is farthest from the head. *)
Theorem FindLast_Unsafe_last_match (l : SimpleLinkedList)
  (mem : gmap Z Node_T) (addrs : list Z) (searchKey : Key_T) (fuel : nat) :
  is_list mem (pHead l) addrs -> (length addrs <= fuel)%nat ->
  (FindLast_Unsafe fuel searchKey l mem = Ok None /\
   forall a, a ∈ addrs -> ~ matches mem searchKey a)
  \/ exists a pre post,
       FindLast_Unsafe fuel searchKey l mem = Ok (Some a) /\
       addrs = pre ++ a :: post /\ matches mem searchKey a /\
       forall b, b ∈ post -> ~ matches mem searchKey b.
Proof.
  intros Hl Hf. apply (FindLast_walk_last mem searchKey _ addrs Hl fuel None Hf).
Qed.

(** How a walk with a [prev] pointer is anchored: at the head of the list,
    or behind the node [b] whose [pNext] is [current]. *)
Definition anchored (l : SimpleLinkedList) (mem : gmap Z Node_T)
  (prev current : option Z) (addrs : list Z) : Prop :=
  match prev with
  | None => pHead l = current
  | Some b => (b ∉ addrs) /\ exists m, mem !! b = Some m /\ pNext m = current
  end.

(** What unlinking [a] from [pre ++ a :: post] leaves: the node [a] with a
    null [pNext], every key as it was, every node outside the list and
    other than [prev] untouched, and the list [pre ++ post] behind the
    anchor. *)
Definition unlinked (l : SimpleLinkedList) (mem : gmap Z Node_T)
  (prev : option Z) (a : Z) (pre post : list Z)
  (l' : SimpleLinkedList) (mem' : gmap Z Node_T) : Prop :=
  (exists n, mem !! a = Some n /\ mem' !! a = Some (set_pNext None n)) /\
  (forall c, key <$> (mem' !! c) = key <$> (mem !! c)) /\
  (forall c, c ∉ pre ++ a :: post -> prev <> Some c -> mem' !! c = mem !! c) /\
  lock l' = lock l /\
  match prev with
  | None => is_list mem' (pHead l') (pre ++ post)
  | Some b => l' = l /\ is_list mem' (Some b) (b :: pre ++ post)
  end.

(** Unlinking the node the walk is at. *)
Lemma unlink_current (l : SimpleLinkedList) (mem : gmap Z Node_T)
  (prev : option Z) (a : Z) (n : Node_T) (addrs : list Z) :
  mem !! a = Some n -> a ∉ addrs -> is_list mem (pNext n) addrs ->
  anchored l mem prev (Some a) (a :: addrs) ->
  exists l' mem',
    (do '(l1, mem1) <-
       match prev with
       | None => Ok (set_pHead l (pNext n), mem)
       | Some b =>
           do m <- of_option (mem !! b);
           Ok (l, <[b := set_pNext (pNext n) m]> mem)
       end;
     do n1 <- of_option (mem1 !! a);
     Ok (Some a, l1, <[a := set_pNext None n1]> mem1))
    = Ok (Some a, l', mem') /\
    unlinked l mem prev a [] addrs l' mem'.
Proof.
  intros Ha Hnin Hl Hanchor. destruct prev as [b |]; cbn [anchored] in Hanchor.
  - destruct Hanchor as (Hb & m & Hm & Hnext).
    apply not_elem_of_cons in Hb as [Hba Hb].
    rewrite Hm. cbn [of_option bind].
    rewrite lookup_insert_ne by congruence. rewrite Ha. cbn [of_option bind].
    eexists _, _. split; [reflexivity |].
    split; [| split; [| split; [| split; [reflexivity |]]]].
    + exists n. split; [exact Ha | apply lookup_insert_eq].
    + intros c. destruct (decide (c = a)) as [-> | Hca].
      * rewrite lookup_insert_eq, Ha. cbn. rewrite key_set_pNext. reflexivity.
      * rewrite lookup_insert_ne by congruence.
        destruct (decide (c = b)) as [-> | Hcb].
        -- rewrite lookup_insert_eq, Hm. cbn. rewrite key_set_pNext. reflexivity.
        -- rewrite lookup_insert_ne by congruence. reflexivity.
    + intros c Hc Hp. cbn [app] in Hc. apply not_elem_of_cons in Hc as [Hca _].
      rewrite !lookup_insert_ne by congruence. reflexivity.
    + split; [reflexivity |]. cbn [app].
      apply (is_list_cons _ b (set_pNext (pNext n) m)).
      * rewrite lookup_insert_ne by congruence. apply lookup_insert_eq.
      * exact Hb.
      * rewrite pNext_set_pNext.
        apply is_list_frame; [apply is_list_frame |]; assumption.
  - cbn [bind]. rewrite Ha. cbn [of_option bind].
    eexists _, _. split; [reflexivity |].
    split; [| split; [| split; [| split; [reflexivity |]]]].
    + exists n. split; [exact Ha | apply lookup_insert_eq].
    + intros c. destruct (decide (c = a)) as [-> | Hca].
      * rewrite lookup_insert_eq, Ha. cbn. rewrite key_set_pNext. reflexivity.
      * rewrite lookup_insert_ne by congruence. reflexivity.
    + intros c Hc _. cbn [app] in Hc. apply not_elem_of_cons in Hc as [Hca _].
      rewrite lookup_insert_ne by congruence. reflexivity.
    + cbn [app set_pHead pHead]. apply is_list_frame; assumption.
Qed.

(** Going on from a walk that found its node farther down the list. *)
Lemma unlinked_step (l : SimpleLinkedList) (mem : gmap Z Node_T)
  (prev : option Z) (a0 : Z) (n0 : Node_T) (a : Z) (pre post : list Z)
  (l' : SimpleLinkedList) (mem' : gmap Z Node_T) :
  mem !! a0 = Some n0 -> a0 ∉ pre ++ a :: post ->
  anchored l mem prev (Some a0) (a0 :: pre ++ a :: post) ->
  unlinked l mem (Some a0) a pre post l' mem' ->
  unlinked l mem prev a (a0 :: pre) post l' mem'.
Proof.
  intros Ha0 Hnin Hanchor (Hn & Hkeys & Hframe & Hlock & -> & Hlist).
  split; [exact Hn |]. split; [exact Hkeys |].
  split; [| split; [reflexivity |]].
  - intros c Hc Hp. cbn [app] in Hc. apply not_elem_of_cons in Hc as [Hca Hc].
    apply Hframe; [exact Hc | congruence].
  - destruct prev as [b |]; cbn [anchored] in Hanchor.
    + destruct Hanchor as (Hb & m & Hm & Hnext).
      apply not_elem_of_cons in Hb as [Hba Hb].
      split; [reflexivity |]. cbn [app].
      apply (is_list_cons _ b m).
      * rewrite Hframe; [exact Hm | exact Hb | congruence].
      * apply not_elem_of_cons. split; [exact Hba |].
        intros Hin. apply Hb. apply elem_of_app in Hin as [Hin | Hin];
          apply elem_of_app; [left | right; right]; exact Hin.
      * rewrite Hnext. exact Hlist.
    + cbn [app]. rewrite Hanchor. exact Hlist.
Qed.

Lemma Erase_walk_spec (l : SimpleLinkedList) (searchKey : Key_T) :
  forall mem current addrs, is_list mem current addrs ->
  forall fuel prev, (length addrs <= fuel)%nat ->
  anchored l mem prev current addrs ->
  (Erase_walk fuel l mem prev current searchKey = Ok (None, l, mem) /\
   forall a, a ∈ addrs -> ~ matches mem searchKey a)
  \/ exists a pre post l' mem',
       Erase_walk fuel l mem prev current searchKey = Ok (Some a, l', mem') /\
       addrs = pre ++ a :: post /\ matches mem searchKey a /\
       (forall b, b ∈ pre -> ~ matches mem searchKey b) /\
       unlinked l mem prev a pre post l' mem'.
Proof.
  intros mem current addrs Hl.
  induction Hl as [| a n addrs Ha Hnin Hl IH]; intros fuel prev Hf Hanchor.
  - left. split; [destruct fuel; reflexivity |]. intros a Ha. inversion Ha.
  - destruct fuel as [| fuel]; [cbn in Hf; lia |].
    cbn [Erase_walk]. rewrite Ha. cbn [of_option bind].
    destruct (Z.eqb_spec (Compare (key n) searchKey) 0) as [E | NE].
    + right.
      destruct (unlink_current l mem prev a n addrs Ha Hnin Hl Hanchor)
        as (l' & mem' & Hrun & Hun).
      exists a, [], addrs, l', mem'. split; [exact Hrun |].
      split; [reflexivity |]. split; [exists n; auto |].
      split; [intros b Hb; inversion Hb | exact Hun].
    + assert (Hna : ~ matches mem searchKey a).
      { intros (n' & Hn' & Hc). congruence. }
      destruct (IH fuel (Some a) ltac:(cbn in Hf; lia))
        as [[Hr Hnone] | (b & pre & post & l' & mem' & Hr & -> & Hm & Hpre & Hun)].
      { split; [exact Hnin |]. exists n. auto. }
      * left. split; [exact Hr |]. intros c Hc.
        apply elem_of_cons in Hc as [-> | Hc]; [exact Hna | apply Hnone; exact Hc].
      * right. exists b, (a :: pre), post, l', mem'. split; [exact Hr |].
        split; [reflexivity |]. split; [exact Hm |].
        split.
        -- intros c Hc. apply elem_of_cons in Hc as [-> | Hc];
             [exact Hna | apply Hpre; exact Hc].
        -- apply (unlinked_step l mem prev a n b pre post l' mem' Ha Hnin
                    Hanchor Hun).
Qed.

(** X9.  On a well-linked list [Erase_Unsafe] returns null and changes
    nothing when no node carries the key.  Otherwise it returns the first
    node carrying it, with the node's [pNext] set to null; the list then
    links the other nodes in their old order, every node keeps its key,
    nodes outside the list are untouched and the lock word is as it was. *)
Theorem Erase_Unsafe_unlinks_first_match (l : SimpleLinkedList)
  (mem : gmap Z Node_T) (addrs : list Z) (searchKey : Key_T) (fuel : nat) :
  is_list mem (pHead l) addrs -> (length addrs <= fuel)%nat ->
  (Erase_Unsafe fuel searchKey l mem = Ok (None, l, mem) /\
   forall a, a ∈ addrs -> ~ matches mem searchKey a)
  \/ exists a pre post l' mem',
       Erase_Unsafe fuel searchKey l mem = Ok (Some a, l', mem') /\
       addrs = pre ++ a :: post /\ matches mem searchKey a /\
       (forall b, b ∈ pre -> ~ matches mem searchKey b) /\
       is_list mem' (pHead l') (pre ++ post) /\
       (exists n, mem !! a = Some n /\ mem' !! a = Some (set_pNext None n)) /\
       (forall c, key <$> (mem' !! c) = key <$> (mem !! c)) /\
       (forall c, c ∉ addrs -> mem' !! c = mem !! c) /\
       lock l' = lock l.
Proof.
  intros Hl Hf.
  destruct (Erase_walk_spec l searchKey mem _ addrs Hl fuel None Hf eq_refl)
    as [Hnone | (a & pre & post & l' & mem' & Hr & -> & Hm & Hpre & Hun)];
    [left; exact Hnone |].
  right. exists a, pre, post, l', mem'.
  destruct Hun as (Hn & Hkeys & Hframe & Hlock & Hlist).
  split; [exact Hr |]. split; [reflexivity |]. split; [exact Hm |].
  split; [exact Hpre |]. split; [exact Hlist |]. split; [exact Hn |].
  split; [exact Hkeys |]. split; [| exact Hlock].
  intros c Hc. apply Hframe; [exact Hc | discriminate].
Qed.

Lemma EraseNode_walk_spec (l : SimpleLinkedList) (nodeToRemove : Z) :
  forall mem current addrs, is_list mem current addrs ->
  forall fuel prev, (length addrs <= fuel)%nat ->
  anchored l mem prev current addrs ->
  (EraseNode_walk fuel l mem prev current nodeToRemove = Ok (None, l, mem) /\
   nodeToRemove ∉ addrs)
  \/ exists pre post l' mem',
       EraseNode_walk fuel l mem prev current nodeToRemove
       = Ok (Some nodeToRemove, l', mem') /\
       addrs = pre ++ nodeToRemove :: post /\
       unlinked l mem prev nodeToRemove pre post l' mem'.
Proof.
  intros mem current addrs Hl.
  induction Hl as [| a n addrs Ha Hnin Hl IH]; intros fuel prev Hf Hanchor.
  - left. split; [destruct fuel; reflexivity | apply not_elem_of_nil].
  - destruct fuel as [| fuel]; [cbn in Hf; lia |].
    cbn [EraseNode_walk].
    destruct (Z.eqb_spec a nodeToRemove) as [<- | NE].
    + right. rewrite Ha. cbn [of_option bind].
      destruct (unlink_current l mem prev a n addrs Ha Hnin Hl Hanchor)
        as (l' & mem' & Hrun & Hun).
      exists [], addrs, l', mem'. split; [exact Hrun |].
      split; [reflexivity | exact Hun].
    + rewrite Ha. cbn [of_option bind].
      destruct (IH fuel (Some a) ltac:(cbn in Hf; lia))
        as [[Hr Hnone] | (pre & post & l' & mem' & Hr & -> & Hun)].
      { split; [exact Hnin |]. exists n. auto. }
      * left. split; [exact Hr |].
        apply not_elem_of_cons. split; [congruence | exact Hnone].
      * right. exists (a :: pre), post, l', mem'. split; [exact Hr |].
        split; [reflexivity |].
        apply (unlinked_step l mem prev a n nodeToRemove pre post l' mem'
                 Ha Hnin Hanchor Hun).
Qed.

(** X10.  [EraseNode_Unsafe] returns null and changes nothing for a null
    pointer and for a node that is not linked in the list.  For a node of
    the list it returns that node with its [pNext] set to null, and the
    list then links the other nodes in their old order, whatever keys the
    nodes carry. *)
Theorem EraseNode_Unsafe_unlinks_node (l : SimpleLinkedList)
  (mem : gmap Z Node_T) (addrs : list Z) (nodeToRemove : Z) (fuel : nat) :
  is_list mem (pHead l) addrs -> (length addrs <= fuel)%nat ->
  EraseNode_Unsafe fuel None l mem = Ok (None, l, mem) /\
(((nodeToRemove ∉ addrs) /\
    EraseNode_Unsafe fuel (Some nodeToRemove) l mem = Ok (None, l, mem))
   \/ exists pre post l' mem',
        EraseNode_Unsafe fuel (Some nodeToRemove) l mem
        = Ok (Some nodeToRemove, l', mem') /\
        addrs = pre ++ nodeToRemove :: post /\
        is_list mem' (pHead l') (pre ++ post) /\
        (exists n, mem !! nodeToRemove = Some n /\
                   mem' !! nodeToRemove = Some (set_pNext None n)) /\
        (forall c, key <$> (mem' !! c) = key <$> (mem !! c)) /\
        (forall c, c ∉ addrs -> mem' !! c = mem !! c)).
Proof.
  intros Hl Hf. split; [reflexivity |]. cbn [EraseNode_Unsafe].
  destruct (EraseNode_walk_spec l nodeToRemove mem _ addrs Hl fuel None Hf
              eq_refl)
    as [[Hr Hnone] | (pre & post & l' & mem' & Hr & -> & Hun)];
    [left; split; assumption |].
  right. exists pre, post, l', mem'.
  destruct Hun as (Hn & Hkeys & Hframe & Hlock & Hlist).
  split; [exact Hr |]. split; [reflexivity |]. split; [exact Hlist |].
  split; [exact Hn |]. split; [exact Hkeys |].
  intros c Hc. apply Hframe; [exact Hc | discriminate].
Qed.

(** X11.  [InsertUnique_Unsafe] returns false and changes nothing for a
    null pointer, and for a node whose key some node of the list already
    carries.  Otherwise it returns true with the node linked at the head,
    in front of the nodes the list held. *)
Theorem InsertUnique_Unsafe_refuses_duplicates (l : SimpleLinkedList)
  (mem : gmap Z Node_T) (addrs : list Z) (a : Z) (n : Node_T) (fuel : nat) :
  is_list mem (pHead l) addrs -> (length addrs <= fuel)%nat ->
  mem !! a = Some n -> a ∉ addrs ->
  InsertUnique_Unsafe fuel None l mem = Ok (false, l, mem) /\
  (((exists b, b ∈ addrs /\ matches mem (key n) b) /\
    InsertUnique_Unsafe fuel (Some a) l mem = Ok (false, l, mem))
   \/ ((forall b, b ∈ addrs -> ~ matches mem (key n) b) /\
       let mem' := <[a := set_pNext (pHead l) n]> mem in
       InsertUnique_Unsafe fuel (Some a) l mem
       = Ok (true, set_pHead l (Some a), mem') /\
       is_list mem' (Some a) (a :: addrs))).
Proof.
  intros Hl Hf Ha Hnin. split; [reflexivity |].
  unfold InsertUnique_Unsafe. rewrite Ha. cbn [of_option bind].
  destruct (Find_walk_first mem (key n) _ addrs Hl fuel Hf)
    as [[Hr Hnone] | (b & pre & post & Hr & -> & Hm & Hpre)].
  - right. split; [exact Hnone |]. unfold Find_Unsafe. rewrite Hr. cbn [bind].
    split; [reflexivity |].
    apply (is_list_cons _ a (set_pNext (pHead l) n)).
    + apply lookup_insert_eq.
    + exact Hnin.
    + rewrite pNext_set_pNext. apply is_list_frame; assumption.
  - left. split.
    + exists b. split; [| exact Hm]. apply elem_of_app. right. left.
    + unfold Find_Unsafe. rewrite Hr. reflexivity.
Qed.

End List.

(** A two-field node, and a list [8] in a store that also holds the
    unlinked node [16]. *)
Record demo_node : Type := { d_key : Z; d_next : option Z }.

Definition demo_LinkedNode : LinkedNode demo_node Z :=
  {| pNext := d_next;
     set_pNext := fun q n => {| d_key := d_key n; d_next := q |};
     key := d_key;
     pNext_set_pNext := fun q n => eq_refl;
     key_set_pNext := fun q n => eq_refl |}.

Definition demo_mem : gmap Z demo_node :=
  <[8 := {| d_key := 1; d_next := None |}]>
    (<[16 := {| d_key := 2; d_next := None |}]> ∅).

Definition demo_list : SimpleLinkedList := {| pHead := Some 8; lock := 0 |}.

Lemma Insert_links_at_head_witness :
  let l' := {| pHead := Some 16; lock := 0 |} in
  let mem' := <[16 := {| d_key := 2; d_next := Some 8 |}]> demo_mem in
  Insert_Unsafe (H := demo_LinkedNode) (Some 16) demo_list demo_mem
    = Ok (true, l', mem') /\
  Insert (H := demo_LinkedNode) (Some 16) demo_list demo_mem
    = Ok (true, l', mem') /\
  is_list (H := demo_LinkedNode) mem' (Some 16) [16; 8].
Proof.
  pose proof (Insert_links_at_head (H := demo_LinkedNode)
                demo_list demo_mem (Some 16)
                {| d_key := 2; d_next := None |} eq_refl) as [H1 [H2 H3]].
  split; [exact H1 | split].
  - apply H2. cbn. lia.
  - apply (H3 [8]).
    + apply (is_list_cons (H := demo_LinkedNode) _ 8
               {| d_key := 1; d_next := None |}).
      * reflexivity.
      * apply not_elem_of_nil.
      * constructor.
    + apply not_elem_of_cons. split; [discriminate | apply not_elem_of_nil].
Defined.

(** The list [16; 8] with keys 2 and 1, in a store that also holds the
    unlinked node [24] with key 3. *)
Definition demo_Compare (a b : Z) : Z :=
  if a <? b then -1 else if b <? a then 1 else 0.

Definition demo_mem2 : gmap Z demo_node :=
  <[8 := {| d_key := 1; d_next := None |}]>
    (<[16 := {| d_key := 2; d_next := Some 8 |}]>
       (<[24 := {| d_key := 3; d_next := None |}]> ∅)).

Definition demo_list2 : SimpleLinkedList := {| pHead := Some 16; lock := 0 |}.

Lemma demo_list2_linked :
  is_list (H := demo_LinkedNode) demo_mem2 (pHead demo_list2) [16; 8].
Proof.
  apply (is_list_cons (H := demo_LinkedNode) _ 16
           {| d_key := 2; d_next := Some 8 |}).
  - reflexivity.
  - apply not_elem_of_cons. split; [discriminate | apply not_elem_of_nil].
  - apply (is_list_cons (H := demo_LinkedNode) _ 8
             {| d_key := 1; d_next := None |}).
    + reflexivity.
    + apply not_elem_of_nil.
    + constructor.
Qed.

Lemma Find_Unsafe_first_match_witness :
  (Find_Unsafe (H := demo_LinkedNode) demo_Compare 2 1 demo_list2 demo_mem2
   = Ok None /\
   forall a, a ∈ [16; 8] ->
     ~ matches (H := demo_LinkedNode) demo_Compare demo_mem2 1 a)
  \/ exists a pre post,
       Find_Unsafe (H := demo_LinkedNode) demo_Compare 2 1 demo_list2 demo_mem2
       = Ok (Some a) /\
       [16; 8] = pre ++ a :: post /\
       matches (H := demo_LinkedNode) demo_Compare demo_mem2 1 a /\
       forall b, b ∈ pre ->
         ~ matches (H := demo_LinkedNode) demo_Compare demo_mem2 1 b.
Proof.
  apply (Find_Unsafe_first_match (H := demo_LinkedNode) demo_Compare
           demo_list2 demo_mem2 [16; 8] 1 2 demo_list2_linked).
  cbn. lia.
Defined.

Lemma FindLast_Unsafe_last_match_witness :
  (FindLast_Unsafe (H := demo_LinkedNode) demo_Compare 2 1 demo_list2 demo_mem2
   = Ok None /\
   forall a, a ∈ [16; 8] ->
     ~ matches (H := demo_LinkedNode) demo_Compare demo_mem2 1 a)
  \/ exists a pre post,
       FindLast_Unsafe (H := demo_LinkedNode) demo_Compare 2 1 demo_list2
         demo_mem2 = Ok (Some a) /\
       [16; 8] = pre ++ a :: post /\
       matches (H := demo_LinkedNode) demo_Compare demo_mem2 1 a /\
       forall b, b ∈ post ->
         ~ matches (H := demo_LinkedNode) demo_Compare demo_mem2 1 b.
Proof.
  apply (FindLast_Unsafe_last_match (H := demo_LinkedNode) demo_Compare
           demo_list2 demo_mem2 [16; 8] 1 2 demo_list2_linked).
  cbn. lia.
Defined.

Lemma Erase_Unsafe_unlinks_first_match_witness :
  exists l' mem',
    Erase_Unsafe (H := demo_LinkedNode) demo_Compare 2 1 demo_list2 demo_mem2
    = Ok (Some 8, l', mem') /\
    is_list (H := demo_LinkedNode) mem' (pHead l') [16].
Proof.
  destruct (Erase_Unsafe_unlinks_first_match (H := demo_LinkedNode)
              demo_Compare demo_list2 demo_mem2 [16; 8] 1 2 demo_list2_linked
              ltac:(cbn; lia))
    as [[Hr _] | (a & pre & post & l' & mem' & Hr & Haddrs & _ & _ & Hl & _)].
  - vm_compute in Hr. discriminate.
  - assert (Ha : a = 8).
    { vm_compute in Hr. injection Hr as Ha _ _. symmetry. exact Ha. }
    subst a. exists l', mem'. split; [exact Hr |].
    destruct pre as [| x [| y pre]]; cbn in Haddrs.
    + discriminate.
    + injection Haddrs as <- <-. exact Hl.
    + injection Haddrs as _ _ Hnil. destruct pre; discriminate.
Defined.

Lemma EraseNode_Unsafe_unlinks_node_witness :
  EraseNode_Unsafe (H := demo_LinkedNode) 2 (Some 24) demo_list2 demo_mem2
  = Ok (None, demo_list2, demo_mem2) /\
  exists l' mem',
    EraseNode_Unsafe (H := demo_LinkedNode) 2 (Some 16) demo_list2 demo_mem2
    = Ok (Some 16, l', mem') /\
    is_list (H := demo_LinkedNode) mem' (pHead l') [8].
Proof.
  split.
  - destruct (EraseNode_Unsafe_unlinks_node (H := demo_LinkedNode)
                demo_list2 demo_mem2 [16; 8] 24 2 demo_list2_linked
                ltac:(cbn; lia))
      as (_ & [[_ Hr] | (pre & post & l' & mem' & Hr & _)]).
    + exact Hr.
    + vm_compute in Hr. discriminate.
  - destruct (EraseNode_Unsafe_unlinks_node (H := demo_LinkedNode)
                demo_list2 demo_mem2 [16; 8] 16 2 demo_list2_linked
                ltac:(cbn; lia))
      as (_ & [[_ Hr] | (pre & post & l' & mem' & Hr & Haddrs & Hl & _)]).
    + vm_compute in Hr. discriminate.
    + exists l', mem'. split; [exact Hr |].
      destruct pre as [| x pre]; cbn in Haddrs.
      * injection Haddrs as <-. exact Hl.
      * injection Haddrs as <- Hrest. exfalso.
        destruct pre as [| y pre]; cbn in Hrest; [discriminate |].
        injection Hrest as _ Hrest. destruct pre; discriminate.
Defined.

Lemma InsertUnique_Unsafe_refuses_duplicates_witness :
  exists mem',
    InsertUnique_Unsafe (H := demo_LinkedNode) demo_Compare 2 (Some 24)
      demo_list2 demo_mem2
    = Ok (true, {| pHead := Some 24; lock := 0 |}, mem') /\
    is_list (H := demo_LinkedNode) mem' (Some 24) [24; 16; 8].
Proof.
  destruct (InsertUnique_Unsafe_refuses_duplicates (H := demo_LinkedNode)
              demo_Compare demo_list2 demo_mem2 [16; 8] 24
              {| d_key := 3; d_next := None |} 2 demo_list2_linked
              ltac:(cbn; lia) eq_refl)
    as (_ & [[_ Hr] | (_ & Hr & Hl)]).
  - apply not_elem_of_cons. split; [discriminate |].
    apply not_elem_of_cons. split; [discriminate | apply not_elem_of_nil].
  - vm_compute in Hr. discriminate.
  - eexists. split; [exact Hr | exact Hl].
Defined.

End SimpleLinkedList.

(** ** paging_object_pool.h

    A growing vector of pages, each holding a [FixedSizeObjectPool], and a
    free-page list threaded through the pages' [nextFreeIndex] whose head is
    a packed 64-bit word.

    A [Page*] is the page's position in [pPageList].  A [T*] is the page
    together with the offset of the object inside the page's slot array; the
    page component is what [Node::pageIndex], stamped by [Reserve] and never
    written again, holds for that object.

    [memory_util.h] is not part of the sources: whether [Util::NewAligned]
    yields a page or [nullptr] is the parameter [NewAligned], asked with the
    number of pages allocated so far. *)

Module PagingObjectPool.
Import AtomicUtil CountingSpinlock.
Module FP := FixedSizeObjectPool.

Record objptr : Type := mkPtr { ptr_page : Z; ptr_off : Z }.

Global Instance objptr_eq_dec : EqDecision objptr.
Proof. solve_decision. Defined.

Definition c_InvalidPageIndex : Z := 0x0FFFFFFF.
Definition c_TailPageIndex : Z := 0x0FFFFFFE.
Definition c_SwappingPageIndex : Z := 0x0FFFFFFD.
Definition c_MaxPages : Z := c_TailPageIndex - 1.

Definition c_bitIndexHeadPageIndex : Z := 0.
Definition c_bitIndexHeadNextIndex : Z := 28.
Definition c_bitIndexHeadCounter : Z := 56.
Definition c_headPageIndexMask : Z := Z.shiftl 0x0FFFFFFF c_bitIndexHeadPageIndex.
Definition c_headNextIndexMask : Z := Z.shiftl 0x0FFFFFFF c_bitIndexHeadNextIndex.
Definition c_headCounterMask : Z := Z.shiftl 0xFF c_bitIndexHeadCounter.

Definition c_emptyFreeListHeadIndex : Z :=
  Z.lor (Z.shiftl c_TailPageIndex c_bitIndexHeadNextIndex) c_TailPageIndex.

(** The three fields of a head word, as both list functions read them. *)
Definition headPageIndex (head : Z) : Z :=
  wrap32 (Z.shiftr (Z.land head c_headPageIndexMask) c_bitIndexHeadPageIndex).
Definition headNextIndex (head : Z) : Z :=
  wrap32 (Z.shiftr (Z.land head c_headNextIndexMask) c_bitIndexHeadNextIndex).
Definition headCounter (head : Z) : Z :=
  wrap8 (Z.shiftr (Z.land head c_headCounterMask) c_bitIndexHeadCounter).

(** The head word both list functions build. *)
Definition packHead (nextCounter nextHeadNextIndex nextHeadPageIndex : Z) : Z :=
  Z.lor (Z.lor (Z.shiftl nextCounter c_bitIndexHeadCounter)
               (Z.shiftl nextHeadNextIndex c_bitIndexHeadNextIndex))
        nextHeadPageIndex.

Section Paging.

Context {T : Type}.
Variable PageSize_T : Z.
Variable c_bitIndexSize : Z.
Variable sizeofNode : Z.
Variable NewAligned : Z -> bool.



Record Page : Type := mkPage {
  data : (FP.pool T);
  pageIndex : Z;
  nextFreeIndex : Z
}.

Record PagingObjectPool : Type := mkPaging {
  pageListLock : Z;
  pPageList : list (option Page);
  numPages : Z;
  pageCapacity : Z;
  count : Z;
  freeListHeadIndex : Z
}.

Definition empty : PagingObjectPool :=
  {| pageListLock := 0;
     pPageList := [];
     numPages := 0;
     pageCapacity := 0;
     count := 0;
     freeListHeadIndex := c_emptyFreeListHeadIndex |}.

Definition new_page : Page :=
  {| data := FP.empty PageSize_T c_bitIndexSize;
     pageIndex := 0;
     nextFreeIndex := c_InvalidPageIndex |}.

Definition set_pageListLock (P : PagingObjectPool) (v : Z) : PagingObjectPool :=
  {| pageListLock := v; pPageList := pPageList P; numPages := numPages P;
     pageCapacity := pageCapacity P; count := count P;
     freeListHeadIndex := freeListHeadIndex P |}.

Definition set_pPageList (P : PagingObjectPool) (l : list (option Page))
  : PagingObjectPool :=
  {| pageListLock := pageListLock P; pPageList := l; numPages := numPages P;
     pageCapacity := pageCapacity P; count := count P;
     freeListHeadIndex := freeListHeadIndex P |}.

Definition set_numPages (P : PagingObjectPool) (n : Z) : PagingObjectPool :=
  {| pageListLock := pageListLock P; pPageList := pPageList P; numPages := n;
     pageCapacity := pageCapacity P; count := count P;
     freeListHeadIndex := freeListHeadIndex P |}.

Definition set_pageCapacity (P : PagingObjectPool) (n : Z) : PagingObjectPool :=
  {| pageListLock := pageListLock P; pPageList := pPageList P;
     numPages := numPages P; pageCapacity := n; count := count P;
     freeListHeadIndex := freeListHeadIndex P |}.

Definition set_count (P : PagingObjectPool) (n : Z) : PagingObjectPool :=
  {| pageListLock := pageListLock P; pPageList := pPageList P;
     numPages := numPages P; pageCapacity := pageCapacity P; count := n;
     freeListHeadIndex := freeListHeadIndex P |}.

Definition set_freeListHeadIndex (P : PagingObjectPool) (h : Z)
  : PagingObjectPool :=
  {| pageListLock := pageListLock P; pPageList := pPageList P;
     numPages := numPages P; pageCapacity := pageCapacity P; count := count P;
     freeListHeadIndex := h |}.

(** [pPageList[i]], a [Page*]; [None] is a null entry or no entry. *)
Definition page_at (P : PagingObjectPool) (i : Z) : option Page :=
  mjoin (zlookup (pPageList P) i).

(** A store through the [Page*] at position [i]. *)
Definition set_page (P : PagingObjectPool) (i : Z) (pg : Page) : PagingObjectPool :=
  set_pPageList P (<[Z.to_nat i := Some pg]> (pPageList P)).

Definition set_nextFreeIndex (pg : Page) (n : Z) : Page :=
  {| data := data pg; pageIndex := pageIndex pg; nextFreeIndex := n |}.

Definition set_data (pg : Page) (d : (FP.pool T)) : Page :=
  {| data := d; pageIndex := pageIndex pg; nextFreeIndex := nextFreeIndex pg |}.

Definition set_pageIndex (pg : Page) (n : Z) : Page :=
  {| data := data pg; pageIndex := n; nextFreeIndex := nextFreeIndex pg |}.

(** [{ ScopedReadSpinLock readLock(pageListLock); pPage = pPageList[i]; }]:
    the lock is taken, the entry read, the lock released. *)
Definition locked_page_at (P : PagingObjectPool) (i : Z)
  : res (option Page * PagingObjectPool) :=
  do v <- AcquireReadOnlyAccess (pageListLock P);
  Ok (page_at P i, set_pageListLock P (ReleaseReadOnlyAccess v)).

(** [PushPageToFreeList].  With no other thread in between, the first
    compare-and-swap of [nextFreeIndex] succeeds when the field is
    [c_InvalidPageIndex], and so does the one of the head word.  When the
    index check fails the assertion fires and the do-while repeats on an
    unchanged state. *)
Definition PushPageToFreeList (pPage : option Z) (P : PagingObjectPool)
  : res PagingObjectPool :=
  match pPage with
  | None => Ok P
  | Some i =>
      do pg <- of_option (page_at P i);
      let '(bSetNextIndex, nfi) :=
        if nextFreeIndex pg =? c_InvalidPageIndex
        then AtomicCompareExchange (nextFreeIndex pg)
               c_SwappingPageIndex c_InvalidPageIndex
        else (false, nextFreeIndex pg) in
      let pg1 := set_nextFreeIndex pg nfi in
      let P1 := set_page P i pg1 in
      if bSetNextIndex then
        let currFreeListHeadIndex := freeListHeadIndex P1 in
        let currFreeListHeadPageIndex := headPageIndex currFreeListHeadIndex in
        let currCounter := headCounter currFreeListHeadIndex in
        let nextHeadPageIndex := pageIndex pg1 in
        let nextHeadNextIndex := currFreeListHeadPageIndex in
        let nextCounter := wrap8 (currCounter + 1) in
        if (nextHeadPageIndex <? numPages P1)
           && ((nextHeadNextIndex <? numPages P1)
               || (nextHeadNextIndex =? c_TailPageIndex))
        then
          let nextFreeListHeadIndex :=
            packHead nextCounter nextHeadNextIndex nextHeadPageIndex in
          let P2 :=
            set_page P1 i (set_nextFreeIndex pg1 currFreeListHeadPageIndex) in
          Ok (set_freeListHeadIndex P2 nextFreeListHeadIndex)
        else Timeout
      else Ok P
  end.

(** [PopPageFromFreeList].  The loop either pops on its first round or
    repeats on an unchanged state. *)
Definition PopPageFromFreeList (P : PagingObjectPool)
  : res (option Z * PagingObjectPool) :=
  let currFreeListHeadIndex := freeListHeadIndex P in
  let currFreeListHeadPageIndex := headPageIndex currFreeListHeadIndex in
  let currFreeListHeadNextIndex := headNextIndex currFreeListHeadIndex in
  let currCounter := headCounter currFreeListHeadIndex in
  do '(poppedPageIndex, P1) <-
    (if currFreeListHeadPageIndex <? numPages P then
       do '(pNextPage, P0) <-
         (if currFreeListHeadNextIndex <? numPages P
          then locked_page_at P currFreeListHeadNextIndex
          else Ok (None, P));
       let nextHeadPageIndex := currFreeListHeadNextIndex in
       let nextHeadNextIndex :=
         match pNextPage with
         | Some pg => nextFreeIndex pg
         | None => c_TailPageIndex
         end in
       let nextCounter := wrap8 (currCounter + 1) in
       if negb (nextHeadNextIndex =? c_InvalidPageIndex)
          && negb (nextHeadNextIndex =? c_SwappingPageIndex)
       then
         let nextFreeListHeadIndex :=
           packHead nextCounter nextHeadNextIndex nextHeadPageIndex in
         Ok (currFreeListHeadPageIndex,
             set_freeListHeadIndex P0 nextFreeListHeadIndex)
       else Timeout
     else if currFreeListHeadPageIndex =? c_TailPageIndex then
       Ok (c_TailPageIndex, P)
     else Timeout);
  if poppedPageIndex <? numPages P1 then
    do '(pPoppedPage, P2) <- locked_page_at P1 poppedPageIndex;
    do pg <- of_option pPoppedPage;
    Ok (Some poppedPageIndex,
        set_page P2 poppedPageIndex (set_nextFreeIndex pg c_InvalidPageIndex))
  else Ok (None, P1).

(** The page vector after [AllocateNewPage] has grown it. *)
Definition grow_page_list (l : list (option Page)) (pageCapacity newPageCapacity : Z)
  : list (option Page) :=
  take (Z.to_nat newPageCapacity)
       (take (Z.to_nat pageCapacity) l
        ++ replicate (Z.to_nat newPageCapacity) None).

Definition c_initialPageCapacity : Z := 4.

(** [AllocateNewPage].  A null page from [Util::NewAligned] is written
    through ([pNewPage->pageIndex = ...]) before it is tested. *)
Definition AllocateNewPage (P : PagingObjectPool) : res (option Z * PagingObjectPool) :=
  let pNewPage := if NewAligned (numPages P) then Some new_page else None in
  do v <- AcquireReadOnlyAccess (pageListLock P);
  let P0 := set_pageListLock P v in
  let '(newNumPages, n') := AtomicIncrementU32 (numPages P0) in
  let P1 := set_numPages P0 n' in
  do P2 <-
    (if pageCapacity P1 <? newNumPages then
       do w <- ConvertFromReadToWriteLock (pageListLock P1);
       let newPageCapacity :=
         if pageCapacity P1 =? 0 then c_initialPageCapacity
         else wrap32 (pageCapacity P1 * 2) in
       let newPageCapacity :=
         if newPageCapacity <? newNumPages then wrap32 (newNumPages * 2)
         else newPageCapacity in
       let l := grow_page_list (pPageList P1) (pageCapacity P1) newPageCapacity in
       let P' := set_pageCapacity (set_pPageList P1 l) newPageCapacity in
       (* readLock = std::move(writeLock): ConvertFromWriteToReadLock *)
       let w1 := snd (AtomicIncrementU32 w) in
       let w2 := snd (AtomicSubtractU32 w1 c_multiReaderWriter_WriteIncrement) in
       if negb (Z.land w2 c_multiReaderWriter_WriteMask =? 0) then Timeout
       else Ok (set_pageListLock P' w2)
     else Ok P1);
  let newPageIndex := wrap32 (newNumPages - 1) in
  match pNewPage with
  | None => Fault
  | Some pg =>
      let P3 := set_page P2 newPageIndex (set_pageIndex pg newPageIndex) in
      let P4 := set_pageListLock P3 (ReleaseReadOnlyAccess (pageListLock P3)) in
      do P5 <- PushPageToFreeList (Some newPageIndex) P4;
      Ok (Some newPageIndex, P5)
  end.

(** [PreallocateSpace]'s loop. *)
Fixpoint AllocatePages (n : nat) (P : PagingObjectPool) : res PagingObjectPool :=
  match n with
  | O => Ok P
  | S n' => do '(_, P1) <- AllocateNewPage P; AllocatePages n' P1
  end.

Definition c_PageSize : Z := wrap32 PageSize_T.

Definition PreallocateSpace (numObjects : Z) (P : PagingObjectPool)
  : res PagingObjectPool :=
  let numPagesNeeded := wrap32 (wrap32 (numObjects + c_PageSize) - 1) / c_PageSize in
  AllocatePages (Z.to_nat numPagesNeeded) P.

(** The do-while of [Reserve]; [fuel] bounds its rounds. *)
Fixpoint Reserve_loop (fuel : nat) (x : T) (P : PagingObjectPool)
  : res (option objptr * PagingObjectPool) :=
  match fuel with
  | O => Timeout
  | S fuel' =>
      do '(pPageWithSpace, P1) <- PopPageFromFreeList P;
      match pPageWithSpace with
      | Some i =>
          do pg <- of_option (page_at P1 i);
          let '(pSelectedNode, d) :=
            FP.Reserve PageSize_T c_bitIndexSize sizeofNode x (data pg) in
          let pg1 := set_data pg d in
          let P2 := set_page P1 i pg1 in
          match pSelectedNode with
          | Some off =>
              let P3 := set_count P2 (snd (AtomicIncrementU32 (count P2))) in
              do P4 <-
                (if negb (FP.IsFull PageSize_T (data pg1))
                 then PushPageToFreeList (Some i) P3
                 else Ok P3);
              Ok (Some {| ptr_page := pageIndex pg1; ptr_off := off |}, P4)
          | None => Reserve_loop fuel' x P2
          end
      | None =>
          do '(_, P2) <- AllocateNewPage P1;
          Reserve_loop fuel' x P2
      end
  end.

Definition Reserve (fuel : nat) (x : T) (P : PagingObjectPool)
  : res (option objptr * PagingObjectPool) :=
  Reserve_loop fuel x P.

Definition Release (pObject : option objptr) (P : PagingObjectPool)
  : res (bool * PagingObjectPool) :=
  match pObject with
  | None => Ok (false, P)
  | Some pNode =>
      let pageIndex := ptr_page pNode in
      if pageIndex <? numPages P then
        do '(pPage, P1) <- locked_page_at P pageIndex;
        do pg <- of_option pPage;
        let '(bReleased, d) :=
          FP.Release PageSize_T c_bitIndexSize sizeofNode (ptr_off pNode) (data pg) in
        let P2 := set_page P1 pageIndex (set_data pg d) in
        let P3 :=
          if bReleased
          then set_count P2 (snd (AtomicDecrementU32 (count P2)))
          else P2 in
        do P4 <- PushPageToFreeList (Some pageIndex) P3;
        Ok (bReleased, P4)
      else Ok (false, P)
  end.

Definition GetCapacity (P : PagingObjectPool) : Z :=
  wrap32 (numPages P * PageSize_T).

Definition Clear (P : PagingObjectPool) : PagingObjectPool :=
  {| pageListLock := pageListLock P;
     pPageList := [];
     numPages := 0;
     pageCapacity := 0;
     count := 0;
     freeListHeadIndex := c_emptyFreeListHeadIndex |}.

Definition Size (P : PagingObjectPool) : Z := count P.

(** Reading and writing the object a [T*] points to. *)
Definition load (P : PagingObjectPool) (p : objptr) : option T :=
  pg ← page_at P (ptr_page p);
  FP.deref PageSize_T sizeofNode (data pg) (ptr_off p).

Definition store (P : PagingObjectPool) (p : objptr) (x : T) : PagingObjectPool :=
  match page_at P (ptr_page p) with
  | Some pg =>
      set_page P (ptr_page p)
        (set_data pg (FP.assign PageSize_T sizeofNode (data pg) (ptr_off p) x))
  | None => P
  end.

(** *** The free-page list at rest

    [free_chain P i l]: following [nextFreeIndex] from page [i] visits the
    pages [l], each once, and ends at [c_TailPageIndex].  A page is
    enqueued when it is one of the pages the chain from the head visits. *)

Inductive free_chain (P : PagingObjectPool) : Z -> list Z -> Prop :=
| chain_tail : free_chain P c_TailPageIndex []
| chain_page i pg l :
    0 <= i < numPages P ->
    page_at P i = Some pg ->
    i ∉ l ->
    free_chain P (nextFreeIndex pg) l ->
    free_chain P i (i :: l).

(** The page after page [i] on the list, as [PopPageFromFreeList] reads
    it. *)
Definition next_of (P : PagingObjectPool) (i : Z) : Z :=
  match (if i <? numPages P then page_at P i else None) with
  | Some pg => nextFreeIndex pg
  | None => c_TailPageIndex
  end.

(** The state of the free-page list between two calls, [l] being the
    enqueued pages from the head on. *)
Record free_list_wf (P : PagingObjectPool) (l : list Z) : Prop := {
  wf_lock : pageListLock P = 0;
  wf_numPages : 0 <= numPages P <= c_MaxPages;
  wf_pages : forall i, 0 <= i < numPages P ->
      exists pg, page_at P i = Some pg /\ pageIndex pg = i;
  wf_chain : free_chain P (headPageIndex (freeListHeadIndex P)) l;
  wf_headNext :
      headNextIndex (freeListHeadIndex P)
      = next_of P (headPageIndex (freeListHeadIndex P));
  wf_offlist : forall i pg, 0 <= i < numPages P -> page_at P i = Some pg ->
      (nextFreeIndex pg = c_InvalidPageIndex <-> i ∉ l);
  wf_capacity :
      Z.of_nat (length (pPageList P)) = pageCapacity P /\
      numPages P <= pageCapacity P <= 2 ^ 29
}.

(** *** Theorems *)

Lemma testbit_small (x w k : Z) :
  0 <= x < 2 ^ w -> w <= k -> Z.testbit x k = false.
Proof.
  intros Hx Hk.
  destruct (Z.eq_dec x 0) as [-> | Hx0]; [apply Z.bits_0 |].
  apply Z.bits_above_log2; [lia |].
  assert (0 <= w).
  { destruct (Z_lt_dec w 0); [| lia]. rewrite Z.pow_neg_r in Hx by lia. lia. }
  assert (Z.log2 x < w) by (apply Z.log2_lt_pow2; lia). lia.
Qed.

Lemma headPageIndex_packHead (c n h : Z) :
  0 <= c < 2 ^ 8 -> 0 <= n < 2 ^ 28 -> 0 <= h < 2 ^ 28 ->
  headPageIndex (packHead c n h) = h.
Proof.
  intros Hc Hn Hh. unfold headPageIndex, packHead.
  change c_headPageIndexMask with (Z.ones 28).
  change c_bitIndexHeadPageIndex with 0.
  change c_bitIndexHeadNextIndex with 28.
  change c_bitIndexHeadCounter with 56.
  rewrite Z.shiftr_0_r.
  assert (E : Z.land (Z.lor (Z.lor (Z.shiftl c 56) (Z.shiftl n 28)) h)
                (Z.ones 28) = h).
  { apply Z.bits_inj'. intros k Hk.
    rewrite Z.land_spec, !Z.lor_spec, !Z.shiftl_spec by lia.
    destruct (Z_lt_dec k 28).
    - rewrite Z.ones_spec_low by lia.
      rewrite (Z.testbit_neg_r c), (Z.testbit_neg_r n) by lia.
      cbn. apply andb_true_r.
    - rewrite Z.ones_spec_high by lia.
      rewrite (testbit_small h 28 k) by lia. apply andb_false_r. }
  rewrite E. apply Z.mod_small. lia.
Qed.

Lemma headNextIndex_packHead (c n h : Z) :
  0 <= c < 2 ^ 8 -> 0 <= n < 2 ^ 28 -> 0 <= h < 2 ^ 28 ->
  headNextIndex (packHead c n h) = n.
Proof.
  intros Hc Hn Hh. unfold headNextIndex, packHead.
  change c_headNextIndexMask with (Z.shiftl (Z.ones 28) 28).
  change c_bitIndexHeadNextIndex with 28.
  change c_bitIndexHeadCounter with 56.
  assert (E : Z.shiftr (Z.land (Z.lor (Z.lor (Z.shiftl c 56) (Z.shiftl n 28)) h)
                          (Z.shiftl (Z.ones 28) 28)) 28 = n).
  { apply Z.bits_inj'. intros k Hk.
    rewrite Z.shiftr_spec, Z.land_spec, !Z.lor_spec, !Z.shiftl_spec by lia.
    replace (k + 28 - 28) with k by lia.
    rewrite (testbit_small h 28 (k + 28)) by lia.
    destruct (Z_lt_dec k 28).
    - rewrite Z.ones_spec_low by lia.
      rewrite (Z.testbit_neg_r c) by lia.
      cbn. rewrite orb_false_r. apply andb_true_r.
    - rewrite Z.ones_spec_high by lia.
      rewrite (testbit_small n 28 k) by lia. apply andb_false_r. }
  rewrite E. apply Z.mod_small. lia.
Qed.

Lemma free_chain_start (P : PagingObjectPool) (i : Z) (l : list Z) :
  free_chain P i l ->
  (i = c_TailPageIndex /\ l = []) \/
  (0 <= i < numPages P /\ exists l', l = i :: l').
Proof. intros Hc. destruct Hc; [left | right]; eauto. Qed.

Lemma page_at_set_page (P : PagingObjectPool) (i j : Z) (pg0 pg : Page) :
  page_at P i = Some pg0 ->
  page_at (set_page P i pg) j = if decide (j = i) then Some pg else page_at P j.
Proof.
  unfold page_at, set_page. cbn [pPageList set_pPageList]. intros Hi.
  destruct (zlookup (pPageList P) i) as [o |] eqn:E; [| discriminate].
  apply zlookup_lt in E.
  rewrite zlookup_insert by exact E.
  destruct (decide (j = i)); reflexivity.
Qed.

Lemma free_chain_frame (P : PagingObjectPool) (i : Z) (pg0 pg : Page) :
  page_at P i = Some pg0 ->
  forall s l, free_chain P s l -> i ∉ l ->
    free_chain (set_page P i pg) s l.
Proof.
  intros Hi s l Hc. induction Hc as [| j pgj l Hj Hpj Hnin Hc IH]; intros Hil.
  - constructor.
  - apply not_elem_of_cons in Hil as [Hne Hil].
    apply (chain_page _ j pgj); try assumption.
    + rewrite (page_at_set_page _ _ _ pg0) by assumption.
      destruct (decide (j = i)); [congruence | assumption].
    + apply IH. assumption.
Qed.

Lemma free_chain_ext (P Q : PagingObjectPool) :
  numPages Q = numPages P -> pPageList Q = pPageList P ->
  forall s l, free_chain P s l -> free_chain Q s l.
Proof.
  intros Hn Hl s l Hc. induction Hc as [| j pgj l Hj Hpj Hnin Hc IH].
  - constructor.
  - apply (chain_page _ j pgj); try assumption; [lia |].
    unfold page_at in *. rewrite Hl. assumption.
Qed.

Lemma locked_page_at_free (P : PagingObjectPool) (i : Z) :
  pageListLock P = 0 -> locked_page_at P i = Ok (page_at P i, P).
Proof.
  intros Hl. unfold locked_page_at. rewrite Hl. cbn.
  destruct P; cbn in *. subst. reflexivity.
Qed.

(** A page that is not off the list is left alone by a push: the whole pool
    is unchanged. *)
Lemma Push_enqueued_aborts (P : PagingObjectPool) (i : Z) (pg : Page) :
  page_at P i = Some pg ->
  nextFreeIndex pg <> c_InvalidPageIndex ->
  PushPageToFreeList (Some i) P = Ok P.
Proof.
  intros Hi Hn. unfold PushPageToFreeList. rewrite Hi. cbn [of_option bind].
  destruct (Z.eqb_spec (nextFreeIndex pg) c_InvalidPageIndex); [contradiction |].
  reflexivity.
Qed.

Lemma free_chain_head_range (P : PagingObjectPool) (l : list Z) :
  0 <= numPages P <= c_MaxPages ->
  free_chain P (headPageIndex (freeListHeadIndex P)) l ->
  0 <= headPageIndex (freeListHeadIndex P) < 2 ^ 28 /\
  ((headPageIndex (freeListHeadIndex P) <? numPages P)
   || (headPageIndex (freeListHeadIndex P) =? c_TailPageIndex) = true) /\
  headPageIndex (freeListHeadIndex P) <> c_InvalidPageIndex.
Proof.
  intros Hn Hc. unfold c_MaxPages in Hn.
  destruct (free_chain_start _ _ _ Hc) as [[-> _] | [Hr _]].
  - repeat split; try reflexivity; try discriminate.
    rewrite Z.eqb_refl. apply orb_true_r.
  - unfold c_TailPageIndex, c_InvalidPageIndex in *. repeat split; lia.
Qed.

(** The pool after a push of the off-list page [i], whose record is [pg]. *)
Definition pushed (P : PagingObjectPool) (i : Z) (pg : Page) : PagingObjectPool :=
  let h := freeListHeadIndex P in
  set_freeListHeadIndex
    (set_page (set_page P i (set_nextFreeIndex pg c_SwappingPageIndex)) i
       (set_nextFreeIndex (set_nextFreeIndex pg c_SwappingPageIndex)
          (headPageIndex h)))
    (packHead (wrap8 (headCounter h + 1)) (headPageIndex h) (pageIndex pg)).

Lemma Push_offlist (P : PagingObjectPool) (l : list Z) (i : Z) (pg : Page) :
  free_list_wf P l ->
  0 <= i < numPages P -> page_at P i = Some pg -> i ∉ l ->
  PushPageToFreeList (Some i) P = Ok (pushed P i pg) /\
  free_list_wf (pushed P i pg) (i :: l).
Proof.
  intros Hwf Hi Hpg Hnin.
  destruct Hwf as [Hlock Hn Hpages Hchain Hnext Hoff Hcap].
  destruct (free_chain_head_range P l Hn Hchain) as (Hhr & Hhok & Hhinv).
  assert (Hinv : nextFreeIndex pg = c_InvalidPageIndex)
    by (apply (Hoff i pg); assumption).
  destruct (Hpages i Hi) as (pg' & Hpg' & Hidx).
  rewrite Hpg in Hpg'. injection Hpg' as <-.
  assert (Hi28 : 0 <= i < 2 ^ 28) by (unfold c_MaxPages, c_TailPageIndex in Hn; lia).
  assert (Hc8 : 0 <= wrap8 (headCounter (freeListHeadIndex P) + 1) < 2 ^ 8)
    by (apply Z.mod_pos_bound; lia).
  split.
  - unfold PushPageToFreeList. rewrite Hpg. cbn [of_option bind].
    rewrite Hinv, Z.eqb_refl. unfold AtomicCompareExchange.
    rewrite Z.eqb_refl.
    cbn [set_page set_pPageList set_nextFreeIndex pageIndex numPages
         freeListHeadIndex].
    rewrite Hidx.
    destruct (Z.ltb_spec i (numPages P)); [| lia].
    rewrite Hhok. cbn [andb]. unfold pushed. rewrite Hidx. reflexivity.
  - set (pg1 := set_nextFreeIndex pg c_SwappingPageIndex).
    set (pg2 := set_nextFreeIndex pg1 (headPageIndex (freeListHeadIndex P))).
    assert (Hp1 : page_at (set_page P i pg1) i = Some pg1).
    { rewrite (page_at_set_page _ _ _ pg) by assumption.
      destruct (decide (i = i)); [reflexivity | contradiction]. }
    assert (Hat : forall j, page_at (pushed P i pg) j
                            = if decide (j = i) then Some pg2 else page_at P j).
    { intros j.
      change (page_at (pushed P i pg) j)
        with (page_at (set_page (set_page P i pg1) i pg2) j).
      rewrite (page_at_set_page _ _ _ pg1) by assumption.
      destruct (decide (j = i)); [reflexivity |].
      rewrite (page_at_set_page _ _ _ pg) by assumption.
      destruct (decide (j = i)); [contradiction | reflexivity]. }
    assert (Hhead : headPageIndex (freeListHeadIndex (pushed P i pg)) = i).
    { unfold pushed. cbn [set_freeListHeadIndex freeListHeadIndex].
      rewrite Hidx. apply headPageIndex_packHead; lia. }
    assert (Hhnext : headNextIndex (freeListHeadIndex (pushed P i pg))
                     = headPageIndex (freeListHeadIndex P)).
    { unfold pushed. cbn [set_freeListHeadIndex freeListHeadIndex].
      rewrite Hidx. apply headNextIndex_packHead; lia. }
    split.
    + exact Hlock.
    + exact Hn.
    + intros j Hj. rewrite Hat.
      destruct (decide (j = i)) as [-> | Hne].
      * exists pg2. split; [reflexivity | exact Hidx].
      * apply Hpages. exact Hj.
    + rewrite Hhead.
      apply (chain_page _ i pg2); [exact Hi | | exact Hnin |].
      * rewrite Hat. destruct (decide (i = i)); [reflexivity | contradiction].
      * cbn [pg2 set_nextFreeIndex nextFreeIndex].
        apply (free_chain_ext (set_page (set_page P i pg1) i pg2));
          [reflexivity | reflexivity |].
        apply (free_chain_frame _ _ pg1); [exact Hp1 | | exact Hnin].
        apply (free_chain_frame _ _ pg); assumption.
    + rewrite Hhnext, Hhead. unfold next_of.
      change (numPages (pushed P i pg)) with (numPages P).
      destruct (Z.ltb_spec i (numPages P)); [| lia].
      rewrite Hat.
      destruct (decide (i = i)); [reflexivity | contradiction].
    + intros j pgj Hj. rewrite Hat.
      destruct (decide (j = i)) as [-> | Hne]; intros Hpj.
      * injection Hpj as <-. cbn [pg2 set_nextFreeIndex nextFreeIndex].
        split; [intros E; contradiction |].
        intros E. exfalso. apply E. apply elem_of_cons. left. reflexivity.
      * rewrite (Hoff j pgj Hj Hpj). rewrite not_elem_of_cons. tauto.
    + unfold pushed.
      cbn [set_freeListHeadIndex set_page set_pPageList pPageList pageCapacity
           numPages].
      rewrite !length_insert. exact Hcap.
Qed.

Lemma free_chain_cons_inv (P : PagingObjectPool) (s i : Z) (l : list Z) :
  free_chain P s (i :: l) ->
  s = i /\ 0 <= i < numPages P /\
  exists pg, page_at P i = Some pg /\ (i ∉ l) /\
             free_chain P (nextFreeIndex pg) l.
Proof. intros Hc. inversion Hc; subst. eauto 8. Qed.

Lemma Pop_empty (P : PagingObjectPool) :
  free_list_wf P [] -> PopPageFromFreeList P = Ok (None, P).
Proof.
  intros [Hlock Hn Hpages Hchain Hnext Hoff Hcap].
  unfold c_MaxPages in Hn.
  destruct (free_chain_start _ _ _ Hchain) as [[Hh _] | [_ [l' Hl']]];
    [| discriminate].
  unfold PopPageFromFreeList. rewrite Hh.
  destruct (Z.ltb_spec c_TailPageIndex (numPages P)); [lia |].
  rewrite Z.eqb_refl. cbn [bind].
  destruct (Z.ltb_spec c_TailPageIndex (numPages P)); [lia | reflexivity].
Qed.

(** The pool after a pop from a non-empty list. *)
Definition popped (P : PagingObjectPool) : PagingObjectPool :=
  let h := freeListHeadIndex P in
  let n := headNextIndex h in
  match page_at P (headPageIndex h) with
  | Some pg =>
      set_page
        (set_freeListHeadIndex P
           (packHead (wrap8 (headCounter h + 1)) (next_of P n) n))
        (headPageIndex h) (set_nextFreeIndex pg c_InvalidPageIndex)
  | None => P
  end.

Lemma Pop_nonempty (P : PagingObjectPool) (i : Z) (l : list Z) :
  free_list_wf P (i :: l) ->
  PopPageFromFreeList P = Ok (Some i, popped P) /\
  free_list_wf (popped P) l /\
  exists pg, page_at P i = Some pg /\
             page_at (popped P) i = Some (set_nextFreeIndex pg c_InvalidPageIndex).
Proof.
  intros [Hlock Hn Hpages Hchain Hnext Hoff Hcap].
  destruct (free_chain_cons_inv _ _ _ _ Hchain)
    as (Ehead & Hi & pg & Hpg & Hnin & Hrest).
  set (h := freeListHeadIndex P) in *.
  set (n := headNextIndex h) in *.
  assert (Hnn : n = nextFreeIndex pg).
  { rewrite Hnext, Ehead. unfold next_of.
    destruct (Z.ltb_spec i (numPages P)); [| lia]. rewrite Hpg. reflexivity. }
  assert (HM : numPages P < c_TailPageIndex) by (unfold c_MaxPages in Hn; lia).
  (* what the list holds after page [i] *)
  assert (Hafter :
    0 <= n < 2 ^ 28 /\ 0 <= next_of P n < 2 ^ 28 /\
    next_of P n <> c_InvalidPageIndex /\ next_of P n <> c_SwappingPageIndex /\
    free_chain P n l /\
    (do '(pNextPage, P0) <-
       (if n <? numPages P then locked_page_at P n else Ok (None, P));
     Ok (match pNextPage with
         | Some pg => nextFreeIndex pg
         | None => c_TailPageIndex
         end, P0)) = Ok (next_of P n, P)).
  { rewrite <- Hnn in Hrest.
    assert (ET : c_TailPageIndex = 268435454) by reflexivity.
    assert (EI : c_InvalidPageIndex = 268435455) by reflexivity.
    assert (ES : c_SwappingPageIndex = 268435453) by reflexivity.
    unfold c_MaxPages in Hn.
    destruct (free_chain_start _ _ _ Hrest) as [[Etail ->] | [Hj [l'' ->]]].
    - unfold next_of. rewrite Etail.
      destruct (Z.ltb_spec c_TailPageIndex (numPages P)); [lia |].
      cbn [bind]. repeat split; try lia. constructor.
    - destruct (free_chain_cons_inv _ _ _ _ Hrest)
        as (_ & _ & pgj & Hpj & Hjn & Hrest').
      unfold next_of. rewrite locked_page_at_free by assumption.
      destruct (Z.ltb_spec n (numPages P)); [| lia].
      cbn [bind]. rewrite Hpj.
      destruct (free_chain_start _ _ _ Hrest') as [[Et _] | [Hr _]];
        repeat split; try lia; try exact Hrest. }
  destruct Hafter as (Hn28 & Hnn28 & Hninv & Hnsw & Hchain_n & Hread).
  assert (Hc8 : 0 <= wrap8 (headCounter h + 1) < 2 ^ 8)
    by (apply Z.mod_pos_bound; lia).
  assert (Hpop : popped P =
     set_page (set_freeListHeadIndex P
                 (packHead (wrap8 (headCounter h + 1)) (next_of P n) n))
       i (set_nextFreeIndex pg c_InvalidPageIndex)).
  { unfold popped. fold h. fold n. rewrite Ehead, Hpg. reflexivity. }
  assert (Hat : forall j, page_at (popped P) j
      = if decide (j = i) then Some (set_nextFreeIndex pg c_InvalidPageIndex)
        else page_at P j).
  { intros j. rewrite Hpop.
    rewrite (page_at_set_page _ _ _ pg) by exact Hpg. reflexivity. }
  assert (HnumP : numPages (popped P) = numPages P) by (rewrite Hpop; reflexivity).
  assert (Hhd : freeListHeadIndex (popped P)
      = packHead (wrap8 (headCounter h + 1)) (next_of P n) n)
    by (rewrite Hpop; reflexivity).
  split; [| split].
  - unfold PopPageFromFreeList. fold h. rewrite Ehead. fold n.
    destruct (Z.ltb_spec i (numPages P)); [| lia].
    destruct (if n <? numPages P then locked_page_at P n else Ok (None, P))
      as [[pNextPage P0] | |] eqn:Eread; cbn [bind] in Hread; try discriminate.
    injection Hread as Hv ->. cbn [bind]. rewrite Hv.
    destruct (Z.eqb_spec (next_of P n) c_InvalidPageIndex); [contradiction |].
    destruct (Z.eqb_spec (next_of P n) c_SwappingPageIndex); [contradiction |].
    cbn [negb andb bind numPages set_freeListHeadIndex].
    destruct (Z.ltb_spec i (numPages P)); [| lia].
    rewrite locked_page_at_free by exact Hlock.
    cbn [bind]. change (page_at (set_freeListHeadIndex P _) i) with (page_at P i).
    rewrite Hpg. cbn [of_option bind]. rewrite Hpop. reflexivity.
  - split.
    + rewrite Hpop. exact Hlock.
    + rewrite HnumP. exact Hn.
    + intros j Hj. rewrite HnumP in Hj. rewrite Hat.
      destruct (decide (j = i)) as [-> | Hne].
      * destruct (Hpages i Hi) as (pg' & Hpg' & Hidx).
        rewrite Hpg in Hpg'. injection Hpg' as <-.
        eexists. split; [reflexivity | exact Hidx].
      * apply Hpages. exact Hj.
    + rewrite Hhd, headPageIndex_packHead by assumption.
      rewrite Hpop.
      apply (free_chain_frame _ _ pg); [exact Hpg | | exact Hnin].
      apply (free_chain_ext P); [reflexivity | reflexivity | exact Hchain_n].
    + rewrite Hhd, headNextIndex_packHead, headPageIndex_packHead by assumption.
      unfold next_of. rewrite HnumP.
      destruct (Z.ltb_spec n (numPages P)) as [Hlt |]; [| reflexivity].
      rewrite Hat. destruct (decide (n = i)) as [Eni | _]; [| reflexivity].
      exfalso. apply Hnin. rewrite <- Eni.
      destruct (free_chain_start _ _ _ Hchain_n) as [[Et _] | [_ [l' ->]]];
        [lia | apply elem_of_cons; left; reflexivity].
    + intros j pgj Hj. rewrite HnumP in Hj. rewrite Hat.
      destruct (decide (j = i)) as [-> | Hne]; intros Hpj.
      * injection Hpj as <-. cbn [set_nextFreeIndex nextFreeIndex]. tauto.
      * rewrite (Hoff j pgj Hj Hpj). rewrite not_elem_of_cons. tauto.
    + rewrite Hpop.
      cbn [set_freeListHeadIndex set_page set_pPageList pPageList pageCapacity
           numPages].
      rewrite length_insert. exact Hcap.
  - exists pg. split; [exact Hpg |]. rewrite Hat.
    destruct (decide (i = i)); [reflexivity | contradiction].
Qed.

Lemma empty_wf : free_list_wf empty [].
Proof.
  split; cbn; try reflexivity; try lia.
  - unfold c_MaxPages, c_TailPageIndex. lia.
  - change (headPageIndex c_emptyFreeListHeadIndex) with c_TailPageIndex.
    constructor.
Qed.

(** C8.  Between two calls the free-page list has a well-formed state
    [free_list_wf P l], [l] being the pages enqueued.  In such a state:
    pushing a page whose [nextFreeIndex] is not [c_InvalidPageIndex] returns
    with the whole pool, the head word included, unchanged; a page's
    [nextFreeIndex] is [c_InvalidPageIndex] exactly when the page is not
    enqueued; pushing a page that is not enqueued returns, puts it at the
    head and gives a well-formed state again; popping an empty list returns
    no page and changes nothing; popping a non-empty list returns the head
    page with its [nextFreeIndex] set back to [c_InvalidPageIndex] and
    gives a well-formed state with the remaining pages enqueued. *)
Theorem free_list_discipline (P : PagingObjectPool) (l : list Z) :
  free_list_wf P l ->
  (forall i pg, page_at P i = Some pg ->
      nextFreeIndex pg <> c_InvalidPageIndex ->
      PushPageToFreeList (Some i) P = Ok P) /\
  (forall i pg, 0 <= i < numPages P -> page_at P i = Some pg ->
      (nextFreeIndex pg = c_InvalidPageIndex <-> i ∉ l)) /\
  (forall i, 0 <= i < numPages P -> i ∉ l ->
      exists P', PushPageToFreeList (Some i) P = Ok P' /\
                 free_list_wf P' (i :: l)) /\
  match l with
  | [] => PopPageFromFreeList P = Ok (None, P)
  | i :: l' =>
      exists P' pg, PopPageFromFreeList P = Ok (Some i, P') /\
                    page_at P' i = Some pg /\
                    nextFreeIndex pg = c_InvalidPageIndex /\
                    free_list_wf P' l'
  end.
Proof.
  intros Hwf. split; [| split; [| split]].
  - intros i pg. apply Push_enqueued_aborts.
  - apply (wf_offlist _ _ Hwf).
  - intros i Hi Hnin.
    destruct (wf_pages _ _ Hwf i Hi) as (pg & Hpg & _).
    exists (pushed P i pg). apply (Push_offlist P l); assumption.
  - destruct l as [| i l'].
    + apply Pop_empty. exact Hwf.
    + destruct (Pop_nonempty P i l' Hwf) as (Hpop & Hwf' & pg & _ & Hpg').
      exists (popped P), (set_nextFreeIndex pg c_InvalidPageIndex).
      split; [exact Hpop | split; [exact Hpg' | split; [reflexivity | exact Hwf']]].
Qed.

(** *** The pool at rest

    [pool_ok P l]: the free-page list is well formed with the pages [l]
    enqueued, every page's slot pool is well formed, and the page vector has
    no page at or beyond [numPages]. *)

Definition pool_ok (P : PagingObjectPool) (l : list Z) : Prop :=
  free_list_wf P l /\
  (forall i pg, page_at P i = Some pg ->
     FP.pool_wf PageSize_T c_bitIndexSize (data pg) /\
     0 <= FP.cachedIteratorIndex (data pg)) /\
  (forall i, numPages P <= i -> page_at P i = None).

Definition links (pg : Page) : Z * Z := (pageIndex pg, nextFreeIndex pg).

Lemma free_chain_same_links (P Q : PagingObjectPool) :
  numPages Q = numPages P ->
  (forall j, links <$> page_at Q j = links <$> page_at P j) ->
  forall s l, free_chain P s l -> free_chain Q s l.
Proof.
  intros Hn Hl s l Hc. induction Hc as [| j pgj l Hj Hpj Hnin Hc IH].
  - constructor.
  - specialize (Hl j). rewrite Hpj in Hl.
    destruct (page_at Q j) as [qg |] eqn:Eq; [| discriminate].
    injection Hl as _ Hnext.
    apply (chain_page _ j qg); try assumption; [lia |].
    rewrite Hnext. exact IH.
Qed.

Lemma free_list_wf_same_links (P Q : PagingObjectPool) (l : list Z) :
  free_list_wf P l ->
  pageListLock Q = pageListLock P ->
  numPages Q = numPages P ->
  freeListHeadIndex Q = freeListHeadIndex P ->
  pageCapacity Q = pageCapacity P ->
  length (pPageList Q) = length (pPageList P) ->
  (forall j, links <$> page_at Q j = links <$> page_at P j) ->
  free_list_wf Q l.
Proof.
  intros [Hlock Hn Hpages Hchain Hnext Hoff Hcap] El En Eh Ec Elen Hl.
  split.
  - congruence.
  - congruence.
  - intros i Hi. rewrite En in Hi. destruct (Hpages i Hi) as (pg & Hpg & Hidx).
    specialize (Hl i). rewrite Hpg in Hl.
    destruct (page_at Q i) as [qg |]; [| discriminate].
    injection Hl as Hi' _. exists qg. split; [reflexivity | congruence].
  - rewrite Eh. apply (free_chain_same_links P); assumption.
  - rewrite Eh, Hnext. unfold next_of. rewrite En.
    destruct (_ <? numPages P); [| reflexivity].
    specialize (Hl (headPageIndex (freeListHeadIndex P))).
    destruct (page_at Q _), (page_at P _); try discriminate; [| reflexivity].
    injection Hl as _ ->. reflexivity.
  - intros i qg Hi Hq. rewrite En in Hi.
    specialize (Hl i). rewrite Hq in Hl.
    destruct (page_at P i) as [pg |] eqn:Ep; [| discriminate].
    injection Hl as _ Hnx. rewrite Hnx. apply Hoff; assumption.
  - rewrite Elen, Ec, En. exact Hcap.
Qed.

Lemma load_same_data (P Q : PagingObjectPool) :
  (forall j, data <$> page_at Q j = data <$> page_at P j) ->
  forall q, load Q q = load P q.
Proof.
  intros Hd q. unfold load. specialize (Hd (ptr_page q)).
  destruct (page_at Q _), (page_at P _); try discriminate; [| reflexivity].
  injection Hd as Hd. cbn. rewrite Hd. reflexivity.
Qed.

Lemma pool_ok_same_data (P Q : PagingObjectPool) (l l' : list Z) :
  pool_ok P l -> free_list_wf Q l' -> numPages Q = numPages P ->
  (forall j, data <$> page_at Q j = data <$> page_at P j) ->
  pool_ok Q l'.
Proof.
  intros (_ & Hfp & Hbeyond) Hwf En Hd. split; [exact Hwf | split].
  - intros i qg Hq. specialize (Hd i). rewrite Hq in Hd.
    destruct (page_at P i) as [pg |] eqn:Ep; [| discriminate].
    injection Hd as ->. apply (Hfp i pg Ep).
  - intros i Hi. rewrite En in Hi. specialize (Hd i).
    rewrite (Hbeyond i Hi) in Hd.
    destruct (page_at Q i); [discriminate | reflexivity].
Qed.

Lemma page_at_pushed (P : PagingObjectPool) (i j : Z) (pg : Page) :
  page_at P i = Some pg ->
  page_at (pushed P i pg) j
  = if decide (j = i)
    then Some (set_nextFreeIndex pg (headPageIndex (freeListHeadIndex P)))
    else page_at P j.
Proof.
  intros Hpg.
  change (page_at (pushed P i pg) j)
    with (page_at (set_page
                     (set_page P i (set_nextFreeIndex pg c_SwappingPageIndex)) i
                     (set_nextFreeIndex pg (headPageIndex (freeListHeadIndex P))))
            j).
  assert (Hp1 : page_at (set_page P i (set_nextFreeIndex pg c_SwappingPageIndex)) i
                = Some (set_nextFreeIndex pg c_SwappingPageIndex)).
  { rewrite (page_at_set_page _ _ _ pg) by assumption.
    destruct (decide (i = i)); [reflexivity | contradiction]. }
  rewrite (page_at_set_page _ _ _ _ _ Hp1).
  destruct (decide (j = i)); [reflexivity |].
  rewrite (page_at_set_page _ _ _ pg) by assumption.
  destruct (decide (j = i)); [contradiction | reflexivity].
Qed.

Lemma page_at_popped (P : PagingObjectPool) (i j : Z) (pg : Page) :
  headPageIndex (freeListHeadIndex P) = i ->
  page_at P i = Some pg ->
  page_at (popped P) j
  = if decide (j = i) then Some (set_nextFreeIndex pg c_InvalidPageIndex)
    else page_at P j.
Proof.
  intros Eh Hpg. unfold popped. rewrite Eh, Hpg.
  rewrite (page_at_set_page _ _ _ pg) by exact Hpg. reflexivity.
Qed.

Lemma set_page_same (P : PagingObjectPool) (i : Z) (pg : Page) :
  page_at P i = Some pg -> set_page P i pg = P.
Proof.
  intros Hpg. unfold set_page, set_pPageList. unfold page_at in Hpg.
  destruct (zlookup (pPageList P) i) as [o |] eqn:E; [| discriminate].
  cbn in Hpg. subst o. apply zlookup_Some in E as [_ E].
  rewrite list_insert_id by exact E. destruct P; reflexivity.
Qed.

Section Facts.

Hypothesis sizeofNode_pos : 0 < sizeofNode.
Hypothesis c_bitIndexSize_pow2 :
  c_bitIndexSize = 2 ^ FP.c_bitIndexSizeLog2 c_bitIndexSize.
Hypothesis PageSize_T_pos : 0 < PageSize_T.
Hypothesis PageSize_T_multiple : PageSize_T mod c_bitIndexSize = 0.

Lemma load_Some (P : PagingObjectPool) (p : objptr) (y : T) :
  load P p = Some y ->
  exists pg, page_at P (ptr_page p) = Some pg /\
             FP.deref PageSize_T sizeofNode (data pg) (ptr_off p) = Some y.
Proof.
  unfold load. destruct (page_at P (ptr_page p)) as [pg |]; [| discriminate].
  cbn. eauto.
Qed.

Lemma load_store (P : PagingObjectPool) (l : list Z) (p q : objptr) (x y : T) :
  pool_ok P l -> load P p = Some y ->
  load (store P p x) q = if decide (q = p) then Some x else load P q.
Proof.
  intros (_ & Hfp & _) Hp.
  destruct (load_Some P p y Hp) as (pg & Hpg & Hd).
  destruct (Hfp _ _ Hpg) as [Hwf _].
  unfold store. rewrite Hpg. unfold load at 1.
  rewrite (page_at_set_page _ _ _ pg) by exact Hpg.
  destruct (decide (ptr_page q = ptr_page p)) as [Epage | Npage].
  - cbn [mbind option_bind data set_data].
    rewrite (FP.deref_assign PageSize_T c_bitIndexSize sizeofNode
               sizeofNode_pos PageSize_T_pos (data pg) (ptr_off p) x y Hwf Hd).
    destruct (decide (ptr_off q = ptr_off p)) as [Eoff | Noff].
    + destruct (decide (q = p)) as [_ | N]; [reflexivity |].
      exfalso. apply N. destruct q, p; cbn in *; congruence.
    + destruct (decide (q = p)) as [E | _]; [congruence |].
      unfold load. rewrite Epage, Hpg. reflexivity.
  - destruct (decide (q = p)) as [E | _]; [congruence | reflexivity].
Qed.

Lemma store_ok (P : PagingObjectPool) (l : list Z) (p : objptr) (x y : T) :
  pool_ok P l -> load P p = Some y ->
  pool_ok (store P p x) l /\
  count (store P p x) = count P /\
  numPages (store P p x) = numPages P.
Proof.
  intros Hok Hp. pose proof Hok as (Hwf & Hfp & Hbeyond).
  destruct (load_Some P p y Hp) as (pg & Hpg & Hd).
  unfold store. rewrite Hpg.
  set (pg' := set_data pg _).
  assert (Hat : forall j, page_at (set_page P (ptr_page p) pg') j
                 = if decide (j = ptr_page p) then Some pg' else page_at P j)
    by (intros j; apply (page_at_set_page _ _ _ pg); exact Hpg).
  split; [| split; reflexivity].
  split; [| split].
  - apply (free_list_wf_same_links P); try reflexivity; try assumption.
    + cbn. apply length_insert.
    + intros j. rewrite Hat. destruct (decide (j = ptr_page p)) as [-> | _];
        [rewrite Hpg |]; reflexivity.
  - intros i qg. rewrite Hat.
    destruct (decide (i = ptr_page p)) as [-> | _]; [| apply Hfp].
    intros [= <-]. destruct (Hfp _ _ Hpg) as [Hw Hc]. split.
    + apply (FP.assign_wf PageSize_T c_bitIndexSize sizeofNode
               sizeofNode_pos PageSize_T_pos _ _ _ y); assumption.
    + cbn [pg' data set_data]. rewrite FP.assign_cachedIteratorIndex. exact Hc.
  - intros i Hi. change (numPages _) with (numPages P) in Hi. rewrite Hat.
    destruct (decide (i = ptr_page p)) as [-> | _]; [| apply Hbeyond; exact Hi].
    rewrite (Hbeyond _ Hi) in Hpg. discriminate.
Qed.

Lemma pushed_ok (P : PagingObjectPool) (l : list Z) (i : Z) (pg : Page) :
  pool_ok P l -> 0 <= i < numPages P -> page_at P i = Some pg -> i ∉ l ->
  PushPageToFreeList (Some i) P = Ok (pushed P i pg) /\
  pool_ok (pushed P i pg) (i :: l) /\
  (forall q, load (pushed P i pg) q = load P q) /\
  count (pushed P i pg) = count P /\
  numPages (pushed P i pg) = numPages P.
Proof.
  intros Hok Hi Hpg Hnin. pose proof Hok as (Hwf & _).
  destruct (Push_offlist P l i pg Hwf Hi Hpg Hnin) as [Hpush Hwf'].
  assert (Hd : forall j, data <$> page_at (pushed P i pg) j = data <$> page_at P j).
  { intros j. rewrite (page_at_pushed P i j pg Hpg).
    destruct (decide (j = i)) as [-> | _]; [rewrite Hpg |]; reflexivity. }
  split; [exact Hpush |]. split; [| split; [| split; reflexivity]].
  - apply (pool_ok_same_data P _ l); [exact Hok | exact Hwf' | reflexivity | exact Hd].
  - apply load_same_data. exact Hd.
Qed.

Lemma popped_ok (P : PagingObjectPool) (l : list Z) (i : Z) :
  pool_ok P (i :: l) ->
  PopPageFromFreeList P = Ok (Some i, popped P) /\
  pool_ok (popped P) l /\
  (forall q, load (popped P) q = load P q) /\
  count (popped P) = count P /\
  numPages (popped P) = numPages P /\
  0 <= i < numPages P /\
  exists pg, page_at P i = Some pg /\ pageIndex pg = i /\
    page_at (popped P) i = Some (set_nextFreeIndex pg c_InvalidPageIndex).
Proof.
  intros Hok. pose proof Hok as (Hwf & _).
  destruct (Pop_nonempty P i l Hwf) as (Hpop & Hwf' & pg & Hpg & Hpg').
  destruct (free_chain_cons_inv _ _ _ _ (wf_chain _ _ Hwf))
    as (Ehead & Hi & _).
  assert (Hd : forall j, data <$> page_at (popped P) j = data <$> page_at P j).
  { intros j. rewrite (page_at_popped P i j pg Ehead Hpg).
    destruct (decide (j = i)) as [-> | _]; [rewrite Hpg |]; reflexivity. }
  assert (En : numPages (popped P) = numPages P).
  { unfold popped. rewrite Ehead, Hpg. reflexivity. }
  assert (Ec : count (popped P) = count P).
  { unfold popped. rewrite Ehead, Hpg. reflexivity. }
  split; [exact Hpop |]. split; [| split; [| repeat split]]; try assumption; try lia.
  - apply (pool_ok_same_data P _ (i :: l)); assumption.
  - apply load_same_data. exact Hd.
  - destruct (wf_pages _ _ Hwf i Hi) as (pg0 & Hpg0 & Hidx).
    rewrite Hpg in Hpg0. injection Hpg0 as <-.
    exists pg. repeat split; assumption.
Qed.

Lemma free_chain_range (P : PagingObjectPool) (s : Z) (l : list Z) :
  free_chain P s l -> forall j, j ∈ l -> 0 <= j < numPages P.
Proof.
  intros Hc. induction Hc as [| i pg l Hi Hpg Hnin Hc IH]; intros j Hj.
  - apply elem_of_nil in Hj. contradiction.
  - apply elem_of_cons in Hj as [-> | Hj]; [exact Hi | apply IH; exact Hj].
Qed.

Lemma free_chain_mono (P Q : PagingObjectPool) :
  numPages P <= numPages Q ->
  (forall j, 0 <= j < numPages P -> links <$> page_at Q j = links <$> page_at P j) ->
  forall s l, free_chain P s l -> free_chain Q s l.
Proof.
  intros Hn Hl s l Hc. induction Hc as [| j pgj l Hj Hpj Hnin Hc IH].
  - constructor.
  - specialize (Hl j Hj). rewrite Hpj in Hl.
    destruct (page_at Q j) as [qg |] eqn:Eq; [| discriminate].
    injection Hl as _ Hnext.
    apply (chain_page _ j qg); try assumption; [lia |].
    rewrite Hnext. exact IH.
Qed.

Lemma grow_page_list_app (L : list (option Page)) (cap newCap : Z) :
  Z.of_nat (length L) = cap -> cap <= newCap ->
  grow_page_list L cap newCap
  = L ++ replicate (Z.to_nat newCap - length L) None.
Proof.
  intros Hlen Hle. unfold grow_page_list.
  rewrite (take_ge L) by lia.
  rewrite take_app, (take_ge L) by lia.
  rewrite take_replicate. f_equal. f_equal. lia.
Qed.

Lemma page_at_app_null (L : list (option Page)) (k : nat) (j : Z) :
  mjoin (zlookup (L ++ replicate k None) j) = mjoin (zlookup L j).
Proof.
  unfold zlookup. rewrite length_app, length_replicate.
  destruct (Z.leb_spec 0 j); [| reflexivity]. cbn [andb].
  destruct (Z.ltb_spec j (Z.of_nat (length L))).
  - destruct (Z.ltb_spec j (Z.of_nat (length L + k))); [| lia].
    rewrite lookup_app_l by lia. reflexivity.
  - destruct (Z.ltb_spec j (Z.of_nat (length L + k))); [| reflexivity].
    rewrite lookup_app_r by lia.
    rewrite lookup_replicate_2 by lia. reflexivity.
Qed.

Lemma deref_new_page (off : Z) :
  FP.deref PageSize_T sizeofNode (data new_page) off = None.
Proof.
  unfold FP.deref, new_page, FP.empty. cbn [data FP.nodes].
  destruct (_ <? _); [| reflexivity].
  destruct (replicate _ _ !! _) as [o |] eqn:E; [| reflexivity].
  apply lookup_replicate in E as [-> _]. reflexivity.
Qed.

(** The pool once [AllocateNewPage] has stored the new page, before it
    pushes it. *)
Definition with_new_page (P : PagingObjectPool) : PagingObjectPool :=
  let n := numPages P in
  let newNumPages := n + 1 in
  let newPageCapacity :=
    if pageCapacity P <? newNumPages then
      let c := if pageCapacity P =? 0 then c_initialPageCapacity
               else wrap32 (pageCapacity P * 2) in
      if c <? newNumPages then wrap32 (newNumPages * 2) else c
    else pageCapacity P in
  let L :=
    if pageCapacity P <? newNumPages
    then grow_page_list (pPageList P) (pageCapacity P) newPageCapacity
    else pPageList P in
  {| pageListLock := 0;
     pPageList := <[Z.to_nat n := Some (set_pageIndex new_page n)]> L;
     numPages := newNumPages;
     pageCapacity := newPageCapacity;
     count := count P;
     freeListHeadIndex := freeListHeadIndex P |}.

Lemma AllocateNewPage_unfold (P : PagingObjectPool) :
  pageListLock P = 0 -> 0 <= numPages P < c_MaxPages ->
  NewAligned (numPages P) = true ->
  AllocateNewPage P =
  (do P5 <- PushPageToFreeList (Some (numPages P)) (with_new_page P);
   Ok (Some (numPages P), P5)).
Proof.
  intros Hlock Hn Hnew. unfold AllocateNewPage. rewrite Hnew, Hlock.
  change (AcquireReadOnlyAccess 0) with (Ok (A := Z) 1). cbn [bind].
  unfold AtomicIncrementU32.
  cbn [numPages set_pageListLock set_numPages pageCapacity pageListLock].
  assert (Ew : wrap32 (numPages P + 1) = numPages P + 1).
  { apply Z.mod_small. unfold c_MaxPages, c_TailPageIndex in Hn. lia. }
  rewrite Ew.
  replace (wrap32 (numPages P + 1 - 1)) with (numPages P)
    by (replace (numPages P + 1 - 1) with (numPages P) by lia;
        symmetry; apply Z.mod_small;
        unfold c_MaxPages, c_TailPageIndex in Hn; lia).
  unfold with_new_page.
  destruct (pageCapacity P <? numPages P + 1).
  - change (ConvertFromReadToWriteLock 1) with (Ok (A := Z) 65536).
    cbn [bind]. reflexivity.
  - reflexivity.
Qed.

Lemma with_new_page_at (P : PagingObjectPool) (l : list Z) (j : Z) :
  free_list_wf P l -> 0 <= numPages P < c_MaxPages ->
  page_at (with_new_page P) j
  = (if decide (j = numPages P)
     then Some (set_pageIndex new_page (numPages P))
     else page_at P j) /\
  Z.of_nat (length (pPageList (with_new_page P)))
  = pageCapacity (with_new_page P) /\
  numPages P + 1 <= pageCapacity (with_new_page P) <= 2 ^ 29.
Proof.
  intros Hwf Hn. destruct (wf_capacity _ _ Hwf) as (Hlen & Hcap1 & Hcap2).
  unfold c_MaxPages, c_TailPageIndex in Hn.
  unfold page_at, with_new_page. cbn [pPageList pageCapacity].
  set (n := numPages P) in *. set (cap := pageCapacity P) in *.
  destruct (Z.ltb_spec cap (n + 1)) as [Hgrow | Hroom].
  - set (c := if cap =? 0 then c_initialPageCapacity else wrap32 (cap * 2)).
    set (newCap := if c <? n + 1 then wrap32 ((n + 1) * 2) else c).
    assert (Hc : c = 4 \/ c = cap * 2).
    { unfold c. destruct (cap =? 0); [left; reflexivity | right].
      apply Z.mod_small. lia. }
    assert (HnewCap : n + 1 <= newCap <= 2 ^ 29).
    { unfold newCap. destruct (Z.ltb_spec c (n + 1)).
      - unfold wrap32. rewrite Z.mod_small by lia. lia.
      - lia. }
    rewrite (grow_page_list_app _ cap newCap) by lia.
    rewrite length_insert, length_app, length_replicate.
    split; [| split; [lia | exact HnewCap]].
    rewrite zlookup_insert by (rewrite length_app, length_replicate; lia).
    destruct (decide (j = n)); [reflexivity |].
    apply page_at_app_null.
  - rewrite length_insert. split; [| split; [exact Hlen | lia]].
    rewrite zlookup_insert by lia.
    destruct (decide (j = n)); reflexivity.
Qed.

Lemma with_new_page_ok (P : PagingObjectPool) (l : list Z) :
  pool_ok P l -> 0 <= numPages P < c_MaxPages ->
  pool_ok (with_new_page P) l /\ (numPages P ∉ l) /\
  forall q, load (with_new_page P) q = load P q.
Proof.
  intros (Hwf & Hfp & Hbeyond) Hn.
  assert (Hat : forall j, page_at (with_new_page P) j
      = if decide (j = numPages P)
        then Some (set_pageIndex new_page (numPages P)) else page_at P j)
    by (intros j; apply (with_new_page_at P l j Hwf Hn)).
  destruct (with_new_page_at P l 0 Hwf Hn) as (_ & Hlen & Hcap).
  assert (Hnin : numPages P ∉ l).
  { intros Hin. pose proof (free_chain_range _ _ _ (wf_chain _ _ Hwf) _ Hin). lia. }
  assert (HM : numPages P + 1 < c_TailPageIndex) by (unfold c_MaxPages in Hn; lia).
  destruct Hwf as [Hlock Hnp Hpages Hchain Hnext Hoff Hcapacity].
  split; [| split; [exact Hnin |]].
  - split; [| split].
    + split.
      * reflexivity.
      * cbn [with_new_page numPages]. lia.
      * intros i Hi. cbn [with_new_page numPages] in Hi. rewrite Hat.
        destruct (decide (i = numPages P)) as [-> | Hne].
        -- eexists. split; reflexivity.
        -- apply Hpages. lia.
      * apply (free_chain_mono P); [cbn; lia | | exact Hchain].
        intros j Hj. rewrite Hat.
        destruct (decide (j = numPages P)); [lia | reflexivity].
      * change (freeListHeadIndex (with_new_page P)) with (freeListHeadIndex P).
        rewrite Hnext. unfold next_of.
        change (numPages (with_new_page P)) with (numPages P + 1).
        rewrite Hat.
        destruct (free_chain_start _ _ _ Hchain) as [[-> _] | [Hr _]].
        -- destruct (Z.ltb_spec c_TailPageIndex (numPages P)); [lia |].
           destruct (Z.ltb_spec c_TailPageIndex (numPages P + 1)); [lia |].
           reflexivity.
        -- destruct (Z.ltb_spec (headPageIndex (freeListHeadIndex P)) (numPages P));
             [| lia].
           destruct (Z.ltb_spec (headPageIndex (freeListHeadIndex P))
                       (numPages P + 1)); [| lia].
           destruct (decide (_ = numPages P)); [lia | reflexivity].
      * intros i pg Hi. cbn [with_new_page numPages] in Hi. rewrite Hat.
        destruct (decide (i = numPages P)) as [-> | Hne]; intros Hpg.
        -- injection Hpg as <-. cbn. tauto.
        -- apply Hoff; [lia | exact Hpg].
      * split; [exact Hlen | exact Hcap].
    + intros i pg. rewrite Hat.
      destruct (decide (i = numPages P)) as [-> | Hne]; [| apply Hfp].
      intros [= <-]. cbn [data set_pageIndex new_page]. split.
      * apply FP.empty_pool_wf.
      * reflexivity.
    + intros i Hi. cbn [with_new_page numPages] in Hi. rewrite Hat.
      destruct (decide (i = numPages P)); [lia |]. apply Hbeyond. lia.
  - intros q. unfold load. rewrite Hat.
    destruct (decide (ptr_page q = numPages P)) as [E | _]; [| reflexivity].
    rewrite E, (Hbeyond (numPages P)) by lia. cbn.
    apply deref_new_page.
Qed.

(** [AllocateNewPage], given memory for the page: the new page becomes the
    head of the free list; no object is created or moved. *)
Lemma AllocateNewPage_spec (P : PagingObjectPool) (l : list Z) :
  pool_ok P l -> 0 <= numPages P < c_MaxPages ->
  NewAligned (numPages P) = true ->
  exists P', AllocateNewPage P = Ok (Some (numPages P), P') /\
    pool_ok P' (numPages P :: l) /\
    (forall q, load P' q = load P q) /\
    count P' = count P /\
    numPages P' = numPages P + 1 /\
    exists pg, page_at P' (numPages P) = Some pg /\
               data pg = FP.empty PageSize_T c_bitIndexSize.
Proof.
  intros Hok Hn Hnew.
  destruct (with_new_page_ok P l Hok Hn) as (Hok' & Hnin & Hload).
  destruct (with_new_page_at P l (numPages P) (proj1 Hok) Hn) as (Hat & _).
  destruct (decide (numPages P = numPages P)); [| contradiction].
  destruct (pushed_ok (with_new_page P) l (numPages P) _ Hok'
              ltac:(cbn; lia) Hat Hnin)
    as (Hpush & Hok'' & Hload' & Hcount & Hnum).
  eexists. split; [| split; [exact Hok'' | split; [| split; [| split]]]].
  - rewrite AllocateNewPage_unfold;
      [| exact (wf_lock _ _ (proj1 Hok)) | exact Hn | exact Hnew].
    rewrite Hpush. reflexivity.
  - intros q. rewrite Hload'. apply Hload.
  - rewrite Hcount. reflexivity.
  - rewrite Hnum. reflexivity.
  - eexists. split.
    + rewrite (page_at_pushed _ _ _ _ Hat).
      destruct (decide (numPages P = numPages P)); [reflexivity | contradiction].
    + reflexivity.
Qed.

Lemma pool_ok_set_count (P : PagingObjectPool) (l : list Z) (c : Z) :
  pool_ok P l -> pool_ok (set_count P c) l.
Proof.
  intros (Hwf & Hfp & Hbeyond). split; [| split; assumption].
  apply (free_list_wf_same_links P); try reflexivity; assumption.
Qed.

(** The end of a round of [Reserve] in which page [i], just popped, gave a
    slot. *)
Lemma Reserve_finish (x : T) (P : PagingObjectPool) (l : list Z) (i : Z)
  (pg : Page) (off : Z) (d' : FP.pool T) :
  pool_ok P l -> 0 <= i < numPages P -> page_at P i = Some pg ->
  pageIndex pg = i -> i ∉ l ->
  FP.Reserve PageSize_T c_bitIndexSize sizeofNode x (data pg) = (Some off, d') ->
  let p := {| ptr_page := i; ptr_off := off |} in
  let P2 := set_page P i (set_data pg d') in
  let P3 := set_count P2 (snd (AtomicIncrementU32 (count P2))) in
  exists P4 l',
    (if negb (FP.IsFull PageSize_T d')
     then PushPageToFreeList (Some i) P3 else Ok P3) = Ok P4 /\
    pool_ok P4 l' /\
    load P p = None /\
    (forall q, load P4 q = if decide (q = p) then Some x else load P q) /\
    count P4 = wrap32 (count P + 1) /\
    numPages P4 = numPages P.
Proof.
  intros Hok Hi Hpg Hidx Hnin HR p P2 P3.
  pose proof Hok as (Hwf & Hfp & Hbeyond).
  destruct (Hfp _ _ Hpg) as [Hw Hc].
  pose proof (FP.Reserve_slot_spec PageSize_T c_bitIndexSize sizeofNode
                c_bitIndexSize_pow2 PageSize_T_pos PageSize_T_multiple
                x (data pg) Hw Hc) as Hspec.
  rewrite HR in Hspec. destruct Hspec as (k & -> & Hres & Hw' & Hc').
  assert (Hat : forall j, page_at P2 j
                 = if decide (j = i) then Some (set_data pg d') else page_at P j)
    by (intros j; apply (page_at_set_page _ _ _ pg); exact Hpg).
  assert (Hok2 : pool_ok P2 l).
  { split; [| split].
    - apply (free_list_wf_same_links P); try reflexivity; try assumption.
      + cbn. apply length_insert.
      + intros j. rewrite Hat. destruct (decide (j = i)) as [-> | _];
          [rewrite Hpg |]; reflexivity.
    - intros j qg. rewrite Hat.
      destruct (decide (j = i)) as [-> | _]; [| apply Hfp].
      intros [= <-]. split; assumption.
    - intros j Hj. change (numPages P2) with (numPages P) in Hj. rewrite Hat.
      destruct (decide (j = i)); [lia | apply Hbeyond; exact Hj]. }
  assert (Hload2 : forall q, load P2 q = if decide (q = p) then Some x else load P q).
  { intros q. unfold load at 1. rewrite Hat.
    destruct (decide (ptr_page q = i)) as [Epage | Npage].
    - cbn [mbind option_bind data set_data].
      rewrite (FP.deref_reserved PageSize_T c_bitIndexSize sizeofNode
                 sizeofNode_pos PageSize_T_pos (data pg) d' x k Hw Hres).
      destruct (decide (ptr_off q = FP.slot_ptr sizeofNode k)) as [Eoff | Noff].
      + destruct (decide (q = p)) as [_ | N]; [reflexivity |].
        exfalso. apply N. destruct q; cbn in *. unfold p. congruence.
      + destruct (decide (q = p)) as [E | _];
          [subst q; cbn in Noff; congruence |].
        unfold load. rewrite Epage, Hpg. reflexivity.
    - destruct (decide (q = p)) as [E | _];
        [subst q; cbn in Npage; congruence | reflexivity]. }
  assert (Hfresh : load P p = None).
  { unfold load, p. cbn [ptr_page ptr_off]. rewrite Hpg. cbn.
    destruct Hres as (Hk & Hbit & _).
    apply (FP.deref_free PageSize_T c_bitIndexSize sizeofNode sizeofNode_pos);
      assumption. }
  assert (Hok3 : pool_ok P3 l) by (apply pool_ok_set_count; exact Hok2).
  assert (Ecount : count P3 = wrap32 (count P + 1)) by reflexivity.
  destruct (negb (FP.IsFull PageSize_T d')).
  - assert (Hpg3 : page_at P3 i = Some (set_data pg d')).
    { change (page_at P3 i) with (page_at P2 i). rewrite Hat.
      destruct (decide (i = i)); [reflexivity | contradiction]. }
    destruct (pushed_ok P3 l i _ Hok3 Hi Hpg3 Hnin)
      as (Hpush & Hok4 & Hload4 & Hcount4 & Hnum4).
    exists (pushed P3 i (set_data pg d')), (i :: l).
    split; [exact Hpush |]. split; [exact Hok4 |]. split; [exact Hfresh |].
    split; [| split].
    + intros q. rewrite Hload4. apply Hload2.
    + rewrite Hcount4. exact Ecount.
    + rewrite Hnum4. reflexivity.
  - exists P3, l. split; [reflexivity |]. split; [exact Hok3 |].
    split; [exact Hfresh |]. split; [exact Hload2 |].
    split; [exact Ecount | reflexivity].
Qed.

(** A round of [Reserve] that pops page [i]: it returns if the page gives a
    slot, and otherwise goes on from the pool with page [i] popped. *)
Lemma Reserve_round (x : T) (P : PagingObjectPool) (l : list Z) (i : Z)
  (fuel : nat) :
  pool_ok P (i :: l) ->
  (exists p P' l',
     Reserve_loop (S fuel) x P = Ok (Some p, P') /\
     pool_ok P' l' /\ load P p = None /\
     (forall q, load P' q = if decide (q = p) then Some x else load P q) /\
     count P' = wrap32 (count P + 1) /\ numPages P' = numPages P) \/
  (Reserve_loop (S fuel) x P = Reserve_loop fuel x (popped P) /\
   pool_ok (popped P) l /\ (forall q, load (popped P) q = load P q) /\
   count (popped P) = count P /\ numPages (popped P) = numPages P /\
   exists pg, page_at P i = Some pg /\
     fst (FP.Reserve PageSize_T c_bitIndexSize sizeofNode x (data pg)) = None).
Proof.
  intros Hok.
  destruct (popped_ok P l i Hok)
    as (Hpop & Hok1 & Hload1 & Hcount1 & Hnum1 & Hi & pg & Hpg & Hidx & Hpg1).
  set (pgi := set_nextFreeIndex pg c_InvalidPageIndex) in *.
  assert (Hnin : i ∉ l).
  { destruct (free_chain_cons_inv _ _ _ _ (wf_chain _ _ (proj1 Hok)))
      as (_ & _ & pg0 & _ & Hnin & _). exact Hnin. }
  cbn [Reserve_loop]. rewrite Hpop. cbn [bind]. rewrite Hpg1. cbn [of_option bind].
  destruct (FP.Reserve PageSize_T c_bitIndexSize sizeofNode x (data pgi))
    as [[off |] d'] eqn:HR.
  - left.
    destruct (Reserve_finish x (popped P) l i pgi off d' Hok1
                ltac:(lia) Hpg1 Hidx Hnin HR)
      as (P4 & l' & Hfin & Hok4 & Hfresh & Hload4 & Hcount4 & Hnum4).
    exists {| ptr_page := i; ptr_off := off |}, P4, l'.
    cbn [data set_data pageIndex] in *. rewrite Hfin. cbn [bind].
    change (pageIndex pgi) with (pageIndex pg). rewrite Hidx.
    split; [reflexivity |]. split; [exact Hok4 |].
    split; [rewrite <- Hload1; exact Hfresh |].
    split; [| split; congruence].
    intros q. rewrite Hload4, Hload1. reflexivity.
  - right.
    destruct Hok1 as (Hwf1 & Hfp1 & Hb1).
    destruct (Hfp1 _ _ Hpg1) as [Hw Hc].
    pose proof (FP.Reserve_slot_spec PageSize_T c_bitIndexSize sizeofNode
                  c_bitIndexSize_pow2 PageSize_T_pos PageSize_T_multiple
                  x (data pgi) Hw Hc) as Hspec.
    rewrite HR in Hspec. subst d'.
    replace (set_data pgi (data pgi)) with pgi by (destruct pgi; reflexivity).
    rewrite (set_page_same _ _ _ Hpg1).
    split; [reflexivity |]. split; [split; [| split]; assumption |].
    split; [exact Hload1 |]. split; [exact Hcount1 |]. split; [exact Hnum1 |].
    exists pg. split; [exact Hpg |].
    change (data pg) with (data pgi). rewrite HR. reflexivity.
Qed.

(** [Reserve] returns, and never the null pointer: given memory for one more
    page and enough rounds to go through the free list, it returns a pointer
    to a slot that held no object and now holds the new one; every other
    object is where it was. *)
Lemma Reserve_spec (x : T) : forall (l : list Z) (P : PagingObjectPool) (fuel : nat),
  pool_ok P l -> 0 <= numPages P < c_MaxPages ->
  NewAligned (numPages P) = true ->
  (length l + 2 <= fuel)%nat ->
  exists p P' l',
    Reserve fuel x P = Ok (Some p, P') /\
    pool_ok P' l' /\ load P p = None /\
    (forall q, load P' q = if decide (q = p) then Some x else load P q) /\
    count P' = wrap32 (count P + 1) /\
    numPages P <= numPages P' <= numPages P + 1.
Proof.
  unfold Reserve.
  induction l as [| i l IH]; intros P fuel Hok Hn Hnew Hfuel.
  - destruct fuel as [| fuel]; [cbn in Hfuel; lia |].
    destruct (AllocateNewPage_spec P [] Hok Hn Hnew)
      as (P2 & Halloc & Hok2 & Hload2 & Hcount2 & Hnum2 & pg & Hpg & Hdata).
    cbn [Reserve_loop].
    rewrite (Pop_empty P (proj1 Hok)). cbn [bind]. rewrite Halloc. cbn [bind].
    destruct fuel as [| fuel]; [cbn in Hfuel; lia |].
    destruct (Reserve_round x P2 [] (numPages P) fuel Hok2)
      as [(p & P' & l' & Hrun & Hok' & Hfresh & Hload & Hcount & Hnum) | (Hrun & H)].
    + exists p, P', l'.
      split; [exact Hrun |]. split; [exact Hok' |].
      split; [rewrite <- Hload2; exact Hfresh |].
      split; [| split; [congruence | lia]].
      intros q. rewrite Hload, Hload2. reflexivity.
    + (* the page just allocated is empty: the round cannot miss *)
      exfalso. destruct H as (_ & _ & _ & _ & pg' & Hpg' & Hmiss).
      rewrite Hpg in Hpg'. injection Hpg' as <-.
      rewrite Hdata in Hmiss.
      destruct (FP.Reserve_empty PageSize_T c_bitIndexSize sizeofNode
                  c_bitIndexSize_pow2 PageSize_T_pos PageSize_T_multiple x)
        as (d' & HR & _).
      rewrite HR in Hmiss. discriminate.
  - destruct fuel as [| fuel]; [cbn in Hfuel; lia |].
    destruct (Reserve_round x P l i fuel Hok)
      as [(p & P' & l' & Hrun & Hok' & Hfresh & Hload & Hcount & Hnum)
         | (Hrun & Hok1 & Hload1 & Hcount1 & Hnum1 & _)].
    + exists p, P', l'.
      split; [exact Hrun |]. split; [exact Hok' |]. split; [exact Hfresh |].
      split; [exact Hload |]. split; [exact Hcount | lia].
    + destruct (IH (popped P) fuel Hok1) as
        (p & P' & l' & Hrun' & Hok' & Hfresh & Hload & Hcount & Hnum).
      * lia.
      * rewrite Hnum1. exact Hnew.
      * cbn in Hfuel. lia.
      * exists p, P', l'. rewrite Hrun.
        split; [exact Hrun' |]. split; [exact Hok' |].
        split; [rewrite <- Hload1; exact Hfresh |].
        split; [| split; [congruence | lia]].
        intros q. rewrite Hload, Hload1. reflexivity.
Qed.

Lemma empty_ok : pool_ok empty [].
Proof.
  split; [apply empty_wf | split].
  - intros i pg H. unfold page_at in H. cbn in H. rewrite zlookup_nil in H.
    discriminate.
  - intros i _. unfold page_at. cbn. rewrite zlookup_nil. reflexivity.
Qed.

(** Whenever [Reserve] returns, it returns a pointer to an object: the loop
    is left only with a node selected. *)
Lemma Reserve_never_null (x : T) (fuel : nat) :
  forall P r P', Reserve fuel x P = Ok (r, P') -> r <> None.
Proof.
  unfold Reserve. induction fuel as [| fuel IH]; intros P r P' H;
    cbn [Reserve_loop] in H; [discriminate |].
  destruct (PopPageFromFreeList P) as [[[i |] P1] | |]; cbn [bind] in H;
    try discriminate.
  - destruct (page_at P1 i) as [pg |]; cbn [of_option bind] in H;
      [| discriminate].
    destruct (FP.Reserve _ _ _ x (data pg)) as [[off |] d].
    + destruct (if negb _ then _ else _) as [P4 | |]; cbn [bind] in H;
        try discriminate.
      injection H as <- _. discriminate.
    + apply (IH _ _ _ H).
  - destruct (AllocateNewPage P1) as [[o P2] | |]; cbn [bind] in H;
      try discriminate.
    apply (IH _ _ _ H).
Qed.

(** The free-page list visits each page at most once. *)
Lemma free_chain_NoDup (P : PagingObjectPool) (s : Z) (l : list Z) :
  free_chain P s l -> NoDup l.
Proof.
  intros Hc. induction Hc as [| i pg l Hi Hpg Hnin Hc IH].
  - apply NoDup_nil_2.
  - apply NoDup_cons_2; [exact Hnin | exact IH].
Qed.

Lemma pool_ok_free_length (P : PagingObjectPool) (l : list Z) :
  pool_ok P l -> (length l <= Z.to_nat (numPages P))%nat.
Proof.
  intros [Hwf _].
  pose proof (wf_chain P l Hwf) as Hc.
  assert (Hsub : l ⊆+ seqZ 0 (numPages P)).
  { apply NoDup_submseteq; [apply (free_chain_NoDup P _ l Hc) |].
    intros j Hj. apply elem_of_seqZ.
    pose proof (free_chain_range P _ l Hc j Hj). lia. }
  apply submseteq_length in Hsub. rewrite length_seqZ in Hsub. exact Hsub.
Qed.

(** A pointer through which an object is read addresses a slot of one of
    the pool's pages, and the slot's allocation bit is set. *)
Lemma load_slot (P : PagingObjectPool) (l : list Z) (p : objptr) (y : T) :
  pool_ok P l -> load P p = Some y ->
  exists pg i,
    page_at P (ptr_page p) = Some pg /\
    0 <= ptr_page p < numPages P /\
    0 <= i < FP.c_maxNumNodes PageSize_T /\
    ptr_off p = FP.slot_ptr sizeofNode i /\
    FP.bit_of c_bitIndexSize (data pg) i = true.
Proof.
  intros Hok Hp. pose proof Hok as (Hwf & Hfp & Hbeyond).
  destruct (load_Some P p y Hp) as (pg & Hpg & Hd).
  destruct (Hfp _ _ Hpg) as [Hw Hc].
  apply (FP.deref_Some PageSize_T c_bitIndexSize) in Hd as [Hlt Hnode].
  set (i := FP.GetIndex PageSize_T sizeofNode (ptr_off p)) in *.
  assert (Hi : 0 <= i < FP.c_maxNumNodes PageSize_T).
  { split; [| exact Hlt].
    apply (FP.GetIndex_range PageSize_T c_bitIndexSize sizeofNode
             sizeofNode_pos PageSize_T_pos). }
  exists pg, i. split; [exact Hpg |]. split; [| split; [exact Hi | split]].
  - destruct (Z_lt_dec (ptr_page p) (numPages P)) as [Hlt' | Hge].
    + split; [| exact Hlt'].
      unfold page_at in Hpg.
      destruct (zlookup (pPageList P) (ptr_page p)) as [o |] eqn:E;
        [| discriminate].
      apply zlookup_lt in E. lia.
    + rewrite Hbeyond in Hpg by lia. discriminate.
  - apply (FP.GetIndex_inj PageSize_T c_bitIndexSize sizeofNode sizeofNode_pos);
      [exact Hlt |].
    rewrite (FP.GetIndex_slot_ptr PageSize_T c_bitIndexSize sizeofNode
               sizeofNode_pos i Hi).
    reflexivity.
  - destruct (FP.bit_of c_bitIndexSize (data pg) i) eqn:Hb; [reflexivity |].
    destruct Hw as (_ & _ & Hfree). rewrite (Hfree i Hi Hb) in Hnode.
    discriminate.
Qed.

(** [Release] of a pointer to a live object: the object is destroyed, its
    slot's bit is cleared and its page is enqueued. *)
Lemma Release_live (P : PagingObjectPool) (l : list Z) (p : objptr) (y : T) :
  pool_ok P l -> load P p = Some y ->
  exists P' l' pg' i,
    Release (Some p) P = Ok (true, P') /\
    pool_ok P' l' /\
    ptr_page p ∈ l' /\
    (forall q, load P' q = if decide (q = p) then None else load P q) /\
    count P' = wrap32 (count P - 1) /\
    numPages P' = numPages P /\
    page_at P' (ptr_page p) = Some pg' /\
    0 <= i < FP.c_maxNumNodes PageSize_T /\
    ptr_off p = FP.slot_ptr sizeofNode i /\
    FP.bit_of c_bitIndexSize (data pg') i = false.
Proof.
  intros Hok Hp. pose proof Hok as (Hwf & Hfp & Hbeyond).
  destruct (load_slot P l p y Hok Hp) as (pg & i & Hpg & Hrange & Hi & Hoff & Hbit).
  destruct (Hfp _ _ Hpg) as [Hw Hc].
  destruct (FP.Release_allocated PageSize_T c_bitIndexSize sizeofNode
              sizeofNode_pos c_bitIndexSize_pow2 PageSize_T_pos
              PageSize_T_multiple (data pg) i Hw Hi Hbit)
    as (d' & HR & Hrel & Hw').
  set (P2 := set_page P (ptr_page p) (set_data pg d')).
  set (P3 := set_count P2 (wrap32 (count P - 1))).
  assert (Hat : forall j, page_at P2 j
                 = if decide (j = ptr_page p) then Some (set_data pg d')
                   else page_at P j)
    by (intros j; apply (page_at_set_page _ _ _ pg); exact Hpg).
  assert (Hok2 : pool_ok P2 l).
  { split; [| split].
    - apply (free_list_wf_same_links P); try reflexivity; try assumption.
      + cbn. apply length_insert.
      + intros j. rewrite Hat. destruct (decide (j = ptr_page p)) as [-> | _];
          [rewrite Hpg |]; reflexivity.
    - intros j qg. rewrite Hat.
      destruct (decide (j = ptr_page p)) as [-> | _]; [| apply Hfp].
      intros [= <-]. split; [exact Hw' |].
      cbn [data set_data]. destruct Hrel as (_ & _ & Hci & _).
      rewrite Hci. exact Hc.
    - intros j Hj. change (numPages P2) with (numPages P) in Hj. rewrite Hat.
      destruct (decide (j = ptr_page p)); [lia | apply Hbeyond; exact Hj]. }
  assert (Hload2 : forall q, load P2 q = if decide (q = p) then None else load P q).
  { intros q. unfold load at 1. rewrite Hat.
    destruct (decide (ptr_page q = ptr_page p)) as [Epage | Npage].
    - cbn [mbind option_bind data set_data].
      rewrite (FP.deref_released PageSize_T c_bitIndexSize sizeofNode
                 sizeofNode_pos PageSize_T_pos (data pg) d' i Hw Hi Hrel).
      destruct (decide (ptr_off q = FP.slot_ptr sizeofNode i)) as [Eoff | Noff].
      + destruct (decide (q = p)) as [_ | N]; [reflexivity |].
        exfalso. apply N. destruct q, p; cbn in *; congruence.
      + destruct (decide (q = p)) as [E | _]; [subst q; congruence |].
        unfold load. rewrite Epage, Hpg. reflexivity.
    - destruct (decide (q = p)) as [E | _]; [subst q; congruence | reflexivity]. }
  assert (Hok3 : pool_ok P3 l) by (apply pool_ok_set_count; exact Hok2).
  assert (Hpg3 : page_at P3 (ptr_page p) = Some (set_data pg d')).
  { change (page_at P3 (ptr_page p)) with (page_at P2 (ptr_page p)).
    rewrite Hat. destruct (decide (ptr_page p = ptr_page p));
      [reflexivity | contradiction]. }
  assert (Hbit' : FP.bit_of c_bitIndexSize d' i = false)
    by (destruct Hrel as (_ & _ & _ & _ & Hb & _); exact Hb).
  assert (Hrun : Release (Some p) P
                 = (do P4 <- PushPageToFreeList (Some (ptr_page p)) P3;
                    Ok (true, P4))).
  { unfold Release. destruct (Z.ltb_spec (ptr_page p) (numPages P)); [| lia].
    rewrite (locked_page_at_free P _ (wf_lock _ _ Hwf)). cbn [bind].
    rewrite Hpg. cbn [of_option bind]. rewrite Hoff, HR. reflexivity. }
  destruct (decide (ptr_page p ∈ l)) as [Hin | Hnin].
  - assert (Hn : nextFreeIndex (set_data pg d') <> c_InvalidPageIndex).
    { intros E.
      apply (wf_offlist _ _ (proj1 Hok3) (ptr_page p) _ Hrange Hpg3) in E.
      contradiction. }
    rewrite (Push_enqueued_aborts P3 _ _ Hpg3 Hn) in Hrun.
    exists P3, l, (set_data pg d'), i.
    split; [exact Hrun |]. split; [exact Hok3 |]. split; [exact Hin |].
    split; [exact Hload2 |]. split; [reflexivity |]. split; [reflexivity |].
    split; [exact Hpg3 |]. split; [exact Hi |]. split; [exact Hoff | exact Hbit'].
  - destruct (pushed_ok P3 l (ptr_page p) _ Hok3 Hrange Hpg3 Hnin)
      as (Hpush & Hok4 & Hload4 & Hcount4 & Hnum4).
    rewrite Hpush in Hrun.
    exists (pushed P3 (ptr_page p) (set_data pg d')), (ptr_page p :: l),
      (set_nextFreeIndex (set_data pg d')
         (headPageIndex (freeListHeadIndex P3))), i.
    split; [exact Hrun |]. split; [exact Hok4 |].
    split; [apply elem_of_cons; left; reflexivity |].
    split; [intros q; rewrite Hload4; apply Hload2 |].
    split; [rewrite Hcount4; reflexivity |].
    split; [rewrite Hnum4; reflexivity |].
    split; [| split; [exact Hi | split; [exact Hoff | exact Hbit']]].
    rewrite (page_at_pushed _ _ _ _ Hpg3).
    destruct (decide (ptr_page p = ptr_page p)); [reflexivity | contradiction].
Qed.

(** [Release] of a pointer to a slot whose bit is clear, in an enqueued
    page: nothing is released and nothing changes. *)
Lemma Release_dead (P : PagingObjectPool) (l : list Z) (p : objptr)
  (pg : Page) (i : Z) :
  pool_ok P l -> page_at P (ptr_page p) = Some pg ->
  0 <= ptr_page p < numPages P -> ptr_page p ∈ l ->
  0 <= i < FP.c_maxNumNodes PageSize_T ->
  ptr_off p = FP.slot_ptr sizeofNode i ->
  FP.bit_of c_bitIndexSize (data pg) i = false ->
  Release (Some p) P = Ok (false, P).
Proof.
  intros Hok Hpg Hrange Hin Hi Hoff Hbit. pose proof Hok as (Hwf & _).
  unfold Release. destruct (Z.ltb_spec (ptr_page p) (numPages P)); [| lia].
  rewrite (locked_page_at_free P _ (wf_lock _ _ Hwf)). cbn [bind].
  rewrite Hpg. cbn [of_option bind]. rewrite Hoff.
  rewrite (FP.Release_free PageSize_T c_bitIndexSize sizeofNode
             sizeofNode_pos c_bitIndexSize_pow2 (data pg) i Hi Hbit).
  replace (set_data pg (data pg)) with pg by (destruct pg; reflexivity).
  rewrite (set_page_same _ _ _ Hpg).
  assert (Hn : nextFreeIndex pg <> c_InvalidPageIndex).
  { intros E. apply (wf_offlist _ _ Hwf (ptr_page p) _ Hrange Hpg) in E.
    contradiction. }
  rewrite (Push_enqueued_aborts P _ _ Hpg Hn). reflexivity.
Qed.

(** X16.  Given memory for one more page and a round per page plus two,
    [Reserve] returns a pointer, never null, to a slot that held no object:
    the new object is read through it, every other pointer reads what it
    read before, [Size] is one higher, at most one page has been added and
    the pool is at rest again. *)
Theorem Reserve_gives_fresh_object (x : T) (P : PagingObjectPool)
  (l : list Z) (fuel : nat) :
  pool_ok P l -> numPages P < c_MaxPages ->
  NewAligned (numPages P) = true ->
  (Z.to_nat (numPages P) + 2 <= fuel)%nat ->
  exists p P' l',
    Reserve fuel x P = Ok (Some p, P') /\
    load P p = None /\
    (forall q, load P' q = if decide (q = p) then Some x else load P q) /\
    Size P' = wrap32 (Size P + 1) /\
    numPages P <= numPages P' <= numPages P + 1 /\
    0 <= ptr_page p < numPages P' /\
    pool_ok P' l'.
Proof.
  intros Hok Hn Hnew Hfuel.
  pose proof (pool_ok_free_length P l Hok) as Hlen.
  pose proof (wf_numPages _ _ (proj1 Hok)) as Hnp.
  destruct (Reserve_spec x l P fuel Hok ltac:(lia) Hnew ltac:(lia))
    as (p & P' & l' & Hrun & Hok' & Hfresh & Hload & Hcount & Hnum).
  exists p, P', l'.
  split; [exact Hrun |]. split; [exact Hfresh |]. split; [exact Hload |].
  split; [exact Hcount |]. split; [exact Hnum |]. split; [| exact Hok'].
  assert (Hp : load P' p = Some x).
  { rewrite Hload. destruct (decide (p = p)); [reflexivity | contradiction]. }
  destruct (load_slot P' l' p x Hok' Hp) as (_ & _ & _ & Hrange & _).
  exact Hrange.
Qed.

(** X17.  [Release] returns false and changes nothing for the null pointer
    and for a pointer whose page index is not below [numPages].  For a
    pointer through which an object is read it returns true: the object is
    destroyed, every other pointer reads what it read before, [Size] is one
    lower, no page is given back, the object's page is on the free list and
    the pool is at rest again. *)
Theorem Release_destroys_object (P : PagingObjectPool) (l : list Z) :
  pool_ok P l ->
  Release None P = Ok (false, P) /\
  (forall p, numPages P <= ptr_page p -> Release (Some p) P = Ok (false, P)) /\
  (forall p y, load P p = Some y ->
     exists P' l',
       Release (Some p) P = Ok (true, P') /\
       (forall q, load P' q = if decide (q = p) then None else load P q) /\
       Size P' = wrap32 (Size P - 1) /\
       numPages P' = numPages P /\
       ptr_page p ∈ l' /\
       pool_ok P' l').
Proof.
  intros Hok. split; [reflexivity |]. split.
  - intros p Hge. unfold Release.
    destruct (Z.ltb_spec (ptr_page p) (numPages P)); [lia | reflexivity].
  - intros p y Hp.
    destruct (Release_live P l p y Hok Hp)
      as (P' & l' & pg' & i & Hrun & Hok' & Hin & Hload & Hcount & Hnum & _).
    exists P', l'.
    split; [exact Hrun |]. split; [exact Hload |]. split; [exact Hcount |].
    split; [exact Hnum |]. split; [exact Hin | exact Hok'].
Qed.

(** X18.  A reservation followed by the release of the returned pointer
    gives back what the pool held: every pointer reads what it read before
    the reservation and [Size] is what it was.  Releasing the same pointer
    once more returns false and changes nothing. *)
Theorem Reserve_then_Release_restores (x : T) (P : PagingObjectPool)
  (l : list Z) (fuel : nat) :
  pool_ok P l -> 0 <= count P < 2 ^ 32 ->
  numPages P < c_MaxPages ->
  NewAligned (numPages P) = true ->
  (Z.to_nat (numPages P) + 2 <= fuel)%nat ->
  exists p P' P'' l'',
    Reserve fuel x P = Ok (Some p, P') /\
    Release (Some p) P' = Ok (true, P'') /\
    (forall q, load P'' q = load P q) /\
    Size P'' = Size P /\
    pool_ok P'' l'' /\
    Release (Some p) P'' = Ok (false, P'').
Proof.
  intros Hok Hc Hn Hnew Hfuel.
  pose proof (pool_ok_free_length P l Hok) as Hlen.
  pose proof (wf_numPages _ _ (proj1 Hok)) as Hnp.
  destruct (Reserve_spec x l P fuel Hok ltac:(lia) Hnew ltac:(lia))
    as (p & P' & l' & Hrun & Hok' & Hfresh & Hload & Hcount & Hnum).
  assert (Hp : load P' p = Some x).
  { rewrite Hload. destruct (decide (p = p)); [reflexivity | contradiction]. }
  destruct (Release_live P' l' p x Hok' Hp)
    as (P'' & l'' & pg' & i & Hrel & Hok'' & Hin & Hload' & Hcount' & Hnum'
        & Hpg' & Hi & Hoff & Hbit).
  exists p, P', P'', l''.
  split; [exact Hrun |]. split; [exact Hrel |]. split; [| split; [| split]].
  - intros q. rewrite Hload', Hload.
    destruct (decide (q = p)) as [-> | _]; [symmetry; exact Hfresh | reflexivity].
  - unfold Size. rewrite Hcount', Hcount. unfold wrap32.
    rewrite Zminus_mod_idemp_l.
    replace (count P + 1 - 1) with (count P) by lia.
    apply Z.mod_small. exact Hc.
  - exact Hok''.
  - apply (Release_dead P'' l'' p pg' i); try assumption.
    destruct (Z_lt_dec (ptr_page p) (numPages P'')) as [Hlt | Hge].
    + split; [| exact Hlt].
      unfold page_at in Hpg'.
      destruct (zlookup (pPageList P'') (ptr_page p)) as [o |] eqn:E;
        [| discriminate].
      apply zlookup_lt in E. lia.
    + destruct Hok'' as (_ & _ & Hbeyond).
      rewrite Hbeyond in Hpg' by lia. discriminate.
Qed.

(** [PreallocateSpace]'s loop, given memory for every page: the pages are
    added one by one; no object is created or moved. *)
Lemma AllocatePages_spec (n : nat) : forall (P : PagingObjectPool) (l : list Z),
  pool_ok P l -> numPages P + Z.of_nat n <= c_MaxPages ->
  (forall j, numPages P <= j < numPages P + Z.of_nat n -> NewAligned j = true) ->
  exists P' l',
    AllocatePages n P = Ok P' /\ pool_ok P' l' /\
    (forall q, load P' q = load P q) /\ count P' = count P /\
    numPages P' = numPages P + Z.of_nat n.
Proof.
  induction n as [| n IH]; intros P l Hok Hmax Hnew.
  - exists P, l. split; [reflexivity |]. split; [exact Hok |].
    split; [reflexivity |]. split; [reflexivity | lia].
  - pose proof (wf_numPages _ _ (proj1 Hok)) as Hnp.
    assert (Hn : 0 <= numPages P < c_MaxPages) by lia.
    assert (Hfirst : NewAligned (numPages P) = true) by (apply Hnew; lia).
    destruct (AllocateNewPage_spec P l Hok Hn Hfirst)
      as (P1 & Hrun & Hok1 & Hload1 & Hcount1 & Hnum1 & _).
    destruct (IH P1 _ Hok1) as (P' & l' & Hrun' & Hok' & Hload' & Hcount' & Hnum').
    { lia. }
    { intros j Hj. apply Hnew. lia. }
    exists P', l'. cbn [AllocatePages]. rewrite Hrun. cbn [bind].
    split; [exact Hrun' |]. split; [exact Hok' |].
    split; [intros q; rewrite Hload'; apply Hload1 |].
    split; [congruence | lia].
Qed.

(** [PreallocateSpace] with its page count, when the sum
    [numObjects + PageSize_T - 1] fits 32 bits. *)
Lemma PreallocateSpace_pages (numObjects n : Z) (P : PagingObjectPool)
  (l : list Z) :
  pool_ok P l -> PageSize_T < 2 ^ 32 ->
  0 <= numObjects -> numObjects + PageSize_T <= 2 ^ 32 ->
  n = (numObjects + PageSize_T - 1) / PageSize_T ->
  numPages P + n <= c_MaxPages ->
  (forall j, numPages P <= j < numPages P + n -> NewAligned j = true) ->
  exists P' l',
    PreallocateSpace numObjects P = Ok P' /\ pool_ok P' l' /\
    (forall q, load P' q = load P q) /\ count P' = count P /\
    numPages P' = numPages P + n.
Proof.
  intros Hok Hpage Hobj Hsmall Hn Hmax Hnew.
  assert (Hn0 : 0 <= n) by (subst n; apply Z.div_pos; lia).
  assert (Hneeded : wrap32 (wrap32 (numObjects + c_PageSize) - 1) / c_PageSize = n).
  { unfold c_PageSize, wrap32. rewrite (Z.mod_small PageSize_T) by lia.
    rewrite Zminus_mod_idemp_l.
    rewrite Z.mod_small by lia. subst n. reflexivity. }
  destruct (AllocatePages_spec (Z.to_nat n) P l Hok ltac:(lia))
    as (P' & l' & Hrun & Hok' & Hload & Hcount & Hnum).
  { intros j Hj. apply Hnew. lia. }
  exists P', l'. unfold PreallocateSpace. rewrite Hneeded.
  split; [exact Hrun |]. split; [exact Hok' |]. split; [exact Hload |].
  split; [exact Hcount | lia].
Qed.

(** X19.  [PreallocateSpace], given memory for every page it asks for, adds
    [(numObjects + PageSize_T - 1) / PageSize_T] pages: [GetCapacity] grows
    by at least [numObjects] and by less than [numObjects + PageSize_T],
    while no object is created, moved or destroyed and [Size] is as it
    was.  The page size, the sum [numObjects + PageSize_T - 1] and the
    new capacity are taken to fit 32 bits. *)
Theorem PreallocateSpace_grows_capacity (numObjects n : Z)
  (P : PagingObjectPool) (l : list Z) :
  pool_ok P l -> PageSize_T < 2 ^ 32 ->
  0 <= numObjects -> numObjects + PageSize_T <= 2 ^ 32 ->
  n = (numObjects + PageSize_T - 1) / PageSize_T ->
  (numPages P + n) * PageSize_T < 2 ^ 32 ->
  numPages P + n <= c_MaxPages ->
  (forall j, numPages P <= j < numPages P + n -> NewAligned j = true) ->
  exists P' l',
    PreallocateSpace numObjects P = Ok P' /\
    numPages P' = numPages P + n /\
    GetCapacity P + numObjects <= GetCapacity P' /\
    GetCapacity P' < GetCapacity P + numObjects + PageSize_T /\
    (forall q, load P' q = load P q) /\
    Size P' = Size P /\
    pool_ok P' l'.
Proof.
  intros Hok Hpage Hobj Hsmall Hn Hcap Hmax Hnew.
  pose proof (wf_numPages _ _ (proj1 Hok)) as Hnp.
  assert (Hn0 : 0 <= n) by (subst n; apply Z.div_pos; lia).
  assert (Hlo : numObjects <= n * PageSize_T).
  { subst n. pose proof (Z.mul_succ_div_gt (numObjects + PageSize_T - 1)
                           PageSize_T PageSize_T_pos). lia. }
  assert (Hhi : n * PageSize_T < numObjects + PageSize_T).
  { subst n. pose proof (Z.mul_div_le (numObjects + PageSize_T - 1)
                           PageSize_T PageSize_T_pos). lia. }
  destruct (PreallocateSpace_pages numObjects n P l Hok Hpage Hobj Hsmall Hn
              Hmax Hnew)
    as (P' & l' & Hrun & Hok' & Hload & Hcount & Hnum).
  assert (Ecap : GetCapacity P = numPages P * PageSize_T)
    by (apply Z.mod_small; nia).
  assert (Ecap' : GetCapacity P' = (numPages P + n) * PageSize_T).
  { unfold GetCapacity. rewrite Hnum. apply Z.mod_small. nia. }
  exists P', l'.
  split; [exact Hrun |]. split; [exact Hnum |].
  split; [rewrite Ecap, Ecap'; lia |]. split; [rewrite Ecap, Ecap'; lia |].
  split; [exact Hload |]. split; [exact Hcount | exact Hok'].
Qed.

End Facts.

End Paging.

Arguments Page T : clear implicits.
Arguments PagingObjectPool T : clear implicits.

(** A pool of 8-slot pages after one page has been allocated: page 0 is
    the only page and is enqueued. *)
Definition always (_ : Z) : bool := true.

Definition demo : PagingObjectPool Z :=
  match AllocateNewPage 8 8 always empty with
  | Ok (_, P) => P
  | _ => empty
  end.

Lemma demo_ok : pool_ok 8 8 demo [0].
Proof.
  destruct (AllocateNewPage_spec (T := Z) 8 8 32 always empty []
              (empty_ok 8 8) ltac:(cbn; unfold c_MaxPages, c_TailPageIndex; lia)
              eq_refl)
    as (P' & Hrun & Hok & _).
  unfold demo. rewrite Hrun. exact Hok.
Qed.

Lemma free_list_discipline_witness :
  (forall pg, page_at demo 0 = Some pg ->
     nextFreeIndex pg <> c_InvalidPageIndex /\
     PushPageToFreeList (Some 0) demo = Ok demo) /\
  exists P' pg, PopPageFromFreeList demo = Ok (Some 0, P') /\
                page_at P' 0 = Some pg /\
                nextFreeIndex pg = c_InvalidPageIndex /\
                free_list_wf P' [].
Proof.
  destruct (free_list_discipline 8 always demo [0] (proj1 demo_ok))
    as (Hpush & Hoff & _ & Hpop).
  split; [| exact Hpop].
  intros pg Hpg.
  assert (Hn : nextFreeIndex pg <> c_InvalidPageIndex).
  { intros E.
    apply (Hoff 0 pg) in E; [| change (numPages demo) with 1; lia | exact Hpg].
    apply E. apply elem_of_cons. left. reflexivity. }
  split; [exact Hn | exact (Hpush 0 pg Hpg Hn)].
Defined.

(** [demo] after one reservation: the object 7 in slot 0 of page 0. *)
Definition demo_reserved : PagingObjectPool Z :=
  match Reserve 8 8 32 always 3 7 demo with
  | Ok (_, P) => P
  | _ => demo
  end.

Definition demo_ptr : objptr := {| ptr_page := 0; ptr_off := 0 |}.

Lemma demo_facts :
  numPages demo < c_MaxPages /\ (Z.to_nat (numPages demo) + 2 <= 3)%nat /\
  0 <= count demo < 2 ^ 32.
Proof.
  change (numPages demo) with 1. change (count demo) with 0.
  unfold c_MaxPages, c_TailPageIndex. lia.
Qed.

Lemma demo_reserved_ok :
  exists l, pool_ok 8 8 demo_reserved l /\
            load 8 32 demo_reserved demo_ptr = Some 7.
Proof.
  destruct demo_facts as (Hn & Hfuel & _).
  destruct (Reserve_spec (T := Z) 8 8 32 always ltac:(lia) eq_refl ltac:(lia)
              eq_refl 7 [0] demo 3%nat demo_ok)
    as (p & P' & l' & Hrun & Hok & _ & Hload & _).
  - change (numPages demo) with 1. unfold c_MaxPages, c_TailPageIndex. lia.
  - reflexivity.
  - cbn. lia.
  - assert (E : Reserve 8 8 32 always 3 7 demo = Ok (Some demo_ptr, demo_reserved))
      by (vm_compute; reflexivity).
    rewrite E in Hrun. injection Hrun as <- <-.
    exists l'. split; [exact Hok |].
    rewrite Hload. rewrite decide_True by reflexivity. reflexivity.
Qed.

Lemma Reserve_gives_fresh_object_witness :
  exists p P',
    Reserve 8 8 32 always 3 7 demo = Ok (Some p, P') /\
    load 8 32 demo p = None /\ load 8 32 P' p = Some 7 /\
    Size P' = 1.
Proof.
  destruct demo_facts as (Hn & Hfuel & _).
  destruct (Reserve_gives_fresh_object (T := Z) 8 8 32 always ltac:(lia)
              eq_refl ltac:(lia) eq_refl 7 demo [0] 3%nat demo_ok Hn eq_refl
              Hfuel)
    as (p & P' & l' & Hrun & Hfresh & Hload & Hsize & _).
  exists p, P'. split; [exact Hrun |]. split; [exact Hfresh |]. split.
  - rewrite Hload. rewrite decide_True by reflexivity. reflexivity.
  - rewrite Hsize. reflexivity.
Defined.

Lemma Release_destroys_object_witness :
  load 8 32 demo_reserved demo_ptr = Some 7 /\
  exists P',
    Release 8 8 32 (Some demo_ptr) demo_reserved = Ok (true, P') /\
    load 8 32 P' demo_ptr = None /\ Size P' = 0.
Proof.
  destruct demo_reserved_ok as (l & Hok & Hload).
  split; [exact Hload |].
  destruct (Release_destroys_object (T := Z) 8 8 32 always ltac:(lia) eq_refl
              ltac:(lia) eq_refl demo_reserved l Hok) as (_ & _ & H).
  destruct (H demo_ptr 7 Hload) as (P' & l' & Hrun & Hload' & Hsize & _).
  exists P'. split; [exact Hrun |]. split.
  - rewrite Hload'. rewrite decide_True by reflexivity. reflexivity.
  - rewrite Hsize. reflexivity.
Defined.

Lemma Reserve_then_Release_restores_witness :
  exists p P' P'',
    Reserve 8 8 32 always 3 7 demo = Ok (Some p, P') /\
    Release 8 8 32 (Some p) P' = Ok (true, P'') /\
    (forall q, load 8 32 P'' q = load 8 32 demo q) /\
    Size P'' = Size demo /\
    Release 8 8 32 (Some p) P'' = Ok (false, P'').
Proof.
  destruct demo_facts as (Hn & Hfuel & Hc).
  destruct (Reserve_then_Release_restores (T := Z) 8 8 32 always ltac:(lia)
              eq_refl ltac:(lia) eq_refl 7 demo [0] 3%nat demo_ok Hc Hn
              eq_refl Hfuel)
    as (p & P' & P'' & l'' & Hrun & Hrel & Hload & Hsize & _ & Hagain).
  exists p, P', P''. split; [exact Hrun |]. split; [exact Hrel |].
  split; [exact Hload |]. split; [exact Hsize | exact Hagain].
Defined.

Lemma PreallocateSpace_grows_capacity_witness :
  exists P',
    PreallocateSpace 8 8 always 20 demo = Ok P' /\
    numPages P' = 4 /\ GetCapacity 8 demo = 8 /\
    8 + 20 <= GetCapacity 8 P' < 8 + 20 + 8 /\
    Size P' = 0.
Proof.
  destruct (PreallocateSpace_grows_capacity (T := Z) 8 8 32 always ltac:(lia)
              20 3 demo [0] demo_ok ltac:(lia) ltac:(lia) ltac:(lia) eq_refl)
    as (P' & l' & Hrun & Hnum & Hlo & Hhi & _ & Hsize & _).
  - change (numPages demo) with 1. lia.
  - change (numPages demo) with 1. unfold c_MaxPages, c_TailPageIndex. lia.
  - intros j _. reflexivity.
  - exists P'. split; [exact Hrun |]. split; [exact Hnum |].
    split; [reflexivity |].
    change (GetCapacity 8 demo) with 8 in Hlo, Hhi.
    split; [lia | exact Hsize].
Defined.

End PagingObjectPool.

(** ** magic_num_util.h *)

Module MagicNumUtil.

Definition c_powerOfTwoTable : list Z :=
  [1; 2; 4; 8; 16; 32; 64; 128;
   256; 512; 1024; 2048; 4096; 8192;
   16384; 32768; 65536; 131072; 262144;
   524288; 1048576; 2097152; 4194304;
   8388608; 16777216; 33554432; 67108864;
   134217728; 268435456; 536870912;
   1073741824; 2147483648].

(** The [for] loop of [GetNextPowerOfTwo] over the entries still to visit. *)
Fixpoint GetNextPowerOfTwo_loop (table : list Z) (value : Z) : option Z :=
  match table with
  | [] => None
  | t :: table' =>
      if value <=? t then Some t else GetNextPowerOfTwo_loop table' value
  end.

Definition GetNextPowerOfTwo (value : Z) : Z :=
  match GetNextPowerOfTwo_loop c_powerOfTwoTable value with
  | Some t => t
  | None => 2147483648
  end.

Definition c_powerOfTwoPrimeNumbers : list Z :=
  [1; 3; 7; 13; 31;
   53; 89; 211; 431; 827;
   1663; 4093; 8191; 16381; 32749;
   65519; 131071; 262139; 524287; 1048573;
   1572869; 2097143; 4194287; 8388587; 16777213;
   33554383; 67108859; 134217593; 268435367; 536870909;
   1073741789; 2147483647].

(** [GetNextPowerOfTwoTablePrime]: the same loop over the table of primes. *)
Definition GetNextPowerOfTwoTablePrime (currentSize : Z) : Z :=
  match GetNextPowerOfTwo_loop c_powerOfTwoPrimeNumbers currentSize with
  | Some t => t
  | None => 2147483647
  end.

Definition c_fibonacciConstant : Z := 11400714819323198485.

(** [FibonnaciHash], on a 64-bit [hash] and a shift below 64. *)
Definition FibonnaciHash (hash shiftAmount : Z) : Z :=
  let hash := Z.lxor hash (Z.shiftr hash shiftAmount) in
  wrap32 (Z.shiftr (wrap64 (c_fibonacciConstant * hash)) shiftAmount).

(** The entries of a table go up. *)
Fixpoint ascending (table : list Z) : bool :=
  match table with
  | t :: ((u :: _) as table') => (t <=? u) && ascending table'
  | _ => true
  end.

(** *** Theorems *)

Lemma ascending_head (t : Z) (table : list Z) :
  ascending (t :: table) = true -> forall u, In u table -> t <= u.
Proof.
  revert t. induction table as [| v table IH]; intros t Ha u Hu; [inversion Hu |].
  cbn [ascending] in Ha. apply andb_true_iff in Ha as [Htv Ha].
  apply Z.leb_le in Htv. destruct Hu as [<- | Hu]; [exact Htv |].
  specialize (IH v Ha u Hu). lia.
Qed.

Lemma ascending_tail (t : Z) (table : list Z) :
  ascending (t :: table) = true -> ascending table = true.
Proof.
  destruct table as [| v table]; [reflexivity |].
  cbn [ascending]. intros H. apply andb_true_iff in H as [_ H]. exact H.
Qed.

(** The loop answers with the first entry that is not below the value,
    which in an ascending table is the least such entry; it falls through
    when every entry is below the value. *)
Lemma GetNextPowerOfTwo_loop_least (value : Z) : forall table,
  ascending table = true ->
  match GetNextPowerOfTwo_loop table value with
  | Some r => In r table /\ value <= r /\
              forall t, In t table -> value <= t -> r <= t
  | None => forall t, In t table -> t < value
  end.
Proof.
  induction table as [| u table IH]; intros Ha; cbn [GetNextPowerOfTwo_loop].
  - intros t Ht. inversion Ht.
  - destruct (Z.leb_spec value u) as [Hle | Hgt].
    + split; [left; reflexivity |]. split; [exact Hle |].
      intros t [<- | Ht] _; [lia |].
      apply (ascending_head u table Ha t Ht).
    + specialize (IH (ascending_tail u table Ha)).
      destruct (GetNextPowerOfTwo_loop table value) as [r |].
      * destruct IH as (Hin & Hle & Hleast).
        split; [right; exact Hin |]. split; [exact Hle |].
        intros t [<- | Ht] Hvt; [lia | apply Hleast; assumption].
      * intros t [<- | Ht]; [exact Hgt | apply IH; exact Ht].
Qed.

Lemma table_pow2 (t : Z) :
  In t c_powerOfTwoTable -> exists k, 0 <= k <= 31 /\ t = 2 ^ k.
Proof.
  unfold c_powerOfTwoTable. cbn [In]. intros H.
  repeat (destruct H as [<- | H];
          [ first [ exists 0; split; [lia | reflexivity]
                  | exists 1; split; [lia | reflexivity]
                  | exists 2; split; [lia | reflexivity]
                  | exists 3; split; [lia | reflexivity]
                  | exists 4; split; [lia | reflexivity]
                  | exists 5; split; [lia | reflexivity]
                  | exists 6; split; [lia | reflexivity]
                  | exists 7; split; [lia | reflexivity]
                  | exists 8; split; [lia | reflexivity]
                  | exists 9; split; [lia | reflexivity]
                  | exists 10; split; [lia | reflexivity]
                  | exists 11; split; [lia | reflexivity]
                  | exists 12; split; [lia | reflexivity]
                  | exists 13; split; [lia | reflexivity]
                  | exists 14; split; [lia | reflexivity]
                  | exists 15; split; [lia | reflexivity]
                  | exists 16; split; [lia | reflexivity]
                  | exists 17; split; [lia | reflexivity]
                  | exists 18; split; [lia | reflexivity]
                  | exists 19; split; [lia | reflexivity]
                  | exists 20; split; [lia | reflexivity]
                  | exists 21; split; [lia | reflexivity]
                  | exists 22; split; [lia | reflexivity]
                  | exists 23; split; [lia | reflexivity]
                  | exists 24; split; [lia | reflexivity]
                  | exists 25; split; [lia | reflexivity]
                  | exists 26; split; [lia | reflexivity]
                  | exists 27; split; [lia | reflexivity]
                  | exists 28; split; [lia | reflexivity]
                  | exists 29; split; [lia | reflexivity]
                  | exists 30; split; [lia | reflexivity]
                  | exists 31; split; [lia | reflexivity] ] |]).
  contradiction.
Qed.

Lemma GetNextPowerOfTwo_loop_In (value : Z) : forall table t,
  GetNextPowerOfTwo_loop table value = Some t -> In t table.
Proof.
  induction table as [| u table IH]; cbn; intros t H; [discriminate |].
  destruct (value <=? u); [injection H as <-; left; reflexivity |].
  right. apply IH. exact H.
Qed.

(** [GetNextPowerOfTwo] always answers with an entry of the table. *)
Lemma GetNextPowerOfTwo_In (value : Z) :
  In (GetNextPowerOfTwo value) c_powerOfTwoTable.
Proof.
  unfold GetNextPowerOfTwo.
  destruct (GetNextPowerOfTwo_loop c_powerOfTwoTable value) as [t |] eqn:E.
  - apply (GetNextPowerOfTwo_loop_In value). exact E.
  - unfold c_powerOfTwoTable. cbn. tauto.
Qed.


(** X1.  [GetNextPowerOfTwo] always answers with an entry of its table, a
    power of two from [1] to [2 ^ 31].  For a value up to [2 ^ 31] the
    answer is the least entry that is not below the value, and a value that
    is itself an entry is answered by itself; above [2 ^ 31] the answer is
    [2 ^ 31], an entry below the value. *)
Theorem GetNextPowerOfTwo_least_entry (value : Z) :
  (exists k, 0 <= k <= 31 /\ GetNextPowerOfTwo value = 2 ^ k) /\
  (value <= 2 ^ 31 ->
     value <= GetNextPowerOfTwo value /\
     forall t, In t c_powerOfTwoTable -> value <= t ->
       GetNextPowerOfTwo value <= t) /\
  (In value c_powerOfTwoTable -> GetNextPowerOfTwo value = value) /\
  (2 ^ 31 < value -> GetNextPowerOfTwo value = 2 ^ 31).
Proof.
  pose proof (GetNextPowerOfTwo_loop_least value c_powerOfTwoTable eq_refl) as H.
  assert (Htop : In (2 ^ 31) c_powerOfTwoTable).
  { unfold c_powerOfTwoTable. cbn. tauto. }
  split; [apply table_pow2; apply GetNextPowerOfTwo_In |].
  unfold GetNextPowerOfTwo.
  destruct (GetNextPowerOfTwo_loop c_powerOfTwoTable value) as [r |].
  - destruct H as (Hin & Hle & Hleast).
    split; [intros _; split; [exact Hle | exact Hleast] |].
    split.
    + intros Hv. specialize (Hleast value Hv ltac:(lia)). lia.
    + intros Hbig. destruct (table_pow2 r Hin) as (k & Hk & ->).
      assert (2 ^ k <= 2 ^ 31) by (apply Z.pow_le_mono_r; lia). lia.
  - split; [intros Hv; specialize (H _ Htop); lia |].
    split; [intros Hv; specialize (H _ Hv); lia | reflexivity].
Qed.

(** X2.  [GetNextPowerOfTwoTablePrime] answers with the least entry of the
    prime table that is not below the requested size, and with the last
    entry, 2147483647, when the size is above every entry. *)
Theorem GetNextPowerOfTwoTablePrime_least_entry (currentSize : Z) :
  In (GetNextPowerOfTwoTablePrime currentSize) c_powerOfTwoPrimeNumbers /\
  (currentSize <= 2147483647 ->
     currentSize <= GetNextPowerOfTwoTablePrime currentSize /\
     forall t, In t c_powerOfTwoPrimeNumbers -> currentSize <= t ->
       GetNextPowerOfTwoTablePrime currentSize <= t) /\
  (2147483647 < currentSize ->
     GetNextPowerOfTwoTablePrime currentSize = 2147483647).
Proof.
  pose proof (GetNextPowerOfTwo_loop_least currentSize c_powerOfTwoPrimeNumbers
                eq_refl) as H.
  assert (Htop : In 2147483647 c_powerOfTwoPrimeNumbers).
  { unfold c_powerOfTwoPrimeNumbers. cbn. tauto. }
  unfold GetNextPowerOfTwoTablePrime.
  destruct (GetNextPowerOfTwo_loop c_powerOfTwoPrimeNumbers currentSize) as [r |].
  - destruct H as (Hin & Hle & Hleast).
    split; [exact Hin |]. split; [intros _; split; assumption |].
    intros Hbig.
    assert (r <= 2147483647); [| lia].
    clear - Hin. unfold c_powerOfTwoPrimeNumbers in Hin. cbn [In] in Hin.
    repeat (destruct Hin as [<- | Hin]; [lia |]). contradiction.
  - split; [exact Htop |].
    split; [intros Hv; specialize (H _ Htop); lia | reflexivity].
Qed.

(** X3.  For a shift from 32 to 63, [FibonnaciHash] maps every hash to an
    index below [2 ^ (64 - shift)]: a valid index into a table of that many
    buckets. *)
Theorem FibonnaciHash_in_range (hash shiftAmount : Z) :
  32 <= shiftAmount < 64 ->
  0 <= FibonnaciHash hash shiftAmount < 2 ^ (64 - shiftAmount).
Proof.
  intros Hs. unfold FibonnaciHash. cbv zeta.
  set (h := wrap64 _).
  assert (Hh : 0 <= h < 2 ^ 64) by (apply Z.mod_pos_bound; lia).
  rewrite Z.shiftr_div_pow2 by lia.
  assert (Hp : 0 < 2 ^ shiftAmount) by (apply Z.pow_pos_nonneg; lia).
  assert (Hq : 0 <= h / 2 ^ shiftAmount < 2 ^ (64 - shiftAmount)).
  { split; [apply Z.div_pos; lia |].
    apply Z.div_lt_upper_bound; [lia |].
    rewrite <- Z.pow_add_r by lia.
    replace (shiftAmount + (64 - shiftAmount)) with 64 by lia. lia. }
  assert (2 ^ (64 - shiftAmount) <= 2 ^ 32) by (apply Z.pow_le_mono_r; lia).
  unfold wrap32. rewrite Z.mod_small by lia. exact Hq.
Qed.

Lemma FibonnaciHash_in_range_witness :
  32 <= 60 < 64 /\ 0 <= FibonnaciHash 12345 60 < 2 ^ (64 - 60).
Proof.
  split; [lia |]. apply (FibonnaciHash_in_range 12345 60). lia.
Defined.

End MagicNumUtil.

(** ** hash_map.h

    Keys are 64-bit unsigned integers.  [hash_type.h] is not part of the
    sources: [Hash64] is a parameter.

    A bucket's [SimpleLinkedList] is represented by the sequence of node
    pointers that following [pNext] from its head visits
    ([SimpleLinkedList.is_list]); the bucket functions below act on that
    sequence as [Insert_Unsafe], [Find_Unsafe] and [Erase_Unsafe] act on the
    linked nodes.  The other members of a node live in the shared pool and
    are read and written through the node's pointer. *)

Module HashMap.
Import AtomicUtil CountingSpinlock MagicNumUtil.
Module PP := PagingObjectPool.
Module FP := FixedSizeObjectPool.

Section Map.

Context {Value_T : Type}.
Variable PageSize_T : Z.
Variable NumInnerMaps_T : Z.
Variable Hash64 : Z -> Z.
Variable c_bitIndexSize : Z.
Variable sizeofNode : Z.
Variable NewAligned : Z -> bool.

Record Node : Type := mkNode {
  key : Z;
  value : Value_T;
  bucket : Z
}.

Definition c_invalidBucket : Z := 0xFFFFFFFF.
Definition c_reassigningBucket : Z := 0xFFFFFFFE.

Definition set_key (n : Node) (k : Z) : Node :=
  {| key := k; value := value n; bucket := bucket n |}.

Definition set_bucket (n : Node) (b : Z) : Node :=
  {| key := key n; value := value n; bucket := b |}.

(** [KeyComparator::Compare]. *)
Definition Compare (a b : Z) : Z :=
  if a <? b then -1 else if b <? a then 1 else 0.

Abbreviation Pool := (PP.PagingObjectPool Node).
Abbreviation load := (PP.load PageSize_T sizeofNode).
Abbreviation store := (PP.store PageSize_T sizeofNode).

(** *** Bucket *)

Definition Bucket : Type := list PP.objptr.

Definition Bucket_Insert_Lockless (pNewNode : option PP.objptr) (b : Bucket)
  : bool * Bucket :=
  match pNewNode with
  | None => (false, b)
  | Some p => (true, p :: b)
  end.

Fixpoint Bucket_Find_Lockless (pool : Pool) (b : Bucket) (k : Z)
  : res (option PP.objptr) :=
  match b with
  | [] => Ok None
  | current :: b' =>
      do n <- of_option (load pool current);
      if Compare (key n) k =? 0
      then Ok (Some current)
      else Bucket_Find_Lockless pool b' k
  end.

Fixpoint Bucket_Erase_Lockless (pool : Pool) (b : Bucket) (k : Z)
  : res (option PP.objptr * Bucket) :=
  match b with
  | [] => Ok (None, [])
  | current :: b' =>
      do n <- of_option (load pool current);
      if Compare (key n) k =? 0
      then Ok (Some current, b')
      else
        do '(r, b'') <- Bucket_Erase_Lockless pool b' k;
        Ok (r, current :: b'')
  end.

Definition Bucket_Reset_Lockless (b : Bucket) : Bucket := [].

(** *** InnerMap *)

Record InnerMap : Type := mkInner {
  buckets : list Bucket;
  count : Z;
  fillCapacity : Z;
  numBuckets : Z;
  lock : Z
}.

Definition InnerMap_empty : InnerMap :=
  {| buckets := []; count := 0; fillCapacity := 0; numBuckets := 0; lock := 0 |}.

Definition set_buckets (m : InnerMap) (bs : list Bucket) : InnerMap :=
  {| buckets := bs; count := count m; fillCapacity := fillCapacity m;
     numBuckets := numBuckets m; lock := lock m |}.

Definition set_count (m : InnerMap) (c : Z) : InnerMap :=
  {| buckets := buckets m; count := c; fillCapacity := fillCapacity m;
     numBuckets := numBuckets m; lock := lock m |}.

Definition set_lock (m : InnerMap) (v : Z) : InnerMap :=
  {| buckets := buckets m; count := count m; fillCapacity := fillCapacity m;
     numBuckets := numBuckets m; lock := v |}.

(** [buckets[i]]: an index outside the array (or into a null array) has no
    defined value. *)
Definition bucket_at (bs : list Bucket) (i : Z) : res Bucket :=
  of_option (zlookup bs i).

Definition GetIndex_of (numBuckets : Z) (hash : Z) : Z :=
  wrap32 (Z.land hash (wrap64 (numBuckets - 1))).

Definition GetIndex (m : InnerMap) (hash : Z) : Z :=
  GetIndex_of (numBuckets m) hash.

(** The inner [while] of [Resize]: the nodes of one old bucket, from its
    head, are linked into the new array. *)
Fixpoint Resize_nodes (newNumBuckets : Z) (nodes : Bucket)
  (pNewBuckets : list Bucket) (pool : Pool) : res (list Bucket * Pool) :=
  match nodes with
  | [] => Ok (pNewBuckets, pool)
  | pNode :: pNextNode =>
      do n <- of_option (load pool pNode);
      let hash := Hash64 (key n) in
      let newBucketIndex := GetIndex_of newNumBuckets hash in
      let pool1 := store pool pNode (set_bucket n newBucketIndex) in
      do b <- bucket_at pNewBuckets newBucketIndex;
      let '(_, b') := Bucket_Insert_Lockless (Some pNode) b in
      Resize_nodes newNumBuckets pNextNode
        (<[Z.to_nat newBucketIndex := b']> pNewBuckets) pool1
  end.

(** The outer [for] of [Resize], over the old buckets in order. *)
Fixpoint Resize_buckets (newNumBuckets : Z) (old : list Bucket)
  (pNewBuckets : list Bucket) (pool : Pool) : res (list Bucket * Pool) :=
  match old with
  | [] => Ok (pNewBuckets, pool)
  | oldBucket :: old' =>
      do '(pNewBuckets', pool') <-
        Resize_nodes newNumBuckets oldBucket pNewBuckets pool;
      Resize_buckets newNumBuckets old' pNewBuckets' pool'
  end.

Definition Resize (newNumBuckets : Z) (m : InnerMap) (pool : Pool)
  : res (InnerMap * Pool) :=
  let pNewBuckets := replicate (Z.to_nat newNumBuckets) ([] : Bucket) in
  let oldNumBuckets := numBuckets m in
  if Z.of_nat (length (buckets m)) <? oldNumBuckets then Fault
  else
    do '(pNewBuckets', pool') <-
      Resize_buckets newNumBuckets
        (take (Z.to_nat oldNumBuckets) (buckets m)) pNewBuckets pool;
    Ok ({| buckets := pNewBuckets';
           count := count m;
           fillCapacity := wrap32 (newNumBuckets * 7) / 8;
           numBuckets := newNumBuckets;
           lock := lock m |}, pool').

Definition InnerMap_Insert_Lockless (fuel : nat) (hash : Z) (k : Z)
  (v : Value_T) (m : InnerMap) (pool : Pool)
  : res (option PP.objptr * InnerMap * Pool) :=
  let m0 := set_count m (wrap32 (count m + 1)) in
  do '(m1, pool1) <-
    (if fillCapacity m0 <? count m0
     then Resize (GetNextPowerOfTwo (wrap32 (count m0 * 2))) m0 pool
     else Ok (m0, pool));
  let bucket := GetIndex m1 hash in
  do b <- bucket_at (buckets m1) bucket;
  do existing <- Bucket_Find_Lockless pool1 b k;
  match existing with
  | Some _ => Ok (None, m1, pool1)
  | None =>
      do '(pNewNode, pool2) <-
        PP.Reserve PageSize_T c_bitIndexSize sizeofNode NewAligned fuel
          {| key := k; value := v; bucket := c_invalidBucket |} pool1;
      do p <- of_option pNewNode;
      do n <- of_option (load pool2 p);
      let pool3 := store pool2 p (set_bucket n bucket) in
      let '(bInserted, b') := Bucket_Insert_Lockless pNewNode b in
      let m2 := set_buckets m1 (<[Z.to_nat bucket := b']> (buckets m1)) in
      if bInserted then Ok (pNewNode, m2, pool3)
      else
        do '(_, pool4) <-
          PP.Release PageSize_T c_bitIndexSize sizeofNode pNewNode pool3;
        Ok (None, set_count m2 (wrap32 (count m2 - 1)), pool4)
  end.

(** [ScopedWriteSpinLock writeLock(lock)] around a body. *)
Definition with_write_lock {A : Type} (m : InnerMap)
  (body : InnerMap -> res (A * InnerMap * Pool)) : res (A * InnerMap * Pool) :=
  do v <- AcquireReadAndWriteAccess (lock m);
  do '(a, m', pool') <- body (set_lock m v);
  Ok (a, set_lock m' (ReleaseReadAndWriteAccess (lock m')), pool').

Definition InnerMap_Insert_Concurrent (fuel : nat) (hash : Z) (k : Z)
  (v : Value_T) (m : InnerMap) (pool : Pool)
  : res (option PP.objptr * InnerMap * Pool) :=
  with_write_lock m (fun m => InnerMap_Insert_Lockless fuel hash k v m pool).

Definition InnerMap_Find_Lockless (hash : Z) (k : Z) (m : InnerMap)
  (pool : Pool) : res (option PP.objptr) :=
  let bucket := GetIndex m hash in
  do b <- bucket_at (buckets m) bucket;
  Bucket_Find_Lockless pool b k.

Definition InnerMap_Find_Concurrent (hash : Z) (k : Z) (m : InnerMap)
  (pool : Pool) : res (option PP.objptr * InnerMap) :=
  do v <- AcquireReadOnlyAccess (lock m);
  do r <- InnerMap_Find_Lockless hash k (set_lock m v) pool;
  Ok (r, set_lock m (ReleaseReadOnlyAccess v)).

(** The tail shared by both [Remove_Lockless]: the unlinked node goes back
    to the pool unless it is marked as being reassigned. *)
Definition release_removed (pNode : PP.objptr) (m : InnerMap) (pool : Pool)
  : res (bool * InnerMap * Pool) :=
  do n <- of_option (load pool pNode);
  do pool1 <-
    (if negb (bucket n =? c_reassigningBucket)
     then
       do '(_, pool') <-
         PP.Release PageSize_T c_bitIndexSize sizeofNode (Some pNode) pool;
       Ok pool'
     else Ok pool);
  Ok (true, set_count m (wrap32 (count m - 1)), pool1).

(** [Remove_Lockless] by key. *)
Definition InnerMap_Remove_Lockless (hash : Z) (k : Z) (m : InnerMap)
  (pool : Pool) : res (bool * InnerMap * Pool) :=
  let bucket := GetIndex m hash in
  do b <- bucket_at (buckets m) bucket;
  do '(pNode, b') <- Bucket_Erase_Lockless pool b k;
  match pNode with
  | Some p =>
      release_removed p
        (set_buckets m (<[Z.to_nat bucket := b']> (buckets m))) pool
  | None => Ok (false, m, pool)
  end.

(** [Remove_Lockless<KeyValuePair>]: by the node itself. *)
Definition InnerMap_Remove_Lockless_KeyValuePair (hash : Z)
  (pValue : PP.objptr) (m : InnerMap) (pool : Pool)
  : res (bool * InnerMap * Pool) :=
  do pNode <- of_option (load pool pValue);
  let bucket := bucket pNode in
  if bucket <? numBuckets m then
    do b <- bucket_at (buckets m) bucket;
    do '(pRemovedNode, b') <- Bucket_Erase_Lockless pool b (key pNode);
    match pRemovedNode with
    | Some p =>
        release_removed p
          (set_buckets m (<[Z.to_nat bucket := b']> (buckets m))) pool
    | None => Ok (false, m, pool)
    end
  else Ok (false, m, pool).

Definition InnerMap_Remove_Concurrent (hash : Z) (k : Z) (m : InnerMap)
  (pool : Pool) : res (bool * InnerMap * Pool) :=
  with_write_lock m (fun m => InnerMap_Remove_Lockless hash k m pool).

Definition InnerMap_Remove_Concurrent_KeyValuePair (hash : Z)
  (pValue : PP.objptr) (m : InnerMap) (pool : Pool)
  : res (bool * InnerMap * Pool) :=
  with_write_lock m
    (fun m => InnerMap_Remove_Lockless_KeyValuePair hash pValue m pool).

(** [ForceChangeKey] through the node's pointer. *)
Definition ForceChangeKey (pool : Pool) (pNode : PP.objptr) (newKey : Z)
  : res Pool :=
  do n <- of_option (load pool pNode);
  Ok (store pool pNode (set_key n newKey)).

Definition write_bucket (pool : Pool) (pNode : PP.objptr) (b : Z) : res Pool :=
  do n <- of_option (load pool pNode);
  Ok (store pool pNode (set_bucket n b)).

Definition InnerMap_ReKey_Lockless (hash newHash : Z) (pNode : PP.objptr)
  (newKey : Z) (m : InnerMap) (pool : Pool) : res (bool * InnerMap * Pool) :=
  do n <- of_option (load pool pNode);
  let oldBucket := bucket n in
  let newBucket := GetIndex m newHash in
  if oldBucket <? numBuckets m then
    if negb (oldBucket =? newBucket) then
      do pool1 <- write_bucket pool pNode c_reassigningBucket;
      do b <- bucket_at (buckets m) oldBucket;
      do '(pRemovedNode, b') <- Bucket_Erase_Lockless pool1 b (key n);
      let m1 := set_buckets m (<[Z.to_nat oldBucket := b']> (buckets m)) in
      do pool2 <- ForceChangeKey pool1 pNode newKey;
      match pRemovedNode with
      | Some _ =>
          do pool3 <- write_bucket pool2 pNode newBucket;
          do nb <- bucket_at (buckets m1) newBucket;
          let '(bRekeyed, nb') := Bucket_Insert_Lockless (Some pNode) nb in
          Ok (bRekeyed,
              set_buckets m1 (<[Z.to_nat newBucket := nb']> (buckets m1)),
              pool3)
      | None => Ok (false, m1, pool2)
      end
    else
      do pool1 <- ForceChangeKey pool pNode newKey;
      Ok (true, m, pool1)
  else Ok (false, m, pool).

(** [ReKey_Concurrent] of a shard.  The do-while ends once the
    compare-and-swap of the node's bucket has been attempted; with no other
    thread in between, a node whose bucket is not below [numBuckets] keeps
    the loop going for ever. *)
Definition InnerMap_ReKey_Concurrent (hash newHash : Z) (pNode : PP.objptr)
  (newKey : Z) (m : InnerMap) (pool : Pool) : res (bool * InnerMap * Pool) :=
  do v <- AcquireReadOnlyAccess (lock m);
  let m0 := set_lock m v in
  let newBucket := GetIndex m0 newHash in
  do n <- of_option (load pool pNode);
  let oldBucket := bucket n in
  if oldBucket <? numBuckets m0 then
    let '(bAttemptedReKey, nb) :=
      AtomicCompareExchange (bucket n) c_reassigningBucket oldBucket in
    let pool0 := store pool pNode (set_bucket n nb) in
    if bAttemptedReKey then
      if negb (oldBucket =? newBucket) then
        do w <- ConvertFromReadToWriteLock (lock m0);
        let m1 := set_lock m0 w in
        do b <- bucket_at (buckets m1) oldBucket;
        do '(pRemovedNode, b') <- Bucket_Erase_Lockless pool0 b (key n);
        let m2 := set_buckets m1 (<[Z.to_nat oldBucket := b']> (buckets m1)) in
        do '(bRekeyed, m3, pool3) <-
          match pRemovedNode with
          | Some _ =>
              do pool1 <- ForceChangeKey pool0 pNode newKey;
              do pool2 <- write_bucket pool1 pNode newBucket;
              do nb <- bucket_at (buckets m2) newBucket;
              let '(bRekeyed, nb') := Bucket_Insert_Lockless (Some pNode) nb in
              Ok (bRekeyed,
                  set_buckets m2 (<[Z.to_nat newBucket := nb']> (buckets m2)),
                  pool2)
          | None => Ok (false, m2, pool0)
          end;
        Ok (bRekeyed,
            set_lock m3 (ReleaseReadAndWriteAccess (lock m3)), pool3)
      else
        do pool1 <- ForceChangeKey pool0 pNode newKey;
        do pool2 <- write_bucket pool1 pNode newBucket;
        Ok (true, set_lock m0 (ReleaseReadOnlyAccess (lock m0)), pool2)
    else Timeout
  else Timeout.

Definition InnerMap_Clear_Lockless (m : InnerMap) : InnerMap :=
  {| buckets := map Bucket_Reset_Lockless
                  (take (Z.to_nat (numBuckets m)) (buckets m))
                ++ drop (Z.to_nat (numBuckets m)) (buckets m);
     count := 0;
     fillCapacity := fillCapacity m;
     numBuckets := numBuckets m;
     lock := lock m |}.

(** *** HashMap *)

Record HashMap : Type := mkMap {
  sharedPool : Pool;
  totalCount : Z;
  innerMaps : list InnerMap
}.

Definition c_numInnerMaps : Z := NumInnerMaps_T.
Definition c_innerMapIndexMask : Z := wrap64 (c_numInnerMaps - 1).

Definition empty : HashMap :=
  {| sharedPool := PP.empty;
     totalCount := 0;
     innerMaps := replicate (Z.to_nat c_numInnerMaps) InnerMap_empty |}.

Definition GetInnerMapIndex (hash : Z) : Z :=
  wrap32 (Z.land hash c_innerMapIndexMask).

Definition innerMap_at (h : HashMap) (mapIndex : Z) : res InnerMap :=
  of_option (zlookup (innerMaps h) mapIndex).

(** The map after a call on [innerMaps[mapIndex]] that left the shard as
    [m] and the shared pool as [pool]. *)
Definition update (h : HashMap) (mapIndex : Z) (m : InnerMap) (pool : Pool)
  : HashMap :=
  {| sharedPool := pool;
     totalCount := totalCount h;
     innerMaps := <[Z.to_nat mapIndex := m]> (innerMaps h) |}.

Definition set_totalCount (h : HashMap) (c : Z) : HashMap :=
  {| sharedPool := sharedPool h; totalCount := c; innerMaps := innerMaps h |}.

Definition Insert_with
  (inner : nat -> Z -> Z -> Value_T -> InnerMap -> Pool
           -> res (option PP.objptr * InnerMap * Pool))
  (fuel : nat) (k : Z) (v : Value_T) (h : HashMap)
  : res (option PP.objptr * HashMap) :=
  let hash := Hash64 k in
  let mapIndex := GetInnerMapIndex hash in
  do m <- innerMap_at h mapIndex;
  do '(pAdded, m', pool') <- inner fuel hash k v m (sharedPool h);
  let h' := update h mapIndex m' pool' in
  match pAdded with
  | Some _ => Ok (pAdded, set_totalCount h' (wrap32 (totalCount h' + 1)))
  | None => Ok (None, h')
  end.

Definition Insert_Lockless := Insert_with InnerMap_Insert_Lockless.
Definition Insert_Concurrent := Insert_with InnerMap_Insert_Concurrent.

Definition Find_Lockless (k : Z) (h : HashMap) : res (option PP.objptr) :=
  let hash := Hash64 k in
  let mapIndex := GetInnerMapIndex hash in
  do m <- innerMap_at h mapIndex;
  InnerMap_Find_Lockless hash k m (sharedPool h).

Definition Find_Concurrent (k : Z) (h : HashMap)
  : res (option PP.objptr * HashMap) :=
  let hash := Hash64 k in
  let mapIndex := GetInnerMapIndex hash in
  do m <- innerMap_at h mapIndex;
  do '(r, m') <- InnerMap_Find_Concurrent hash k m (sharedPool h);
  Ok (r, update h mapIndex m' (sharedPool h)).

Definition Remove_with
  (inner : Z -> Z -> InnerMap -> Pool -> res (bool * InnerMap * Pool))
  (k : Z) (h : HashMap) : res (bool * HashMap) :=
  let hash := Hash64 k in
  let mapIndex := GetInnerMapIndex hash in
  do m <- innerMap_at h mapIndex;
  do '(bRemoved, m', pool') <- inner hash k m (sharedPool h);
  let h' := update h mapIndex m' pool' in
  if bRemoved
  then Ok (true, set_totalCount h' (wrap32 (totalCount h' - 1)))
  else Ok (false, h').

Definition Remove_Lockless := Remove_with InnerMap_Remove_Lockless.
Definition Remove_Concurrent := Remove_with InnerMap_Remove_Concurrent.

(** [ReKey_Lockless] and [ReKey_Concurrent] by node: the two differ in the
    shard functions they call. *)
Definition ReKey_node_with
  (rekey : Z -> Z -> PP.objptr -> Z -> InnerMap -> Pool
           -> res (bool * InnerMap * Pool))
  (remove : Z -> PP.objptr -> InnerMap -> Pool -> res (bool * InnerMap * Pool))
  (insert : nat -> Z -> Z -> Value_T -> InnerMap -> Pool
            -> res (option PP.objptr * InnerMap * Pool))
  (fuel : nat) (pNode : PP.objptr) (newKey : Z) (h : HashMap)
  : res (bool * HashMap) :=
  do n <- of_option (load (sharedPool h) pNode);
  let oldHash := Hash64 (key n) in
  let oldMapIndex := GetInnerMapIndex oldHash in
  let newHash := Hash64 newKey in
  let newMapIndex := GetInnerMapIndex newHash in
  if oldMapIndex =? newMapIndex then
    do m <- innerMap_at h oldMapIndex;
    do '(bRekeyed, m', pool') <-
      rekey oldHash newHash pNode newKey m (sharedPool h);
    Ok (bRekeyed, update h oldMapIndex m' pool')
  else
    do pool1 <- write_bucket (sharedPool h) pNode c_reassigningBucket;
    do m <- innerMap_at h oldMapIndex;
    do '(bRemovedNode, m', pool2) <- remove oldHash pNode m pool1;
    let h1 := update h oldMapIndex m' pool2 in
    if bRemovedNode then
      do pool3 <- ForceChangeKey pool2 pNode newKey;
      do pool4 <- write_bucket pool3 pNode c_invalidBucket;
      do n' <- of_option (load pool4 pNode);
      do mn <- innerMap_at h1 newMapIndex;
      do '(pAdded, mn', pool5) <-
        insert fuel newHash (key n') (value n') mn pool4;
      let h2 := update h1 newMapIndex mn' pool5 in
      match pAdded with
      | Some _ => Ok (true, h2)
      | None => Ok (false, set_totalCount h2 (wrap32 (totalCount h2 - 1)))
      end
    else Ok (false, h1).

Definition ReKey_node_Lockless :=
  ReKey_node_with InnerMap_ReKey_Lockless
    InnerMap_Remove_Lockless_KeyValuePair InnerMap_Insert_Lockless.

Definition ReKey_node_Concurrent :=
  ReKey_node_with InnerMap_ReKey_Concurrent
    InnerMap_Remove_Concurrent_KeyValuePair InnerMap_Insert_Concurrent.

Definition ReKey_Lockless (fuel : nat) (k newKey : Z) (h : HashMap)
  : res (bool * HashMap) :=
  do pValue <- Find_Lockless k h;
  match pValue with
  | Some p => ReKey_node_Lockless fuel p newKey h
  | None => Ok (false, h)
  end.

Definition ReKey_Concurrent (fuel : nat) (k newKey : Z) (h : HashMap)
  : res (bool * HashMap) :=
  do '(pValue, h1) <- Find_Concurrent k h;
  match pValue with
  | Some p => ReKey_node_Concurrent fuel p newKey h1
  | None => Ok (false, h1)
  end.

Definition Size (h : HashMap) : Z := totalCount h.

Definition Clear_Lockless (h : HashMap) : HashMap :=
  {| sharedPool := PP.Clear (sharedPool h);
     totalCount := 0;
     innerMaps := map InnerMap_Clear_Lockless (innerMaps h) |}.

(** The [for] of [Reserve], over the shards in order. *)
Fixpoint Resize_shards (newNumBuckets : Z) (ms : list InnerMap) (pool : Pool)
  : res (list InnerMap * Pool) :=
  match ms with
  | [] => Ok ([], pool)
  | m :: ms' =>
      do '(m', pool1) <- Resize newNumBuckets m pool;
      do '(ms'', pool2) <- Resize_shards newNumBuckets ms' pool1;
      Ok (m' :: ms'', pool2)
  end.

(** [Reserve]: [numElementsPlusFill] is a 32-bit value; the sum with the
    64-bit [c_numInnerMaps] is taken in 64 bits and its quotient stored in
    32 bits. *)
Definition Reserve (numElements : Z) (h : HashMap) : res HashMap :=
  let numElementsPlusFill :=
    wrap32 (wrap32 (wrap32 (numElements * 8) / 7) + 1) in
  let numElementsPerInnerMap :=
    wrap32 (wrap64 (wrap64 (numElementsPlusFill + c_numInnerMaps) - 1)
            / c_numInnerMaps) in
  do '(ms, pool) <-
    Resize_shards (GetNextPowerOfTwo numElementsPerInnerMap)
      (innerMaps h) (sharedPool h);
  do pool' <-
    PP.PreallocateSpace PageSize_T c_bitIndexSize NewAligned numElements pool;
  Ok {| sharedPool := pool'; totalCount := totalCount h; innerMaps := ms |}.

(** *** The std::map-like wrappers *)

Definition is_some {A : Type} (o : option A) : bool :=
  match o with Some _ => true | None => false end.

Definition insert (fuel : nat) (k : Z) (v : Value_T) (h : HashMap)
  : res (bool * HashMap) :=
  do '(p, h') <- Insert_Concurrent fuel k v h; Ok (is_some p, h').

Definition insert_lockless (fuel : nat) (k : Z) (v : Value_T) (h : HashMap)
  : res (bool * HashMap) :=
  do '(p, h') <- Insert_Lockless fuel k v h; Ok (is_some p, h').

(** [find]: the flag and, when it is set, the value [pOutValue] points to. *)
Definition find (k : Z) (h : HashMap) : res (option Value_T * HashMap) :=
  do '(pPair, h') <- Find_Concurrent k h;
  match pPair with
  | Some p => do n <- of_option (load (sharedPool h') p); Ok (Some (value n), h')
  | None => Ok (None, h')
  end.

Definition find_lockless (k : Z) (h : HashMap) : res (option Value_T) :=
  do pPair <- Find_Lockless k h;
  match pPair with
  | Some p => do n <- of_option (load (sharedPool h) p); Ok (Some (value n))
  | None => Ok None
  end.

Definition erase := Remove_Concurrent.
Definition erase_lockless := Remove_Lockless.
Definition rekey := ReKey_Concurrent.
Definition rekey_lockless := ReKey_Lockless.
Definition size := Size.
Definition clear := Clear_Lockless.
Definition reserve (numElements : Z) (h : HashMap) : res HashMap :=
  Reserve (wrap32 numElements) h.

(** *** Facts about a shard

    [sizeof(Node) > 0], bitmap words of a power-of-two width and a page
    size that is a positive multiple of that width are what the pool's own
    facts rest on. *)

Section MapFacts.

Hypothesis sizeofNode_pos : 0 < sizeofNode.
Hypothesis c_bitIndexSize_pow2 :
  c_bitIndexSize = 2 ^ FP.c_bitIndexSizeLog2 c_bitIndexSize.
Hypothesis PageSize_T_pos : 0 < PageSize_T.
Hypothesis PageSize_T_multiple : PageSize_T mod c_bitIndexSize = 0.

Abbreviation pool_ok := (PP.pool_ok PageSize_T c_bitIndexSize).

(** With a bucket count from the table, the mask is the remainder. *)
Lemma GetIndex_of_pow2 (n hash : Z) :
  In n c_powerOfTwoTable -> GetIndex_of n hash = hash mod n.
Proof.
  intros Hn. destruct (table_pow2 n Hn) as (k & Hk & ->).
  assert (Hlo : 0 < 2 ^ k) by (apply Z.pow_pos_nonneg; lia).
  assert (Hhi : 2 ^ k <= 2 ^ 31) by (apply Z.pow_le_mono_r; lia).
  unfold GetIndex_of, wrap64, wrap32.
  rewrite (Z.mod_small (2 ^ k - 1)) by lia.
  replace (2 ^ k - 1) with (Z.ones k) by (rewrite Z.ones_equiv; lia).
  rewrite Z.land_ones by lia.
  pose proof (Z.mod_pos_bound hash (2 ^ k) Hlo).
  apply Z.mod_small. lia.
Qed.

Lemma GetIndex_of_range (n hash : Z) :
  In n c_powerOfTwoTable -> 0 <= GetIndex_of n hash < n.
Proof.
  intros Hn. rewrite GetIndex_of_pow2 by exact Hn.
  destruct (table_pow2 n Hn) as (k & Hk & ->).
  apply Z.mod_pos_bound. apply Z.pow_pos_nonneg; lia.
Qed.

(** Linking a node at the head of one bucket adds that node to the nodes
    of the array and moves no other. *)
Lemma concat_insert_cons {A : Type} (x : A) :
  forall (L : list (list A)) (j : nat) (b : list A),
  L !! j = Some b -> concat (<[j := x :: b]> L) ≡ₚ x :: concat L.
Proof.
  induction L as [| c L IH]; intros j b Hj; [discriminate |].
  destruct j as [| j]; cbn in Hj |- *.
  - injection Hj as ->. reflexivity.
  - rewrite (IH j b Hj). symmetry. apply Permutation_middle.
Qed.

Lemma concat_replicate_nil {A : Type} (n : nat) :
  concat (replicate n ([] : list A)) = [].
Proof. induction n as [| n IH]; cbn; [reflexivity | exact IH]. Qed.

Lemma elem_of_concat {A : Type} (x : A) (L : list (list A)) :
  x ∈ concat L <-> exists i b, L !! i = Some b /\ x ∈ b.
Proof.
  induction L as [| c L IH]; cbn.
  - split; [intros H; inversion H | intros (i & b & H & _); discriminate].
  - rewrite elem_of_app, IH. split.
    + intros [H | (i & b & Hi & Hb)].
      * exists 0%nat, c. split; [reflexivity | exact H].
      * exists (S i), b. split; [exact Hi | exact Hb].
    + intros (i & b & Hi & Hb). destruct i as [| i]; cbn in Hi.
      * injection Hi as ->. left. exact Hb.
      * right. exists i, b. split; [exact Hi | exact Hb].
Qed.

(** The nodes linked in the buckets of a shard. *)
Definition shard_nodes (m : InnerMap) : list PP.objptr := concat (buckets m).

Definition entry_of (n : Node) : Z * Value_T := (key n, value n).

(** Two pools hold the same objects with the same keys and values. *)
Definition same_entries (pool pool' : Pool) : Prop :=
  forall q, entry_of <$> load pool' q = entry_of <$> load pool q.

(** The bucket array of a shard between calls: [numBuckets] is its
    length; every linked node is a live pool object, linked in the bucket
    its key hashes to; no key is linked twice. *)
Record shard_wf (m : InnerMap) (pool : Pool) : Prop := {
  swf_length : Z.of_nat (length (buckets m)) = numBuckets m;
  swf_routing : forall i b p,
    buckets m !! i = Some b -> p ∈ b ->
    exists n, load pool p = Some n /\
              GetIndex m (Hash64 (key n)) = Z.of_nat i;
  swf_keys : forall p q n n',
    p ∈ shard_nodes m -> q ∈ shard_nodes m ->
    load pool p = Some n -> load pool q = Some n' ->
    key n = key n' -> p = q
}.

(** A shard is as constructed, with no buckets and nothing counted, or has
    a bucket count from the table. *)
Definition shard_sized (m : InnerMap) : Prop :=
  (numBuckets m = 0 /\ count m = 0 /\ fillCapacity m = 0)
  \/ In (numBuckets m) c_powerOfTwoTable.

(** Key [k] is linked in the shard, at node [p] holding [n]. *)
Definition holds (m : InnerMap) (pool : Pool) (k : Z) (p : PP.objptr)
  (n : Node) : Prop :=
  p ∈ shard_nodes m /\ load pool p = Some n /\ key n = k.

Lemma same_entries_refl (pool : Pool) : same_entries pool pool.
Proof. intros q. reflexivity. Qed.

Lemma same_entries_trans (p1 p2 p3 : Pool) :
  same_entries p1 p2 -> same_entries p2 p3 -> same_entries p1 p3.
Proof. intros H12 H23 q. rewrite H23. apply H12. Qed.

Lemma same_entries_load (pool pool' : Pool) (q : PP.objptr) (n : Node) :
  same_entries pool pool' -> load pool q = Some n ->
  exists n', load pool' q = Some n' /\ key n' = key n /\ value n' = value n.
Proof.
  intros Hs Hq. specialize (Hs q). rewrite Hq in Hs.
  destruct (load pool' q) as [n' |]; [| discriminate].
  cbn in Hs. injection Hs as Hk Hv. exists n'. auto.
Qed.

Lemma same_entries_load_inv (pool pool' : Pool) (q : PP.objptr) (n' : Node) :
  same_entries pool pool' -> load pool' q = Some n' ->
  exists n, load pool q = Some n /\ key n' = key n /\ value n' = value n.
Proof.
  intros Hs Hq. specialize (Hs q). rewrite Hq in Hs.
  destruct (load pool q) as [n |]; [| discriminate].
  cbn in Hs. injection Hs as Hk Hv. exists n. auto.
Qed.

(** Stamping a bucket index on a live node changes no key and no value. *)
Lemma store_bucket_same_entries (pool : Pool) (l : list Z) (p : PP.objptr)
  (n : Node) (b : Z) :
  pool_ok pool l -> load pool p = Some n ->
  same_entries pool (store pool p (set_bucket n b)).
Proof.
  intros Hok Hp q.
  rewrite (PP.load_store PageSize_T c_bitIndexSize sizeofNode
             sizeofNode_pos PageSize_T_pos pool l p q _ n Hok Hp).
  destruct (decide (q = p)) as [-> | _]; [| reflexivity].
  rewrite Hp. reflexivity.
Qed.

Lemma Compare_eq (a b : Z) : (Compare a b =? 0) = true <-> a = b.
Proof.
  unfold Compare.
  destruct (Z.ltb_spec a b), (Z.ltb_spec b a); cbn;
    split; intros; try lia; try discriminate; reflexivity.
Qed.

Lemma bucket_at_range (bs : list Bucket) (i : Z) :
  0 <= i < Z.of_nat (length bs) ->
  exists b, bucket_at bs i = Ok b /\ bs !! Z.to_nat i = Some b.
Proof.
  intros Hi.
  destruct (bs !! Z.to_nat i) as [b |] eqn:E.
  - exists b. split; [| reflexivity].
    unfold bucket_at. replace (zlookup bs i) with (Some b); [reflexivity |].
    symmetry. apply zlookup_Some. split; [lia | exact E].
  - apply lookup_ge_None in E. lia.
Qed.

(** [Find_Lockless] of a bucket whose nodes are live: the first node
    holding the key, or none when no node of the bucket holds it. *)
Lemma Bucket_Find_Lockless_spec (pool : Pool) (k : Z) : forall b : Bucket,
  (forall p, p ∈ b -> exists n, load pool p = Some n) ->
  (exists p n, Bucket_Find_Lockless pool b k = Ok (Some p) /\
               p ∈ b /\ load pool p = Some n /\ key n = k)
  \/ (Bucket_Find_Lockless pool b k = Ok None /\
      forall p n, p ∈ b -> load pool p = Some n -> key n <> k).
Proof.
  induction b as [| c b IH]; intros Hlive.
  - right. split; [reflexivity |]. intros p n Hp. inversion Hp.
  - destruct (Hlive c) as [n Hn]; [left |].
    cbn [Bucket_Find_Lockless]. rewrite Hn. cbn [of_option bind].
    destruct (Compare (key n) k =? 0) eqn:E.
    + apply Compare_eq in E. left. exists c, n.
      repeat split; [left | exact Hn | exact E].
    + assert (Hne : key n <> k).
      { intros Heq. apply Compare_eq in Heq. congruence. }
      destruct IH as [(p & n' & Hf & Hp & Hl & Hk) | [Hf Hnone]].
      * intros p Hp. apply Hlive. right. exact Hp.
      * left. exists p, n'. repeat split; [exact Hf | right; exact Hp | exact Hl | exact Hk].
      * right. split; [exact Hf |]. intros p n' Hp Hl.
        apply elem_of_cons in Hp as [-> | Hp].
        -- congruence.
        -- apply (Hnone p n' Hp Hl).
Qed.

(** The nodes linked in a new bucket array, as [Resize] leaves them: each
    is live, in the bucket its key hashes to, with that index stamped. *)
Definition relinked (newN : Z) (bs : list Bucket) (pool : Pool) : Prop :=
  forall i b p, bs !! i = Some b -> p ∈ b ->
    exists n, load pool p = Some n /\
              GetIndex_of newN (Hash64 (key n)) = Z.of_nat i /\
              bucket n = Z.of_nat i.

Definition all_live (nodes : list PP.objptr) (pool : Pool) : Prop :=
  forall p, p ∈ nodes -> exists n, load pool p = Some n.

Lemma all_live_same_entries (nodes : list PP.objptr) (pool pool' : Pool) :
  same_entries pool pool' -> all_live nodes pool -> all_live nodes pool'.
Proof.
  intros Hs Hl p Hp. destruct (Hl p Hp) as [n Hn].
  destruct (same_entries_load pool pool' p n Hs Hn) as (n' & Hn' & _).
  exists n'. exact Hn'.
Qed.

(** The inner loop of [Resize] on the nodes of one old bucket. *)
Lemma Resize_nodes_spec (newN : Z) (l : list Z) :
  In newN c_powerOfTwoTable ->
  forall (nodes : Bucket) (newB : list Bucket) (pool : Pool),
  Z.of_nat (length newB) = newN ->
  pool_ok pool l ->
  all_live nodes pool ->
  relinked newN newB pool ->
  exists newB' pool',
    Resize_nodes newN nodes newB pool = Ok (newB', pool') /\
    Z.of_nat (length newB') = newN /\
    pool_ok pool' l /\
    same_entries pool pool' /\
    PP.count pool' = PP.count pool /\
    PP.numPages pool' = PP.numPages pool /\
    concat newB' ≡ₚ nodes ++ concat newB /\
    relinked newN newB' pool'.
Proof.
  intros HnewN.
  induction nodes as [| p rest IH]; intros newB pool Hlen Hok Hlive Hrel.
  - exists newB, pool. cbn [Resize_nodes app].
    split; [reflexivity |]. split; [exact Hlen |]. split; [exact Hok |].
    split; [apply same_entries_refl |]. auto.
  - destruct (Hlive p) as [n Hn]; [left |].
    pose proof (GetIndex_of_range newN (Hash64 (key n)) HnewN) as Hidx.
    set (idx := GetIndex_of newN (Hash64 (key n))) in *.
    destruct (bucket_at_range newB idx) as (b & Hb & Hb'); [lia |].
    pose proof (PP.load_store PageSize_T c_bitIndexSize sizeofNode
                  sizeofNode_pos PageSize_T_pos pool l p) as Hls.
    destruct (PP.store_ok PageSize_T c_bitIndexSize sizeofNode
                sizeofNode_pos PageSize_T_pos pool l p
                (set_bucket n idx) n Hok Hn) as (Hok1 & Hc1 & Hp1).
    set (pool1 := store pool p (set_bucket n idx)) in *.
    assert (Hs1 : same_entries pool pool1).
    { apply (store_bucket_same_entries pool l p n idx Hok Hn). }
    destruct (IH (<[Z.to_nat idx := p :: b]> newB) pool1)
      as (newB' & pool' & Hrun & Hlen' & Hok' & Hs' & Hc' & Hp' & Hperm & Hrel').
    + rewrite length_insert. exact Hlen.
    + exact Hok1.
    + apply (all_live_same_entries rest pool pool1 Hs1).
      intros q Hq. apply Hlive. right. exact Hq.
    + intros i b' q Hi Hq.
      assert (Hcase : (i = Z.to_nat idx /\ q = p) \/
                      exists b0, newB !! i = Some b0 /\ q ∈ b0).
      { destruct (decide (i = Z.to_nat idx)) as [-> | Hne].
        - rewrite list_lookup_insert_eq in Hi by lia.
          injection Hi as <-. apply elem_of_cons in Hq as [-> | Hq].
          + left. auto.
          + right. exists b. auto.
        - rewrite list_lookup_insert_ne in Hi by congruence.
          right. exists b'. auto. }
      destruct Hcase as [[-> ->] | (b0 & Hi0 & Hq0)].
      * exists (set_bucket n idx). unfold pool1.
        rewrite (Hls p _ n Hok Hn). rewrite decide_True by reflexivity.
        cbn [key bucket set_bucket]. fold idx. repeat split; lia.
      * destruct (Hrel i b0 q Hi0 Hq0) as (nq & Hnq & Hgi & Hbk).
        unfold pool1. rewrite (Hls q _ n Hok Hn).
        destruct (decide (q = p)) as [-> | Hne].
        -- assert (nq = n) by congruence. subst nq.
           exists (set_bucket n idx). cbn [key bucket set_bucket].
           fold idx. fold idx in Hgi. repeat split; lia.
        -- exists nq. auto.
    + exists newB', pool'. cbn [Resize_nodes]. rewrite Hn.
      cbn [of_option bind]. fold idx. rewrite Hb. cbn [bind Bucket_Insert_Lockless].
      fold pool1. split; [exact Hrun |]. split; [exact Hlen' |].
      split; [exact Hok' |].
      split; [apply (same_entries_trans pool pool1 pool' Hs1 Hs') |].
      split; [lia |]. split; [lia |]. split; [| exact Hrel'].
      rewrite Hperm, (concat_insert_cons p newB (Z.to_nat idx) b Hb').
      cbn [app]. symmetry. apply Permutation_middle.
Qed.

(** The outer loop of [Resize] over the old buckets. *)
Lemma Resize_buckets_spec (newN : Z) (l : list Z) :
  In newN c_powerOfTwoTable ->
  forall (old newB : list Bucket) (pool : Pool),
  Z.of_nat (length newB) = newN ->
  pool_ok pool l ->
  all_live (concat old) pool ->
  relinked newN newB pool ->
  exists newB' pool',
    Resize_buckets newN old newB pool = Ok (newB', pool') /\
    Z.of_nat (length newB') = newN /\
    pool_ok pool' l /\
    same_entries pool pool' /\
    PP.count pool' = PP.count pool /\
    PP.numPages pool' = PP.numPages pool /\
    concat newB' ≡ₚ concat old ++ concat newB /\
    relinked newN newB' pool'.
Proof.
  intros HnewN.
  induction old as [| ob old IH]; intros newB pool Hlen Hok Hlive Hrel.
  - exists newB, pool. cbn [Resize_buckets concat app].
    split; [reflexivity |]. split; [exact Hlen |]. split; [exact Hok |].
    split; [apply same_entries_refl |]. auto.
  - destruct (Resize_nodes_spec newN l HnewN ob newB pool Hlen Hok)
      as (newB1 & pool1 & Hrun1 & Hlen1 & Hok1 & Hs1 & Hc1 & Hp1 & Hperm1 & Hrel1).
    { intros p Hp. apply Hlive. cbn [concat]. apply elem_of_app. left. exact Hp. }
    { exact Hrel. }
    destruct (IH newB1 pool1 Hlen1 Hok1)
      as (newB' & pool' & Hrun & Hlen' & Hok' & Hs' & Hc' & Hp' & Hperm & Hrel').
    { apply (all_live_same_entries _ pool pool1 Hs1).
      intros p Hp. apply Hlive. cbn [concat]. apply elem_of_app. right. exact Hp. }
    { exact Hrel1. }
    exists newB', pool'. cbn [Resize_buckets]. rewrite Hrun1. cbn [bind].
    split; [exact Hrun |]. split; [exact Hlen' |]. split; [exact Hok' |].
    split; [apply (same_entries_trans pool pool1 pool' Hs1 Hs') |].
    split; [lia |]. split; [lia |]. split; [| exact Hrel'].
    rewrite Hperm, Hperm1. cbn [concat].
    rewrite !app_assoc. rewrite (Permutation_app_comm (concat old) ob).
    reflexivity.
Qed.

Lemma shard_wf_all_live (m : InnerMap) (pool : Pool) :
  shard_wf m pool -> all_live (shard_nodes m) pool.
Proof.
  intros Hwf p Hp. apply elem_of_concat in Hp as (i & b & Hi & Hb).
  destruct (swf_routing m pool Hwf i b p Hi Hb) as (n & Hn & _).
  exists n. exact Hn.
Qed.

(** [Resize] to a bucket count from the table returns; it keeps the
    nodes, their keys and their values, links every node in the bucket its
    key hashes to in the new array and stamps that index on it. *)
Lemma Resize_spec (newN : Z) (m : InnerMap) (pool : Pool) (l : list Z) :
  In newN c_powerOfTwoTable ->
  shard_wf m pool -> pool_ok pool l ->
  exists m' pool',
    Resize newN m pool = Ok (m', pool') /\
    shard_wf m' pool' /\ pool_ok pool' l /\
    same_entries pool pool' /\
    PP.count pool' = PP.count pool /\
    PP.numPages pool' = PP.numPages pool /\
    shard_nodes m' ≡ₚ shard_nodes m /\
    relinked newN (buckets m') pool' /\
    Z.of_nat (length (buckets m')) = newN /\
    numBuckets m' = newN /\ count m' = count m /\ lock m' = lock m /\
    fillCapacity m' = wrap32 (newN * 7) / 8.
Proof.
  intros HnewN Hwf Hok.
  destruct (table_pow2 newN HnewN) as (k & Hk & HnewNk).
  assert (HnewN0 : 0 < newN) by (subst newN; apply Z.pow_pos_nonneg; lia).
  destruct (Resize_buckets_spec newN l HnewN (buckets m)
              (@replicate Bucket (Z.to_nat newN) []) pool)
    as (newB' & pool' & Hrun & Hlen' & Hok' & Hs' & Hc' & Hp' & Hperm & Hrel').
  { rewrite length_replicate. lia. }
  { exact Hok. }
  { apply shard_wf_all_live. exact Hwf. }
  { intros i b p Hi Hp. apply lookup_replicate in Hi as [-> _]. inversion Hp. }
  unfold Bucket in Hperm. rewrite concat_replicate_nil, app_nil_r in Hperm.
  eexists _, pool'. unfold Resize.
  pose proof (swf_length m pool Hwf) as Hlen.
  destruct (Z.ltb_spec (Z.of_nat (length (buckets m))) (numBuckets m)); [lia |].
  rewrite take_ge by lia. rewrite Hrun. cbn [bind].
  split; [reflexivity |]. cbn [buckets count lock numBuckets fillCapacity].
  split.
  { constructor; cbn [buckets numBuckets].
    - exact Hlen'.
    - intros i b p Hi Hp. destruct (Hrel' i b p Hi Hp) as (n & Hn & Hg & _).
      exists n. split; [exact Hn | exact Hg].
    - unfold shard_nodes. cbn [buckets]. intros p q n n' Hp Hq Hn Hn' Hkey.
      rewrite Hperm in Hp, Hq.
      destruct (same_entries_load_inv pool pool' p n Hs' Hn) as (n0 & Hn0 & Hk0 & _).
      destruct (same_entries_load_inv pool pool' q n' Hs' Hn') as (n1 & Hn1 & Hk1 & _).
      apply (swf_keys m pool Hwf p q n0 n1 Hp Hq Hn0 Hn1). congruence. }
  split; [exact Hok' |]. split; [exact Hs' |].
  split; [exact Hc' |]. split; [exact Hp' |].
  split; [exact Hperm |]. split; [exact Hrel' |].
  split; [exact Hlen' |]. auto.
Qed.

Lemma holds_unique (m : InnerMap) (pool : Pool) (k : Z) (p q : PP.objptr)
  (n n' : Node) :
  shard_wf m pool -> holds m pool k p n -> holds m pool k q n' ->
  p = q /\ n = n'.
Proof.
  intros Hwf (Hp & Hn & Hk) (Hq & Hn' & Hk').
  assert (p = q) as ->.
  { apply (swf_keys m pool Hwf p q n n' Hp Hq Hn Hn'). congruence. }
  split; [reflexivity | congruence].
Qed.

(** [Find_Lockless] of a shard with buckets returns the node holding the
    key when there is one, and null when there is none. *)
Lemma InnerMap_Find_Lockless_spec (m : InnerMap) (pool : Pool) (k : Z) :
  shard_wf m pool -> In (numBuckets m) c_powerOfTwoTable ->
  (exists p n, holds m pool k p n /\
               InnerMap_Find_Lockless (Hash64 k) k m pool = Ok (Some p))
  \/ ((forall p n, ~ holds m pool k p n) /\
      InnerMap_Find_Lockless (Hash64 k) k m pool = Ok None).
Proof.
  intros Hwf Hsz. unfold InnerMap_Find_Lockless.
  pose proof (GetIndex_of_range (numBuckets m) (Hash64 k) Hsz) as Hidx.
  fold (GetIndex m (Hash64 k)) in Hidx.
  destruct (bucket_at_range (buckets m) (GetIndex m (Hash64 k)))
    as (b & Hb & Hb').
  { rewrite (swf_length m pool Hwf). exact Hidx. }
  rewrite Hb. cbn [bind].
  destruct (Bucket_Find_Lockless_spec pool k b)
    as [(p & n & Hf & Hp & Hn & Hk) | [Hf Hnone]].
  - intros p Hp.
    destruct (swf_routing m pool Hwf _ b p Hb' Hp) as (n & Hn & _).
    exists n. exact Hn.
  - left. exists p, n. split; [| exact Hf].
    split; [| split; [exact Hn | exact Hk]].
    apply elem_of_concat. exists (Z.to_nat (GetIndex m (Hash64 k))), b. auto.
  - right. split; [| exact Hf].
    intros p n (Hp & Hn & Hk).
    apply elem_of_concat in Hp as (i & b' & Hi & Hp).
    destruct (swf_routing m pool Hwf i b' p Hi Hp) as (n0 & Hn0 & Hg).
    assert (n0 = n) by congruence. subst n0. rewrite Hk in Hg.
    assert (i = Z.to_nat (GetIndex m (Hash64 k))) by lia. subst i.
    assert (Heq : Some b' = Some b) by (rewrite <- Hb'; symmetry; exact Hi).
    injection Heq as ->. apply (Hnone p n Hp Hn Hk).
Qed.

Lemma InnerMap_Find_Lockless_holds (m : InnerMap) (pool : Pool) (k : Z)
  (p : PP.objptr) (n : Node) :
  shard_wf m pool -> In (numBuckets m) c_powerOfTwoTable ->
  holds m pool k p n ->
  InnerMap_Find_Lockless (Hash64 k) k m pool = Ok (Some p).
Proof.
  intros Hwf Hsz Hh.
  destruct (InnerMap_Find_Lockless_spec m pool k Hwf Hsz)
    as [(q & n' & Hq & Hf) | [Hnone _]].
  - destruct (holds_unique m pool k p q n n' Hwf Hh Hq) as [-> _]. exact Hf.
  - exfalso. apply (Hnone p n Hh).
Qed.

(** A shard that links a node has buckets. *)
Lemma holds_sized (m : InnerMap) (pool : Pool) (k : Z) (p : PP.objptr)
  (n : Node) :
  shard_wf m pool -> shard_sized m -> holds m pool k p n ->
  In (numBuckets m) c_powerOfTwoTable.
Proof.
  intros Hwf [(H0 & _) | Hin] (Hp & _); [| exact Hin].
  pose proof (swf_length m pool Hwf) as Hlen.
  unfold shard_nodes in Hp. destruct (buckets m); [inversion Hp |].
  cbn in Hlen. lia.
Qed.

(** Keys and values seen through two arrays over the same nodes and two
    pools with the same entries. *)
Lemma holds_same_entries (m m' : InnerMap) (pool pool' : Pool) (k : Z)
  (p : PP.objptr) (n : Node) :
  same_entries pool pool' -> shard_nodes m' ≡ₚ shard_nodes m ->
  holds m pool k p n ->
  exists n', holds m' pool' k p n' /\ value n' = value n.
Proof.
  intros Hs Hperm (Hp & Hn & Hk).
  destruct (same_entries_load pool pool' p n Hs Hn) as (n' & Hn' & Hk' & Hv').
  exists n'. split; [| exact Hv'].
  split; [rewrite Hperm; exact Hp |]. split; [exact Hn' | congruence].
Qed.

Lemma holds_same_entries_inv (m m' : InnerMap) (pool pool' : Pool) (k : Z)
  (p : PP.objptr) (n' : Node) :
  same_entries pool pool' -> shard_nodes m' ≡ₚ shard_nodes m ->
  holds m' pool' k p n' ->
  exists n, holds m pool k p n /\ value n' = value n.
Proof.
  intros Hs Hperm (Hp & Hn & Hk).
  destruct (same_entries_load_inv pool pool' p n' Hs Hn) as (n & Hn0 & Hk' & Hv').
  exists n. split; [| exact Hv'].
  split; [rewrite <- Hperm; exact Hp |]. split; [exact Hn0 | congruence].
Qed.

(** The first statements of [Insert_Lockless]: the count is incremented,
    and the bucket array is resized when the count has passed the fill
    capacity. *)
Definition count_and_resize (m : InnerMap) (pool : Pool)
  : res (InnerMap * Pool) :=
  let m0 := set_count m (wrap32 (count m + 1)) in
  if fillCapacity m0 <? count m0
  then Resize (GetNextPowerOfTwo (wrap32 (count m0 * 2))) m0 pool
  else Ok (m0, pool).

Lemma shard_wf_set_count (m : InnerMap) (pool : Pool) (c : Z) :
  shard_wf m pool -> shard_wf (set_count m c) pool.
Proof.
  intros [Hlen Hroute Hkeys]. constructor; [exact Hlen | exact Hroute | exact Hkeys].
Qed.

Lemma count_and_resize_spec (m : InnerMap) (pool : Pool) (l : list Z) :
  shard_wf m pool -> shard_sized m -> pool_ok pool l ->
  exists m1 pool1,
    count_and_resize m pool = Ok (m1, pool1) /\
    shard_wf m1 pool1 /\ In (numBuckets m1) c_powerOfTwoTable /\
    pool_ok pool1 l /\ same_entries pool pool1 /\
    PP.count pool1 = PP.count pool /\
    PP.numPages pool1 = PP.numPages pool /\
    shard_nodes m1 ≡ₚ shard_nodes m /\
    count m1 = wrap32 (count m + 1) /\ lock m1 = lock m.
Proof.
  intros Hwf Hsz Hok. unfold count_and_resize. cbv zeta.
  cbn [fillCapacity count set_count].
  destruct (Z.ltb_spec (fillCapacity m) (wrap32 (count m + 1))) as [Hlt | Hge].
  - destruct (Resize_spec (GetNextPowerOfTwo (wrap32 (wrap32 (count m + 1) * 2)))
                (set_count m (wrap32 (count m + 1))) pool l)
      as (m1 & pool1 & Hrun & Hwf1 & Hok1 & Hs1 & Hc1 & Hp1 & Hperm & _ & _
          & Hnb & Hcnt & Hlock & _).
    { apply GetNextPowerOfTwo_In. }
    { apply shard_wf_set_count. exact Hwf. }
    { exact Hok. }
    exists m1, pool1. split; [exact Hrun |]. split; [exact Hwf1 |].
    split; [rewrite Hnb; apply GetNextPowerOfTwo_In |].
    split; [exact Hok1 |]. split; [exact Hs1 |]. split; [exact Hc1 |].
    split; [exact Hp1 |]. split; [exact Hperm |].
    split; [exact Hcnt | exact Hlock].
  - exists (set_count m (wrap32 (count m + 1))), pool.
    split; [reflexivity |]. split; [apply shard_wf_set_count; exact Hwf |].
    split.
    { destruct Hsz as [(_ & Hc0 & Hf0) | Hin]; [| exact Hin].
      rewrite Hc0, Hf0 in Hge. vm_compute in Hge. contradiction Hge. reflexivity. }
    split; [exact Hok |]. split; [apply same_entries_refl |].
    repeat split; reflexivity.
Qed.

(** [Insert_Lockless] of a key the shard holds: nothing is reserved and
    nothing is linked; the shard is left as the count and the resize have
    made it. *)
Lemma InnerMap_Insert_Lockless_present (fuel : nat) (k : Z) (v : Value_T)
  (m : InnerMap) (pool : Pool) (l : list Z) (p : PP.objptr) (n : Node) :
  shard_wf m pool -> shard_sized m -> pool_ok pool l ->
  holds m pool k p n ->
  exists m1 pool1,
    count_and_resize m pool = Ok (m1, pool1) /\
    InnerMap_Insert_Lockless fuel (Hash64 k) k v m pool = Ok (None, m1, pool1).
Proof.
  intros Hwf Hsz Hok Hh.
  destruct (count_and_resize_spec m pool l Hwf Hsz Hok)
    as (m1 & pool1 & Hrun & Hwf1 & Hin1 & Hok1 & Hs1 & _ & _ & Hperm & _ & _).
  exists m1, pool1. split; [exact Hrun |].
  destruct (holds_same_entries m m1 pool pool1 k p n Hs1 Hperm Hh) as (n1 & Hh1 & _).
  pose proof (InnerMap_Find_Lockless_holds m1 pool1 k p n1 Hwf1 Hin1 Hh1) as Hf.
  unfold InnerMap_Find_Lockless in Hf.
  unfold InnerMap_Insert_Lockless. unfold count_and_resize in Hrun.
  cbv zeta in Hrun |- *. rewrite Hrun. cbn [bind].
  destruct (bucket_at (buckets m1) (GetIndex m1 (Hash64 k))) as [b | |];
    cbn [bind] in Hf |- *; try discriminate.
  rewrite Hf. reflexivity.
Qed.

(** [Insert_Lockless] of a key the shard does not hold, with an allocator
    that provides the next page: a node that was free is reserved, filled
    with the key and the value, stamped and linked at the head of the
    bucket the key hashes to. *)
Lemma InnerMap_Insert_Lockless_absent (fuel : nat) (k : Z) (v : Value_T)
  (m : InnerMap) (pool : Pool) (l : list Z) :
  shard_wf m pool -> shard_sized m -> pool_ok pool l ->
  0 <= PP.numPages pool < PP.c_MaxPages ->
  NewAligned (PP.numPages pool) = true ->
  (length l + 2 <= fuel)%nat ->
  (forall p n, ~ holds m pool k p n) ->
  exists m1 pool1 p b pool3 l',
    let idx := GetIndex m1 (Hash64 k) in
    let m2 := set_buckets m1 (<[Z.to_nat idx := p :: b]> (buckets m1)) in
    count_and_resize m pool = Ok (m1, pool1) /\
    InnerMap_Insert_Lockless fuel (Hash64 k) k v m pool
      = Ok (Some p, m2, pool3) /\
    buckets m1 !! Z.to_nat idx = Some b /\
    load pool1 p = None /\
    (forall q, load pool3 q
               = if decide (q = p)
                 then Some {| key := k; value := v; bucket := idx |}
                 else load pool1 q) /\
    pool_ok pool3 l' /\
    PP.count pool3 = wrap32 (PP.count pool + 1) /\
    shard_wf m2 pool3.
Proof.
  intros Hwf Hsz Hok Hpages Halloc Hfuel Habsent.
  destruct (count_and_resize_spec m pool l Hwf Hsz Hok)
    as (m1 & pool1 & Hrun & Hwf1 & Hin1 & Hok1 & Hs1 & Hc1 & Hp1 & Hperm & _ & _).
  assert (Habsent1 : forall p n, ~ holds m1 pool1 k p n).
  { intros p n Hh.
    destruct (holds_same_entries_inv m m1 pool pool1 k p n Hs1 Hperm Hh)
      as (n0 & Hh0 & _).
    apply (Habsent p n0 Hh0). }
  destruct (InnerMap_Find_Lockless_spec m1 pool1 k Hwf1 Hin1)
    as [(p & n & Hh & _) | [_ Hf]]; [exfalso; apply (Habsent1 p n Hh) |].
  unfold InnerMap_Find_Lockless in Hf.
  pose proof (GetIndex_of_range (numBuckets m1) (Hash64 k) Hin1) as Hidx.
  fold (GetIndex m1 (Hash64 k)) in Hidx.
  set (idx := GetIndex m1 (Hash64 k)) in *.
  destruct (bucket_at_range (buckets m1) idx) as (b & Hb & Hb').
  { rewrite (swf_length m1 pool1 Hwf1). exact Hidx. }
  rewrite Hb in Hf. cbn [bind] in Hf.
  set (x := {| key := k; value := v; bucket := c_invalidBucket |}).
  destruct (PP.Reserve_spec PageSize_T c_bitIndexSize sizeofNode NewAligned
              sizeofNode_pos c_bitIndexSize_pow2 PageSize_T_pos
              PageSize_T_multiple x l pool1 fuel Hok1)
    as (p & pool2 & l' & Hres & Hok2 & Hfree & Hload2 & Hc2 & _).
  { rewrite Hp1. exact Hpages. }
  { rewrite Hp1. exact Halloc. }
  { exact Hfuel. }
  assert (Hp2 : load pool2 p = Some x).
  { rewrite Hload2. rewrite decide_True by reflexivity. reflexivity. }
  pose proof (PP.load_store PageSize_T c_bitIndexSize sizeofNode
                sizeofNode_pos PageSize_T_pos pool2 l' p) as Hls.
  destruct (PP.store_ok PageSize_T c_bitIndexSize sizeofNode
              sizeofNode_pos PageSize_T_pos pool2 l' p
              (set_bucket x idx) x Hok2 Hp2) as (Hok3 & Hc3 & _).
  set (pool3 := store pool2 p (set_bucket x idx)) in *.
  assert (Hload3 : forall q, load pool3 q
                             = if decide (q = p)
                               then Some {| key := k; value := v; bucket := idx |}
                               else load pool1 q).
  { intros q. unfold pool3. rewrite (Hls q _ x Hok2 Hp2).
    destruct (decide (q = p)) as [-> | Hne]; [reflexivity |].
    rewrite Hload2. rewrite decide_False by exact Hne. reflexivity. }
  exists m1, pool1, p, b, pool3, l'. cbv zeta.
  split; [exact Hrun |]. split.
  { unfold InnerMap_Insert_Lockless. unfold count_and_resize in Hrun.
    cbv zeta in Hrun |- *. rewrite Hrun. cbn [bind]. fold idx.
    rewrite Hb. cbn [bind]. rewrite Hf. cbn [bind]. fold x.
    rewrite Hres. cbn [bind of_option]. rewrite Hp2. cbn [bind of_option].
    cbn [Bucket_Insert_Lockless]. reflexivity. }
  split; [exact Hb' |]. split; [exact Hfree |]. split; [exact Hload3 |].
  split; [exact Hok3 |]. split; [rewrite Hc3, Hc2, Hc1; reflexivity |].
  assert (Hold : forall i b' q, buckets m1 !! i = Some b' -> q ∈ b' ->
                 q <> p /\ q ∈ shard_nodes m1).
  { intros i b' q Hi Hq. split.
    - intros ->. destruct (swf_routing m1 pool1 Hwf1 i b' p Hi Hq) as (n & Hn & _).
      congruence.
    - apply elem_of_concat. exists i, b'. auto. }
  assert (Hnodes : forall q, q ∈ shard_nodes
                      (set_buckets m1 (<[Z.to_nat idx := p :: b]> (buckets m1))) ->
                    q = p \/ (q <> p /\ q ∈ shard_nodes m1)).
  { intros q Hq. unfold shard_nodes in Hq. cbn [buckets set_buckets] in Hq.
    rewrite (concat_insert_cons p (buckets m1) (Z.to_nat idx) b Hb') in Hq.
    apply elem_of_cons in Hq as [-> | Hq]; [left; reflexivity |].
    right. apply elem_of_concat in Hq as (i & b' & Hi & Hq).
    apply (Hold i b' q Hi Hq). }
  constructor; cbn [buckets numBuckets set_buckets].
  - rewrite length_insert. apply (swf_length m1 pool1 Hwf1).
  - intros i b' q Hi Hq. unfold GetIndex. cbn [numBuckets set_buckets].
    fold (GetIndex m1).
    assert (Hcase : (i = Z.to_nat idx /\ q = p) \/
                    exists b0, buckets m1 !! i = Some b0 /\ q ∈ b0).
    { destruct (decide (i = Z.to_nat idx)) as [-> | Hne].
      - rewrite list_lookup_insert_eq in Hi
          by (pose proof (swf_length m1 pool1 Hwf1); lia).
        injection Hi as <-. apply elem_of_cons in Hq as [-> | Hq].
        + left. auto.
        + right. exists b. auto.
      - rewrite list_lookup_insert_ne in Hi by lia.
        right. exists b'. auto. }
    destruct Hcase as [[-> ->] | (b0 & Hi0 & Hq0)].
    + eexists. rewrite Hload3, decide_True by reflexivity.
      split; [reflexivity |]. cbn [key].
      change (GetIndex_of (numBuckets m1) (Hash64 k)) with idx. lia.
    + destruct (Hold i b0 q Hi0 Hq0) as [Hne _].
      destruct (swf_routing m1 pool1 Hwf1 i b0 q Hi0 Hq0) as (n & Hn & Hg).
      exists n. rewrite Hload3, decide_False by exact Hne.
      split; [exact Hn | exact Hg].
  - intros q1 q2 n1 n2 Hq1 Hq2 Hn1 Hn2 Hkey.
    rewrite Hload3 in Hn1, Hn2.
    destruct (Hnodes q1 Hq1) as [-> | [Hne1 Hin1']];
      destruct (Hnodes q2 Hq2) as [-> | [Hne2 Hin2']]; [reflexivity | | |].
    + exfalso. rewrite decide_True in Hn1 by reflexivity.
      rewrite decide_False in Hn2 by exact Hne2.
      injection Hn1 as <-. cbn [key] in Hkey.
      apply (Habsent1 q2 n2). split; [exact Hin2' |]. split; [exact Hn2 | congruence].
    + exfalso. rewrite decide_True in Hn2 by reflexivity.
      rewrite decide_False in Hn1 by exact Hne1.
      injection Hn2 as <-. cbn [key] in Hkey.
      apply (Habsent1 q1 n1). split; [exact Hin1' |]. split; [exact Hn1 | congruence].
    + rewrite decide_False in Hn1 by exact Hne1.
      rewrite decide_False in Hn2 by exact Hne2.
      apply (swf_keys m1 pool1 Hwf1 q1 q2 n1 n2 Hin1' Hin2' Hn1 Hn2 Hkey).
Qed.

(** The shard holds value [v] under key [k]. *)
Definition holds_value (m : InnerMap) (pool : Pool) (k : Z) (v : Value_T)
  : Prop :=
  exists p n, holds m pool k p n /\ value n = v.

(** Every object of [pool] is an object of [pool'] with the same key and
    value. *)
Definition preserves (pool pool' : Pool) : Prop :=
  forall q n, load pool q = Some n ->
    exists n', load pool' q = Some n' /\ key n' = key n /\ value n' = value n.

Lemma same_entries_preserves (pool pool' : Pool) :
  same_entries pool pool' -> preserves pool pool'.
Proof. intros Hs q n Hq. apply (same_entries_load pool pool' q n Hs Hq). Qed.

Lemma preserves_trans (p1 p2 p3 : Pool) :
  preserves p1 p2 -> preserves p2 p3 -> preserves p1 p3.
Proof.
  intros H12 H23 q n Hq.
  destruct (H12 q n Hq) as (n2 & Hn2 & Hk2 & Hv2).
  destruct (H23 q n2 Hn2) as (n3 & Hn3 & Hk3 & Hv3).
  exists n3. split; [exact Hn3 |]. split; congruence.
Qed.

(** A shard stays well formed, with the same contents, when the pool's
    objects keep their keys and values. *)
Lemma shard_wf_preserves (m : InnerMap) (pool pool' : Pool) :
  shard_wf m pool -> preserves pool pool' -> shard_wf m pool'.
Proof.
  intros Hwf Hpre. constructor.
  - apply (swf_length m pool Hwf).
  - intros i b p Hi Hp.
    destruct (swf_routing m pool Hwf i b p Hi Hp) as (n & Hn & Hg).
    destruct (Hpre p n Hn) as (n' & Hn' & Hk & _).
    exists n'. split; [exact Hn' | rewrite Hk; exact Hg].
  - intros p q n n' Hp Hq Hn Hn' Hkey.
    destruct (shard_wf_all_live m pool Hwf p Hp) as [n0 Hn0].
    destruct (shard_wf_all_live m pool Hwf q Hq) as [n1 Hn1].
    destruct (Hpre p n0 Hn0) as (n0' & Hn0' & Hk0 & _).
    destruct (Hpre q n1 Hn1) as (n1' & Hn1' & Hk1 & _).
    apply (swf_keys m pool Hwf p q n0 n1 Hp Hq Hn0 Hn1). congruence.
Qed.

Lemma holds_value_preserves (m : InnerMap) (pool pool' : Pool) (k : Z)
  (v : Value_T) :
  shard_wf m pool -> preserves pool pool' ->
  (holds_value m pool' k v <-> holds_value m pool k v).
Proof.
  intros Hwf Hpre. split.
  - intros (p & n' & (Hp & Hn' & Hk) & Hv).
    destruct (shard_wf_all_live m pool Hwf p Hp) as [n Hn].
    destruct (Hpre p n Hn) as (n2 & Hn2 & Hk2 & Hv2).
    exists p, n. split; [| congruence].
    split; [exact Hp |]. split; [exact Hn | congruence].
  - intros (p & n & (Hp & Hn & Hk) & Hv).
    destruct (Hpre p n Hn) as (n' & Hn' & Hk' & Hv').
    exists p, n'. split; [| congruence].
    split; [exact Hp |]. split; [exact Hn' | congruence].
Qed.

Lemma holds_value_resized (m m' : InnerMap) (pool pool' : Pool) (k : Z)
  (v : Value_T) :
  same_entries pool pool' -> shard_nodes m' ≡ₚ shard_nodes m ->
  (holds_value m' pool' k v <-> holds_value m pool k v).
Proof.
  intros Hs Hperm. split.
  - intros (p & n' & Hh & Hv).
    destruct (holds_same_entries_inv m m' pool pool' k p n' Hs Hperm Hh)
      as (n & Hh0 & Hv0).
    exists p, n. split; [exact Hh0 | congruence].
  - intros (p & n & Hh & Hv).
    destruct (holds_same_entries m m' pool pool' k p n Hs Hperm Hh)
      as (n' & Hh' & Hv').
    exists p, n'. split; [exact Hh' | congruence].
Qed.

Lemma shard_wf_set_lock (m : InnerMap) (pool : Pool) (v : Z) :
  shard_wf m pool -> shard_wf (set_lock m v) pool.
Proof.
  intros [Hlen Hroute Hkeys].
  constructor; [exact Hlen | exact Hroute | exact Hkeys].
Qed.

Lemma shard_sized_set_lock (m : InnerMap) (v : Z) :
  shard_sized m -> shard_sized (set_lock m v).
Proof. intros H. exact H. Qed.

(** [Insert_Lockless] of a key the shard holds, by what the shard holds
    afterwards. *)
Lemma InnerMap_Insert_Lockless_present_contents (fuel : nat) (k : Z)
  (v v0 : Value_T) (m : InnerMap) (pool : Pool) (l : list Z) :
  shard_wf m pool -> shard_sized m -> pool_ok pool l ->
  holds_value m pool k v0 ->
  exists m1 pool1,
    InnerMap_Insert_Lockless fuel (Hash64 k) k v m pool = Ok (None, m1, pool1) /\
    shard_wf m1 pool1 /\ In (numBuckets m1) c_powerOfTwoTable /\
    pool_ok pool1 l /\ preserves pool pool1 /\
    lock m1 = lock m /\ PP.count pool1 = PP.count pool /\
    (forall k0 v1, holds_value m1 pool1 k0 v1 <-> holds_value m pool k0 v1).
Proof.
  intros Hwf Hsz Hok (p & n & Hh & _).
  destruct (InnerMap_Insert_Lockless_present fuel k v m pool l p n Hwf Hsz Hok Hh)
    as (m1 & pool1 & Hrun & Hins).
  destruct (count_and_resize_spec m pool l Hwf Hsz Hok)
    as (m1' & pool1' & Hrun' & Hwf1 & Hin1 & Hok1 & Hs1 & Hc1 & _ & Hperm & _ & Hlock).
  rewrite Hrun in Hrun'. injection Hrun' as <- <-.
  exists m1, pool1. split; [exact Hins |]. split; [exact Hwf1 |].
  split; [exact Hin1 |]. split; [exact Hok1 |].
  split; [apply same_entries_preserves; exact Hs1 |].
  split; [exact Hlock |]. split; [exact Hc1 |].
  intros k0 v1. apply holds_value_resized; assumption.
Qed.

(** [Insert_Lockless] of a key the shard does not hold, by what the shard
    holds afterwards. *)
Lemma InnerMap_Insert_Lockless_absent_contents (fuel : nat) (k : Z)
  (v : Value_T) (m : InnerMap) (pool : Pool) (l : list Z) :
  shard_wf m pool -> shard_sized m -> pool_ok pool l ->
  0 <= PP.numPages pool < PP.c_MaxPages ->
  NewAligned (PP.numPages pool) = true ->
  (length l + 2 <= fuel)%nat ->
  (forall v0, ~ holds_value m pool k v0) ->
  exists p m2 pool3 l',
    InnerMap_Insert_Lockless fuel (Hash64 k) k v m pool
      = Ok (Some p, m2, pool3) /\
    shard_wf m2 pool3 /\ In (numBuckets m2) c_powerOfTwoTable /\
    pool_ok pool3 l' /\ preserves pool pool3 /\
    lock m2 = lock m /\ PP.count pool3 = wrap32 (PP.count pool + 1) /\
    (forall k0 v1, holds_value m2 pool3 k0 v1
                   <-> (k0 = k /\ v1 = v) \/ holds_value m pool k0 v1).
Proof.
  intros Hwf Hsz Hok Hpages Halloc Hfuel Habsent.
  destruct (InnerMap_Insert_Lockless_absent fuel k v m pool l Hwf Hsz Hok
              Hpages Halloc Hfuel)
    as (m1 & pool1 & p & b & pool3 & l' & Hrun & Hins & Hb & Hfree & Hload3
        & Hok3 & Hc3 & Hwf2).
  { intros q n Hh. apply (Habsent (value n)). exists q, n. auto. }
  destruct (count_and_resize_spec m pool l Hwf Hsz Hok)
    as (m1' & pool1' & Hrun' & Hwf1 & Hin1 & Hok1 & Hs1 & Hc1 & _ & Hperm & _ & Hlock).
  rewrite Hrun in Hrun'. injection Hrun' as <- <-.
  set (idx := GetIndex m1 (Hash64 k)) in *.
  set (m2 := set_buckets m1 (<[Z.to_nat idx := p :: b]> (buckets m1))) in *.
  assert (Hnodes2 : shard_nodes m2 ≡ₚ p :: shard_nodes m1).
  { unfold shard_nodes, m2. cbn [buckets set_buckets].
    apply concat_insert_cons. exact Hb. }
  assert (Hpre13 : preserves pool1 pool3).
  { intros q n Hq. exists n. rewrite Hload3.
    destruct (decide (q = p)) as [-> | _]; [congruence | auto]. }
  exists p, m2, pool3, l'. split; [exact Hins |]. split; [exact Hwf2 |].
  split; [exact Hin1 |]. split; [exact Hok3 |].
  split.
  { apply (preserves_trans pool pool1 pool3); [| exact Hpre13].
    apply same_entries_preserves. exact Hs1. }
  split; [exact Hlock |]. split; [exact Hc3 |].
  intros k0 v1.
  rewrite <- (holds_value_resized m m1 pool pool1 k0 v1 Hs1 Hperm).
  split.
  - intros (q & n & (Hq & Hn & Hk) & Hv).
    rewrite Hnodes2 in Hq. rewrite Hload3 in Hn.
    destruct (decide (q = p)) as [-> | Hne].
    + injection Hn as <-. cbn [key value] in Hk, Hv. left. auto.
    + right. apply elem_of_cons in Hq as [-> | Hq]; [contradiction |].
      exists q, n. split; [| exact Hv]. split; [exact Hq |]. auto.
  - intros [[-> ->] | (q & n & (Hq & Hn & Hk) & Hv)].
    + exists p, {| key := k; value := v; bucket := idx |}.
      split; [| reflexivity]. split; [rewrite Hnodes2; left |].
      split; [| reflexivity]. rewrite Hload3, decide_True by reflexivity.
      reflexivity.
    + exists q, n. split; [| exact Hv].
      split; [rewrite Hnodes2; right; exact Hq |]. split; [| exact Hk].
      rewrite Hload3. rewrite decide_False; [exact Hn |]. congruence.
Qed.

(** *** Facts about the map *)

Definition shard_of (k : Z) : Z := GetInnerMapIndex (Hash64 k).

(** A map between calls: a power-of-two number of shards (the class's
    [static_assert]), each well formed over the shared pool and unlocked;
    the pool's free-page list is in order. *)
Record map_ok (h : HashMap) : Prop := {
  mok_pool : exists l, pool_ok (sharedPool h) l;
  mok_numInnerMaps : In NumInnerMaps_T c_powerOfTwoTable;
  mok_length : Z.of_nat (length (innerMaps h)) = NumInnerMaps_T;
  mok_shard : forall i m, innerMaps h !! i = Some m ->
    shard_wf m (sharedPool h) /\ shard_sized m /\ lock m = 0
}.

(** The map holds value [v] under key [k]. *)
Definition contains (h : HashMap) (k : Z) (v : Value_T) : Prop :=
  exists m, innerMaps h !! Z.to_nat (shard_of k) = Some m /\
            holds_value m (sharedPool h) k v.

Lemma shard_of_range (k : Z) :
  In NumInnerMaps_T c_powerOfTwoTable -> 0 <= shard_of k < NumInnerMaps_T.
Proof. intros H. exact (GetIndex_of_range NumInnerMaps_T (Hash64 k) H). Qed.

Lemma shard_of_nonneg (k : Z) : 0 <= shard_of k.
Proof.
  unfold shard_of, GetInnerMapIndex, wrap32.
  apply Z.mod_pos_bound. lia.
Qed.

Lemma innerMap_at_lookup (h : HashMap) (k : Z) (m : InnerMap) :
  innerMaps h !! Z.to_nat (shard_of k) = Some m ->
  innerMap_at h (shard_of k) = Ok m.
Proof.
  intros Hm. unfold innerMap_at.
  replace (zlookup (innerMaps h) (shard_of k)) with (Some m); [reflexivity |].
  symmetry. apply zlookup_Some. split; [apply shard_of_nonneg | exact Hm].
Qed.

Lemma map_ok_shard (h : HashMap) (k : Z) :
  map_ok h -> exists m, innerMaps h !! Z.to_nat (shard_of k) = Some m.
Proof.
  intros Hok.
  pose proof (shard_of_range k (mok_numInnerMaps h Hok)) as Hr.
  pose proof (mok_length h Hok) as Hlen.
  destruct (innerMaps h !! Z.to_nat (shard_of k)) as [m |] eqn:E.
  - exists m. reflexivity.
  - apply lookup_ge_None in E. lia.
Qed.

Lemma set_lock_same (m : InnerMap) : set_lock m (lock m) = m.
Proof. destruct m. reflexivity. Qed.

Lemma update_same (h : HashMap) (i : Z) (m : InnerMap) :
  innerMaps h !! Z.to_nat i = Some m -> update h i m (sharedPool h) = h.
Proof.
  intros Hm. unfold update. rewrite (list_insert_id _ _ _ Hm).
  destruct h. reflexivity.
Qed.

(** [find] on an unlocked shard is its [Find_Lockless]; the map is left as
    it was. *)
Lemma find_shard (h : HashMap) (k : Z) (m : InnerMap) :
  innerMaps h !! Z.to_nat (shard_of k) = Some m -> lock m = 0 ->
  find k h =
  do r <- InnerMap_Find_Lockless (Hash64 k) k m (sharedPool h);
  match r with
  | Some p => do n <- of_option (load (sharedPool h) p); Ok (Some (value n), h)
  | None => Ok (None, h)
  end.
Proof.
  intros Hm Hlock. unfold find, Find_Concurrent.
  fold (shard_of k). rewrite (innerMap_at_lookup h k m Hm). cbn [bind].
  unfold InnerMap_Find_Concurrent. rewrite Hlock.
  change (AcquireReadOnlyAccess 0) with (Ok (A := Z) 1). cbn [bind].
  change (ReleaseReadOnlyAccess 1) with 0.
  change (InnerMap_Find_Lockless (Hash64 k) k (set_lock m 1) (sharedPool h))
    with (InnerMap_Find_Lockless (Hash64 k) k m (sharedPool h)).
  replace (set_lock m 0) with m by (rewrite <- Hlock; symmetry; apply set_lock_same).
  destruct (InnerMap_Find_Lockless (Hash64 k) k m (sharedPool h)) as [r | |];
    cbn [bind]; try reflexivity.
  rewrite (update_same h (shard_of k) m Hm). cbn [sharedPool]. reflexivity.
Qed.

Lemma find_holds (h : HashMap) (k : Z) (m : InnerMap) (p : PP.objptr)
  (n : Node) :
  innerMaps h !! Z.to_nat (shard_of k) = Some m -> lock m = 0 ->
  shard_wf m (sharedPool h) -> In (numBuckets m) c_powerOfTwoTable ->
  holds m (sharedPool h) k p n ->
  find k h = Ok (Some (value n), h).
Proof.
  intros Hm Hlock Hwf Hsz Hh. rewrite (find_shard h k m Hm Hlock).
  rewrite (InnerMap_Find_Lockless_holds m (sharedPool h) k p n Hwf Hsz Hh).
  cbn [bind]. destruct Hh as (_ & Hn & _). rewrite Hn. reflexivity.
Qed.

Lemma find_not_held (h : HashMap) (k : Z) (m : InnerMap) :
  innerMaps h !! Z.to_nat (shard_of k) = Some m -> lock m = 0 ->
  shard_wf m (sharedPool h) -> In (numBuckets m) c_powerOfTwoTable ->
  (forall p n, ~ holds m (sharedPool h) k p n) ->
  find k h = Ok (None, h).
Proof.
  intros Hm Hlock Hwf Hsz Hnone. rewrite (find_shard h k m Hm Hlock).
  destruct (InnerMap_Find_Lockless_spec m (sharedPool h) k Hwf Hsz)
    as [(p & n & Hh & _) | [_ Hf]].
  - exfalso. apply (Hnone p n Hh).
  - rewrite Hf. reflexivity.
Qed.

(** What [find] reports is what the map holds. *)
Lemma find_Some_contains (h h0 : HashMap) (k : Z) (v : Value_T) :
  map_ok h -> find k h = Ok (Some v, h0) -> contains h k v /\ h0 = h.
Proof.
  intros Hok Hf. destruct (map_ok_shard h k Hok) as [m Hm].
  destruct (mok_shard h Hok _ m Hm) as (Hwf & Hsz & Hlock).
  destruct Hsz as [(Hn0 & _) | Hsz].
  - exfalso. rewrite (find_shard h k m Hm Hlock) in Hf.
    unfold InnerMap_Find_Lockless in Hf.
    pose proof (swf_length m _ Hwf) as Hlen. rewrite Hn0 in Hlen.
    destruct (buckets m); [| cbn in Hlen; lia].
    unfold bucket_at in Hf. rewrite zlookup_nil in Hf. discriminate.
  - destruct (InnerMap_Find_Lockless_spec m (sharedPool h) k Hwf Hsz)
      as [(p & n & Hh & _) | [Hnone _]].
    + rewrite (find_holds h k m p n Hm Hlock Hwf Hsz Hh) in Hf.
      injection Hf as <- <-. split; [| reflexivity].
      exists m. split; [exact Hm |]. exists p, n. auto.
    + rewrite (find_not_held h k m Hm Hlock Hwf Hsz Hnone) in Hf. discriminate.
Qed.

Lemma contains_find (h : HashMap) (k : Z) (v : Value_T) :
  map_ok h -> contains h k v -> find k h = Ok (Some v, h).
Proof.
  intros Hok (m & Hm & p & n & Hh & <-).
  destruct (mok_shard h Hok _ m Hm) as (Hwf & Hsz & Hlock).
  apply (find_holds h k m p n Hm Hlock Hwf); [| exact Hh].
  apply (holds_sized m (sharedPool h) k p n Hwf Hsz Hh).
Qed.

(** The map [Insert_Concurrent] leaves when the shard's [Insert_Lockless]
    returned [r], the shard as [m'] and the pool as [pool']. *)
Definition after_insert (h : HashMap) (k : Z) (r : option PP.objptr)
  (m' : InnerMap) (pool' : Pool) : HashMap :=
  let hu := update h (shard_of k) (set_lock m' 0) pool' in
  match r with
  | Some _ => set_totalCount hu (wrap32 (totalCount hu + 1))
  | None => hu
  end.

Lemma after_insert_fields (h : HashMap) (k : Z) (r : option PP.objptr)
  (m' : InnerMap) (pool' : Pool) :
  sharedPool (after_insert h k r m' pool') = pool' /\
  innerMaps (after_insert h k r m' pool')
  = <[Z.to_nat (shard_of k) := set_lock m' 0]> (innerMaps h) /\
  totalCount (after_insert h k r m' pool')
  = match r with
    | Some _ => wrap32 (totalCount h + 1)
    | None => totalCount h
    end.
Proof. destruct r; repeat split; reflexivity. Qed.

(** From the shard to the map: [insert] takes the shard's write lock, runs
    [Insert_Lockless] and releases the lock; the other shards are not
    touched. *)
Lemma insert_lift (fuel : nat) (k : Z) (v : Value_T) (h : HashMap)
  (m : InnerMap) (r : option PP.objptr) (m' : InnerMap) (pool' : Pool) :
  map_ok h -> innerMaps h !! Z.to_nat (shard_of k) = Some m ->
  InnerMap_Insert_Lockless fuel (Hash64 k) k v (set_lock m 0x10000)
    (sharedPool h) = Ok (r, m', pool') ->
  shard_wf m' pool' -> In (numBuckets m') c_powerOfTwoTable ->
  (exists l, pool_ok pool' l) -> preserves (sharedPool h) pool' ->
  lock m' = 0x10000 ->
  insert fuel k v h = Ok (is_some r, after_insert h k r m' pool') /\
  map_ok (after_insert h k r m' pool') /\
  (forall k0 v0,
     contains (after_insert h k r m' pool') k0 v0 <->
     if decide (shard_of k0 = shard_of k)
     then holds_value m' pool' k0 v0 else contains h k0 v0).
Proof.
  intros Hok Hm Hins Hwf' Hin' Hpool' Hpre Hlock'.
  destruct (mok_shard h Hok _ m Hm) as (Hwf & Hsz & Hlock).
  destruct (after_insert_fields h k r m' pool') as (Hsp & Him & _).
  assert (Hidx : (Z.to_nat (shard_of k) < length (innerMaps h))%nat).
  { apply lookup_lt_Some in Hm. exact Hm. }
  split; [| split].
  - unfold insert, Insert_Concurrent, Insert_with. fold (shard_of k).
    rewrite (innerMap_at_lookup h k m Hm). cbn [bind].
    unfold InnerMap_Insert_Concurrent, with_write_lock. rewrite Hlock.
    change (AcquireReadAndWriteAccess 0) with (Ok (A := Z) 0x10000).
    cbn [bind]. rewrite Hins. cbn [bind]. rewrite Hlock'.
    change (ReleaseReadAndWriteAccess 0x10000) with 0.
    destruct r; reflexivity.
  - constructor.
    + rewrite Hsp. exact Hpool'.
    + apply (mok_numInnerMaps h Hok).
    + rewrite Him, length_insert. apply (mok_length h Hok).
    + intros i mi Hi. rewrite Hsp. rewrite Him in Hi.
      destruct (decide (i = Z.to_nat (shard_of k))) as [-> | Hne].
      * rewrite list_lookup_insert_eq in Hi by exact Hidx.
        injection Hi as <-.
        split; [apply shard_wf_set_lock; exact Hwf' |].
        split; [right; exact Hin' | reflexivity].
      * rewrite list_lookup_insert_ne in Hi by congruence.
        destruct (mok_shard h Hok i mi Hi) as (Hwfi & Hszi & Hlocki).
        split; [apply (shard_wf_preserves mi _ pool' Hwfi Hpre) |].
        split; [exact Hszi | exact Hlocki].
  - intros k0 v0. unfold contains. rewrite Hsp, Him.
    destruct (decide (shard_of k0 = shard_of k)) as [-> | Hne].
    + rewrite list_lookup_insert_eq by exact Hidx. split.
      * intros (mm & Hmm & Hv). injection Hmm as <-. exact Hv.
      * intros Hv. exists (set_lock m' 0). split; [reflexivity | exact Hv].
    + pose proof (shard_of_nonneg k0). pose proof (shard_of_nonneg k).
      rewrite list_lookup_insert_ne by lia.
      split; intros (mm & Hmm & Hv); exists mm; (split; [exact Hmm |]);
        destruct (mok_shard h Hok _ mm Hmm) as (Hwfi & _ & _);
        apply (holds_value_preserves mm _ pool' k0 v0 Hwfi Hpre); exact Hv.
Qed.

Lemma contains_dec (h : HashMap) (k : Z) :
  map_ok h -> (exists v, contains h k v) \/ (forall v, ~ contains h k v).
Proof.
  intros Hok. destruct (map_ok_shard h k Hok) as [m Hm].
  destruct (mok_shard h Hok _ m Hm) as (Hwf & Hsz & Hlock).
  assert (Hnone : (forall p n, ~ holds m (sharedPool h) k p n) ->
                  forall v, ~ contains h k v).
  { intros Hn v (m' & Hm' & p & n & Hh & _).
    rewrite Hm in Hm'. injection Hm' as <-. apply (Hn p n Hh). }
  destruct Hsz as [(Hn0 & _) | Hsz].
  - right. apply Hnone. intros p n (Hp & _).
    pose proof (swf_length m _ Hwf) as Hlen. rewrite Hn0 in Hlen.
    unfold shard_nodes in Hp. destruct (buckets m); [inversion Hp |].
    cbn in Hlen. lia.
  - destruct (InnerMap_Find_Lockless_spec m (sharedPool h) k Hwf Hsz)
      as [(p & n & Hh & _) | [Hn _]].
    + left. exists (value n), m. split; [exact Hm |]. exists p, n. auto.
    + right. apply Hnone. exact Hn.
Qed.

(** [insert] of a key the map holds. *)
Lemma insert_present (fuel : nat) (k : Z) (v v0 : Value_T) (h : HashMap) :
  map_ok h -> contains h k v0 ->
  exists h',
    insert fuel k v h = Ok (false, h') /\ map_ok h' /\
    (forall k0 v1, contains h' k0 v1 <-> contains h k0 v1) /\
    size h' = size h /\
    PP.Size (sharedPool h') = PP.Size (sharedPool h).
Proof.
  intros Hok (m & Hm & Hv).
  destruct (mok_shard h Hok _ m Hm) as (Hwf & Hsz & Hlock).
  destruct (mok_pool h Hok) as [l Hpool].
  destruct (InnerMap_Insert_Lockless_present_contents fuel k v v0
              (set_lock m 0x10000) (sharedPool h) l)
    as (m1 & pool1 & Hins & Hwf1 & Hin1 & Hok1 & Hpre & Hlock1 & Hc1 & Hcont).
  { apply shard_wf_set_lock. exact Hwf. }
  { apply shard_sized_set_lock. exact Hsz. }
  { exact Hpool. }
  { exact Hv. }
  destruct (insert_lift fuel k v h m None m1 pool1 Hok Hm Hins Hwf1 Hin1)
    as (Hrun & Hok' & Hcont').
  { exists l. exact Hok1. }
  { exact Hpre. }
  { exact Hlock1. }
  exists (after_insert h k None m1 pool1).
  split; [exact Hrun |]. split; [exact Hok' |].
  split; [| split; [reflexivity | exact Hc1]].
  intros k0 v1. rewrite Hcont'.
  destruct (decide (shard_of k0 = shard_of k)) as [E | _]; [| reflexivity].
  rewrite Hcont. unfold contains. rewrite E. split.
  - intros Hh. exists m. split; [exact Hm | exact Hh].
  - intros (m' & Hm' & Hh). rewrite Hm in Hm'. injection Hm' as <-. exact Hh.
Qed.

(** [insert] of a key the map does not hold, when the allocator provides
    the next page. *)
Lemma insert_absent (fuel : nat) (k : Z) (v : Value_T) (h : HashMap) :
  map_ok h ->
  PP.numPages (sharedPool h) < PP.c_MaxPages ->
  NewAligned (PP.numPages (sharedPool h)) = true ->
  (Z.to_nat (PP.numPages (sharedPool h)) + 2 <= fuel)%nat ->
  (forall v0, ~ contains h k v0) ->
  exists h',
    insert fuel k v h = Ok (true, h') /\ map_ok h' /\
    (forall k0 v1, contains h' k0 v1
                   <-> (k0 = k /\ v1 = v) \/ contains h k0 v1) /\
    size h' = wrap32 (size h + 1) /\
    PP.Size (sharedPool h') = wrap32 (PP.Size (sharedPool h) + 1).
Proof.
  intros Hok Hmax Halloc Hfuel Habsent.
  destruct (map_ok_shard h k Hok) as [m Hm].
  destruct (mok_shard h Hok _ m Hm) as (Hwf & Hsz & Hlock).
  destruct (mok_pool h Hok) as [l Hpool].
  pose proof (PP.pool_ok_free_length PageSize_T c_bitIndexSize _ l Hpool) as Hl.
  pose proof (PP.wf_numPages _ l (proj1 Hpool)) as Hnp.
  destruct (InnerMap_Insert_Lockless_absent_contents fuel k v
              (set_lock m 0x10000) (sharedPool h) l)
    as (p & m2 & pool3 & l' & Hins & Hwf2 & Hin2 & Hok3 & Hpre & Hlock2
        & Hc3 & Hcont).
  { apply shard_wf_set_lock. exact Hwf. }
  { apply shard_sized_set_lock. exact Hsz. }
  { exact Hpool. }
  { lia. }
  { exact Halloc. }
  { lia. }
  { intros v0 Hv. apply (Habsent v0). exists m. split; [exact Hm | exact Hv]. }
  destruct (insert_lift fuel k v h m (Some p) m2 pool3 Hok Hm Hins Hwf2 Hin2)
    as (Hrun & Hok' & Hcont').
  { exists l'. exact Hok3. }
  { exact Hpre. }
  { exact Hlock2. }
  exists (after_insert h k (Some p) m2 pool3).
  split; [exact Hrun |]. split; [exact Hok' |].
  split; [| split; [reflexivity | exact Hc3]].
  intros k0 v1. rewrite Hcont'.
  destruct (decide (shard_of k0 = shard_of k)) as [E | Hne].
  - rewrite Hcont. unfold contains. rewrite E. split.
    + intros [H | Hh]; [left; exact H |].
      right. exists m. split; [exact Hm | exact Hh].
    + intros [H | (m' & Hm' & Hh)]; [left; exact H |].
      right. rewrite Hm in Hm'. injection Hm' as <-. exact Hh.
  - split; [intros H; right; exact H |].
    intros [[-> _] | H]; [contradiction Hne; reflexivity | exact H].
Qed.


(** The empty map is a map between calls. *)
Lemma empty_map_ok : In NumInnerMaps_T c_powerOfTwoTable -> map_ok empty.
Proof.
  intros HN. destruct (table_pow2 _ HN) as (j & Hj & HNj).
  assert (0 < NumInnerMaps_T) by (rewrite HNj; apply Z.pow_pos_nonneg; lia).
  constructor.
  - exists []. apply PP.empty_ok.
  - exact HN.
  - cbn [innerMaps empty]. rewrite length_replicate. unfold c_numInnerMaps. lia.
  - intros i m Hi. cbn [innerMaps empty] in Hi.
    apply lookup_replicate in Hi as [-> _].
    split; [| split; [left; auto | reflexivity]].
    constructor.
    + reflexivity.
    + intros i0 b p Hb. cbn in Hb. rewrite lookup_nil in Hb. discriminate.
    + intros p q n n' Hp. cbn in Hp. inversion Hp.
Qed.




(** In a map between calls, where no key is linked twice: if [find(k)]
    reports the value [v], then [insert(k, v')] returns false; afterwards
    [find(k)] still reports [v], and the map holds exactly what it held. *)
Theorem insert_present_keeps_value (fuel : nat) (k : Z) (v v' : Value_T)
  (h h0 : HashMap) :
  map_ok h -> find k h = Ok (Some v, h0) ->
  exists h',
    insert fuel k v' h = Ok (false, h') /\
    find k h' = Ok (Some v, h') /\
    map_ok h' /\
    (forall k0 v0, contains h' k0 v0 <-> contains h k0 v0).
Proof.
  intros Hok Hf.
  destruct (find_Some_contains h h0 k v Hok Hf) as [Hc _].
  destruct (insert_present fuel k v' v h Hok Hc)
    as (h' & Hins & Hok' & Hcont & _).
  exists h'. split; [exact Hins |].
  split; [| split; [exact Hok' | exact Hcont]].
  apply (contains_find h' k v Hok'). apply Hcont. exact Hc.
Qed.

(** [insert] with an allocator that provides the next page.  [Reserve] of
    the pool never returns null, and with such an allocator it returns a
    node that was free.  [insert] on a map between calls then returns; it
    returns false exactly when the map holds the key, and then the map
    holds what it held and [size()] and the pool's count are as they were;
    it returns true exactly when it does not, and then the map holds the
    new entry besides what it held, [find(k)] reports the new value, and
    [size()] and the pool's count have grown by one. *)
Theorem insert_false_iff_present (fuel : nat) (k : Z) (v : Value_T)
  (h : HashMap) :
  map_ok h ->
  PP.numPages (sharedPool h) < PP.c_MaxPages ->
  NewAligned (PP.numPages (sharedPool h)) = true ->
  (Z.to_nat (PP.numPages (sharedPool h)) + 2 <= fuel)%nat ->
  (forall fuel' x (P : Pool) r P',
     PP.Reserve PageSize_T c_bitIndexSize sizeofNode NewAligned fuel' x P
     = Ok (r, P') -> r <> None) /\
  (forall x, exists p P',
     PP.Reserve PageSize_T c_bitIndexSize sizeofNode NewAligned fuel x
       (sharedPool h) = Ok (Some p, P') /\
     load (sharedPool h) p = None) /\
  exists b h',
    insert fuel k v h = Ok (b, h') /\ map_ok h' /\
    (b = false <-> exists v0, contains h k v0) /\
    (b = false ->
       (forall k0 v1, contains h' k0 v1 <-> contains h k0 v1) /\
       size h' = size h /\
       PP.Size (sharedPool h') = PP.Size (sharedPool h)) /\
    (b = true ->
       find k h' = Ok (Some v, h') /\
       (forall k0 v1, contains h' k0 v1
                      <-> (k0 = k /\ v1 = v) \/ contains h k0 v1) /\
       size h' = wrap32 (size h + 1) /\
       PP.Size (sharedPool h') = wrap32 (PP.Size (sharedPool h) + 1)).
Proof.
  intros Hok Hmax Halloc Hfuel.
  split; [intros fuel' x P r P'; apply PP.Reserve_never_null |].
  split.
  { intros x. destruct (mok_pool h Hok) as [l Hpool].
    pose proof (PP.pool_ok_free_length PageSize_T c_bitIndexSize _ l Hpool) as Hl.
    pose proof (PP.wf_numPages _ l (proj1 Hpool)) as Hnp.
    destruct (PP.Reserve_spec PageSize_T c_bitIndexSize sizeofNode NewAligned
                sizeofNode_pos c_bitIndexSize_pow2 PageSize_T_pos
                PageSize_T_multiple x l (sharedPool h) fuel Hpool)
      as (p & P' & _ & Hres & _ & Hfree & _); [lia | exact Halloc | lia |].
    exists p, P'. auto. }
  destruct (contains_dec h k Hok) as [[v0 Hc] | Habsent].
  - destruct (insert_present fuel k v v0 h Hok Hc)
      as (h' & Hins & Hok' & Hcont & Hsize & Hpsize).
    exists false, h'. split; [exact Hins |]. split; [exact Hok' |].
    split; [split; [intros _; exists v0; exact Hc | reflexivity] |].
    split; [intros _; auto | discriminate].
  - destruct (insert_absent fuel k v h Hok Hmax Halloc Hfuel Habsent)
      as (h' & Hins & Hok' & Hcont & Hsize & Hpsize).
    exists true, h'. split; [exact Hins |]. split; [exact Hok' |].
    split.
    { split; [discriminate |]. intros [v0 Hc]. exfalso. apply (Habsent v0 Hc). }
    split; [discriminate |]. intros _.
    split; [| auto].
    apply (contains_find h' k v Hok'). apply Hcont. left. auto.
Qed.

(** [ReKey_Lockless] by node between two shards, whatever the hash
    function: the node is marked as being reassigned, the removal by node
    then reads the mark as the node's bucket index, finds it outside the
    array and gives up.  The node stays linked under its old key, with the
    mark. *)
Lemma ReKey_node_Lockless_across_shards (fuel : nat) (p : PP.objptr)
  (newKey : Z) (h : HashMap) (l : list Z) (n : Node) (m : InnerMap) :
  pool_ok (sharedPool h) l ->
  load (sharedPool h) p = Some n ->
  shard_of (key n) <> shard_of newKey ->
  innerMaps h !! Z.to_nat (shard_of (key n)) = Some m ->
  numBuckets m <= c_reassigningBucket ->
  ReKey_node_Lockless fuel p newKey h
  = Ok (false,
        update h (shard_of (key n)) m
          (store (sharedPool h) p (set_bucket n c_reassigningBucket))).
Proof.
  intros Hok Hn Hne Hm Hnb.
  unfold ReKey_node_Lockless, ReKey_node_with. rewrite Hn. cbn [of_option bind].
  fold (shard_of (key n)). fold (shard_of newKey).
  destruct (Z.eqb_spec (shard_of (key n)) (shard_of newKey)) as [E | _];
    [contradiction |].
  unfold write_bucket. rewrite Hn. cbn [of_option bind].
  rewrite (innerMap_at_lookup h (key n) m Hm). cbn [bind].
  unfold InnerMap_Remove_Lockless_KeyValuePair.
  rewrite (PP.load_store PageSize_T c_bitIndexSize sizeofNode
             sizeofNode_pos PageSize_T_pos (sharedPool h) l p p _ n Hok Hn).
  rewrite decide_True by reflexivity. cbn [of_option bind bucket set_bucket].
  destruct (Z.ltb_spec c_reassigningBucket (numBuckets m)) as [Hlt | _]; [lia |].
  reflexivity.
Qed.

(** [find] on an unlocked shard is [find_lockless] with the map handed
    back. *)
Lemma find_find_lockless (h : HashMap) (k : Z) (m : InnerMap) :
  innerMaps h !! Z.to_nat (shard_of k) = Some m -> lock m = 0 ->
  find k h = (do o <- find_lockless k h; Ok (o, h)).
Proof.
  intros Hm Hlock. rewrite (find_shard h k m Hm Hlock).
  unfold find_lockless, Find_Lockless. fold (shard_of k).
  rewrite (innerMap_at_lookup h k m Hm). cbn [bind].
  destruct (InnerMap_Find_Lockless (Hash64 k) k m (sharedPool h))
    as [[p |] | |]; cbn [bind]; try reflexivity.
  destruct (load (sharedPool h) p); reflexivity.
Qed.

(** X20.  On a map between calls [find] and [find_lockless] report exactly
    what the map holds under the key, and leave the map as it was: a key is
    held with at most one value, a held value is the one reported, and a
    key reported as missing is held with no value. *)
Theorem find_reports_contents (h : HashMap) (k : Z) :
  map_ok h ->
  (forall v, contains h k v ->
     find k h = Ok (Some v, h) /\ find_lockless k h = Ok (Some v)) /\
  (forall v w, contains h k v -> contains h k w -> v = w) /\
  (forall r h', find k h = Ok (r, h') ->
     h' = h /\ find_lockless k h = Ok r /\
     match r with
     | Some v => contains h k v
     | None => forall v, ~ contains h k v
     end).
Proof.
  intros Hok. destruct (map_ok_shard h k Hok) as [m Hm].
  destruct (mok_shard h Hok _ m Hm) as (_ & _ & Hlock).
  pose proof (find_find_lockless h k m Hm Hlock) as Hff.
  split; [| split].
  - intros v Hv. pose proof (contains_find h k v Hok Hv) as Hf.
    split; [exact Hf |]. rewrite Hff in Hf.
    destruct (find_lockless k h) as [o | |]; cbn [bind] in Hf;
      try discriminate.
    injection Hf as ->. reflexivity.
  - intros v w Hv Hw.
    pose proof (contains_find h k v Hok Hv) as Hf.
    rewrite (contains_find h k w Hok Hw) in Hf. injection Hf as ->.
    reflexivity.
  - intros r h' Hf. pose proof Hf as Hf'. rewrite Hff in Hf'.
    destruct (find_lockless k h) as [o | |]; cbn [bind] in Hf';
      try discriminate.
    injection Hf' as <- <-. split; [reflexivity |]. split; [reflexivity |].
    destruct o as [v |].
    + apply (find_Some_contains h h k v Hok Hf).
    + intros v Hv. rewrite (contains_find h k v Hok Hv) in Hf. discriminate.
Qed.

(** X21.  A shard whose bucket array was never allocated, as the
    constructor leaves every shard, cannot be searched: [find], [erase] and
    [rekey] of a key routed to it index the null array.  On a freshly
    constructed map this is so for every key. *)
Theorem lookup_before_first_insert (h : HashMap) (k : Z) (m : InnerMap) :
  innerMaps h !! Z.to_nat (shard_of k) = Some m ->
  lock m = 0 -> buckets m = [] ->
  find k h = Fault /\ find_lockless k h = Fault /\
  erase k h = Fault /\ erase_lockless k h = Fault /\
  (forall fuel newKey,
     rekey fuel k newKey h = Fault /\ rekey_lockless fuel k newKey h = Fault) /\
  (In NumInnerMaps_T c_powerOfTwoTable ->
   innerMaps empty !! Z.to_nat (shard_of k) = Some InnerMap_empty).
Proof.
  intros Hm Hlock Hb.
  assert (HF : InnerMap_Find_Lockless (Hash64 k) k m (sharedPool h) = Fault).
  { unfold InnerMap_Find_Lockless, bucket_at. rewrite Hb, zlookup_nil.
    reflexivity. }
  assert (Hfl : find_lockless k h = Fault).
  { unfold find_lockless, Find_Lockless. fold (shard_of k).
    rewrite (innerMap_at_lookup h k m Hm). cbn [bind]. rewrite HF.
    reflexivity. }
  assert (Hf : find k h = Fault).
  { rewrite (find_find_lockless h k m Hm Hlock), Hfl. reflexivity. }
  assert (HFc : Find_Concurrent k h = Fault).
  { unfold Find_Concurrent. fold (shard_of k).
    rewrite (innerMap_at_lookup h k m Hm). cbn [bind].
    unfold InnerMap_Find_Concurrent. rewrite Hlock.
    change (AcquireReadOnlyAccess 0) with (Ok (A := Z) 1). cbn [bind].
    change (InnerMap_Find_Lockless (Hash64 k) k (set_lock m 1) (sharedPool h))
      with (InnerMap_Find_Lockless (Hash64 k) k m (sharedPool h)).
    rewrite HF. reflexivity. }
  assert (HFl : Find_Lockless k h = Fault).
  { unfold Find_Lockless. fold (shard_of k).
    rewrite (innerMap_at_lookup h k m Hm). cbn [bind]. exact HF. }
  assert (HR : forall m0, buckets m0 = [] ->
             InnerMap_Remove_Lockless (Hash64 k) k m0 (sharedPool h) = Fault).
  { intros m0 Hb0. unfold InnerMap_Remove_Lockless, bucket_at.
    rewrite Hb0, zlookup_nil. reflexivity. }
  split; [exact Hf |]. split; [exact Hfl |]. split; [| split; [| split]].
  - unfold erase, Remove_Concurrent, Remove_with. fold (shard_of k).
    rewrite (innerMap_at_lookup h k m Hm). cbn [bind].
    unfold InnerMap_Remove_Concurrent, with_write_lock. rewrite Hlock.
    change (AcquireReadAndWriteAccess 0) with (Ok (A := Z) 0x10000).
    cbn [bind]. rewrite (HR (set_lock m 65536) Hb). reflexivity.
  - unfold erase_lockless, Remove_Lockless, Remove_with. fold (shard_of k).
    rewrite (innerMap_at_lookup h k m Hm). cbn [bind].
    rewrite (HR m Hb). reflexivity.
  - intros fuel newKey. split.
    + unfold rekey, ReKey_Concurrent. rewrite HFc. reflexivity.
    + unfold rekey_lockless, ReKey_Lockless. rewrite HFl. reflexivity.
  - intros HN. cbn [innerMaps empty]. apply lookup_replicate_2.
    pose proof (shard_of_range k HN). unfold c_numInnerMaps. lia.
Qed.

(** *** Nodes linked once, in their shard, under their stamp

    [Resize] writes only to the nodes of the shard it resizes. *)

Lemma Resize_nodes_frame (newN : Z) (l : list Z) :
  forall (nodes : Bucket) (newB : list Bucket) (pool : Pool)
         (newB' : list Bucket) (pool' : Pool),
  pool_ok pool l ->
  Resize_nodes newN nodes newB pool = Ok (newB', pool') ->
  pool_ok pool' l /\ forall q, q ∉ nodes -> load pool' q = load pool q.
Proof.
  induction nodes as [| p rest IH]; intros newB pool newB' pool' Hok Hrun.
  - cbn [Resize_nodes] in Hrun. injection Hrun as _ <-.
    split; [exact Hok | reflexivity].
  - cbn [Resize_nodes] in Hrun.
    destruct (load pool p) as [n |] eqn:Hn; cbn [of_option bind] in Hrun;
      [| discriminate].
    destruct (bucket_at newB (GetIndex_of newN (Hash64 (key n)))) as [b | |];
      cbn [bind Bucket_Insert_Lockless] in Hrun; try discriminate.
    destruct (PP.store_ok PageSize_T c_bitIndexSize sizeofNode
                sizeofNode_pos PageSize_T_pos pool l p
                (set_bucket n (GetIndex_of newN (Hash64 (key n)))) n Hok Hn)
      as (Hok1 & _).
    destruct (IH _ _ _ _ Hok1 Hrun) as (Hok' & Hfr).
    split; [exact Hok' |]. intros q Hq.
    rewrite Hfr by (intros H; apply Hq; right; exact H).
    rewrite (PP.load_store PageSize_T c_bitIndexSize sizeofNode
               sizeofNode_pos PageSize_T_pos pool l p q _ n Hok Hn).
    rewrite decide_False; [reflexivity |]. intros ->. apply Hq. left.
Qed.

Lemma Resize_buckets_frame (newN : Z) (l : list Z) :
  forall (old newB : list Bucket) (pool : Pool)
         (newB' : list Bucket) (pool' : Pool),
  pool_ok pool l ->
  Resize_buckets newN old newB pool = Ok (newB', pool') ->
  pool_ok pool' l /\ forall q, q ∉ concat old -> load pool' q = load pool q.
Proof.
  induction old as [| ob old IH]; intros newB pool newB' pool' Hok Hrun.
  - cbn [Resize_buckets] in Hrun. injection Hrun as _ <-.
    split; [exact Hok | reflexivity].
  - cbn [Resize_buckets] in Hrun.
    destruct (Resize_nodes newN ob newB pool) as [[newB1 pool1] | |] eqn:E;
      cbn [bind] in Hrun; try discriminate.
    destruct (Resize_nodes_frame newN l ob newB pool newB1 pool1 Hok E)
      as (Hok1 & Hfr1).
    destruct (IH _ _ _ _ Hok1 Hrun) as (Hok' & Hfr).
    split; [exact Hok' |]. intros q Hq. cbn [concat] in Hq.
    rewrite Hfr by (intros H; apply Hq; apply elem_of_app; right; exact H).
    apply Hfr1. intros H. apply Hq. apply elem_of_app. left. exact H.
Qed.

Lemma Resize_frame (newN : Z) (m m' : InnerMap) (pool pool' : Pool)
  (l : list Z) :
  pool_ok pool l -> Resize newN m pool = Ok (m', pool') ->
  forall q, q ∉ shard_nodes m -> load pool' q = load pool q.
Proof.
  intros Hok Hrun q Hq. unfold Resize in Hrun.
  destruct (_ <? _); [discriminate |].
  destruct (Resize_buckets newN _ _ pool) as [[newB' pool1] | |] eqn:E;
    cbn [bind] in Hrun; try discriminate.
  injection Hrun as _ <-.
  apply (Resize_buckets_frame newN l _ _ _ _ _ Hok E).
  intros H. apply Hq. unfold shard_nodes.
  apply elem_of_concat in H as (i & b & Hi & Hb).
  apply elem_of_concat. exists i, b. split; [| exact Hb].
  apply lookup_take_Some in Hi as [Hi _]. exact Hi.
Qed.

Lemma count_and_resize_frame (m m1 : InnerMap) (pool pool1 : Pool)
  (l : list Z) :
  pool_ok pool l -> count_and_resize m pool = Ok (m1, pool1) ->
  forall q, q ∉ shard_nodes m -> load pool1 q = load pool q.
Proof.
  intros Hok Hrun q Hq. unfold count_and_resize in Hrun. cbv zeta in Hrun.
  destruct (_ <? _).
  - apply (Resize_frame _ _ _ _ _ l Hok Hrun). exact Hq.
  - injection Hrun as _ <-. reflexivity.
Qed.

(** The nodes of shard [i]: each is linked once, its key routes to shard
    [i], and the bucket that links it is the one stamped on it. *)
Record shard_linked (i : Z) (m : InnerMap) (pool : Pool) : Prop := {
  slk_nodup : NoDup (shard_nodes m);
  slk_shard : forall p n,
    p ∈ shard_nodes m -> load pool p = Some n -> shard_of (key n) = i;
  slk_stamp : forall j b p n,
    buckets m !! j = Some b -> p ∈ b -> load pool p = Some n ->
    bucket n = Z.of_nat j
}.

(** A map between calls whose shards link their nodes in this way: what
    the constructor and a sequence of [insert] and [erase] give. *)
Record map_linked (h : HashMap) : Prop := {
  mlk_ok : map_ok h;
  mlk_shard : forall i m, innerMaps h !! i = Some m ->
    shard_linked (Z.of_nat i) m (sharedPool h)
}.

Lemma shard_linked_set_lock (i : Z) (m : InnerMap) (pool : Pool) (v : Z) :
  shard_linked i m pool -> shard_linked i (set_lock m v) pool.
Proof. intros [H1 H2 H3]. constructor; assumption. Qed.

Lemma shard_linked_set_count (i : Z) (m : InnerMap) (pool : Pool) (c : Z) :
  shard_linked i m pool -> shard_linked i (set_count m c) pool.
Proof. intros [H1 H2 H3]. constructor; assumption. Qed.

(** No node is linked in two shards. *)
Lemma map_linked_disjoint (h : HashMap) (i j : nat) (mi mj : InnerMap)
  (p : PP.objptr) :
  map_linked h -> innerMaps h !! i = Some mi -> innerMaps h !! j = Some mj ->
  p ∈ shard_nodes mi -> p ∈ shard_nodes mj -> i = j.
Proof.
  intros Hl Hi Hj Hpi Hpj.
  destruct (mok_shard h (mlk_ok h Hl) i mi Hi) as (Hwf & _).
  destruct (shard_wf_all_live mi _ Hwf p Hpi) as [n Hn].
  pose proof (slk_shard _ _ _ (mlk_shard h Hl i mi Hi) p n Hpi Hn) as E1.
  pose proof (slk_shard _ _ _ (mlk_shard h Hl j mj Hj) p n Hpj Hn) as E2.
  lia.
Qed.

(** The shards other than [s] keep their links through a call on shard [s]
    that leaves the nodes outside shard [s] as they are. *)
Lemma linked_lift (h : HashMap) (s : nat) (m m' : InnerMap) (pool' : Pool) :
  map_linked h -> innerMaps h !! s = Some m ->
  shard_linked (Z.of_nat s) m' pool' ->
  (forall q n, q ∉ shard_nodes m -> load (sharedPool h) q = Some n ->
     load pool' q = Some n) ->
  forall i mi, <[s := m']> (innerMaps h) !! i = Some mi ->
    shard_linked (Z.of_nat i) mi pool'.
Proof.
  intros Hl Hm Hs' Hframe i mi Hi.
  destruct (decide (i = s)) as [-> | Hne].
  - rewrite list_lookup_insert_eq in Hi
      by (apply lookup_lt_Some in Hm; exact Hm).
    injection Hi as <-. exact Hs'.
  - rewrite list_lookup_insert_ne in Hi by congruence.
    destruct (mok_shard h (mlk_ok h Hl) i mi Hi) as (Hwf & _).
    pose proof (mlk_shard h Hl i mi Hi) as [Hnd Hsh Hst].
    assert (Hsame : forall q, q ∈ shard_nodes mi ->
              exists n, load (sharedPool h) q = Some n /\ load pool' q = Some n).
    { intros q Hq. destruct (shard_wf_all_live mi _ Hwf q Hq) as [n Hn].
      exists n. split; [exact Hn |]. apply Hframe; [| exact Hn].
      intros Hqs. apply Hne.
      apply (map_linked_disjoint h i s mi m q Hl Hi Hm Hq Hqs). }
    constructor.
    + exact Hnd.
    + intros q n' Hq Hn'. destruct (Hsame q Hq) as (n & Hn & Hn2).
      assert (n' = n) by congruence. subst n'. apply (Hsh q n Hq Hn).
    + intros j b q n' Hb Hq Hn'.
      assert (Hqn : q ∈ shard_nodes mi)
        by (apply elem_of_concat; exists j, b; auto).
      destruct (Hsame q Hqn) as (n & Hn & Hn2).
      assert (n' = n) by congruence. subst n'. apply (Hst j b q n Hb Hq Hn).
Qed.

(** The count and the resize keep the shard's links. *)
Lemma count_and_resize_linked (i : Z) (m m1 : InnerMap) (pool pool1 : Pool)
  (l : list Z) :
  shard_wf m pool -> pool_ok pool l -> shard_linked i m pool ->
  count_and_resize m pool = Ok (m1, pool1) ->
  shard_linked i m1 pool1.
Proof.
  intros Hwf Hok [Hnd Hsh Hst] Hrun.
  unfold count_and_resize in Hrun. cbv zeta in Hrun.
  destruct (_ <? _).
  - destruct (Resize_spec (GetNextPowerOfTwo
                             (wrap32 (count (set_count m (wrap32 (count m + 1))) * 2)))
                (set_count m (wrap32 (count m + 1))) pool l)
      as (m1' & pool1' & Hrun' & _ & _ & Hs1 & _ & _ & Hperm & Hrel & _).
    { apply GetNextPowerOfTwo_In. }
    { apply shard_wf_set_count. exact Hwf. }
    { exact Hok. }
    rewrite Hrun in Hrun'. injection Hrun' as <- <-.
    change (shard_nodes (set_count m (wrap32 (count m + 1))))
      with (shard_nodes m) in Hperm.
    constructor.
    + rewrite Hperm. exact Hnd.
    + intros p n' Hp Hn'. rewrite Hperm in Hp.
      destruct (same_entries_load_inv pool pool1 p n' Hs1 Hn')
        as (n & Hn & Hk & _).
      rewrite Hk. apply (Hsh p n Hp Hn).
    + intros j b p n' Hb Hp Hn'.
      destruct (Hrel j b p Hb Hp) as (n & Hn & _ & Hbk).
      assert (n' = n) by congruence. subst n'. exact Hbk.
  - injection Hrun as <- <-. constructor; assumption.
Qed.

(** [Insert_Lockless] keeps the shard's links and leaves the nodes of the
    other shards as they are. *)
Lemma InnerMap_Insert_Lockless_linked (fuel : nat) (k : Z) (v : Value_T)
  (m : InnerMap) (pool : Pool) (l : list Z) :
  shard_wf m pool -> shard_sized m -> pool_ok pool l ->
  0 <= PP.numPages pool < PP.c_MaxPages ->
  NewAligned (PP.numPages pool) = true ->
  (length l + 2 <= fuel)%nat ->
  shard_linked (shard_of k) m pool ->
  forall r m' pool',
    InnerMap_Insert_Lockless fuel (Hash64 k) k v m pool = Ok (r, m', pool') ->
    shard_linked (shard_of k) m' pool' /\
    (forall q n, q ∉ shard_nodes m -> load pool q = Some n ->
       load pool' q = Some n).
Proof.
  intros Hwf Hsz Hok Hpages Halloc Hfuel Hlk r m' pool' Hins.
  destruct (count_and_resize_spec m pool l Hwf Hsz Hok)
    as (m1 & pool1 & Hrun & Hwf1 & Hin1 & Hok1 & Hs1 & _ & _ & Hperm & _ & _).
  pose proof (count_and_resize_linked _ m m1 pool pool1 l Hwf Hok Hlk Hrun)
    as Hlk1.
  pose proof (count_and_resize_frame m m1 pool pool1 l Hok Hrun) as Hfr1.
  destruct (InnerMap_Find_Lockless_spec m1 pool1 k Hwf1 Hin1)
    as [(p & n & Hh & _) | [Hnone _]].
  - destruct (holds_same_entries_inv m m1 pool pool1 k p n Hs1 Hperm Hh)
      as (n0 & Hh0 & _).
    destruct (InnerMap_Insert_Lockless_present fuel k v m pool l p n0
                Hwf Hsz Hok Hh0) as (m1' & pool1' & Hrun' & Hins').
    rewrite Hrun in Hrun'. injection Hrun' as <- <-.
    rewrite Hins in Hins'. injection Hins' as _ -> ->.
    split; [exact Hlk1 |].
    intros q nq Hq Hnq. rewrite (Hfr1 q Hq). exact Hnq.
  - destruct (InnerMap_Insert_Lockless_absent fuel k v m pool l Hwf Hsz Hok
                Hpages Halloc Hfuel)
      as (m1' & pool1' & p & b & pool3 & l' & Hrun' & Hins' & Hb & Hfree
          & Hload3 & _ & _ & Hwf2).
    { intros q n Hh.
      destruct (holds_same_entries m m1 pool pool1 k q n Hs1 Hperm Hh)
        as (n1 & Hh1 & _).
      apply (Hnone q n1 Hh1). }
    rewrite Hrun in Hrun'. injection Hrun' as <- <-.
    rewrite Hins in Hins'. injection Hins' as _ -> ->.
    pose proof (GetIndex_of_range (numBuckets m1) (Hash64 k) Hin1) as Hidx.
    change (GetIndex_of (numBuckets m1) (Hash64 k))
      with (GetIndex m1 (Hash64 k)) in Hidx.
    set (idx := GetIndex m1 (Hash64 k)) in *.
    assert (Hlive1 : forall q, q ∈ shard_nodes m1 -> q <> p).
    { intros q Hq ->. destruct (shard_wf_all_live m1 pool1 Hwf1 p Hq) as [n Hn].
      congruence. }
    destruct Hlk1 as [Hnd1 Hsh1 Hst1].
    assert (Hnodes2 : shard_nodes
                        (set_buckets m1 (<[Z.to_nat idx := p :: b]> (buckets m1)))
                      ≡ₚ p :: shard_nodes m1).
    { unfold shard_nodes. cbn [buckets set_buckets].
      apply concat_insert_cons. exact Hb. }
    split.
    + constructor.
      * rewrite Hnodes2. apply NoDup_cons. split; [| exact Hnd1].
        intros Hp. apply (Hlive1 p Hp). reflexivity.
      * intros q nq Hq Hnq. rewrite Hnodes2 in Hq. rewrite Hload3 in Hnq.
        destruct (decide (q = p)) as [-> | Hne].
        -- injection Hnq as <-. reflexivity.
        -- apply elem_of_cons in Hq as [-> | Hq]; [contradiction |].
           apply (Hsh1 q nq Hq Hnq).
      * intros j b' q nq Hb' Hq Hnq. cbn [buckets set_buckets] in Hb'.
        rewrite Hload3 in Hnq.
        destruct (decide (j = Z.to_nat idx)) as [-> | Hj].
        -- rewrite list_lookup_insert_eq in Hb'
             by (apply lookup_lt_Some in Hb; exact Hb).
           injection Hb' as <-.
           destruct (decide (q = p)) as [-> | Hne].
           ++ injection Hnq as <-. cbn [bucket]. lia.
           ++ apply elem_of_cons in Hq as [-> | Hq]; [contradiction |].
              apply (Hst1 _ b q nq Hb Hq Hnq).
        -- rewrite list_lookup_insert_ne in Hb' by congruence.
           assert (Hqn : q ∈ shard_nodes m1)
             by (apply elem_of_concat; exists j, b'; auto).
           rewrite decide_False in Hnq by (apply Hlive1; exact Hqn).
           apply (Hst1 j b' q nq Hb' Hq Hnq).
    + intros q nq Hq Hnq. rewrite Hload3.
      rewrite <- (Hfr1 q Hq) in Hnq.
      destruct (decide (q = p)) as [-> | _]; [congruence | exact Hnq].
Qed.

(** [insert] keeps the map's links. *)
Lemma insert_linked (fuel : nat) (k : Z) (v : Value_T) (h : HashMap) :
  map_linked h ->
  PP.numPages (sharedPool h) < PP.c_MaxPages ->
  NewAligned (PP.numPages (sharedPool h)) = true ->
  (Z.to_nat (PP.numPages (sharedPool h)) + 2 <= fuel)%nat ->
  forall b h', insert fuel k v h = Ok (b, h') -> map_linked h'.
Proof.
  intros Hl Hmax Halloc Hfuel b h' Hrun.
  pose proof (mlk_ok h Hl) as Hok.
  assert (Hok' : map_ok h').
  { destruct (contains_dec h k Hok) as [[v0 Hv0] | Habsent].
    - destruct (insert_present fuel k v v0 h Hok Hv0) as (h'' & Hrun' & H & _).
      rewrite Hrun in Hrun'. injection Hrun' as _ ->. exact H.
    - destruct (insert_absent fuel k v h Hok Hmax Halloc Hfuel Habsent)
        as (h'' & Hrun' & H & _).
      rewrite Hrun in Hrun'. injection Hrun' as _ ->. exact H. }
  split; [exact Hok' |].
  destruct (map_ok_shard h k Hok) as [m Hm].
  destruct (mok_shard h Hok _ m Hm) as (Hwf & Hsz & Hlock).
  destruct (mok_pool h Hok) as [l Hpool].
  pose proof (PP.pool_ok_free_length PageSize_T c_bitIndexSize _ l Hpool) as Hlen.
  pose proof (PP.wf_numPages _ l (proj1 Hpool)) as Hnp.
  pose proof (shard_of_nonneg k) as Hs0.
  pose proof (mlk_shard h Hl _ m Hm) as Hlk.
  rewrite Z2Nat.id in Hlk by exact Hs0.
  unfold insert, Insert_Concurrent, Insert_with in Hrun. fold (shard_of k) in Hrun.
  rewrite (innerMap_at_lookup h k m Hm) in Hrun. cbn [bind] in Hrun.
  unfold InnerMap_Insert_Concurrent, with_write_lock in Hrun.
  rewrite Hlock in Hrun.
  change (AcquireReadAndWriteAccess 0) with (Ok (A := Z) 0x10000) in Hrun.
  cbn [bind] in Hrun.
  destruct (InnerMap_Insert_Lockless fuel (Hash64 k) k v (set_lock m 65536)
              (sharedPool h)) as [[[r m'] pool'] | |] eqn:E;
    cbn [bind] in Hrun; try discriminate.
  assert (Hwf0 : shard_wf (set_lock m 65536) (sharedPool h))
    by (apply shard_wf_set_lock; exact Hwf).
  assert (Hsz0 : shard_sized (set_lock m 65536))
    by (apply shard_sized_set_lock; exact Hsz).
  assert (Hpages : 0 <= PP.numPages (sharedPool h) < PP.c_MaxPages) by lia.
  assert (Hfuel0 : (length l + 2 <= fuel)%nat) by lia.
  assert (Hlk0 : shard_linked (shard_of k) (set_lock m 65536) (sharedPool h))
    by (apply shard_linked_set_lock; exact Hlk).
  destruct (InnerMap_Insert_Lockless_linked fuel k v (set_lock m 65536)
              (sharedPool h) l Hwf0 Hsz0 Hpool Hpages Halloc Hfuel0 Hlk0
              r m' pool' E)
    as (Hlk' & Hframe).
  assert (Hh' : sharedPool h' = pool' /\
                innerMaps h'
                = <[Z.to_nat (shard_of k) :=
                      set_lock m' (ReleaseReadAndWriteAccess (lock m'))]>
                    (innerMaps h)).
  { destruct r; cbn [bind] in Hrun; injection Hrun as _ <-;
      split; reflexivity. }
  destruct Hh' as (Hsp & Him). rewrite Hsp, Him.
  intros i mi Hi.
  apply (linked_lift h (Z.to_nat (shard_of k)) m _ pool' Hl Hm) with (i := i)
    in Hi; [exact Hi | |].
  - rewrite Z2Nat.id by exact Hs0. apply shard_linked_set_lock. exact Hlk'.
  - exact Hframe.
Qed.

Lemma empty_map_linked :
  In NumInnerMaps_T c_powerOfTwoTable -> map_linked empty.
Proof.
  intros HN. split; [apply empty_map_ok; exact HN |].
  intros i m Hi. cbn [innerMaps empty] in Hi.
  apply lookup_replicate in Hi as [-> _].
  constructor.
  - apply NoDup_nil_2.
  - intros p n Hp. inversion Hp.
  - intros j b p n Hb. cbn in Hb. rewrite lookup_nil in Hb. discriminate.
Qed.

(** *** Removal *)

Lemma concat_insert_delete {A : Type} (x : A) (pre post : list A) :
  forall (L : list (list A)) (j : nat),
  L !! j = Some (pre ++ x :: post) ->
  concat L ≡ₚ x :: concat (<[j := pre ++ post]> L).
Proof.
  induction L as [| a L IH]; intros [| j] Hj; cbn in Hj |- *; try discriminate.
  - injection Hj as ->. rewrite <- !app_assoc. cbn [app].
    symmetry. apply Permutation_middle.
  - rewrite (IH j Hj). symmetry. apply Permutation_middle.
Qed.

(** [Erase_Lockless] of a bucket: the first node with the key is unlinked
    and returned; without such a node the bucket is left as it was. *)
Lemma Bucket_Erase_Lockless_spec (pool : Pool) (k : Z) : forall b : Bucket,
  all_live b pool ->
  (exists pre p post n,
     b = pre ++ p :: post /\ load pool p = Some n /\ key n = k /\
     Bucket_Erase_Lockless pool b k = Ok (Some p, pre ++ post))
  \/ ((forall q nq, q ∈ b -> load pool q = Some nq -> key nq <> k) /\
      Bucket_Erase_Lockless pool b k = Ok (None, b)).
Proof.
  induction b as [| c b IH]; intros Hlive.
  - right. split; [intros q nq Hq; inversion Hq | reflexivity].
  - destruct (Hlive c) as [n Hn]; [left |].
    cbn [Bucket_Erase_Lockless]. rewrite Hn. cbn [of_option bind].
    destruct (Compare (key n) k =? 0) eqn:Ecmp.
    + left. exists [], c, b, n. apply Compare_eq in Ecmp. auto.
    + destruct IH as [(pre & p & post & np & -> & Hp & Hk & Hrun) | [Hnone Hrun]].
      { intros q Hq. apply Hlive. right. exact Hq. }
      * left. exists (c :: pre), p, post, np. rewrite Hrun. cbn [bind app]. auto.
      * right. rewrite Hrun. cbn [bind]. split; [| reflexivity].
        intros q nq Hq Hnq. apply elem_of_cons in Hq as [-> | Hq].
        -- assert (nq = n) by congruence. subst nq. intros E.
           apply Compare_eq in E. congruence.
        -- apply (Hnone q nq Hq Hnq).
Qed.

Lemma shard_wf_same_loads (m : InnerMap) (pool pool' : Pool) :
  shard_wf m pool ->
  (forall q, q ∈ shard_nodes m -> load pool' q = load pool q) ->
  shard_wf m pool'.
Proof.
  intros [Hlen Hroute Hkeys] Hsame. constructor.
  - exact Hlen.
  - intros i b p Hb Hp. destruct (Hroute i b p Hb Hp) as (n & Hn & Hg).
    exists n. split; [| exact Hg]. rewrite Hsame; [exact Hn |].
    apply elem_of_concat. exists i, b. auto.
  - intros p q n n' Hp Hq Hn Hn'. rewrite (Hsame p Hp) in Hn.
    rewrite (Hsame q Hq) in Hn'. apply (Hkeys p q n n' Hp Hq Hn Hn').
Qed.

(** The bucket that links a node the shard holds under key [k]. *)
Lemma holds_bucket (m : InnerMap) (pool : Pool) (k : Z) (p : PP.objptr)
  (n : Node) :
  shard_wf m pool -> In (numBuckets m) c_powerOfTwoTable ->
  holds m pool k p n ->
  let idx := GetIndex m (Hash64 k) in
  0 <= idx < numBuckets m /\
  exists b, bucket_at (buckets m) idx = Ok b /\
            buckets m !! Z.to_nat idx = Some b /\ p ∈ b.
Proof.
  intros Hwf Hin (Hp & Hn & Hk) idx.
  pose proof (GetIndex_of_range (numBuckets m) (Hash64 k) Hin) as Hidx.
  change (GetIndex_of (numBuckets m) (Hash64 k)) with idx in Hidx.
  split; [exact Hidx |].
  destruct (bucket_at_range (buckets m) idx) as (b & Hb & Hb').
  { rewrite (swf_length m pool Hwf). exact Hidx. }
  exists b. split; [exact Hb |]. split; [exact Hb' |].
  apply elem_of_concat in Hp as (j & b0 & Hj & Hpb).
  destruct (swf_routing m pool Hwf j b0 p Hj Hpb) as (n' & Hn' & Hg).
  assert (n' = n) by congruence. subst n'. rewrite Hk in Hg.
  fold idx in Hg. rewrite Hg, Nat2Z.id in Hb'.
  assert (Heq : Some b0 = Some b) by (rewrite <- Hj; exact Hb').
  injection Heq as ->. exact Hpb.
Qed.

(** [Remove_Lockless] of a key the shard does not hold. *)
Lemma InnerMap_Remove_Lockless_absent (k : Z) (m : InnerMap) (pool : Pool) :
  shard_wf m pool -> In (numBuckets m) c_powerOfTwoTable ->
  (forall p n, ~ holds m pool k p n) ->
  InnerMap_Remove_Lockless (Hash64 k) k m pool = Ok (false, m, pool).
Proof.
  intros Hwf Hin Hnone.
  pose proof (GetIndex_of_range (numBuckets m) (Hash64 k) Hin) as Hidx.
  destruct (bucket_at_range (buckets m) (GetIndex m (Hash64 k)))
    as (b & Hb & Hb').
  { rewrite (swf_length m pool Hwf). exact Hidx. }
  unfold InnerMap_Remove_Lockless. rewrite Hb. cbn [bind].
  assert (Hlive : all_live b pool).
  { intros q Hq. destruct (swf_routing m pool Hwf _ b q Hb' Hq) as (n & Hn & _).
    exists n. exact Hn. }
  destruct (Bucket_Erase_Lockless_spec pool k b Hlive)
    as [(pre & p & post & n & -> & Hp & Hk & _) | [_ Hrun]].
  - exfalso. apply (Hnone p n). split; [| auto].
    apply elem_of_concat. exists (Z.to_nat (GetIndex m (Hash64 k))), (pre ++ p :: post).
    split; [exact Hb' |]. apply elem_of_app. right. left.
  - rewrite Hrun. reflexivity.
Qed.

(** [Remove_Lockless] of a key the shard holds: the node is unlinked and
    released, and the count goes down by one. *)
Lemma InnerMap_Remove_Lockless_present (i : Z) (k : Z) (m : InnerMap)
  (pool : Pool) (l : list Z) (p : PP.objptr) (n : Node) :
  shard_wf m pool -> In (numBuckets m) c_powerOfTwoTable -> pool_ok pool l ->
  shard_linked i m pool -> holds m pool k p n ->
  exists m' pool' l',
    InnerMap_Remove_Lockless (Hash64 k) k m pool = Ok (true, m', pool') /\
    shard_wf m' pool' /\ shard_linked i m' pool' /\ pool_ok pool' l' /\
    numBuckets m' = numBuckets m /\ lock m' = lock m /\
    count m' = wrap32 (count m - 1) /\
    PP.count pool' = wrap32 (PP.count pool - 1) /\
    (forall q, load pool' q = if decide (q = p) then None else load pool q) /\
    (forall q, q ∈ shard_nodes m' <-> q ∈ shard_nodes m /\ q <> p).
Proof.
  intros Hwf Hin Hok [Hnd Hsh Hst] Hh.
  destruct (holds_bucket m pool k p n Hwf Hin Hh) as (Hidx & b & Hb & Hb' & Hpb).
  set (idx := GetIndex m (Hash64 k)) in *.
  pose proof Hh as (Hp & Hn & Hk).
  assert (Hlive : all_live b pool).
  { intros q Hq. destruct (swf_routing m pool Hwf _ b q Hb' Hq) as (nq & Hnq & _).
    exists nq. exact Hnq. }
  destruct (Bucket_Erase_Lockless_spec pool k b Hlive)
    as [(pre & p' & post & n' & -> & Hp' & Hk' & Hrun) | [Hnone _]];
    [| exfalso; apply (Hnone p n Hpb Hn Hk)].
  assert (p' = p).
  { apply (swf_keys m pool Hwf p' p n' n); try assumption; [| congruence].
    apply elem_of_concat. exists (Z.to_nat idx), (pre ++ p' :: post).
    split; [exact Hb' |]. apply elem_of_app. right. left. }
  subst p'. assert (n' = n) by congruence. subst n'. clear Hp' Hk'.
  pose proof (Hst _ _ p n Hb' Hpb Hn) as Hstamp.
  rewrite Z2Nat.id in Hstamp by lia.
  assert (Hnot : (bucket n =? c_reassigningBucket) = false).
  { apply Z.eqb_neq. destruct (table_pow2 _ Hin) as (e & He & Hpow).
    assert (2 ^ e <= 2 ^ 31) by (apply Z.pow_le_mono_r; lia).
    unfold c_reassigningBucket. lia. }
  destruct (PP.Release_live PageSize_T c_bitIndexSize sizeofNode NewAligned
              sizeofNode_pos c_bitIndexSize_pow2 PageSize_T_pos
              PageSize_T_multiple pool l p n Hok Hn)
    as (pool' & l' & _ & _ & Hrel & Hok' & _ & Hload' & Hcount' & _).
  set (m' := set_count
               (set_buckets m (<[Z.to_nat idx := pre ++ post]> (buckets m)))
               (wrap32 (count m - 1))).
  assert (Hperm : shard_nodes m ≡ₚ p :: shard_nodes m').
  { unfold shard_nodes, m'. cbn [buckets set_buckets set_count].
    apply concat_insert_delete. exact Hb'. }
  assert (Hnd' : NoDup (p :: shard_nodes m')) by (rewrite <- Hperm; exact Hnd).
  apply NoDup_cons in Hnd' as [Hpn Hnd'].
  assert (Hnodes : forall q, q ∈ shard_nodes m' <-> q ∈ shard_nodes m /\ q <> p).
  { intros q. rewrite Hperm. split.
    - intros Hq. split; [right; exact Hq |]. intros ->. contradiction.
    - intros [Hq Hne]. apply elem_of_cons in Hq as [-> | Hq];
        [contradiction | exact Hq]. }
  assert (Hsame : forall q, q ∈ shard_nodes m' -> load pool' q = load pool q).
  { intros q Hq. rewrite Hload'. apply Hnodes in Hq as [_ Hne].
    rewrite decide_False by exact Hne. reflexivity. }
  assert (Hsub : forall j b' q, buckets m' !! j = Some b' -> q ∈ b' ->
            exists b0, buckets m !! j = Some b0 /\ q ∈ b0).
  { intros j b' q Hj Hq. unfold m' in Hj. cbn [buckets set_buckets set_count] in Hj.
    destruct (decide (j = Z.to_nat idx)) as [-> | Hne].
    - rewrite list_lookup_insert_eq in Hj
        by (apply lookup_lt_Some in Hb'; exact Hb').
      injection Hj as <-. exists (pre ++ p :: post). split; [exact Hb' |].
      apply elem_of_app in Hq as [Hq | Hq]; apply elem_of_app;
        [left; exact Hq | right; right; exact Hq].
    - rewrite list_lookup_insert_ne in Hj by congruence.
      exists b'. auto. }
  exists m', pool', l'.
  split.
  { unfold InnerMap_Remove_Lockless. fold idx. rewrite Hb. cbn [bind].
    rewrite Hrun. cbn [bind]. unfold release_removed. rewrite Hn.
    cbn [of_option bind]. rewrite Hnot. cbn [negb]. rewrite Hrel.
    cbn [bind]. reflexivity. }
  split.
  { constructor.
    - unfold m'. cbn [buckets set_buckets set_count numBuckets].
      rewrite length_insert. apply (swf_length m pool Hwf).
    - intros j b' q Hj Hq.
      assert (Hqn : q ∈ shard_nodes m')
        by (apply elem_of_concat; exists j, b'; auto).
      destruct (Hsub j b' q Hj Hq) as (b0 & Hj0 & Hq0).
      destruct (swf_routing m pool Hwf j b0 q Hj0 Hq0) as (nq & Hnq & Hg).
      exists nq. split; [rewrite (Hsame q Hqn); exact Hnq | exact Hg].
    - intros q1 q2 n1 n2 H1 H2 Hn1 Hn2.
      rewrite (Hsame q1 H1) in Hn1. rewrite (Hsame q2 H2) in Hn2.
      apply Hnodes in H1 as [H1 _]. apply Hnodes in H2 as [H2 _].
      apply (swf_keys m pool Hwf q1 q2 n1 n2 H1 H2 Hn1 Hn2). }
  split.
  { constructor.
    - exact Hnd'.
    - intros q nq Hq Hnq. rewrite (Hsame q Hq) in Hnq.
      apply Hnodes in Hq as [Hq _]. apply (Hsh q nq Hq Hnq).
    - intros j b' q nq Hj Hq Hnq.
      assert (Hqn : q ∈ shard_nodes m')
        by (apply elem_of_concat; exists j, b'; auto).
      rewrite (Hsame q Hqn) in Hnq.
      destruct (Hsub j b' q Hj Hq) as (b0 & Hj0 & Hq0).
      apply (Hst j b0 q nq Hj0 Hq0 Hnq). }
  split; [exact Hok' |]. split; [reflexivity |]. split; [reflexivity |].
  split; [reflexivity |]. split; [exact Hcount' |].
  split; [exact Hload' | exact Hnodes].
Qed.

(** From a shard to the map: a call on the shard of key [k] that leaves
    the nodes outside that shard as they are keeps the map's links; the
    other shards hold what they held. *)
Lemma shard_call_lift (h : HashMap) (k : Z) (m m' : InnerMap) (pool' : Pool)
  (c : Z) :
  map_linked h -> innerMaps h !! Z.to_nat (shard_of k) = Some m ->
  shard_wf m' pool' -> shard_sized m' -> lock m' = 0 ->
  shard_linked (shard_of k) m' pool' ->
  (exists l, pool_ok pool' l) ->
  (forall q n, q ∉ shard_nodes m -> load (sharedPool h) q = Some n ->
     load pool' q = Some n) ->
  map_linked (set_totalCount (update h (shard_of k) m' pool') c) /\
  (forall k0 v0,
     contains (set_totalCount (update h (shard_of k) m' pool') c) k0 v0 <->
     if decide (shard_of k0 = shard_of k)
     then holds_value m' pool' k0 v0 else contains h k0 v0).
Proof.
  intros Hl Hm Hwf' Hsz' Hlock' Hlk' Hpool' Hframe.
  pose proof (mlk_ok h Hl) as Hok.
  pose proof (shard_of_nonneg k) as Hs0.
  assert (Hidx : (Z.to_nat (shard_of k) < length (innerMaps h))%nat)
    by (apply lookup_lt_Some in Hm; exact Hm).
  assert (Hother : forall i mi, i <> Z.to_nat (shard_of k) ->
            innerMaps h !! i = Some mi ->
            forall q, q ∈ shard_nodes mi ->
              load pool' q = load (sharedPool h) q).
  { intros i mi Hne Hi q Hq.
    destruct (mok_shard h Hok i mi Hi) as (Hwfi & _).
    destruct (shard_wf_all_live mi _ Hwfi q Hq) as [n Hn].
    rewrite Hn. apply Hframe; [| exact Hn].
    intros Hqs. apply Hne.
    apply (map_linked_disjoint h i _ mi m q Hl Hi Hm Hq Hqs). }
  split; [split |].
  - constructor; cbn [sharedPool innerMaps set_totalCount update].
    + exact Hpool'.
    + apply (mok_numInnerMaps h Hok).
    + rewrite length_insert. apply (mok_length h Hok).
    + intros i mi Hi.
      destruct (decide (i = Z.to_nat (shard_of k))) as [-> | Hne].
      * rewrite list_lookup_insert_eq in Hi by exact Hidx.
        injection Hi as <-. auto.
      * rewrite list_lookup_insert_ne in Hi by congruence.
        destruct (mok_shard h Hok i mi Hi) as (Hwfi & Hszi & Hlocki).
        split; [| split; [exact Hszi | exact Hlocki]].
        apply (shard_wf_same_loads mi (sharedPool h) pool' Hwfi).
        apply (Hother i mi Hne Hi).
  - cbn [sharedPool innerMaps set_totalCount update]. intros i mi Hi.
    apply (linked_lift h (Z.to_nat (shard_of k)) m m' pool' Hl Hm) with (i := i);
      [| exact Hframe | exact Hi].
    rewrite Z2Nat.id by exact Hs0. exact Hlk'.
  - intros k0 v0. unfold contains.
    cbn [sharedPool innerMaps set_totalCount update].
    destruct (decide (shard_of k0 = shard_of k)) as [-> | Hne].
    + rewrite list_lookup_insert_eq by exact Hidx. split.
      * intros (mm & Hmm & Hv). injection Hmm as <-. exact Hv.
      * intros Hv. exists m'. split; [reflexivity | exact Hv].
    + pose proof (shard_of_nonneg k0).
      assert (Hne' : Z.to_nat (shard_of k0) <> Z.to_nat (shard_of k)) by lia.
      rewrite list_lookup_insert_ne by congruence.
      split; intros (mm & Hmm & q & n & (Hq & Hn & Hk) & Hv); exists mm;
        (split; [exact Hmm |]); exists q, n; (split; [| exact Hv]);
        (split; [exact Hq | split; [| exact Hk]]).
      * rewrite <- (Hother _ mm Hne' Hmm q Hq). exact Hn.
      * rewrite (Hother _ mm Hne' Hmm q Hq). exact Hn.
Qed.

(** What a shard holds once the node of key [k] is unlinked and released. *)
Lemma removed_contents (m m' : InnerMap) (pool pool' : Pool) (k : Z)
  (p : PP.objptr) (n : Node) :
  shard_wf m pool -> holds m pool k p n ->
  (forall q, load pool' q = if decide (q = p) then None else load pool q) ->
  (forall q, q ∈ shard_nodes m' <-> q ∈ shard_nodes m /\ q <> p) ->
  forall k0 v0,
    holds_value m' pool' k0 v0 <-> k0 <> k /\ holds_value m pool k0 v0.
Proof.
  intros Hwf Hh Hload Hnodes k0 v0. split.
  - intros (q & nq & (Hq & Hnq & Hk) & Hv).
    apply Hnodes in Hq as [Hq Hne]. rewrite Hload in Hnq.
    rewrite decide_False in Hnq by exact Hne.
    split.
    + intros ->.
      destruct (holds_unique m pool k q p nq n Hwf) as [E _];
        [split; auto | exact Hh | contradiction].
    + exists q, nq. split; [split; auto | exact Hv].
  - intros (Hk0 & q & nq & (Hq & Hnq & Hk) & Hv).
    assert (Hne : q <> p).
    { intros ->. destruct Hh as (_ & Hn & Hkn). congruence. }
    exists q, nq. split; [| exact Hv]. split; [apply Hnodes; auto |].
    split; [| exact Hk]. rewrite Hload, decide_False by exact Hne. exact Hnq.
Qed.

(** [erase] of a key the map holds. *)
Lemma erase_present (h : HashMap) (k : Z) (v : Value_T) :
  map_linked h -> contains h k v ->
  exists h',
    erase k h = Ok (true, h') /\ map_linked h' /\
    (forall k0 v0, contains h' k0 v0 <-> k0 <> k /\ contains h k0 v0) /\
    size h' = wrap32 (size h - 1) /\
    PP.Size (sharedPool h') = wrap32 (PP.Size (sharedPool h) - 1).
Proof.
  intros Hl (m & Hm & p & n & Hh & Hv).
  pose proof (mlk_ok h Hl) as Hok.
  destruct (mok_shard h Hok _ m Hm) as (Hwf & Hsz & Hlock).
  destruct (mok_pool h Hok) as [l Hpool].
  pose proof (holds_sized m _ k p n Hwf Hsz Hh) as Hin.
  pose proof (shard_of_nonneg k) as Hs0.
  pose proof (mlk_shard h Hl _ m Hm) as Hlk.
  rewrite Z2Nat.id in Hlk by exact Hs0.
  destruct (InnerMap_Remove_Lockless_present (shard_of k) k (set_lock m 65536)
              (sharedPool h) l p n)
    as (m' & pool' & l' & Hrun & Hwf' & Hlk' & Hok' & Hnb & Hlock' & Hcount
        & Hpc & Hload' & Hnodes); try assumption.
  { apply shard_wf_set_lock. exact Hwf. }
  { apply shard_linked_set_lock. exact Hlk. }
  destruct (shard_call_lift h k m (set_lock m' 0) pool'
              (wrap32 (totalCount h - 1)) Hl Hm)
    as (Hl' & Hcont).
  { apply shard_wf_set_lock. exact Hwf'. }
  { right. cbn [numBuckets set_lock]. rewrite Hnb. exact Hin. }
  { reflexivity. }
  { apply shard_linked_set_lock. exact Hlk'. }
  { exists l'. exact Hok'. }
  { intros q nq Hq Hnq. rewrite Hload'.
    destruct (decide (q = p)) as [-> | _]; [| exact Hnq].
    exfalso. apply Hq. destruct Hh as (Hp & _). exact Hp. }
  eexists. split; [| split; [exact Hl' | split; [| split]]].
  - unfold erase, Remove_Concurrent, Remove_with. fold (shard_of k).
    rewrite (innerMap_at_lookup h k m Hm). cbn [bind].
    unfold InnerMap_Remove_Concurrent, with_write_lock. rewrite Hlock.
    change (AcquireReadAndWriteAccess 0) with (Ok (A := Z) 0x10000).
    cbn [bind]. rewrite Hrun. cbn [bind]. rewrite Hlock'.
    cbn [lock set_lock].
    change (ReleaseReadAndWriteAccess 65536) with 0. reflexivity.
  - intros k0 v0. rewrite Hcont.
    destruct (decide (shard_of k0 = shard_of k)) as [E | Hne].
    + change (holds_value (set_lock m' 0) pool' k0 v0)
        with (holds_value m' pool' k0 v0).
      rewrite (removed_contents (set_lock m 65536) m' (sharedPool h) pool' k p n
                 ltac:(apply shard_wf_set_lock; exact Hwf) Hh Hload' Hnodes).
      unfold contains. rewrite E. split.
      * intros [Hk Hhv]. split; [exact Hk |]. exists m. auto.
      * intros [Hk (mm & Hmm & Hhv)]. split; [exact Hk |].
        rewrite Hm in Hmm. injection Hmm as <-. exact Hhv.
    + split; [| intros [_ H]; exact H].
      intros H. split; [| exact H]. intros ->. contradiction.
  - reflexivity.
  - exact Hpc.
Qed.

(** [erase] of a key the map does not hold, in a shard that has its bucket
    array. *)
Lemma erase_absent (h : HashMap) (k : Z) (m : InnerMap) :
  map_ok h -> innerMaps h !! Z.to_nat (shard_of k) = Some m ->
  In (numBuckets m) c_powerOfTwoTable ->
  (forall v, ~ contains h k v) ->
  erase k h = Ok (false, h) /\ erase_lockless k h = Ok (false, h).
Proof.
  intros Hok Hm Hin Habsent.
  destruct (mok_shard h Hok _ m Hm) as (Hwf & _ & Hlock).
  assert (Hnone : forall p n, ~ holds m (sharedPool h) k p n).
  { intros p n Hh. apply (Habsent (value n)). exists m. split; [exact Hm |].
    exists p, n. auto. }
  split.
  - unfold erase, Remove_Concurrent, Remove_with. fold (shard_of k).
    rewrite (innerMap_at_lookup h k m Hm). cbn [bind].
    unfold InnerMap_Remove_Concurrent, with_write_lock. rewrite Hlock.
    change (AcquireReadAndWriteAccess 0) with (Ok (A := Z) 0x10000).
    cbn [bind].
    rewrite (InnerMap_Remove_Lockless_absent k (set_lock m 65536) (sharedPool h)
               ltac:(apply shard_wf_set_lock; exact Hwf) Hin Hnone).
    cbn [bind lock set_lock].
    change (ReleaseReadAndWriteAccess 65536) with 0.
    replace (set_lock (set_lock m 65536) 0) with m
      by (rewrite <- Hlock; destruct m; reflexivity).
    rewrite (update_same h (shard_of k) m Hm). reflexivity.
  - unfold erase_lockless, Remove_Lockless, Remove_with. fold (shard_of k).
    rewrite (innerMap_at_lookup h k m Hm). cbn [bind].
    rewrite (InnerMap_Remove_Lockless_absent k m (sharedPool h) Hwf Hin Hnone).
    cbn [bind]. rewrite (update_same h (shard_of k) m Hm). reflexivity.
Qed.

(** A key that [find] reports as missing is routed to a shard that has its
    bucket array and does not hold it. *)
Lemma find_None_absent (h h0 : HashMap) (k : Z) :
  map_ok h -> find k h = Ok (None, h0) ->
  (forall v, ~ contains h k v) /\
  exists m, innerMaps h !! Z.to_nat (shard_of k) = Some m /\
            In (numBuckets m) c_powerOfTwoTable.
Proof.
  intros Hok Hf. split.
  - intros v Hv. rewrite (contains_find h k v Hok Hv) in Hf. discriminate.
  - destruct (map_ok_shard h k Hok) as [m Hm].
    destruct (mok_shard h Hok _ m Hm) as (Hwf & Hsz & Hlock).
    exists m. split; [exact Hm |].
    destruct Hsz as [(Hn0 & _) | Hsz]; [| exact Hsz].
    exfalso. rewrite (find_shard h k m Hm Hlock) in Hf.
    unfold InnerMap_Find_Lockless in Hf.
    pose proof (swf_length m _ Hwf) as Hlen. rewrite Hn0 in Hlen.
    destruct (buckets m); [| cbn in Hlen; lia].
    unfold bucket_at in Hf. rewrite zlookup_nil in Hf. discriminate.
Qed.

(** X22.  On a linked map [erase] of a key the map holds returns true: the
    key is held no more and [find] reports it missing, every other key is
    held with the value it had, [size] and the pool's [Size] are one lower
    (the node went back to the pool), and the map is linked again. *)
Theorem erase_removes_entry (h : HashMap) (k : Z) (v : Value_T) :
  map_linked h -> contains h k v ->
  exists h',
    erase k h = Ok (true, h') /\
    find k h' = Ok (None, h') /\
    (forall k0 v0, contains h' k0 v0 <-> k0 <> k /\ contains h k0 v0) /\
    size h' = wrap32 (size h - 1) /\
    PP.Size (sharedPool h') = wrap32 (PP.Size (sharedPool h) - 1) /\
    map_linked h'.
Proof.
  intros Hl Hv.
  destruct (erase_present h k v Hl Hv) as (h' & Hrun & Hl' & Hcont & Hsize & Hpc).
  exists h'. split; [exact Hrun |].
  split; [| split; [exact Hcont | split; [exact Hsize | split; [exact Hpc | exact Hl']]]].
  pose proof (mlk_ok h' Hl') as Hok'.
  destruct (map_ok_shard h' k Hok') as [m' Hm'].
  destruct (mok_shard h' Hok' _ m' Hm') as (Hwf' & Hsz' & Hlock').
  assert (Hin' : In (numBuckets m') c_powerOfTwoTable).
  { destruct Hv as (m & Hm & p & n & Hh & _).
    pose proof (mlk_ok h Hl) as Hok.
    destruct (mok_shard h Hok _ m Hm) as (Hwf & Hsz & Hlock).
    pose proof (holds_sized m _ k p n Hwf Hsz Hh) as Hin.
    destruct Hsz' as [(Hn0 & _) | Hsz']; [| exact Hsz'].
    exfalso.
    (* the shard keeps its bucket array through the removal *)
    unfold erase, Remove_Concurrent, Remove_with in Hrun.
    fold (shard_of k) in Hrun.
    rewrite (innerMap_at_lookup h k m Hm) in Hrun. cbn [bind] in Hrun.
    unfold InnerMap_Remove_Concurrent, with_write_lock in Hrun.
    rewrite Hlock in Hrun.
    change (AcquireReadAndWriteAccess 0) with (Ok (A := Z) 0x10000) in Hrun.
    cbn [bind] in Hrun.
    pose proof (mlk_shard h Hl _ m Hm) as Hlk.
    destruct (mok_pool h Hok) as [l Hpool].
    destruct (InnerMap_Remove_Lockless_present _ k (set_lock m 65536)
                (sharedPool h) l p n
                ltac:(apply shard_wf_set_lock; exact Hwf) Hin Hpool
                ltac:(apply shard_linked_set_lock; exact Hlk) Hh)
      as (m1 & pool1 & l1 & Hrun1 & _ & _ & _ & Hnb & _).
    rewrite Hrun1 in Hrun. cbn [bind] in Hrun. injection Hrun as <-.
    cbn [innerMaps set_totalCount update] in Hm'.
    rewrite list_lookup_insert_eq in Hm'
      by (apply lookup_lt_Some in Hm; exact Hm).
    injection Hm' as <-. cbn [numBuckets set_lock] in Hn0.
    rewrite Hnb in Hn0. cbn [numBuckets set_lock] in Hn0.
    rewrite Hn0 in Hin. destruct (table_pow2 0 Hin) as (e & He & Hpow).
    assert (0 < 2 ^ e) by (apply Z.pow_pos_nonneg; lia). lia. }
  apply (find_not_held h' k m' Hm' Hlock' Hwf' Hin').
  intros p n Hh.
  assert (Hc : contains h' k (value n)).
  { exists m'. split; [exact Hm' |]. exists p, n. auto. }
  apply Hcont in Hc as [Hne _]. contradiction.
Qed.

(** X23.  On a map between calls, a key that [find] reports as missing is
    refused by [erase] and [erase_lockless]: they return false and leave
    the map as it was. *)
Theorem erase_missing_key (h h0 : HashMap) (k : Z) :
  map_ok h -> find k h = Ok (None, h0) ->
  erase k h = Ok (false, h) /\ erase_lockless k h = Ok (false, h).
Proof.
  intros Hok Hf.
  destruct (find_None_absent h h0 k Hok Hf) as (Habsent & m & Hm & Hin).
  apply (erase_absent h k m Hok Hm Hin Habsent).
Qed.

(** X24.  On a linked map that does not hold key [k], [insert] of [k]
    followed by [erase] of [k] gives back what the map held: both calls
    return true, every key is held with the value it had before, and
    [size] and the pool's [Size] are what they were. *)
Theorem insert_then_erase_restores (fuel : nat) (k : Z) (v : Value_T)
  (h : HashMap) :
  map_linked h ->
  0 <= size h < 2 ^ 32 -> 0 <= PP.Size (sharedPool h) < 2 ^ 32 ->
  PP.numPages (sharedPool h) < PP.c_MaxPages ->
  NewAligned (PP.numPages (sharedPool h)) = true ->
  (Z.to_nat (PP.numPages (sharedPool h)) + 2 <= fuel)%nat ->
  (forall v0, ~ contains h k v0) ->
  exists h1 h2,
    insert fuel k v h = Ok (true, h1) /\
    erase k h1 = Ok (true, h2) /\
    (forall k0 v0, contains h2 k0 v0 <-> contains h k0 v0) /\
    size h2 = size h /\
    PP.Size (sharedPool h2) = PP.Size (sharedPool h) /\
    map_linked h2.
Proof.
  intros Hl Hsize Hpsize Hmax Halloc Hfuel Habsent.
  pose proof (mlk_ok h Hl) as Hok.
  destruct (insert_absent fuel k v h Hok Hmax Halloc Hfuel Habsent)
    as (h1 & Hins & Hok1 & Hcont1 & Hsize1 & Hpc1).
  pose proof (insert_linked fuel k v h Hl Hmax Halloc Hfuel true h1 Hins) as Hl1.
  assert (Hv1 : contains h1 k v) by (apply Hcont1; left; auto).
  destruct (erase_present h1 k v Hl1 Hv1)
    as (h2 & Hers & Hl2 & Hcont2 & Hsize2 & Hpc2).
  exists h1, h2. split; [exact Hins |]. split; [exact Hers |].
  split; [| split; [| split; [| exact Hl2]]].
  - intros k0 v0. rewrite Hcont2, Hcont1. split.
    + intros [Hne [[-> _] | H]]; [contradiction | exact H].
    + intros H. split; [| right; exact H].
      intros ->. apply (Habsent v0 H).
  - rewrite Hsize2, Hsize1. unfold wrap32. rewrite Zminus_mod_idemp_l.
    replace (size h + 1 - 1) with (size h) by lia.
    apply Z.mod_small. exact Hsize.
  - rewrite Hpc2, Hpc1. unfold wrap32. rewrite Zminus_mod_idemp_l.
    replace (PP.Size (sharedPool h) + 1 - 1) with (PP.Size (sharedPool h)) by lia.
    apply Z.mod_small. exact Hpsize.
Qed.

(** X25.  The links of a map are an invariant of its construction and of
    [insert] and [erase]: in the freshly constructed map, and after every
    [insert] or [erase] that returns on a linked map, no node is linked
    twice, every node is linked in the shard its key routes to, and the
    bucket that links a node is the one stamped on it. *)
Theorem links_are_invariant :
  In NumInnerMaps_T c_powerOfTwoTable ->
  map_linked empty /\
  (forall fuel k v h b h',
     map_linked h ->
     PP.numPages (sharedPool h) < PP.c_MaxPages ->
     NewAligned (PP.numPages (sharedPool h)) = true ->
     (Z.to_nat (PP.numPages (sharedPool h)) + 2 <= fuel)%nat ->
     insert fuel k v h = Ok (b, h') -> map_linked h') /\
  (forall k h b h', map_linked h -> erase k h = Ok (b, h') -> map_linked h').
Proof.
  intros HN. split; [apply empty_map_linked; exact HN |]. split.
  - intros fuel k v h b h' Hl Hmax Halloc Hfuel Hrun.
    apply (insert_linked fuel k v h Hl Hmax Halloc Hfuel b h' Hrun).
  - intros k h b h' Hl Hrun. pose proof (mlk_ok h Hl) as Hok.
    destruct (contains_dec h k Hok) as [[v Hv] | Habsent].
    + destruct (erase_present h k v Hl Hv) as (h'' & Hrun' & Hl' & _).
      rewrite Hrun in Hrun'. injection Hrun' as _ ->. exact Hl'.
    + destruct (map_ok_shard h k Hok) as [m Hm].
      destruct (mok_shard h Hok _ m Hm) as (Hwf & Hsz & Hlock).
      destruct Hsz as [(Hn0 & _) | Hin].
      * exfalso. pose proof (swf_length m _ Hwf) as Hlen. rewrite Hn0 in Hlen.
        assert (Hb : buckets m = []) by (destruct (buckets m); [reflexivity | cbn in Hlen; lia]).
        unfold erase, Remove_Concurrent, Remove_with in Hrun.
        fold (shard_of k) in Hrun.
        rewrite (innerMap_at_lookup h k m Hm) in Hrun. cbn [bind] in Hrun.
        unfold InnerMap_Remove_Concurrent, with_write_lock in Hrun.
        rewrite Hlock in Hrun.
        change (AcquireReadAndWriteAccess 0) with (Ok (A := Z) 0x10000) in Hrun.
        cbn [bind] in Hrun. unfold InnerMap_Remove_Lockless, bucket_at in Hrun.
        cbn [buckets set_lock] in Hrun. rewrite Hb, zlookup_nil in Hrun.
        discriminate.
      * destruct (erase_absent h k m Hok Hm Hin Habsent) as [Hrun' _].
        rewrite Hrun in Hrun'. injection Hrun' as _ ->. exact Hl.
Qed.

(** *** Clearing *)

Lemma Clear_pool (P : Pool) (l : list Z) : pool_ok P l -> PP.Clear P = PP.empty.
Proof.
  intros [Hwf _]. unfold PP.Clear, PP.empty.
  rewrite (PP.wf_lock _ _ Hwf). reflexivity.
Qed.

Lemma load_empty_pool (q : PP.objptr) : load (PP.empty : Pool) q = None.
Proof.
  unfold PP.load, PP.page_at. cbn [PP.pPageList PP.empty].
  rewrite zlookup_nil. reflexivity.
Qed.

Lemma Reset_all (bs : list Bucket) :
  map Bucket_Reset_Lockless bs = replicate (length bs) ([] : Bucket).
Proof. induction bs as [| b bs IH]; cbn; [| rewrite IH]; reflexivity. Qed.

Lemma InnerMap_Clear_Lockless_buckets (m : InnerMap) :
  Z.of_nat (length (buckets m)) = numBuckets m ->
  buckets (InnerMap_Clear_Lockless m)
  = replicate (length (buckets m)) ([] : Bucket).
Proof.
  intros Hlen. unfold InnerMap_Clear_Lockless. cbn [buckets].
  rewrite take_ge, drop_ge by lia. rewrite app_nil_r. apply Reset_all.
Qed.

Lemma cleared_shard (i : Z) (m : InnerMap) (pool pool' : Pool) :
  shard_wf m pool -> shard_sized m ->
  shard_wf (InnerMap_Clear_Lockless m) pool' /\
  shard_sized (InnerMap_Clear_Lockless m) /\
  shard_linked i (InnerMap_Clear_Lockless m) pool' /\
  shard_nodes (InnerMap_Clear_Lockless m) = [].
Proof.
  intros Hwf Hsz. pose proof (swf_length m pool Hwf) as Hlen.
  pose proof (InnerMap_Clear_Lockless_buckets m Hlen) as Hb.
  assert (Hnodes : shard_nodes (InnerMap_Clear_Lockless m) = []).
  { unfold shard_nodes. rewrite Hb. apply concat_replicate_nil. }
  assert (Hnil : forall j b, buckets (InnerMap_Clear_Lockless m) !! j = Some b ->
                   b = []).
  { intros j b Hj. rewrite Hb in Hj. apply lookup_replicate in Hj as [-> _].
    reflexivity. }
  split; [| split; [| split; [| exact Hnodes]]].
  - constructor.
    + rewrite Hb, length_replicate. exact Hlen.
    + intros j b p Hj Hp. rewrite (Hnil j b Hj) in Hp. inversion Hp.
    + intros p q n n' Hp. rewrite Hnodes in Hp. inversion Hp.
  - destruct Hsz as [(Hn0 & _ & Hf0) | Hin]; [left | right; exact Hin].
    cbn [InnerMap_Clear_Lockless numBuckets count fillCapacity]. auto.
  - constructor.
    + rewrite Hnodes. apply NoDup_nil_2.
    + intros p n Hp. rewrite Hnodes in Hp. inversion Hp.
    + intros j b p n Hj Hp. rewrite (Hnil j b Hj) in Hp. inversion Hp.
Qed.

(** X26.  [Clear_Lockless], which [clear] calls, on a map between calls
    leaves the empty map with its bucket arrays: [size] is zero, the pool
    holds no object and no page, no key is held, every shard keeps its number of
    buckets and its fill capacity with a count of zero, and the map is
    linked, so that it can be filled again.  A key whose [find] returned
    before the call is reported as missing after it. *)
Theorem Clear_Lockless_empties (h : HashMap) :
  map_ok h ->
  map_linked (Clear_Lockless h) /\
  size (Clear_Lockless h) = 0 /\
  PP.Size (sharedPool (Clear_Lockless h)) = 0 /\
  PP.GetCapacity PageSize_T (sharedPool (Clear_Lockless h)) = 0 /\
  (forall q, load (sharedPool (Clear_Lockless h)) q = None) /\
  (forall k v, ~ contains (Clear_Lockless h) k v) /\
  (forall i m, innerMaps h !! i = Some m ->
     exists m', innerMaps (Clear_Lockless h) !! i = Some m' /\
       numBuckets m' = numBuckets m /\ fillCapacity m' = fillCapacity m /\
       count m' = 0) /\
  (forall k r h0, find k h = Ok (r, h0) ->
     find k (Clear_Lockless h) = Ok (None, Clear_Lockless h)).
Proof.
  intros Hok. destruct (mok_pool h Hok) as [l Hpool].
  assert (Hsp : sharedPool (Clear_Lockless h) = PP.empty)
    by (apply (Clear_pool _ l Hpool)).
  assert (Him : innerMaps (Clear_Lockless h)
                = InnerMap_Clear_Lockless <$> innerMaps h) by reflexivity.
  assert (Hshard : forall i m', innerMaps (Clear_Lockless h) !! i = Some m' ->
            exists m, innerMaps h !! i = Some m /\
                      m' = InnerMap_Clear_Lockless m).
  { intros i m' Hi. rewrite Him, list_lookup_fmap in Hi.
    destruct (innerMaps h !! i) as [m |]; [| discriminate].
    injection Hi as <-. exists m. auto. }
  assert (Hnone : forall k v, ~ contains (Clear_Lockless h) k v).
  { intros k v (m' & Hm' & p & n & (Hp & _) & _).
    destruct (Hshard _ m' Hm') as (m & Hm & ->).
    destruct (mok_shard h Hok _ m Hm) as (Hwf & Hsz & _).
    destruct (cleared_shard 0 m (sharedPool h) (sharedPool h) Hwf Hsz)
      as (_ & _ & _ & Hnodes).
    rewrite Hnodes in Hp. inversion Hp. }
  assert (Hok' : map_ok (Clear_Lockless h)).
  { constructor.
    - rewrite Hsp. exists []. apply PP.empty_ok.
    - apply (mok_numInnerMaps h Hok).
    - rewrite Him, length_fmap. apply (mok_length h Hok).
    - intros i m' Hi. destruct (Hshard i m' Hi) as (m & Hm & ->).
      destruct (mok_shard h Hok i m Hm) as (Hwf & Hsz & Hlock).
      destruct (cleared_shard 0 m (sharedPool h) (sharedPool (Clear_Lockless h))
                  Hwf Hsz) as (Hwf' & Hsz' & _).
      split; [exact Hwf' |]. split; [exact Hsz' | exact Hlock]. }
  split; [split; [exact Hok' |] |].
  - intros i m' Hi. destruct (Hshard i m' Hi) as (m & Hm & ->).
    destruct (mok_shard h Hok i m Hm) as (Hwf & Hsz & _).
    apply (cleared_shard _ m (sharedPool h) _ Hwf Hsz).
  - split; [reflexivity |]. split; [rewrite Hsp; reflexivity |].
    split; [rewrite Hsp; reflexivity |].
    split; [intros q; rewrite Hsp; apply load_empty_pool |].
    split; [exact Hnone |]. split.
    + intros i m Hm. exists (InnerMap_Clear_Lockless m).
      rewrite Him, list_lookup_fmap, Hm. auto.
    + intros k r h0 Hf.
      destruct (map_ok_shard h k Hok) as [m Hm].
      destruct (mok_shard h Hok _ m Hm) as (Hwf & Hsz & Hlock).
      assert (Hin : In (numBuckets m) c_powerOfTwoTable).
      { destruct Hsz as [(Hn0 & _) | Hsz]; [| exact Hsz].
        exfalso. rewrite (find_shard h k m Hm Hlock) in Hf.
        unfold InnerMap_Find_Lockless in Hf.
        pose proof (swf_length m _ Hwf) as Hlen. rewrite Hn0 in Hlen.
        destruct (buckets m); [| cbn in Hlen; lia].
        unfold bucket_at in Hf. rewrite zlookup_nil in Hf. discriminate. }
      assert (Hm' : innerMaps (Clear_Lockless h) !! Z.to_nat (shard_of k)
                    = Some (InnerMap_Clear_Lockless m))
        by (rewrite Him, list_lookup_fmap, Hm; reflexivity).
      destruct (mok_shard _ Hok' _ _ Hm') as (Hwf' & _ & Hlock').
      apply (find_not_held _ k _ Hm' Hlock' Hwf' Hin).
      intros p n Hh. apply (Hnone k (value n)).
      exists (InnerMap_Clear_Lockless m). split; [exact Hm' |].
      exists p, n. auto.
Qed.

(** *** Re-keying *)

(** [Find_Concurrent] on an unlocked shard is [Find_Lockless] with the map
    handed back. *)
Lemma Find_Concurrent_Lockless (h : HashMap) (k : Z) (m : InnerMap) :
  innerMaps h !! Z.to_nat (shard_of k) = Some m -> lock m = 0 ->
  Find_Concurrent k h = (do r <- Find_Lockless k h; Ok (r, h)).
Proof.
  intros Hm Hlock. unfold Find_Concurrent, Find_Lockless. fold (shard_of k).
  rewrite (innerMap_at_lookup h k m Hm). cbn [bind].
  unfold InnerMap_Find_Concurrent. rewrite Hlock.
  change (AcquireReadOnlyAccess 0) with (Ok (A := Z) 1). cbn [bind].
  change (ReleaseReadOnlyAccess 1) with 0.
  change (InnerMap_Find_Lockless (Hash64 k) k (set_lock m 1) (sharedPool h))
    with (InnerMap_Find_Lockless (Hash64 k) k m (sharedPool h)).
  replace (set_lock m 0) with m by (rewrite <- Hlock; symmetry; apply set_lock_same).
  destruct (InnerMap_Find_Lockless (Hash64 k) k m (sharedPool h)) as [r | |];
    cbn [bind]; try reflexivity.
  rewrite (update_same h (shard_of k) m Hm). reflexivity.
Qed.

(** [ReKey_Concurrent] by node across shards, the old shard unlocked: as
    [ReKey_Lockless] does, it marks the node and then fails to remove
    it. *)
Lemma ReKey_node_Concurrent_across_shards (fuel : nat) (p : PP.objptr)
  (newKey : Z) (h : HashMap) (l : list Z) (n : Node) (m : InnerMap) :
  pool_ok (sharedPool h) l ->
  load (sharedPool h) p = Some n ->
  shard_of (key n) <> shard_of newKey ->
  innerMaps h !! Z.to_nat (shard_of (key n)) = Some m ->
  lock m = 0 ->
  numBuckets m <= c_reassigningBucket ->
  ReKey_node_Concurrent fuel p newKey h
  = Ok (false,
        update h (shard_of (key n)) m
          (store (sharedPool h) p (set_bucket n c_reassigningBucket))).
Proof.
  intros Hok Hn Hne Hm Hlock Hnb.
  unfold ReKey_node_Concurrent, ReKey_node_with. rewrite Hn. cbn [of_option bind].
  fold (shard_of (key n)). fold (shard_of newKey).
  destruct (Z.eqb_spec (shard_of (key n)) (shard_of newKey)) as [E | _];
    [contradiction |].
  unfold write_bucket. rewrite Hn. cbn [of_option bind].
  rewrite (innerMap_at_lookup h (key n) m Hm). cbn [bind].
  unfold InnerMap_Remove_Concurrent_KeyValuePair, with_write_lock.
  rewrite Hlock.
  change (AcquireReadAndWriteAccess 0) with (Ok (A := Z) 0x10000).
  cbn [bind]. unfold InnerMap_Remove_Lockless_KeyValuePair.
  rewrite (PP.load_store PageSize_T c_bitIndexSize sizeofNode
             sizeofNode_pos PageSize_T_pos (sharedPool h) l p p _ n Hok Hn).
  rewrite decide_True by reflexivity.
  cbn [of_option bind bucket set_bucket numBuckets set_lock].
  destruct (Z.ltb_spec c_reassigningBucket (numBuckets m)) as [Hlt | _]; [lia |].
  cbn [bind lock set_lock].
  change (ReleaseReadAndWriteAccess 65536) with 0.
  replace (set_lock (set_lock m 65536) 0) with m
    by (rewrite <- Hlock; destruct m; reflexivity).
  reflexivity.
Qed.

(** X27.  What [rekey] and [rekey_lockless] refuse.  A key that [find]
    reports as missing: both return false and leave the map as it was.  A
    key the map holds, to be renamed to a key that routes to another shard:
    both return false; the entry stays under its old key, every key is held
    with the value it had, [size] and the pool's [Size] are unchanged and
    the map is well formed; only the node's bucket stamp has changed, to
    [c_reassigningBucket]. *)
Theorem rekey_refusals (fuel : nat) (k newKey : Z) (h : HashMap) :
  map_ok h ->
  (forall h0, find k h = Ok (None, h0) ->
     rekey fuel k newKey h = Ok (false, h) /\
     rekey_lockless fuel k newKey h = Ok (false, h)) /\
  (forall v, contains h k v -> shard_of k <> shard_of newKey ->
     exists h',
       rekey fuel k newKey h = Ok (false, h') /\
       rekey_lockless fuel k newKey h = Ok (false, h') /\
       (forall k0 v0, contains h' k0 v0 <-> contains h k0 v0) /\
       size h' = size h /\
       PP.Size (sharedPool h') = PP.Size (sharedPool h) /\
       map_ok h' /\
       exists p n, Find_Lockless k h' = Ok (Some p) /\
                   load (sharedPool h') p = Some n /\
                   bucket n = c_reassigningBucket).
Proof.
  intros Hok. destruct (map_ok_shard h k Hok) as [m Hm].
  destruct (mok_shard h Hok _ m Hm) as (Hwf & Hsz & Hlock).
  destruct (mok_pool h Hok) as [l Hpool].
  pose proof (Find_Concurrent_Lockless h k m Hm Hlock) as HFc.
  split.
  - intros h0 Hf.
    assert (HFl : Find_Lockless k h = Ok None).
    { rewrite (find_find_lockless h k m Hm Hlock) in Hf.
      unfold find_lockless in Hf.
      destruct (Find_Lockless k h) as [[p |] | |]; cbn [bind] in Hf;
        try discriminate; [| reflexivity].
      destruct (load (sharedPool h) p); cbn [of_option bind] in Hf;
        discriminate. }
    split.
    + unfold rekey, ReKey_Concurrent. rewrite HFc, HFl. reflexivity.
    + unfold rekey_lockless, ReKey_Lockless. rewrite HFl. reflexivity.
  - intros v (m0 & Hm0 & p & n & Hh & Hv) Hne.
    rewrite Hm in Hm0. injection Hm0 as <-.
    pose proof (holds_sized m _ k p n Hwf Hsz Hh) as Hin.
    pose proof Hh as (Hp & Hn & Hk).
    assert (HFl : Find_Lockless k h = Ok (Some p)).
    { unfold Find_Lockless. fold (shard_of k).
      rewrite (innerMap_at_lookup h k m Hm). cbn [bind].
      apply (InnerMap_Find_Lockless_holds m _ k p n Hwf Hin Hh). }
    assert (Hnb : numBuckets m <= c_reassigningBucket).
    { destruct (table_pow2 _ Hin) as (e & He & Hpow).
      assert (2 ^ e <= 2 ^ 31) by (apply Z.pow_le_mono_r; lia).
      unfold c_reassigningBucket. lia. }
    rewrite <- Hk in Hne, Hm.
    set (pool' := store (sharedPool h) p (set_bucket n c_reassigningBucket)).
    set (h' := update h (shard_of (key n)) m pool').
    assert (Hs : same_entries (sharedPool h) pool')
      by (apply (store_bucket_same_entries _ l p n _ Hpool Hn)).
    destruct (PP.store_ok PageSize_T c_bitIndexSize sizeofNode
                sizeofNode_pos PageSize_T_pos (sharedPool h) l p
                (set_bucket n c_reassigningBucket) n Hpool Hn)
      as (Hok1 & Hc1 & _).
    assert (Him : innerMaps h' = innerMaps h).
    { unfold h'. cbn [innerMaps update]. apply list_insert_id. exact Hm. }
    assert (Hcont : forall k0 v0, contains h' k0 v0 <-> contains h k0 v0).
    { intros k0 v0. unfold contains. rewrite Him.
      change (sharedPool h') with pool'.
      split; intros (mm & Hmm & Hhv); exists mm; (split; [exact Hmm |]).
      - apply (holds_value_resized mm mm (sharedPool h) pool' k0 v0 Hs);
          [reflexivity | exact Hhv].
      - apply (holds_value_resized mm mm (sharedPool h) pool' k0 v0 Hs);
          [reflexivity | exact Hhv]. }
    assert (Hok' : map_ok h').
    { constructor.
      - exists l. exact Hok1.
      - apply (mok_numInnerMaps h Hok).
      - rewrite Him. apply (mok_length h Hok).
      - intros i mi Hi. rewrite Him in Hi.
        destruct (mok_shard h Hok i mi Hi) as (Hwfi & Hszi & Hlocki).
        split; [| split; [exact Hszi | exact Hlocki]].
        apply (shard_wf_preserves mi _ pool' Hwfi).
        apply same_entries_preserves. exact Hs. }
    exists h'. split; [| split; [| split; [exact Hcont |]]].
    + unfold rekey, ReKey_Concurrent. rewrite <- Hk in HFc, HFl.
      rewrite Hk in HFc, HFl. rewrite HFc, HFl. cbn [bind].
      apply (ReKey_node_Concurrent_across_shards fuel p newKey h l n m
               Hpool Hn Hne Hm Hlock Hnb).
    + unfold rekey_lockless, ReKey_Lockless. rewrite HFl. cbn [bind].
      apply (ReKey_node_Lockless_across_shards fuel p newKey h l n m
               Hpool Hn Hne Hm Hnb).
    + split; [reflexivity |]. split; [exact Hc1 |]. split; [exact Hok' |].
      exists p, (set_bucket n c_reassigningBucket).
      assert (Hn' : load pool' p = Some (set_bucket n c_reassigningBucket)).
      { unfold pool'.
        rewrite (PP.load_store PageSize_T c_bitIndexSize sizeofNode
                   sizeofNode_pos PageSize_T_pos (sharedPool h) l p p _ n
                   Hpool Hn).
        rewrite decide_True by reflexivity. reflexivity. }
      split; [| split; [exact Hn' | reflexivity]].
      rewrite Hk in Hm.
      assert (Hm' : innerMaps h' !! Z.to_nat (shard_of k) = Some m)
        by (rewrite Him; exact Hm).
      destruct (mok_shard h' Hok' _ m Hm') as (Hwf' & _).
      unfold Find_Lockless. fold (shard_of k).
      rewrite (innerMap_at_lookup h' k m Hm'). cbn [bind].
      apply (InnerMap_Find_Lockless_holds m _ k p
               (set_bucket n c_reassigningBucket) Hwf' Hin).
      split; [exact Hp |]. split; [exact Hn' | exact Hk].
Qed.

(** *** Reserving *)

Lemma shard_linked_same_loads (i : Z) (m : InnerMap) (pool pool' : Pool) :
  shard_linked i m pool ->
  (forall q, q ∈ shard_nodes m -> load pool' q = load pool q) ->
  shard_linked i m pool'.
Proof.
  intros [Hnd Hsh Hst] Hsame. constructor.
  - exact Hnd.
  - intros p n Hp Hn. rewrite (Hsame p Hp) in Hn. apply (Hsh p n Hp Hn).
  - intros j b p n Hb Hp Hn.
    assert (Hpn : p ∈ shard_nodes m)
      by (apply elem_of_concat; exists j, b; auto).
    rewrite (Hsame p Hpn) in Hn. apply (Hst j b p n Hb Hp Hn).
Qed.

(** [Resize] keeps the shard's links. *)
Lemma Resize_linked (i : Z) (newN : Z) (m m1 : InnerMap) (pool pool1 : Pool)
  (l : list Z) :
  In newN c_powerOfTwoTable ->
  shard_wf m pool -> pool_ok pool l -> shard_linked i m pool ->
  Resize newN m pool = Ok (m1, pool1) ->
  shard_linked i m1 pool1.
Proof.
  intros HnewN Hwf Hok [Hnd Hsh Hst] Hrun.
  destruct (Resize_spec newN m pool l HnewN Hwf Hok)
    as (m1' & pool1' & Hrun' & _ & _ & Hs1 & _ & _ & Hperm & Hrel & _).
  rewrite Hrun in Hrun'. injection Hrun' as <- <-.
  constructor.
  - rewrite Hperm. exact Hnd.
  - intros p n' Hp Hn'. rewrite Hperm in Hp.
    destruct (same_entries_load_inv pool pool1 p n' Hs1 Hn')
      as (n & Hn & Hk & _).
    rewrite Hk. apply (Hsh p n Hp Hn).
  - intros j b p n' Hb Hp Hn'.
    destruct (Hrel j b p Hb Hp) as (n & Hn & _ & Hbk).
    assert (n' = n) by congruence. subst n'. exact Hbk.
Qed.

(** The loop of [Reserve]: every shard is resized in turn over the shared
    pool; the shards at positions [off], [off + 1], ... keep their nodes
    and their links. *)
Lemma Resize_shards_spec (newN : Z) (l : list Z) :
  In newN c_powerOfTwoTable ->
  forall (ms : list InnerMap) (pool : Pool) (off : nat),
  pool_ok pool l ->
  (forall i m, ms !! i = Some m ->
     shard_wf m pool /\ lock m = 0 /\
     shard_linked (Z.of_nat (off + i)) m pool) ->
  exists ms' pool',
    Resize_shards newN ms pool = Ok (ms', pool') /\
    pool_ok pool' l /\ same_entries pool pool' /\
    PP.count pool' = PP.count pool /\
    PP.numPages pool' = PP.numPages pool /\
    (forall q, (forall i m, ms !! i = Some m -> q ∉ shard_nodes m) ->
       load pool' q = load pool q) /\
    length ms' = length ms /\
    (forall i m', ms' !! i = Some m' ->
       exists m, ms !! i = Some m /\
         shard_wf m' pool' /\ numBuckets m' = newN /\ lock m' = 0 /\
         shard_linked (Z.of_nat (off + i)) m' pool' /\
         shard_nodes m' ≡ₚ shard_nodes m).
Proof.
  intros HnewN.
  induction ms as [| m ms IH]; intros pool off Hok Hshards.
  - exists [], pool. cbn [Resize_shards].
    split; [reflexivity |]. split; [exact Hok |].
    split; [apply same_entries_refl |]. split; [reflexivity |].
    split; [reflexivity |]. split; [reflexivity |]. split; [reflexivity |].
    intros i m' Hi. rewrite lookup_nil in Hi. discriminate.
  - destruct (Hshards 0%nat m eq_refl) as (Hwf & Hlock & Hlk).
    rewrite Nat.add_0_r in Hlk.
    destruct (Resize_spec newN m pool l HnewN Hwf Hok)
      as (m1 & pool1 & Hrun1 & Hwf1 & Hok1 & Hs1 & Hc1 & Hp1 & Hperm1 & _ & _
          & Hnb1 & _ & Hlock1 & _).
    pose proof (Resize_frame newN m m1 pool pool1 l Hok Hrun1) as Hfr1.
    pose proof (Resize_linked _ newN m m1 pool pool1 l HnewN Hwf Hok Hlk Hrun1)
      as Hlk1.
    (* a node of a later shard is not a node of this one *)
    assert (Hdisj : forall i mi q, ms !! i = Some mi -> q ∈ shard_nodes mi ->
              q ∉ shard_nodes m).
    { intros i mi q Hi Hq Hqm.
      destruct (Hshards (S i) mi Hi) as (Hwfi & _ & Hlki).
      destruct (shard_wf_all_live mi pool Hwfi q Hq) as [n Hn].
      pose proof (slk_shard _ _ _ Hlki q n Hq Hn) as E1.
      pose proof (slk_shard _ _ _ Hlk q n Hqm Hn) as E2. lia. }
    destruct (IH pool1 (S off) Hok1) as
      (ms' & pool' & Hrun & Hok' & Hs' & Hc' & Hp' & Hfr' & Hlen' & Hshards').
    { intros i mi Hi. destruct (Hshards (S i) mi Hi) as (Hwfi & Hlocki & Hlki).
      split; [| split; [exact Hlocki |]].
      - apply (shard_wf_preserves mi pool pool1 Hwfi).
        apply same_entries_preserves. exact Hs1.
      - replace (Z.of_nat (S off + i)) with (Z.of_nat (off + S i)) by lia.
        apply (shard_linked_same_loads _ mi pool pool1 Hlki).
        intros q Hq. apply Hfr1. apply (Hdisj i mi q Hi Hq). }
    exists (m1 :: ms'), pool'. cbn [Resize_shards]. rewrite Hrun1. cbn [bind].
    rewrite Hrun. cbn [bind].
    split; [reflexivity |]. split; [exact Hok' |].
    split; [apply (same_entries_trans pool pool1 pool' Hs1 Hs') |].
    split; [lia |]. split; [lia |]. split; [| split].
    + intros q Hq. rewrite Hfr'.
      * apply Hfr1. apply (Hq 0%nat m eq_refl).
      * intros i mi Hi. apply (Hq (S i) mi Hi).
    + cbn [length]. rewrite Hlen'. reflexivity.
    + intros [| i] m' Hi.
      * cbn in Hi. injection Hi as <-. exists m. split; [reflexivity |].
        rewrite Nat.add_0_r.
        assert (Hsame : forall q, q ∈ shard_nodes m1 ->
                  load pool' q = load pool1 q).
        { intros q Hq. apply Hfr'. intros i mi Hi Hqi.
          rewrite Hperm1 in Hq. apply (Hdisj i mi q Hi Hqi Hq). }
        split; [apply (shard_wf_same_loads m1 pool1 pool' Hwf1 Hsame) |].
        split; [exact Hnb1 |]. split; [congruence |].
        split; [| exact Hperm1].
        apply (shard_linked_same_loads _ m1 pool1 pool' Hlk1 Hsame).
      * cbn in Hi. destruct (Hshards' i m' Hi)
          as (mi & Hmi & Hwfi & Hnbi & Hlocki & Hlki & Hpermi).
        exists mi. split; [exact Hmi |]. split; [exact Hwfi |].
        split; [exact Hnbi |]. split; [exact Hlocki |].
        split; [| exact Hpermi].
        replace (Z.of_nat (off + S i)) with (Z.of_nat (S off + i)) by lia.
        exact Hlki.
Qed.

(** X28.  [Reserve], given memory for the pages it pre-allocates, returns
    on every linked map: each shard gets a bucket array of a power-of-two
    number of buckets, so that [find] returns for every key afterwards,
    also on a map into which nothing was inserted; the map holds exactly
    what it held, [size] and the pool's [Size] are unchanged, the pool's capacity has
    grown by at least [numElements], and the map is linked again. *)
Theorem Reserve_sizes_every_shard (numElements n : Z) (h : HashMap) :
  map_linked h ->
  PageSize_T < 2 ^ 32 ->
  0 <= numElements -> numElements + PageSize_T <= 2 ^ 32 ->
  n = (numElements + PageSize_T - 1) / PageSize_T ->
  (PP.numPages (sharedPool h) + n) * PageSize_T < 2 ^ 32 ->
  PP.numPages (sharedPool h) + n <= PP.c_MaxPages ->
  (forall j, PP.numPages (sharedPool h) <= j < PP.numPages (sharedPool h) + n ->
     NewAligned j = true) ->
  exists h',
    Reserve numElements h = Ok h' /\
    map_linked h' /\
    (forall k v, contains h' k v <-> contains h k v) /\
    size h' = size h /\
    PP.Size (sharedPool h') = PP.Size (sharedPool h) /\
    PP.GetCapacity PageSize_T (sharedPool h) + numElements
      <= PP.GetCapacity PageSize_T (sharedPool h') /\
    (forall i m', innerMaps h' !! i = Some m' ->
       In (numBuckets m') c_powerOfTwoTable) /\
    (forall k, exists r, find k h' = Ok (r, h')).
Proof.
  intros Hl Hpage Hobj Hsmall Hn Hcap Hmax Hnew.
  pose proof (mlk_ok h Hl) as Hok.
  destruct (mok_pool h Hok) as [l Hpool].
  set (newN := GetNextPowerOfTwo
                 (wrap32 (wrap64 (wrap64
                    (wrap32 (wrap32 (wrap32 (numElements * 8) / 7) + 1)
                     + c_numInnerMaps) - 1) / c_numInnerMaps))).
  assert (HnewN : In newN c_powerOfTwoTable) by apply GetNextPowerOfTwo_In.
  destruct (Resize_shards_spec newN l HnewN (innerMaps h) (sharedPool h) 0%nat
              Hpool)
    as (ms' & pool1 & Hrun1 & Hok1 & Hs1 & Hc1 & Hp1 & _ & Hlen1 & Hshards1).
  { intros i m Hi. destruct (mok_shard h Hok i m Hi) as (Hwf & _ & Hlock).
    split; [exact Hwf |]. split; [exact Hlock |].
    apply (mlk_shard h Hl i m Hi). }
  destruct (PP.PreallocateSpace_pages PageSize_T c_bitIndexSize sizeofNode
              NewAligned PageSize_T_pos numElements n pool1 l Hok1 Hpage Hobj
              Hsmall Hn)
    as (pool2 & l2 & Hrun2 & Hok2 & Hload2 & Hc2 & Hp2).
  { rewrite Hp1. exact Hmax. }
  { rewrite Hp1. exact Hnew. }
  set (h' := {| sharedPool := pool2; totalCount := totalCount h;
                innerMaps := ms' |}).
  assert (Hshards2 : forall i m', ms' !! i = Some m' ->
            exists m, innerMaps h !! i = Some m /\
              shard_wf m' pool2 /\ numBuckets m' = newN /\ lock m' = 0 /\
              shard_linked (Z.of_nat i) m' pool2 /\
              shard_nodes m' ≡ₚ shard_nodes m).
  { intros i m' Hi.
    destruct (Hshards1 i m' Hi) as (m & Hm & Hwf' & Hnb & Hlock & Hlk & Hperm).
    exists m. split; [exact Hm |].
    split; [apply (shard_wf_same_loads m' pool1 pool2 Hwf');
            intros q _; apply Hload2 |].
    split; [exact Hnb |]. split; [exact Hlock |]. split; [| exact Hperm].
    apply (shard_linked_same_loads _ m' pool1 pool2 Hlk).
    intros q _. apply Hload2. }
  assert (Hok' : map_ok h').
  { constructor; cbn [sharedPool innerMaps h'].
    - exists l2. exact Hok2.
    - apply (mok_numInnerMaps h Hok).
    - rewrite Hlen1. apply (mok_length h Hok).
    - intros i m' Hi.
      destruct (Hshards2 i m' Hi) as (m & _ & Hwf' & Hnb & Hlock & _).
      split; [exact Hwf' |]. split; [right; rewrite Hnb; exact HnewN |].
      exact Hlock. }
  assert (Hcont : forall k v, contains h' k v <-> contains h k v).
  { assert (Hhv : forall m m' k v, shard_nodes m' ≡ₚ shard_nodes m ->
              (holds_value m' pool2 k v <-> holds_value m (sharedPool h) k v)).
    { intros m m' k v Hperm.
      rewrite <- (holds_value_resized m m' (sharedPool h) pool1 k v Hs1 Hperm).
      split; intros (q & nq & (Hq & Hnq & Hk) & Hv); exists q, nq;
        (split; [| exact Hv]); (split; [exact Hq | split; [| exact Hk]]).
      - rewrite <- Hload2. exact Hnq.
      - rewrite Hload2. exact Hnq. }
    intros k v. unfold contains. cbn [sharedPool innerMaps h']. split.
    - intros (m' & Hm' & Hv).
      destruct (Hshards2 _ m' Hm') as (m & Hm & _ & _ & _ & _ & Hperm).
      exists m. split; [exact Hm |]. apply (Hhv m m' k v Hperm). exact Hv.
    - intros (m & Hm & Hv).
      destruct (ms' !! Z.to_nat (shard_of k)) as [m' |] eqn:Hm'.
      + destruct (Hshards2 _ m' Hm') as (m0 & Hm0 & _ & _ & _ & _ & Hperm).
        rewrite Hm in Hm0. injection Hm0 as <-.
        exists m'. split; [reflexivity |]. apply (Hhv m m' k v Hperm). exact Hv.
      + apply lookup_ge_None in Hm'. apply lookup_lt_Some in Hm. lia. }
  exists h'. split; [| split; [split; [exact Hok' |] |]].
  - unfold Reserve. cbv zeta. fold newN. rewrite Hrun1. cbn [bind].
    rewrite Hrun2. reflexivity.
  - cbn [sharedPool innerMaps h']. intros i m' Hi.
    destruct (Hshards2 i m' Hi) as (_ & _ & _ & _ & _ & Hlk & _). exact Hlk.
  - split; [exact Hcont |]. split; [reflexivity |].
    split; [cbn [sharedPool h']; unfold PP.Size; congruence |].
    split; [| split].
    + pose proof (PP.wf_numPages _ l (proj1 Hpool)) as Hnp.
      assert (Hn0 : 0 <= n) by (subst n; apply Z.div_pos; lia).
      assert (Hlo : numElements <= n * PageSize_T).
      { subst n. pose proof (Z.mul_succ_div_gt (numElements + PageSize_T - 1)
                               PageSize_T PageSize_T_pos). lia. }
      cbn [sharedPool h']. unfold PP.GetCapacity. rewrite Hp2, Hp1.
      unfold wrap32. rewrite !Z.mod_small by nia. lia.
    + cbn [innerMaps h']. intros i m' Hi.
      destruct (Hshards2 i m' Hi) as (_ & _ & _ & Hnb & _).
      rewrite Hnb. exact HnewN.
    + intros k. destruct (map_ok_shard h' k Hok') as [m' Hm'].
      destruct (mok_shard h' Hok' _ m' Hm') as (Hwf' & _ & Hlock').
      assert (Hin' : In (numBuckets m') c_powerOfTwoTable).
      { cbn [innerMaps h'] in Hm'.
        destruct (Hshards2 _ m' Hm') as (_ & _ & _ & Hnb & _).
        rewrite Hnb. exact HnewN. }
      destruct (InnerMap_Find_Lockless_spec m' (sharedPool h') k Hwf' Hin')
        as [(p & nd & Hh & _) | [Hnone _]].
      * exists (Some (value nd)).
        apply (find_holds h' k m' p nd Hm' Hlock' Hwf' Hin' Hh).
      * exists None. apply (find_not_held h' k m' Hm' Hlock' Hwf' Hin' Hnone).
Qed.

(** *** Re-keying within a shard *)

Lemma store_spec (P : Pool) (l : list Z) (p : PP.objptr) (x y : Node) :
  pool_ok P l -> load P p = Some y ->
  pool_ok (store P p x) l /\
  (forall q, load (store P p x) q
             = if decide (q = p) then Some x else load P q) /\
  PP.count (store P p x) = PP.count P.
Proof.
  intros Hok Hy.
  destruct (PP.store_ok PageSize_T c_bitIndexSize sizeofNode
              sizeofNode_pos PageSize_T_pos P l p x y Hok Hy) as (Hok' & Hc & _).
  split; [exact Hok' |]. split; [| exact Hc].
  intros q. apply (PP.load_store PageSize_T c_bitIndexSize sizeofNode
                     sizeofNode_pos PageSize_T_pos P l p q x y Hok Hy).
Qed.

(** The node once it has been re-keyed and linked in bucket [nb]. *)
Definition rekeyed_node (n : Node) (newKey nb : Z) : Node :=
  {| key := newKey; value := value n; bucket := nb |}.

(** A shard after the node at [p] has been re-keyed to [newKey]: the node
    carries the new key and the stamp of the bucket the new key hashes to,
    and is linked there; the other nodes are where and as they were. *)
Record rekeyed (m m' : InnerMap) (pool pool' : Pool) (p : PP.objptr)
  (n : Node) (newKey : Z) : Prop := {
  rk_load : forall q,
    load pool' q
    = if decide (q = p)
      then Some (rekeyed_node n newKey (GetIndex m (Hash64 newKey)))
      else load pool q;
  rk_numBuckets : numBuckets m' = numBuckets m;
  rk_length : length (buckets m') = length (buckets m);
  rk_perm : shard_nodes m' ≡ₚ shard_nodes m;
  rk_buckets : forall j b' q, buckets m' !! j = Some b' -> q ∈ b' ->
    (q = p /\ j = Z.to_nat (GetIndex m (Hash64 newKey))) \/
    (q <> p /\ exists b, buckets m !! j = Some b /\ q ∈ b)
}.

Lemma rekeyed_shard (i : Z) (k newKey : Z) (m m' : InnerMap)
  (pool pool' : Pool) (p : PP.objptr) (n : Node) :
  shard_wf m pool -> In (numBuckets m) c_powerOfTwoTable ->
  shard_linked i m pool -> holds m pool k p n ->
  shard_of newKey = i ->
  (forall q nq, ~ holds m pool newKey q nq) ->
  rekeyed m m' pool pool' p n newKey ->
  shard_wf m' pool' /\ shard_linked i m' pool' /\
  (forall k0 v0, holds_value m' pool' k0 v0
                 <-> (k0 = newKey /\ v0 = value n)
                     \/ (k0 <> k /\ holds_value m pool k0 v0)) /\
  (forall q nq, q ∉ shard_nodes m -> load pool q = Some nq ->
     load pool' q = Some nq).
Proof.
  intros Hwf Hin [Hnd Hsh Hst] Hh Hshard Habsent [Hload Hnb Hlen Hperm Hbk].
  pose proof Hh as (Hp & Hn & Hk).
  pose proof (GetIndex_of_range (numBuckets m) (Hash64 newKey) Hin) as Hnew.
  change (GetIndex_of (numBuckets m) (Hash64 newKey))
    with (GetIndex m (Hash64 newKey)) in Hnew.
  set (newB := GetIndex m (Hash64 newKey)) in *.
  assert (Hother : forall q, q <> p -> load pool' q = load pool q).
  { intros q Hq. rewrite Hload, decide_False by exact Hq. reflexivity. }
  assert (Hself : load pool' p = Some (rekeyed_node n newKey newB)).
  { rewrite Hload, decide_True by reflexivity. reflexivity. }
  assert (Hkey_p : forall q nq, q ∈ shard_nodes m -> load pool q = Some nq ->
            key nq = k -> q = p).
  { intros q nq Hq Hnq Hkq.
    apply (swf_keys m pool Hwf q p nq n Hq Hp Hnq Hn). congruence. }
  split; [| split; [| split]].
  - constructor.
    + rewrite Hnb, <- (swf_length m pool Hwf), Hlen. reflexivity.
    + intros j b' q Hj Hq.
      destruct (Hbk j b' q Hj Hq) as [[-> ->] | (Hne & b & Hb & Hqb)].
      * exists (rekeyed_node n newKey newB). split; [exact Hself |].
        unfold GetIndex. rewrite Hnb. cbn [key rekeyed_node].
        fold (GetIndex m (Hash64 newKey)). fold newB. lia.
      * destruct (swf_routing m pool Hwf j b q Hb Hqb) as (nq & Hnq & Hg).
        exists nq. split; [rewrite (Hother q Hne); exact Hnq |].
        unfold GetIndex. rewrite Hnb. exact Hg.
    + intros q1 q2 n1 n2 H1 H2 Hn1 Hn2 Hkeys.
      rewrite Hperm in H1, H2.
      destruct (decide (q1 = p)) as [-> | Hne1];
        destruct (decide (q2 = p)) as [-> | Hne2]; [reflexivity | | |].
      * exfalso. rewrite Hself in Hn1. injection Hn1 as <-.
        rewrite (Hother q2 Hne2) in Hn2. cbn [key rekeyed_node] in Hkeys.
        apply (Habsent q2 n2). split; [exact H2 |]. auto.
      * exfalso. rewrite Hself in Hn2. injection Hn2 as <-.
        rewrite (Hother q1 Hne1) in Hn1. cbn [key rekeyed_node] in Hkeys.
        apply (Habsent q1 n1). split; [exact H1 |]. auto.
      * rewrite (Hother q1 Hne1) in Hn1. rewrite (Hother q2 Hne2) in Hn2.
        apply (swf_keys m pool Hwf q1 q2 n1 n2 H1 H2 Hn1 Hn2 Hkeys).
  - constructor.
    + rewrite Hperm. exact Hnd.
    + intros q nq Hq Hnq. rewrite Hperm in Hq.
      destruct (decide (q = p)) as [-> | Hne].
      * rewrite Hself in Hnq. injection Hnq as <-. exact Hshard.
      * rewrite (Hother q Hne) in Hnq. apply (Hsh q nq Hq Hnq).
    + intros j b' q nq Hj Hq Hnq.
      destruct (Hbk j b' q Hj Hq) as [[-> ->] | (Hne & b & Hb & Hqb)].
      * rewrite Hself in Hnq. injection Hnq as <-. cbn [bucket rekeyed_node].
        lia.
      * rewrite (Hother q Hne) in Hnq. apply (Hst j b q nq Hb Hqb Hnq).
  - intros k0 v0. split.
    + intros (q & nq & (Hq & Hnq & Hkq) & Hv). rewrite Hperm in Hq.
      destruct (decide (q = p)) as [-> | Hne].
      * rewrite Hself in Hnq. injection Hnq as <-. left. auto.
      * rewrite (Hother q Hne) in Hnq. right. split.
        -- intros ->. apply Hne. apply (Hkey_p q nq Hq Hnq Hkq).
        -- exists q, nq. split; [split; auto | exact Hv].
    + intros [[-> ->] | (Hk0 & q & nq & (Hq & Hnq & Hkq) & Hv)].
      * exists p, (rekeyed_node n newKey newB). split; [| reflexivity].
        split; [rewrite Hperm; exact Hp |]. split; [exact Hself | reflexivity].
      * assert (Hne : q <> p) by (intros ->; congruence).
        exists q, nq. split; [| exact Hv].
        split; [rewrite Hperm; exact Hq |].
        split; [rewrite (Hother q Hne); exact Hnq | exact Hkq].
  - intros q nq Hq Hnq. rewrite Hother; [exact Hnq |].
    intros ->. contradiction.
Qed.

(** A linked node is in the bucket stamped on it, and in no other. *)
Lemma linked_bucket_unique (i : Z) (m : InnerMap) (pool : Pool)
  (p : PP.objptr) (n : Node) (j1 j2 : nat) (b1 b2 : Bucket) :
  shard_linked i m pool -> load pool p = Some n ->
  buckets m !! j1 = Some b1 -> p ∈ b1 ->
  buckets m !! j2 = Some b2 -> p ∈ b2 -> j1 = j2.
Proof.
  intros [_ _ Hst] Hn H1 Hp1 H2 Hp2.
  pose proof (Hst j1 b1 p n H1 Hp1 Hn). pose proof (Hst j2 b2 p n H2 Hp2 Hn).
  lia.
Qed.

(** [ReKey_Lockless] of a shard, for a node the shard holds. *)
Lemma InnerMap_ReKey_Lockless_spec (i : Z) (k newKey : Z) (m : InnerMap)
  (pool : Pool) (l : list Z) (p : PP.objptr) (n : Node) :
  shard_wf m pool -> In (numBuckets m) c_powerOfTwoTable -> pool_ok pool l ->
  shard_linked i m pool -> holds m pool k p n ->
  exists m' pool',
    InnerMap_ReKey_Lockless (Hash64 k) (Hash64 newKey) p newKey m pool
    = Ok (true, m', pool') /\
    rekeyed m m' pool pool' p n newKey /\
    pool_ok pool' l /\ PP.count pool' = PP.count pool /\
    lock m' = lock m.
Proof.
  intros Hwf Hin Hok Hlk Hh.
  destruct (holds_bucket m pool k p n Hwf Hin Hh) as (Hidx & b & Hb & Hb' & Hpb).
  set (idx := GetIndex m (Hash64 k)) in *.
  pose proof Hh as (Hp & Hn & Hk).
  pose proof (GetIndex_of_range (numBuckets m) (Hash64 newKey) Hin) as Hnew.
  change (GetIndex_of (numBuckets m) (Hash64 newKey))
    with (GetIndex m (Hash64 newKey)) in Hnew.
  set (newB := GetIndex m (Hash64 newKey)) in *.
  pose proof (swf_length m pool Hwf) as Hlen.
  pose proof (slk_stamp _ _ _ Hlk _ b p n Hb' Hpb Hn) as Hstamp.
  rewrite Z2Nat.id in Hstamp by lia.
  assert (Honly : forall j b0, buckets m !! j = Some b0 -> p ∈ b0 ->
            j = Z.to_nat idx).
  { intros j b0 Hj Hpj.
    apply (linked_bucket_unique i m pool p n j _ b0 b Hlk Hn Hj Hpj Hb' Hpb). }
  unfold InnerMap_ReKey_Lockless. rewrite Hn. cbn [of_option bind].
  rewrite Hstamp. fold newB.
  destruct (Z.ltb_spec idx (numBuckets m)) as [_ | Hge]; [| lia].
  destruct (Z.eqb_spec idx newB) as [Esame | Hdiff]; cbn [negb].
  - (* the same bucket: the key is overwritten *)
    unfold ForceChangeKey. rewrite Hn. cbn [of_option bind].
    destruct (store_spec pool l p (set_key n newKey) n Hok Hn)
      as (Hok' & Hload' & Hc').
    exists m, (store pool p (set_key n newKey)).
    split; [reflexivity |]. split; [| auto].
    constructor; try reflexivity.
    + intros q. rewrite Hload'. unfold set_key, rekeyed_node.
      rewrite Hstamp, Esame. reflexivity.
    + intros j b0 q Hj Hq. destruct (decide (q = p)) as [-> | Hne].
      * left. split; [reflexivity |]. fold newB. rewrite <- Esame.
        apply (Honly j b0 Hj Hq).
      * right. split; [exact Hne |]. exists b0. auto.
  - (* another bucket: the node is unlinked, re-keyed and linked again *)
    unfold write_bucket at 1. rewrite Hn. cbn [of_option bind].
    set (n1 := set_bucket n c_reassigningBucket).
    destruct (store_spec pool l p n1 n Hok Hn) as (Hok1 & Hload1 & Hc1).
    set (pool1 := store pool p n1) in *.
    assert (Hn1 : load pool1 p = Some n1)
      by (rewrite Hload1, decide_True by reflexivity; reflexivity).
    rewrite Hb. cbn [bind].
    assert (Hlive : all_live b pool1).
    { intros q Hq. rewrite Hload1. destruct (decide (q = p)); [eauto |].
      destruct (swf_routing m pool Hwf _ b q Hb' Hq) as (nq & Hnq & _).
      exists nq. exact Hnq. }
    destruct (Bucket_Erase_Lockless_spec pool1 (key n) b Hlive)
      as [(pre & p' & post & n' & Eb & Hp' & Hk' & Hrun) | [Hnone _]];
      [| exfalso; apply (Hnone p n1 Hpb Hn1); reflexivity].
    assert (p' = p).
    { destruct (decide (p' = p)) as [E | Hne]; [exact E |].
      rewrite Hload1, decide_False in Hp' by exact Hne.
      apply (swf_keys m pool Hwf p' p n' n); try assumption.
      apply elem_of_concat. exists (Z.to_nat idx), b. split; [exact Hb' |].
      rewrite Eb. apply elem_of_app. right. left. }
    subst p'. clear Hp' Hk' n'. subst b.
    rewrite Hrun. cbn [bind].
    unfold ForceChangeKey. rewrite Hn1. cbn [of_option bind].
    set (n2 := set_key n1 newKey).
    destruct (store_spec pool1 l p n2 n1 Hok1 Hn1) as (Hok2 & Hload2 & Hc2).
    set (pool2 := store pool1 p n2) in *.
    assert (Hn2 : load pool2 p = Some n2)
      by (rewrite Hload2, decide_True by reflexivity; reflexivity).
    unfold write_bucket. rewrite Hn2. cbn [of_option bind].
    destruct (store_spec pool2 l p (set_bucket n2 newB) n2 Hok2 Hn2)
      as (Hok3 & Hload3 & Hc3).
    set (pool3 := store pool2 p (set_bucket n2 newB)) in *.
    cbn [buckets set_buckets].
    match goal with |- context [bucket_at ?L newB] => set (L1 := L) end.
    assert (HlenL1 : length L1 = length (buckets m))
      by (unfold L1; apply length_insert).
    destruct (bucket_at_range L1 newB) as (nb & Hnb & Hnb');
      [rewrite HlenL1; lia |].
    rewrite Hnb. cbn [bind Bucket_Insert_Lockless].
    assert (Hnbm : buckets m !! Z.to_nat newB = Some nb).
    { unfold L1 in Hnb'. rewrite list_lookup_insert_ne in Hnb' by lia.
      exact Hnb'. }
    assert (HpermL1 : shard_nodes m ≡ₚ p :: concat L1).
    { unfold shard_nodes, L1. apply concat_insert_delete. exact Hb'. }
    assert (HpL1 : p ∉ concat L1).
    { pose proof (slk_nodup _ _ _ Hlk) as Hnd. rewrite HpermL1 in Hnd.
      apply NoDup_cons in Hnd as [Hnin _]. exact Hnin. }
    eexists _, pool3. split; [reflexivity |].
    split; [| split; [exact Hok3 | split; [lia | reflexivity]]].
    constructor; cbn [buckets set_buckets numBuckets].
    + intros q. rewrite Hload3, Hload2, Hload1.
      destruct (decide (q = p)); reflexivity.
    + reflexivity.
    + rewrite length_insert. exact HlenL1.
    + unfold shard_nodes at 1. cbn [buckets set_buckets].
      rewrite (concat_insert_cons p L1 (Z.to_nat newB) nb Hnb').
      symmetry. exact HpermL1.
    + intros j b0 q Hj Hq.
      destruct (decide (j = Z.to_nat newB)) as [-> | Hj'].
      * rewrite list_lookup_insert_eq in Hj
          by (apply lookup_lt_Some in Hnb'; exact Hnb').
        injection Hj as <-. apply elem_of_cons in Hq as [-> | Hq].
        -- left. auto.
        -- right. split; [| exists nb; auto].
           intros ->. apply HpL1. apply elem_of_concat.
           exists (Z.to_nat newB), nb. auto.
      * rewrite list_lookup_insert_ne in Hj by congruence.
        right. split.
        -- intros ->. apply HpL1. apply elem_of_concat. exists j, b0. auto.
        -- unfold L1 in Hj.
           destruct (decide (j = Z.to_nat idx)) as [-> | Hj''].
           ++ rewrite list_lookup_insert_eq in Hj
                by (apply lookup_lt_Some in Hb'; exact Hb').
              injection Hj as <-. exists (pre ++ p :: post).
              split; [exact Hb' |].
              apply elem_of_app in Hq as [Hq | Hq]; apply elem_of_app;
                [left; exact Hq | right; right; exact Hq].
           ++ rewrite list_lookup_insert_ne in Hj by congruence.
              exists b0. auto.
Qed.

(** The map after the node of key [k] has been re-keyed to [newKey] in
    its shard. *)
Lemma rekeyed_map (k newKey : Z) (v : Value_T) (h : HashMap) (m m' : InnerMap)
  (pool' : Pool) (l : list Z) (p : PP.objptr) (n : Node) :
  map_linked h ->
  innerMaps h !! Z.to_nat (shard_of k) = Some m ->
  holds m (sharedPool h) k p n -> value n = v ->
  shard_of newKey = shard_of k ->
  (forall v0, ~ contains h newKey v0) ->
  rekeyed m m' (sharedPool h) pool' p n newKey ->
  pool_ok pool' l -> PP.count pool' = PP.count (sharedPool h) ->
  lock m' = 0 ->
  find k (update h (shard_of k) m' pool')
  = Ok (None, update h (shard_of k) m' pool') /\
  find newKey (update h (shard_of k) m' pool')
  = Ok (Some v, update h (shard_of k) m' pool') /\
  (forall k0 v0, contains (update h (shard_of k) m' pool') k0 v0
                 <-> (k0 = newKey /\ v0 = v) \/ (k0 <> k /\ contains h k0 v0)) /\
  size (update h (shard_of k) m' pool') = size h /\
  PP.Size (sharedPool (update h (shard_of k) m' pool'))
  = PP.Size (sharedPool h) /\
  map_linked (update h (shard_of k) m' pool').
Proof.
  intros Hl Hm Hh Hval Hsame Habsent Hrk Hok' Hc' Hlock'.
  pose proof (mlk_ok h Hl) as Hok.
  destruct (mok_shard h Hok _ m Hm) as (Hwf & Hsz & Hlock).
  pose proof (holds_sized m _ k p n Hwf Hsz Hh) as Hin.
  pose proof (shard_of_nonneg k) as Hs0.
  pose proof (mlk_shard h Hl _ m Hm) as Hlk.
  rewrite Z2Nat.id in Hlk by exact Hs0.
  assert (Hv : contains h k v).
  { exists m. split; [exact Hm |]. exists p, n. auto. }
  assert (Hnone : forall q nq, ~ holds m (sharedPool h) newKey q nq).
  { intros q nq Hq. apply (Habsent (value nq)). exists m.
    rewrite Hsame. split; [exact Hm |]. exists q, nq. auto. }
  destruct (rekeyed_shard (shard_of k) k newKey m m' (sharedPool h) pool' p n
              Hwf Hin Hlk Hh Hsame Hnone Hrk)
    as (Hwf' & Hlk' & Hshard & Hframe).
  assert (Hin' : In (numBuckets m') c_powerOfTwoTable)
    by (rewrite (rk_numBuckets _ _ _ _ _ _ _ Hrk); exact Hin).
  destruct (shard_call_lift h k m m' pool' (totalCount h) Hl Hm Hwf'
              ltac:(right; exact Hin') Hlock' Hlk'
              ltac:(exists l; exact Hok') Hframe)
    as (Hl' & Hcont).
  change (set_totalCount (update h (shard_of k) m' pool') (totalCount h))
    with (update h (shard_of k) m' pool') in Hl', Hcont.
  set (h' := update h (shard_of k) m' pool') in *.
  assert (Hcont' : forall k0 v0, contains h' k0 v0
            <-> (k0 = newKey /\ v0 = v) \/ (k0 <> k /\ contains h k0 v0)).
  { intros k0 v0. rewrite Hcont.
    destruct (decide (shard_of k0 = shard_of k)) as [E | Hne].
    - rewrite Hshard, Hval. unfold contains. rewrite E. split.
      + intros [H | [Hk0 Hhv]]; [left; exact H | right].
        split; [exact Hk0 |]. exists m. auto.
      + intros [H | [Hk0 (mm & Hmm & Hhv)]]; [left; exact H | right].
        split; [exact Hk0 |]. rewrite Hm in Hmm. injection Hmm as <-.
        exact Hhv.
    - split.
      + intros H. right. split; [| exact H]. intros ->. contradiction.
      + intros [[-> _] | [_ H]]; [contradiction | exact H]. }
  pose proof (mlk_ok h' Hl') as Hokh'.
  split; [| split; [| split; [exact Hcont' |]]].
  - assert (Hm' : innerMaps h' !! Z.to_nat (shard_of k) = Some m').
    { unfold h'. cbn [innerMaps update]. apply list_lookup_insert_eq.
      apply lookup_lt_Some in Hm. exact Hm. }
    destruct (mok_shard h' Hokh' _ m' Hm') as (_ & _ & Hlockm').
    apply (find_not_held h' k m' Hm' Hlockm' Hwf' Hin').
    intros q nq Hq.
    assert (Hc : contains h' k (value nq)).
    { exists m'. split; [exact Hm' |]. exists q, nq. auto. }
    apply Hcont' in Hc as [[-> _] | [Hne _]]; [| contradiction].
    apply (Habsent v Hv).
  - apply (contains_find h' newKey v Hokh'). apply Hcont'. left. auto.
  - split; [reflexivity |]. split; [exact Hc' | exact Hl'].
Qed.

(** X29.  On a linked map, [rekey_lockless] of a key the map holds to a key
    it does not hold, when both keys route to the same shard, returns true:
    the value is now held under the new key and no more under the old one,
    [find] reports so, every other key is held with the value it had,
    [size] and the pool's [Size] are unchanged, and the map is linked
    again. *)
Theorem rekey_lockless_within_shard (fuel : nat) (k newKey : Z) (v : Value_T)
  (h : HashMap) :
  map_linked h -> contains h k v ->
  shard_of newKey = shard_of k ->
  (forall v0, ~ contains h newKey v0) ->
  exists h',
    rekey_lockless fuel k newKey h = Ok (true, h') /\
    find k h' = Ok (None, h') /\
    find newKey h' = Ok (Some v, h') /\
    (forall k0 v0, contains h' k0 v0
                   <-> (k0 = newKey /\ v0 = v) \/ (k0 <> k /\ contains h k0 v0)) /\
    size h' = size h /\
    PP.Size (sharedPool h') = PP.Size (sharedPool h) /\
    map_linked h'.
Proof.
  intros Hl Hv Hsame Habsent.
  pose proof (mlk_ok h Hl) as Hok.
  pose proof Hv as (m & Hm & p & n & Hh & Hval).
  destruct (mok_shard h Hok _ m Hm) as (Hwf & Hsz & Hlock).
  destruct (mok_pool h Hok) as [l Hpool].
  pose proof (holds_sized m _ k p n Hwf Hsz Hh) as Hin.
  pose proof (mlk_shard h Hl _ m Hm) as Hlk.
  rewrite Z2Nat.id in Hlk by apply shard_of_nonneg.
  pose proof Hh as (Hp & Hn & Hk).
  destruct (InnerMap_ReKey_Lockless_spec (shard_of k) k newKey m (sharedPool h)
              l p n Hwf Hin Hpool Hlk Hh)
    as (m' & pool' & Hrun & Hrk & Hok' & Hc' & Hlock').
  exists (update h (shard_of k) m' pool'). split.
  - unfold rekey_lockless, ReKey_Lockless.
    assert (HFl : Find_Lockless k h = Ok (Some p)).
    { unfold Find_Lockless. fold (shard_of k).
      rewrite (innerMap_at_lookup h k m Hm). cbn [bind].
      apply (InnerMap_Find_Lockless_holds m _ k p n Hwf Hin Hh). }
    rewrite HFl. cbn [bind].
    unfold ReKey_node_Lockless, ReKey_node_with. rewrite Hn.
    cbn [of_option bind]. rewrite Hk.
    fold (shard_of k). fold (shard_of newKey). rewrite Hsame.
    rewrite Z.eqb_refl. rewrite (innerMap_at_lookup h k m Hm). cbn [bind].
    rewrite Hrun. reflexivity.
  - apply (rekeyed_map k newKey v h m m' pool' l p n Hl Hm Hh Hval Hsame
             Habsent Hrk Hok' Hc').
    congruence.
Qed.

(** [ReKey_Concurrent] of an unlocked shard, for a node the shard holds:
    with no other thread in between it does what [ReKey_Lockless] does,
    under the shard's lock, and leaves the shard unlocked. *)
Lemma InnerMap_ReKey_Concurrent_spec (i : Z) (k newKey : Z) (m : InnerMap)
  (pool : Pool) (l : list Z) (p : PP.objptr) (n : Node) :
  shard_wf m pool -> In (numBuckets m) c_powerOfTwoTable -> pool_ok pool l ->
  lock m = 0 ->
  shard_linked i m pool -> holds m pool k p n ->
  exists m' pool',
    InnerMap_ReKey_Concurrent (Hash64 k) (Hash64 newKey) p newKey m pool
    = Ok (true, m', pool') /\
    rekeyed m m' pool pool' p n newKey /\
    pool_ok pool' l /\ PP.count pool' = PP.count pool /\
    lock m' = 0.
Proof.
  intros Hwf Hin Hok Hlock Hlk Hh.
  destruct (holds_bucket m pool k p n Hwf Hin Hh) as (Hidx & b & Hb & Hb' & Hpb).
  set (idx := GetIndex m (Hash64 k)) in *.
  pose proof Hh as (Hp & Hn & Hk).
  pose proof (GetIndex_of_range (numBuckets m) (Hash64 newKey) Hin) as Hnew.
  change (GetIndex_of (numBuckets m) (Hash64 newKey))
    with (GetIndex m (Hash64 newKey)) in Hnew.
  set (newB := GetIndex m (Hash64 newKey)) in *.
  pose proof (swf_length m pool Hwf) as Hlen.
  pose proof (slk_stamp _ _ _ Hlk _ b p n Hb' Hpb Hn) as Hstamp.
  rewrite Z2Nat.id in Hstamp by lia.
  assert (Honly : forall j b0, buckets m !! j = Some b0 -> p ∈ b0 ->
            j = Z.to_nat idx).
  { intros j b0 Hj Hpj.
    apply (linked_bucket_unique i m pool p n j _ b0 b Hlk Hn Hj Hpj Hb' Hpb). }
  unfold InnerMap_ReKey_Concurrent. rewrite Hlock.
  change (AcquireReadOnlyAccess 0) with (Ok (A := Z) 1). cbn [bind].
  rewrite Hn. cbn [of_option bind]. rewrite Hstamp.
  change (GetIndex (set_lock m 1) (Hash64 newKey)) with newB.
  cbn [numBuckets set_lock lock buckets].
  destruct (Z.ltb_spec idx (numBuckets m)) as [_ | Hge]; [| lia].
  unfold AtomicCompareExchange. rewrite Z.eqb_refl.
  set (n1 := set_bucket n c_reassigningBucket).
  destruct (store_spec pool l p n1 n Hok Hn) as (Hok1 & Hload1 & Hc1).
  set (pool1 := store pool p n1) in *.
  assert (Hn1 : load pool1 p = Some n1)
    by (rewrite Hload1, decide_True by reflexivity; reflexivity).
  set (n2 := set_key n1 newKey).
  destruct (store_spec pool1 l p n2 n1 Hok1 Hn1) as (Hok2 & Hload2 & Hc2).
  set (pool2 := store pool1 p n2) in *.
  assert (Hn2 : load pool2 p = Some n2)
    by (rewrite Hload2, decide_True by reflexivity; reflexivity).
  destruct (store_spec pool2 l p (set_bucket n2 newB) n2 Hok2 Hn2)
    as (Hok3 & Hload3 & Hc3).
  set (pool3 := store pool2 p (set_bucket n2 newB)) in *.
  assert (Hload : forall q, load pool3 q
            = if decide (q = p) then Some (rekeyed_node n newKey newB)
              else load pool q).
  { intros q. rewrite Hload3, Hload2, Hload1.
    destruct (decide (q = p)); reflexivity. }
  destruct (Z.eqb_spec idx newB) as [Esame | Hdiff]; cbn [negb].
  - (* the same bucket *)
    unfold ForceChangeKey. rewrite Hn1. cbn [of_option bind]. fold n2 pool2.
    unfold write_bucket. rewrite Hn2. cbn [of_option bind]. fold pool3.
    change (ReleaseReadOnlyAccess 1) with 0.
    exists (set_lock (set_lock m 1) 0), pool3.
    split; [reflexivity |].
    split; [| split; [exact Hok3 | split; [lia | reflexivity]]].
    constructor; try reflexivity.
    + exact Hload.
    + intros j b0 q Hj Hq. cbn [buckets set_lock] in Hj.
      destruct (decide (q = p)) as [-> | Hne].
      * left. split; [reflexivity |]. fold newB. rewrite <- Esame.
        apply (Honly j b0 Hj Hq).
      * right. split; [exact Hne |]. exists b0. auto.
  - (* another bucket *)
    change (ConvertFromReadToWriteLock 1) with (Ok (A := Z) 0x10000).
    cbn [bind buckets set_lock]. rewrite Hb. cbn [bind].
    assert (Hlive : all_live b pool1).
    { intros q Hq. rewrite Hload1. destruct (decide (q = p)); [eauto |].
      destruct (swf_routing m pool Hwf _ b q Hb' Hq) as (nq & Hnq & _).
      exists nq. exact Hnq. }
    destruct (Bucket_Erase_Lockless_spec pool1 (key n) b Hlive)
      as [(pre & p' & post & n' & Eb & Hp' & Hk' & Hrun) | [Hnone _]];
      [| exfalso; apply (Hnone p n1 Hpb Hn1); reflexivity].
    assert (p' = p).
    { destruct (decide (p' = p)) as [E | Hne]; [exact E |].
      rewrite Hload1, decide_False in Hp' by exact Hne.
      apply (swf_keys m pool Hwf p' p n' n); try assumption.
      apply elem_of_concat. exists (Z.to_nat idx), b. split; [exact Hb' |].
      rewrite Eb. apply elem_of_app. right. left. }
    subst p'. clear Hp' Hk' n'. subst b.
    rewrite Hrun. cbn [bind].
    unfold ForceChangeKey. rewrite Hn1. cbn [of_option bind]. fold n2 pool2.
    unfold write_bucket. rewrite Hn2. cbn [of_option bind]. fold pool3.
    cbn [buckets set_buckets set_lock].
    match goal with |- context [bucket_at ?L newB] => set (L1 := L) end.
    assert (HlenL1 : length L1 = length (buckets m))
      by (unfold L1; apply length_insert).
    destruct (bucket_at_range L1 newB) as (nb & Hnb & Hnb');
      [rewrite HlenL1; lia |].
    rewrite Hnb. cbn [bind Bucket_Insert_Lockless lock set_lock set_buckets].
    assert (HpermL1 : shard_nodes m ≡ₚ p :: concat L1).
    { unfold shard_nodes, L1. apply concat_insert_delete. exact Hb'. }
    assert (HpL1 : p ∉ concat L1).
    { pose proof (slk_nodup _ _ _ Hlk) as Hnd. rewrite HpermL1 in Hnd.
      apply NoDup_cons in Hnd as [Hnin _]. exact Hnin. }
    eexists _, pool3. split; [reflexivity |].
    split; [| split; [exact Hok3 | split; [lia | reflexivity]]].
    constructor; cbn [buckets set_buckets set_lock numBuckets].
    + exact Hload.
    + reflexivity.
    + rewrite length_insert. exact HlenL1.
    + unfold shard_nodes at 1. cbn [buckets set_buckets set_lock].
      rewrite (concat_insert_cons p L1 (Z.to_nat newB) nb Hnb').
      symmetry. exact HpermL1.
    + intros j b0 q Hj Hq.
      destruct (decide (j = Z.to_nat newB)) as [-> | Hj'].
      * rewrite list_lookup_insert_eq in Hj
          by (apply lookup_lt_Some in Hnb'; exact Hnb').
        injection Hj as <-. apply elem_of_cons in Hq as [-> | Hq].
        -- left. auto.
        -- right. split.
           ++ intros ->. apply HpL1. apply elem_of_concat.
              exists (Z.to_nat newB), nb. auto.
           ++ exists nb. split; [| exact Hq].
              unfold L1 in Hnb'. rewrite list_lookup_insert_ne in Hnb' by lia.
              exact Hnb'.
      * rewrite list_lookup_insert_ne in Hj by congruence.
        right. split.
        -- intros ->. apply HpL1. apply elem_of_concat. exists j, b0. auto.
        -- unfold L1 in Hj.
           destruct (decide (j = Z.to_nat idx)) as [-> | Hj''].
           ++ rewrite list_lookup_insert_eq in Hj
                by (apply lookup_lt_Some in Hb'; exact Hb').
              injection Hj as <-. exists (pre ++ p :: post).
              split; [exact Hb' |].
              apply elem_of_app in Hq as [Hq | Hq]; apply elem_of_app;
                [left; exact Hq | right; right; exact Hq].
           ++ rewrite list_lookup_insert_ne in Hj by congruence.
              exists b0. auto.
Qed.

(** X30.  What X29 states of [rekey_lockless] holds of [rekey], run with no
    other thread in between: on a linked map, the re-keying of a held key
    to a key that is not held and routes to the same shard returns true
    with the shard unlocked again; the value is held under the new key and
    no more under the old one, every other key is held with the value it
    had, [size] and the pool's [Size] are unchanged, and the map is linked
    again. *)
Theorem rekey_within_shard (fuel : nat) (k newKey : Z) (v : Value_T)
  (h : HashMap) :
  map_linked h -> contains h k v ->
  shard_of newKey = shard_of k ->
  (forall v0, ~ contains h newKey v0) ->
  exists h',
    rekey fuel k newKey h = Ok (true, h') /\
    find k h' = Ok (None, h') /\
    find newKey h' = Ok (Some v, h') /\
    (forall k0 v0, contains h' k0 v0
                   <-> (k0 = newKey /\ v0 = v) \/ (k0 <> k /\ contains h k0 v0)) /\
    size h' = size h /\
    PP.Size (sharedPool h') = PP.Size (sharedPool h) /\
    map_linked h'.
Proof.
  intros Hl Hv Hsame Habsent.
  pose proof (mlk_ok h Hl) as Hok.
  pose proof Hv as (m & Hm & p & n & Hh & Hval).
  destruct (mok_shard h Hok _ m Hm) as (Hwf & Hsz & Hlock).
  destruct (mok_pool h Hok) as [l Hpool].
  pose proof (holds_sized m _ k p n Hwf Hsz Hh) as Hin.
  pose proof (mlk_shard h Hl _ m Hm) as Hlk.
  rewrite Z2Nat.id in Hlk by apply shard_of_nonneg.
  pose proof Hh as (Hp & Hn & Hk).
  destruct (InnerMap_ReKey_Concurrent_spec (shard_of k) k newKey m
              (sharedPool h) l p n Hwf Hin Hpool Hlock Hlk Hh)
    as (m' & pool' & Hrun & Hrk & Hok' & Hc' & Hlock').
  exists (update h (shard_of k) m' pool'). split.
  - unfold rekey, ReKey_Concurrent.
    rewrite (Find_Concurrent_Lockless h k m Hm Hlock).
    assert (HFl : Find_Lockless k h = Ok (Some p)).
    { unfold Find_Lockless. fold (shard_of k).
      rewrite (innerMap_at_lookup h k m Hm). cbn [bind].
      apply (InnerMap_Find_Lockless_holds m _ k p n Hwf Hin Hh). }
    rewrite HFl. cbn [bind].
    unfold ReKey_node_Concurrent, ReKey_node_with. rewrite Hn.
    cbn [of_option bind]. rewrite Hk.
    fold (shard_of k). fold (shard_of newKey). rewrite Hsame.
    rewrite Z.eqb_refl. rewrite (innerMap_at_lookup h k m Hm). cbn [bind].
    rewrite Hrun. reflexivity.
  - apply (rekeyed_map k newKey v h m m' pool' l p n Hl Hm Hh Hval Hsame
             Habsent Hrk Hok' Hc' Hlock').
Qed.


End MapFacts.

End Map.


Arguments Node Value_T : clear implicits.
Arguments HashMap Value_T : clear implicits.

(** *** A map of four shards over 8-slot pages

    Modelled from the spec: [hash_type.h] is not part of the sources.  The
    spec describes the default hash of 64-bit keys as a splittable integer
    mix with uniform low bits, from 64 bits to 64 bits: the finaliser of
    SplitMix64. *)
Definition Hash64_mix (x : Z) : Z :=
  let x := Z.lxor x (Z.shiftr x 30) in
  let x := wrap64 (x * 0xbf58476d1ce4e5b9) in
  let x := Z.lxor x (Z.shiftr x 27) in
  let x := wrap64 (x * 0x94d049bb133111eb) in
  Z.lxor x (Z.shiftr x 31).

(** What a call returns, without the state it leaves. *)
Definition outcome {A S : Type} (r : res (A * S)) : res A :=
  do '(a, _) <- r; Ok a.

(** The state a call leaves; [d] when it does not return. *)
Definition state_after {A S : Type} (d : S) (r : res (A * S)) : S :=
  match r with Ok (_, s) => s | _ => d end.

(** [HashMap<uint64_t, uint64_t>] with the default [PageSize_T = 8] and
    [NumInnerMaps_T = 4]; nodes of 32 bytes, bitmap words of 8 bits, an
    allocator that always succeeds. *)
Definition demo_empty : HashMap Z := empty 4.
Abbreviation demo_insert := (@insert Z 8 4 Hash64_mix 8 32 PP.always 4%nat).
Abbreviation demo_find := (@find Z 8 4 Hash64_mix 32).
Abbreviation demo_erase := (@erase Z 8 4 Hash64_mix 8 32).
Abbreviation demo_rekey := (@rekey Z 8 4 Hash64_mix 8 32 PP.always 4%nat).
Abbreviation demo_rekey_lockless :=
  (@rekey_lockless Z 8 4 Hash64_mix 8 32 PP.always 4%nat).
Definition demo_shard (k : Z) : Z := GetInnerMapIndex 4 (Hash64_mix k).

(** Number of nodes linked in the buckets of a shard. *)
Definition linked_nodes (m : InnerMap) : Z :=
  Z.of_nat (length (concat (buckets m))).

(** The map holding 1 -> 10 (shard 1) and 2 -> 20 (shard 2). *)
Definition demo_two : HashMap Z :=
  state_after demo_empty
    (do '(_, h1) <- demo_insert 1 10 demo_empty; demo_insert 2 20 h1).

(** The map holding 1 -> 10, after the insertion of 1 -> 11 was refused. *)
Definition demo_one : HashMap Z :=
  state_after demo_empty (demo_insert 1 10 demo_empty).

Definition demo_one_again : HashMap Z :=
  state_after demo_empty (demo_insert 1 11 demo_one).

(** [demo_two] after [rekey(1, 17)]. *)
Definition demo_two_rekeyed : HashMap Z :=
  state_after demo_empty (demo_rekey 1 17 demo_two).

(** [demo_two] after [rekey(1, 17)] and [erase(1)]. *)
Definition demo_two_erased : HashMap Z :=
  state_after demo_empty (demo_erase 1 demo_two_rekeyed).

(** C1, on the code: [demo_two] is reached from the empty map by
    [insert(1, 10)] and [insert(2, 20)].  In it key 1 is present, key 17 is
    absent, and the two keys route to different shards (1 and 2).
    [rekey(1, 17)] returns false where the claim has true; afterwards
    [find(1)] still returns the value and [find(17)] still finds nothing. *)
Lemma rekey_across_shards_returns_false :
  (do '(_, h1) <- demo_insert 1 10 demo_empty; demo_insert 2 20 h1)
    = Ok (true, demo_two) /\
  demo_shard 1 = 1 /\ demo_shard 17 = 2 /\
  outcome (demo_find 1 demo_two) = Ok (Some 10) /\
  outcome (demo_find 17 demo_two) = Ok None /\
  demo_rekey 1 17 demo_two = Ok (false, demo_two_rekeyed) /\
  outcome (demo_rekey_lockless 1 17 demo_two) = Ok false /\
  outcome (demo_find 1 demo_two_rekeyed) = Ok (Some 10) /\
  outcome (demo_find 17 demo_two_rekeyed) = Ok None.
Proof. vm_compute. repeat split. Qed.

(** C2, on the code: after [insert(1, 10)] the count of shard 1 is 1 and
    one node is linked in its buckets.  [insert(1, 11)] returns false and
    links nothing, and leaves the count of that shard at 2. *)
Lemma insert_present_key_bumps_count :
  demo_insert 1 10 demo_empty = Ok (true, demo_one) /\
  map count (innerMaps demo_one) = [0; 1; 0; 0] /\
  map linked_nodes (innerMaps demo_one) = [0; 1; 0; 0] /\
  demo_insert 1 11 demo_one = Ok (false, demo_one_again) /\
  map count (innerMaps demo_one_again) = [0; 2; 0; 0] /\
  map linked_nodes (innerMaps demo_one_again) = [0; 1; 0; 0].
Proof. vm_compute. repeat split. Qed.

(** C4, on the code: from [demo_two] (two entries, two pool objects) the
    refused [rekey(1, 17)] leaves node 1 linked and marked as being
    reassigned; [erase(1)] then unlinks it, returns true and does not give
    it back to the pool.  [size()] is 1 and the pool holds 2 objects. *)
Lemma failed_rekey_leaks_node :
  size demo_two = 2 /\ PP.Size (sharedPool demo_two) = 2 /\
  demo_rekey 1 17 demo_two = Ok (false, demo_two_rekeyed) /\
  size demo_two_rekeyed = 2 /\ PP.Size (sharedPool demo_two_rekeyed) = 2 /\
  demo_erase 1 demo_two_rekeyed = Ok (true, demo_two_erased) /\
  size demo_two_erased = 1 /\ PP.Size (sharedPool demo_two_erased) = 2 /\
  outcome (demo_find 1 demo_two_erased) = Ok None /\
  outcome (demo_find 2 demo_two_erased) = Ok (Some 20).
Proof. vm_compute. repeat split. Qed.

(** The map holding 3 -> 30 and 4 -> 40: both keys route to shard 0 and to
    the same bucket of its four. *)
Definition demo_pair : HashMap Z :=
  state_after demo_empty
    (do '(_, h1) <- demo_insert 3 30 demo_empty; demo_insert 4 40 h1).

(** [demo_pair] after [rekey(3, 4)]. *)
Definition demo_pair_rekeyed : HashMap Z :=
  state_after demo_empty (demo_rekey 3 4 demo_pair).

(** [demo_pair_rekeyed] after one, and after two, calls of [insert(4, 99)]. *)
Definition demo_pair_refused : HashMap Z :=
  state_after demo_empty (demo_insert 4 99 demo_pair_rekeyed).

Definition demo_pair_resized : HashMap Z :=
  state_after demo_empty (demo_insert 4 99 demo_pair_refused).

(** The keys of the nodes linked in a shard, bucket by bucket from each
    head, with their values. *)
Definition linked_entries (h : HashMap Z) (m : InnerMap)
  : list (list (option (Z * Z))) :=
  map (map (fun p => match PP.load 8 32 (sharedPool h) p with
                     | Some n => Some (key n, value n)
                     | None => None
                     end)) (buckets m).

(** C7, on the code: [demo_pair] is reached from the empty map by
    [insert(3, 30)] and [insert(4, 40)].  [rekey(3, 4)], onto a key that is
    present in the same shard, returns true and leaves key 4 linked twice,
    with the values 40 and 30.  The first [insert(4, 99)] returns false and
    [find(4)] reports 40, the last value inserted for key 4.  The second
    [insert(4, 99)] returns false as well, but the count it bumps exceeds
    the fill capacity: the resize relinks the two nodes in the opposite
    order, and [find(4)] reports 30. *)
Lemma refused_insert_changes_found_value :
  (do '(_, h1) <- demo_insert 3 30 demo_empty; demo_insert 4 40 h1)
    = Ok (true, demo_pair) /\
  demo_shard 3 = 0 /\ demo_shard 4 = 0 /\
  outcome (demo_find 4 demo_pair) = Ok (Some 40) /\
  demo_rekey 3 4 demo_pair = Ok (true, demo_pair_rekeyed) /\
  outcome (demo_rekey_lockless 3 4 demo_pair) = Ok true /\
  map (linked_entries demo_pair_rekeyed) (take 1 (innerMaps demo_pair_rekeyed))
    = [[[Some (4, 40); Some (4, 30)]; []; []; []]] /\
  outcome (demo_find 4 demo_pair_rekeyed) = Ok (Some 40) /\
  demo_insert 4 99 demo_pair_rekeyed = Ok (false, demo_pair_refused) /\
  outcome (demo_find 4 demo_pair_refused) = Ok (Some 40) /\
  map fillCapacity (innerMaps demo_pair_refused) = [3; 0; 0; 0] /\
  map count (innerMaps demo_pair_refused) = [3; 0; 0; 0] /\
  demo_insert 4 99 demo_pair_refused = Ok (false, demo_pair_resized) /\
  map (linked_entries demo_pair_resized) (take 1 (innerMaps demo_pair_resized))
    = [[[]; []; []; []; [Some (4, 30); Some (4, 40)]; []; []; []]] /\
  outcome (demo_find 4 demo_pair_resized) = Ok (Some 30).
Proof. vm_compute. repeat split. Qed.

(** An allocator that never provides a page. *)
Definition never (_ : Z) : bool := false.

Abbreviation demo_ok := (@map_ok Z 8 4 Hash64_mix 8 32).
Abbreviation demo_contains := (@contains Z 8 4 Hash64_mix 32).


Lemma demo_empty_ok : demo_ok demo_empty.
Proof.
  apply empty_map_ok. unfold c_powerOfTwoTable. cbn [In]. tauto.
Qed.

Lemma demo_one_ok : demo_ok demo_one.
Proof.
  destruct (insert_absent (Value_T := Z) 8 4 Hash64_mix 8 32 PP.always
              ltac:(lia) eq_refl ltac:(lia) eq_refl 4%nat 1 10 demo_empty
              demo_empty_ok) as (h' & Hins & Hok & _).
  - reflexivity.
  - reflexivity.
  - vm_compute. lia.
  - intros v0 (m & Hm & p & n & (Hp & _) & _).
    vm_compute in Hm. injection Hm as <-. inversion Hp.
  - unfold demo_one. rewrite Hins. exact Hok.
Qed.

(** C3, on the code: on the empty map, with an allocator that provides no
    page, [Reserve] does not return null and [insert(1, 10)] does not
    return false.  [AllocateNewPage] writes [pNewPage->pageIndex] through
    the null page before it tests [pNewPage]: with fuel for four rounds
    both calls stop at that write, and with no amount of fuel does either
    return the value the claim has. *)
Lemma insert_with_failing_allocator :
  PP.Reserve 8 8 32 never 4
    {| key := 1; value := 10; bucket := c_invalidBucket |} PP.empty = Fault /\
  insert 8 4 Hash64_mix 8 32 never 4 1 10 demo_empty = Fault /\
  (forall fuel,
     outcome (PP.Reserve 8 8 32 never fuel
                {| key := 1; value := 10; bucket := c_invalidBucket |}
                PP.empty) <> Ok None) /\
  (forall fuel,
     outcome (insert 8 4 Hash64_mix 8 32 never fuel 1 10 demo_empty)
     <> Ok false).
Proof.
  split; [vm_compute; reflexivity |]. split; [vm_compute; reflexivity |].
  split; intros fuel; destruct fuel; vm_compute; discriminate.
Qed.

Lemma insert_present_keeps_value_witness :
  demo_find 1 demo_one = Ok (Some 10, demo_one) /\
  exists h',
    demo_insert 1 11 demo_one = Ok (false, h') /\
    demo_find 1 h' = Ok (Some 10, h') /\
    demo_ok h' /\
    (forall k0 v0, demo_contains h' k0 v0 <-> demo_contains demo_one k0 v0).
Proof.
  assert (Hf : demo_find 1 demo_one = Ok (Some 10, demo_one))
    by (vm_compute; reflexivity).
  split; [exact Hf |].
  exact (insert_present_keeps_value 8 4 Hash64_mix 8 32 PP.always
           ltac:(lia) ltac:(lia) 4%nat 1 10 11 demo_one demo_one
           demo_one_ok Hf).
Defined.

(** Key 2 is not in [demo_one]: its insertion succeeds. *)
Lemma insert_false_iff_present_witness :
  PP.numPages (sharedPool demo_one) < PP.c_MaxPages /\
  PP.always (PP.numPages (sharedPool demo_one)) = true /\
  (Z.to_nat (PP.numPages (sharedPool demo_one)) + 2 <= 4)%nat /\
  exists b h',
    demo_insert 2 20 demo_one = Ok (b, h') /\ demo_ok h' /\
    (b = false <-> exists v0, demo_contains demo_one 2 v0) /\
    (b = true ->
       demo_find 2 h' = Ok (Some 20, h') /\
       size h' = wrap32 (size demo_one + 1) /\
       PP.Size (sharedPool h') = wrap32 (PP.Size (sharedPool demo_one) + 1)).
Proof.
  assert (H1 : PP.numPages (sharedPool demo_one) < PP.c_MaxPages)
    by (vm_compute; reflexivity).
  assert (H2 : PP.always (PP.numPages (sharedPool demo_one)) = true)
    by reflexivity.
  assert (H3 : (Z.to_nat (PP.numPages (sharedPool demo_one)) + 2 <= 4)%nat)
    by (vm_compute; lia).
  split; [exact H1 |]. split; [exact H2 |]. split; [exact H3 |].
  destruct (insert_false_iff_present 8 4 Hash64_mix 8 32 PP.always
              ltac:(lia) eq_refl ltac:(lia) eq_refl 4%nat 2 20 demo_one
              demo_one_ok H1 H2 H3)
    as (_ & _ & b & h' & Hins & Hok & Hiff & _ & Htrue).
  exists b, h'. split; [exact Hins |]. split; [exact Hok |].
  split; [exact Hiff |]. intros Hb.
  destruct (Htrue Hb) as (Hf & _ & Hs & Hp). auto.
Defined.



Abbreviation demo_linked := (@map_linked Z 8 4 Hash64_mix 8 32).
Abbreviation demo_find_lockless := (@find_lockless Z 8 4 Hash64_mix 32).

Lemma demo_table : In 4 c_powerOfTwoTable.
Proof. unfold c_powerOfTwoTable. cbn [In]. tauto. Qed.

Lemma demo_one_facts :
  PP.numPages (sharedPool demo_one) < PP.c_MaxPages /\
  (Z.to_nat (PP.numPages (sharedPool demo_one)) + 2 <= 4)%nat /\
  0 <= size demo_one < 2 ^ 32 /\
  0 <= PP.Size (sharedPool demo_one) < 2 ^ 32.
Proof.
  assert (E1 : PP.numPages (sharedPool demo_one) = 1) by (vm_compute; reflexivity).
  assert (E2 : size demo_one = 1) by (vm_compute; reflexivity).
  assert (E3 : PP.Size (sharedPool demo_one) = 1) by (vm_compute; reflexivity).
  rewrite E1, E2, E3. unfold PP.c_MaxPages, PP.c_TailPageIndex. lia.
Qed.

Lemma demo_one_linked : demo_linked demo_one.
Proof.
  apply (insert_linked (Value_T := Z) 8 4 Hash64_mix 8 32 PP.always
           ltac:(lia) eq_refl ltac:(lia) eq_refl 4%nat 1 10 demo_empty
           (empty_map_linked 8 4 Hash64_mix 8 32 demo_table))
    with (b := true).
  - vm_compute. reflexivity.
  - reflexivity.
  - vm_compute. lia.
  - vm_compute. reflexivity.
Qed.

Lemma demo_one_contains : demo_contains demo_one 1 10.
Proof.
  assert (Hf : demo_find 1 demo_one = Ok (Some 10, demo_one))
    by (vm_compute; reflexivity).
  exact (proj1 (find_Some_contains 8 4 Hash64_mix 8 32 demo_one demo_one 1 10
                  demo_one_ok Hf)).
Qed.

(** Key 10 routes to shard 1 of [demo_one], which holds key 1 only. *)
Lemma demo_one_lacks_10 :
  demo_find 10 demo_one = Ok (None, demo_one) /\
  forall v0, ~ demo_contains demo_one 10 v0.
Proof.
  assert (Hf : demo_find 10 demo_one = Ok (None, demo_one))
    by (vm_compute; reflexivity).
  split; [exact Hf |].
  exact (proj1 (find_None_absent 8 4 Hash64_mix 8 32 demo_one demo_one 10
                  demo_one_ok Hf)).
Qed.

Lemma find_reports_contents_witness :
  demo_find 1 demo_one = Ok (Some 10, demo_one) /\
  demo_find_lockless 1 demo_one = Ok (Some 10) /\
  demo_contains demo_one 1 10 /\
  (forall w, demo_contains demo_one 1 w -> w = 10).
Proof.
  assert (Hf : demo_find 1 demo_one = Ok (Some 10, demo_one))
    by (vm_compute; reflexivity).
  destruct (find_reports_contents 8 4 Hash64_mix 8 32 demo_one 1 demo_one_ok)
    as (_ & H2 & H3).
  destruct (H3 _ _ Hf) as (_ & Hfl & Hc).
  split; [exact Hf |]. split; [exact Hfl |]. split; [exact Hc |].
  intros w Hw. apply (H2 w 10 Hw Hc).
Defined.

(** Nothing was inserted into [demo_empty]: no shard has a bucket array. *)
Lemma lookup_before_first_insert_witness :
  demo_find 1 demo_empty = Fault /\ demo_erase 1 demo_empty = Fault /\
  demo_rekey 1 17 demo_empty = Fault.
Proof.
  destruct (lookup_before_first_insert (Value_T := Z) 8 4 Hash64_mix 8 32
              PP.always demo_empty 1 InnerMap_empty)
    as (Hf & _ & He & _ & Hr & _).
  - vm_compute. reflexivity.
  - reflexivity.
  - reflexivity.
  - split; [exact Hf |]. split; [exact He |]. apply (Hr 4%nat 17).
Defined.

Lemma erase_removes_entry_witness :
  exists h',
    demo_erase 1 demo_one = Ok (true, h') /\
    demo_find 1 h' = Ok (None, h') /\
    size h' = 0 /\ PP.Size (sharedPool h') = 0.
Proof.
  destruct (erase_removes_entry 8 4 Hash64_mix 8 32 PP.always
              ltac:(lia) eq_refl ltac:(lia) eq_refl demo_one 1 10
              demo_one_linked demo_one_contains)
    as (h' & Hrun & Hf & _ & Hs & Hp & _).
  exists h'. split; [exact Hrun |]. split; [exact Hf |].
  split; [rewrite Hs | rewrite Hp]; vm_compute; reflexivity.
Defined.

Lemma erase_missing_key_witness :
  demo_find 10 demo_one = Ok (None, demo_one) /\
  demo_erase 10 demo_one = Ok (false, demo_one).
Proof.
  destruct demo_one_lacks_10 as [Hf _]. split; [exact Hf |].
  exact (proj1 (erase_missing_key 8 4 Hash64_mix 8 32 demo_one demo_one 10
                  demo_one_ok Hf)).
Defined.

Lemma insert_then_erase_restores_witness :
  exists h1 h2,
    demo_insert 10 100 demo_one = Ok (true, h1) /\
    demo_erase 10 h1 = Ok (true, h2) /\
    (forall k0 v0, demo_contains h2 k0 v0 <-> demo_contains demo_one k0 v0) /\
    size h2 = size demo_one /\
    PP.Size (sharedPool h2) = PP.Size (sharedPool demo_one).
Proof.
  destruct demo_one_facts as (H1 & H2 & H3 & H4).
  destruct demo_one_lacks_10 as [_ Habsent].
  destruct (insert_then_erase_restores 8 4 Hash64_mix 8 32 PP.always
              ltac:(lia) eq_refl ltac:(lia) eq_refl 4%nat 10 100 demo_one
              demo_one_linked H3 H4 H1 eq_refl H2 Habsent)
    as (h1 & h2 & Hins & Hers & Hcont & Hs & Hp & _).
  exists h1, h2. split; [exact Hins |]. split; [exact Hers |].
  split; [exact Hcont |]. split; [exact Hs | exact Hp].
Defined.

Lemma links_are_invariant_witness :
  demo_linked demo_empty /\ demo_linked demo_one.
Proof.
  destruct (links_are_invariant (Value_T := Z) 8 4 Hash64_mix 8 32 PP.always
              ltac:(lia) eq_refl ltac:(lia) eq_refl demo_table)
    as (He & Hi & _).
  split; [exact He |].
  apply (Hi 4%nat 1 10 demo_empty true demo_one He).
  - vm_compute. reflexivity.
  - reflexivity.
  - vm_compute. lia.
  - vm_compute. reflexivity.
Defined.

Lemma Clear_Lockless_empties_witness :
  size (Clear_Lockless demo_one) = 0 /\
  demo_linked (Clear_Lockless demo_one) /\
  demo_find 1 (Clear_Lockless demo_one) = Ok (None, Clear_Lockless demo_one).
Proof.
  destruct (Clear_Lockless_empties 8 4 Hash64_mix 8 32 demo_one demo_one_ok)
    as (Hl & Hs & _ & _ & _ & _ & _ & Hf).
  split; [exact Hs |]. split; [exact Hl |].
  apply (Hf 1 (Some 10) demo_one). vm_compute. reflexivity.
Defined.

(** Key 10 is not in [demo_one]; keys 1 and 2 route to different shards. *)
Lemma rekey_refusals_witness :
  demo_rekey 10 11 demo_one = Ok (false, demo_one) /\
  exists h',
    demo_rekey 1 2 demo_one = Ok (false, h') /\
    demo_rekey_lockless 1 2 demo_one = Ok (false, h') /\
    size h' = size demo_one.
Proof.
  split.
  - destruct (rekey_refusals 8 4 Hash64_mix 8 32 PP.always ltac:(lia)
                ltac:(lia) 4%nat 10 11 demo_one demo_one_ok) as [Hm _].
    exact (proj1 (Hm demo_one (proj1 demo_one_lacks_10))).
  - destruct (rekey_refusals 8 4 Hash64_mix 8 32 PP.always ltac:(lia)
                ltac:(lia) 4%nat 1 2 demo_one demo_one_ok) as [_ Hc].
    destruct (Hc 10 demo_one_contains) as (h' & H1 & H2 & _ & Hs & _).
    + vm_compute. discriminate.
    + exists h'. split; [exact H1 |]. split; [exact H2 | exact Hs].
Defined.

Lemma Reserve_sizes_every_shard_witness :
  exists h',
    Reserve 8 4 Hash64_mix 8 32 PP.always 20 demo_one = Ok h' /\
    demo_linked h' /\
    (forall k v, demo_contains h' k v <-> demo_contains demo_one k v) /\
    PP.GetCapacity 8 (sharedPool demo_one) + 20
    <= PP.GetCapacity 8 (sharedPool h').
Proof.
  destruct (Reserve_sizes_every_shard 8 4 Hash64_mix 8 32 PP.always
              ltac:(lia) ltac:(lia) 20 3 demo_one demo_one_linked)
    as (h' & Hrun & Hl & Hc & _ & _ & Hcap & _).
  - lia.
  - lia.
  - lia.
  - vm_compute. reflexivity.
  - vm_compute. reflexivity.
  - vm_compute. discriminate.
  - intros j _. reflexivity.
  - exists h'. split; [exact Hrun |]. split; [exact Hl |].
    split; [exact Hc | exact Hcap].
Defined.

(** Keys 1 and 10 route to the same shard of [demo_one]. *)
Lemma rekey_lockless_within_shard_witness :
  exists h',
    demo_rekey_lockless 1 10 demo_one = Ok (true, h') /\
    demo_find 1 h' = Ok (None, h') /\
    demo_find 10 h' = Ok (Some 10, h') /\
    size h' = size demo_one.
Proof.
  destruct (rekey_lockless_within_shard 8 4 Hash64_mix 8 32 PP.always
              ltac:(lia) ltac:(lia) 4%nat 1 10 10 demo_one demo_one_linked
              demo_one_contains)
    as (h' & Hrun & Hf & Hf' & _ & Hs & _).
  - vm_compute. reflexivity.
  - exact (proj2 demo_one_lacks_10).
  - exists h'. split; [exact Hrun |]. split; [exact Hf |].
    split; [exact Hf' | exact Hs].
Defined.

Lemma rekey_within_shard_witness :
  exists h',
    demo_rekey 1 10 demo_one = Ok (true, h') /\
    demo_find 1 h' = Ok (None, h') /\
    demo_find 10 h' = Ok (Some 10, h') /\
    size h' = size demo_one.
Proof.
  destruct (rekey_within_shard 8 4 Hash64_mix 8 32 PP.always
              ltac:(lia) ltac:(lia) 4%nat 1 10 10 demo_one demo_one_linked
              demo_one_contains)
    as (h' & Hrun & Hf & Hf' & _ & Hs & _).
  - vm_compute. reflexivity.
  - exact (proj2 demo_one_lacks_10).
  - exists h'. split; [exact Hrun |]. split; [exact Hf |].
    split; [exact Hf' | exact Hs].
Defined.

End HashMap.
